(** * The create dispatcher of fortune (lib/dispatch/create.js)

    A shallow embedding of the promise chain exported by
    [lib/dispatch/create.js] and the properties of it that the
    specification states.

    JavaScript objects used as dictionaries are finite maps ([gmap]) when
    only membership, lookup and deletion are used, and association lists in
    insertion order when the code enumerates them ([for .. in],
    [Object.keys]).  Variables shared by the closures of the promise chain
    are the fields of one record that is passed from handler to handler.
    Every call that leaves the dispatcher (adapter, transaction, transform
    hook, enforcement, link check, event emitter) is answered by an oracle
    and recorded, with its answer, in a trace.  The records of the payload
    are objects that the caller still holds: an input transform and the
    enforcement are handed these very objects and may write into them, so
    their oracles also say how they leave the record they are handed. *)

From stdpp Require Import gmap strings list.
From Stdlib Require Import ZArith.

Local Open Scope string_scope.
Local Open Scope list_scope.

(** ** Values, records and the schema *)

(** Primitive JavaScript values.  Primary keys are primitives; [===] on
    primitives is equality of the values.  [Inherited name] is what an
    object that does not have the property [name] itself reads under a
    name of [Object.prototype]: a function (for [__proto__], the
    prototype), one and the same object per name. *)
Inductive prim :=
| Undefined
| Null
| Bool (b : bool)
| Num (n : Z)
| Str (s : string)
| Inherited (name : string).

#[global] Instance prim_eq_dec : EqDecision prim.
Proof. solve_decision. Defined.

(** A field value: a primitive or an array of primitives (a to-many link
    value is an array of primary keys). *)
Inductive value :=
| Prim (p : prim)
| Arr (l : list prim).

#[global] Instance value_eq_dec : EqDecision value.
Proof. solve_decision. Defined.

(** A record is an object keyed by field name: the map holds the
    properties of its own. *)
Abbreviation record := (gmap string value).

(** A field definition.  [link] and [denormalizedInverse] are tested with
    [in] (key present), [inverse] is tested for truthiness and [isArray] is
    read as a flag ([false] when the key is absent). *)
Record fieldDef := FieldDef {
  link : option string;
  inverse : option string;
  isArray : bool;
  denormalizedInverse : bool
}.

(** The field definitions of one record type, in enumeration order. *)
Definition fieldDefs := list (string * fieldDef).

(** [fields[field]] *)
Fixpoint field_get (fs : fieldDefs) (field : string) : option fieldDef :=
  match fs with
  | [] => None
  | (k, d) :: fs' => if decide (k = field) then Some d else field_get fs' field
  end.

(** Truthiness of [fields[field][inverseKey]]: an absent key and the empty
    string are both falsy. *)
Definition truthy_string (o : option string) : option string :=
  match o with
  | Some s => if decide (s = "") then None else Some s
  | None => None
  end.

(** The names that an object literal inherits from [Object.prototype].
    None of them is enumerated by [for .. in] or [Object.keys], but [in]
    finds them and reading them gives a function (for [__proto__], the
    prototype itself), which is truthy and has no property [0]. *)
Definition Object_prototype : list string :=
  ["constructor"; "__defineGetter__"; "__defineSetter__"; "hasOwnProperty";
   "__lookupGetter__"; "__lookupSetter__"; "isPrototypeOf";
   "propertyIsEnumerable"; "toString"; "valueOf"; "__proto__";
   "toLocaleString"].

Definition inherited (key : string) : bool :=
  bool_decide (key ∈ Object_prototype).

(** [record[key]] when [key in record] holds, for a record that is an
    object literal: a property of its own, or one that it inherits. *)
Definition record_get (r : record) (key : string) : option value :=
  match r !! key with
  | Some v => Some v
  | None => if inherited key then Some (Prim (Inherited key)) else None
  end.

(** ** Errors and results *)

Inductive error :=
| BadRequestError (msg : string)
| Error (msg : string)
| TypeError (msg : string).

#[global] Instance error_eq_dec : EqDecision error.
Proof. solve_decision. Defined.

Inductive result (A : Type) :=
| Ok (a : A)
| Err (e : error).
Arguments Ok {A} a.
Arguments Err {A} e.

(** A loop whose body may throw: the first exception leaves the loop. *)
Fixpoint fold_result {A B : Type} (f : B -> A -> result B) (b : B) (l : list A)
  : result B :=
  match l with
  | [] => Ok b
  | x :: l' =>
      match f b x with
      | Ok b' => fold_result f b' l'
      | Err e => Err e
      end
  end.

(** ** What create.js requires from modules that are not modelled

    [constants.primary], [message] of [common/message], and the two helpers
    of [./update_helpers].  [constants.primary] is the library's name of
    the primary key field, not one of the names that an object inherits:
    [primaryKey in record] is the presence of the record's own field.
    [getUpdate (type, id, updates, cache)] may
    change [updates] and [cache] and returns one of the operations of
    [updates[type]], given here by its position; [addId (id, update, field,
    isArray)] changes that operation in place. *)
Class Required := {
  primaryKey : string;
  message : string -> option string -> string;
  update : Type;
  cache : Type;
  emptyCache : cache;
  getUpdate :
    string -> prim -> list (string * list update) -> gmap string cache ->
    list (string * list update) * gmap string cache * nat;
  addId : value -> update -> string -> bool -> update
}.

(** ** The updates object

    [updates] is an object keyed by record type and valued by arrays of
    update operations; it is enumerated by [Object.keys] and [for .. in],
    so it is kept in insertion order. *)
Section Updates.
Context {U : Type}.

(** [updates[type]] *)
Fixpoint upd_get (us : list (string * list U)) (type : string)
  : option (list U) :=
  match us with
  | [] => None
  | (k, ops) :: us' => if decide (k = type) then Some ops else upd_get us' type
  end.

(** [if (!updates[linkedType]) updates[linkedType] = []]: [updates] is
    an object literal; an array is truthy, and so is what the object
    inherits, so the test fails for a key that the object has or
    inherits. *)
Definition upd_init (us : list (string * list U)) (type : string)
  : list (string * list U) :=
  match upd_get us type with
  | Some _ => us
  | None => if inherited type then us else us ++ [(type, [])]
  end.

(** In-place change of the array stored under [type]. *)
Fixpoint upd_alter (f : list U -> list U) (type : string)
    (us : list (string * list U)) : list (string * list U) :=
  match us with
  | [] => []
  | (k, ops) :: us' =>
      if decide (k = type) then (k, f ops) :: us'
      else (k, ops) :: upd_alter f type us'
  end.

(** [o[key] = v] on an object kept in insertion order. *)
Definition upd_put (us : list (string * list U)) (key : string) (v : list U)
  : list (string * list U) :=
  match upd_get us key with
  | Some _ => upd_alter (fun _ => v) key us
  | None => us ++ [(key, v)]
  end.
End Updates.

(** ** Building the derived updates (create.js, lines 120-152) *)
Section Builder.
Context `{Required}.

Definition updates_t := list (string * list update).

(** The pair [updates], [idCache]. *)
Definition builder := (updates_t * gmap string cache)%type.

(** [if (!idCache[linkedType]) idCache[linkedType] = {}], on an object
    literal as well. *)
Definition cache_init (c : gmap string cache) (type : string)
  : gmap string cache :=
  match c !! type with
  | Some _ => c
  | None => if inherited type then c else <[type := emptyCache]> c
  end.

(** Body of the loop over [linkedIds] (lines 145-149). *)
Definition add_linked_id (pk : value) (linkedType inverseField : string)
    (linkedIsArray : bool) (b : builder) (id : prim) : builder :=
  if decide (id = Null) then b
  else
    let '(us, c, k) := getUpdate linkedType id b.1 b.2 in
    (upd_alter (alter (fun u => addId pk u inverseField linkedIsArray) k)
       linkedType us, c).

(** [Array.isArray(record[field]) ? record[field] : [ record[field] ]] *)
Definition linkedIds_of (v : value) : list prim :=
  match v with
  | Arr l => l
  | Prim p => [p]
  end.

(** [record[primaryKey]] *)
Definition pk_of (r : record) : value :=
  default (Prim Undefined) (r !! primaryKey).

(** Body of the loop over [links] (lines 129-150).  Reading a property
    of [undefined] throws a [TypeError]. *)
Definition link_step (recordTypes : gmap string fieldDefs)
    (fields : option fieldDefs) (r : record) (b : builder) (field : string)
  : result builder :=
  match fields ≫= (fun fs => field_get fs field) with
  | None => Err (TypeError "fields[field] is undefined")
  | Some def =>
      match record_get r field, truthy_string (inverse def) with
      | Some v, Some inverseField =>
          match link def with
          | None => Err (TypeError "recordTypes[linkedType] is undefined")
          | Some linkedType =>
              match (recordTypes : gmap string fieldDefs) !! linkedType with
              | None => Err (TypeError "recordTypes[linkedType] is undefined")
              | Some linkedFields =>
                  match field_get linkedFields inverseField with
                  | None =>
                      Err (TypeError
                             "recordTypes[linkedType][inverseField] is undefined")
                  | Some inverseDef =>
                      let linkedIsArray := isArray inverseDef in
                      let linkedIds := linkedIds_of v in
                      let b1 := (upd_init b.1 linkedType,
                                 cache_init b.2 linkedType) in
                      Ok (foldl (add_linked_id (pk_of r) linkedType
                                   inverseField linkedIsArray)
                            b1 (reverse linkedIds))
                  end
              end
          end
      | _, _ => Ok b
      end
  end.

(** Body of the loop over the created records (lines 122-151). *)
Definition record_step (recordTypes : gmap string fieldDefs)
    (fields : option fieldDefs) (links : list string)
    (language : option string) (b : builder) (r : record) : result builder :=
  match r !! primaryKey with
  | None => Err (Error (message "CreateRecordMissingID" language))
  | Some _ => fold_result (link_step recordTypes fields r) b (reverse links)
  end.

(** The loop [for (i = records.length; i--;)] (lines 121-152). *)
Definition build_updates (recordTypes : gmap string fieldDefs)
    (fields : option fieldDefs) (links : list string)
    (language : option string) (b : builder) (records : list record)
  : result builder :=
  fold_result (record_step recordTypes fields links language) b
    (reverse records).

(** A link value that names no record: the field is absent, or its
    value is [null] or an array that holds nothing but [null]. *)
Definition null_or_absent (r : record) (field : string) : Prop :=
  match record_get r field with
  | None => True
  | Some v => Forall (fun id => id = Null) (linkedIds_of v)
  end.

(** The linked types of the link fields, with an inverse, that a
    record has (lines 129-134). *)
Definition linked_by (fields : option fieldDefs) (links : list string)
    (r : record) (ty : string) : Prop :=
  exists field def,
    field ∈ links /\
    fields ≫= (fun fs => field_get fs field) = Some def /\
    is_Some (record_get r field) /\
    is_Some (truthy_string (inverse def)) /\
    link def = Some ty.

(** [updates] grown by entries without operations, for types among
    [P]. *)
Definition grown_by_empty (P : string -> Prop) (us us' : updates_t) : Prop :=
  exists new, us' = us ++ new /\ Forall (fun e => e.2 = [] /\ P e.1) new.
End Builder.

(** ** Promises, the collaborators and the trace *)

(** How a promise settles. *)
Inductive settled (A : Type) :=
| Fulfilled (a : A)
| Rejected (e : error).
Arguments Fulfilled {A} a.
Arguments Rejected {A} e.

(** What a call made inside [map] does: it returns a value or a promise
    (a plain value counts as a fulfilled promise for [Promise.all]), or it
    throws, which leaves [map] at once. *)
Inductive outcome (A : Type) :=
| Returns (p : settled A)
| Throws (e : error).
Arguments Returns {A} p.
Arguments Throws {A} e.

(** What the promise of an input transform is fulfilled with: the record
    that the transform was handed (the same object, as the transform has
    after it) or another object. *)
Inductive returned :=
| Itself
| Another (r : record).

(** A record on its way through the chain: its content and, when it is
    one of the objects of the caller's payload, the position of that
    object in the payload. *)
Definition obj := (option nat * record)%type.

(** A transaction handle: an object, hence truthy. *)
Inductive txn := Txn (n : nat).

(** [context.request.meta]; only [meta.language] is read by create.js. *)
Record meta_t := Meta { language : option string }.

(** [context.request] *)
Record request := Request {
  payload : option (list record);
  type : string;
  meta : option meta_t
}.

(** [context]: the request, [context.transaction] and
    [context.response.records]. *)
Record context := Context {
  ctx_request : request;
  ctx_transaction : option txn;
  response_records : option (list record)
}.

Section Dispatch.
Context `{Required}.

(** The data of the change event: [eventData[createMethod]] holds the
    single entry [type: records]; [eventData[updateMethod]] exists only
    once an entry has been put in it. *)
Record eventData := EventData {
  ev_create : string * list record;
  ev_update : option updates_t
}.

(** The calls that leave the dispatcher, each with the answer it got.
    A record is entered as it is when the call is made; for the two calls
    that may write into the record they are handed, [after] is the record
    as the call leaves it, and for an input transform [res] holds the
    content of the record that the chain goes on with. *)
Inductive event :=
| BeginTransaction (res : settled txn)
| Transform (r after : record) (res : outcome record)
| Enforce (ty : string) (r after : record) (res : option error)
| CheckLinks (r : record) (res : outcome unit)
| ValidateRecords (rs : list record) (res : option error)
| TxCreate (t : txn) (ty : string) (rs : list record)
    (res : settled (list record))
| TxUpdate (t : txn) (ty : string) (ops : list update) (res : settled unit)
| EndTransaction (t : txn) (err : option error) (res : outcome unit)
| Emit (ev : eventData).

(** An input transform: given the calls made so far and the record, how
    it leaves the record and what it returns. *)
Definition hook : Type := list event -> record -> record * outcome returned.

(** The instance ([self]) and everything it reaches.  Every oracle sees
    the calls made so far, so its answers may depend on them.  A
    transform hook, [enforce], [checkLinks] and [validateRecords] may
    throw; a transform hook and [enforce] may also write into the record
    they are handed (section 3 of the specification: a record is mutated
    by input transforms and enforcement).  The adapter's methods return
    promises (section 6); an exception thrown by a call that ends a
    handler of the chain rejects the promise of that handler just as a
    rejected promise does, so such a call is given by the way its promise
    settles.  [endTransaction] is also called by the catch handler, where
    [throw error] follows it: there an exception of the call is not the
    same as a rejected promise, so [endTransaction] returns a promise or
    throws.  [race] says which of several rejected promises [Promise.all]
    sees first.  [self.emit] belongs to the event emitter the instance
    inherits from; it is recorded in the trace and taken to return. *)
Record world := World {
  recordTypes : gmap string fieldDefs;
  transforms : gmap string (option hook);
  adapter_beginTransaction : list event -> settled txn;
  enforce :
    list event -> string -> record -> option fieldDefs -> option meta_t ->
    record * option error;
  checkLinks :
    list event -> record -> option fieldDefs -> list string ->
    option meta_t -> outcome unit;
  validateRecords :
    list event -> list record -> option fieldDefs -> list string ->
    option meta_t -> option error;
  transaction_create :
    list event -> txn -> string -> list record -> option meta_t ->
    settled (list record);
  transaction_update :
    list event -> txn -> string -> list update -> option meta_t ->
    settled unit;
  transaction_endTransaction :
    list event -> txn -> option error -> outcome unit;
  race : list event -> list error -> nat
}.

(** The variables shared by the handlers of the chain that are assigned
    more than once, the objects of the caller's payload, and the trace.
    ([type], [meta], [language], [transform], [fields] and [links] are
    assigned once, in the first handler, from the request and the
    instance: they are the functions [fields_of], [links_of], ... below.)
    [records] starts as the very array of the payload, so what line 68
    deletes is deleted from the caller's objects, and an input transform
    or [enforce] that is handed one of them and writes into it writes into
    the caller's object: [payload_objects] holds the objects of the payload
    as they are now.  The objects of the payload are taken to be distinct
    objects; [checkLinks], [validateRecords] and the adapter are taken to
    read the records they are handed and not to write into them. *)
Record closure := Closure {
  updates : updates_t;
  transaction : option txn;
  records : option (list obj);
  response : option (list record);
  payload_objects : option (list record);
  trace : list event
}.

Definition set_trace (c : closure) (t : list event) : closure :=
  Closure (updates c) (transaction c) (records c) (response c)
    (payload_objects c) t.
Definition set_records (c : closure) (rs : option (list obj)) : closure :=
  Closure (updates c) (transaction c) rs (response c)
    (payload_objects c) (trace c).
Definition set_transaction (c : closure) (t : option txn) : closure :=
  Closure (updates c) t (records c) (response c)
    (payload_objects c) (trace c).
Definition set_updates (c : closure) (us : updates_t) : closure :=
  Closure us (transaction c) (records c) (response c)
    (payload_objects c) (trace c).
Definition set_response (c : closure) (rs : option (list record)) : closure :=
  Closure (updates c) (transaction c) (records c) rs
    (payload_objects c) (trace c).
Definition set_payload_objects (c : closure) (rs : option (list record))
  : closure :=
  Closure (updates c) (transaction c) (records c) (response c) rs (trace c).

(** A call that is recorded. *)
Definition emit_event (c : closure) (e : event) : closure :=
  set_trace c (trace c ++ [e]).

(** The objects of the payload, in the order of the payload, as records
    of the chain. *)
Definition own (rs : list record) : list obj :=
  imap (fun i r => (Some i, r)) rs.

(** Objects that are not the caller's. *)
Definition foreign (rs : list record) : list obj :=
  (fun r => (None, r)) <$> rs.

(** A record has been written into: when it is an object of the payload,
    that object now holds [r]. *)
Definition write_back (c : closure) (who : option nat) (r : record)
  : closure :=
  match who with
  | Some i => set_payload_objects c (<[i := r]> <$> payload_objects c)
  | None => c
  end.

(** [var updates = {}], every other variable [undefined]. *)
Definition closure0 : closure := Closure [] None None None None [].

(** A handler returns a promise or throws: either way the chain goes on
    with a value or with an error. *)
Definition settle {A} (p : settled A) : result A :=
  match p with
  | Fulfilled a => Ok a
  | Rejected e => Err e
  end.

(** The same for a call that ends a handler and may itself throw. *)
Definition settle_outcome {A} (o : outcome A) : result A :=
  match o with
  | Returns p => settle p
  | Throws e => Err e
  end.

(** [.then (handler)] *)
Definition then_ {A B} (p : closure * result A)
    (handler : closure -> A -> closure * result B) : closure * result B :=
  match p with
  | (c, Ok a) => handler c a
  | (c, Err e) => (c, Err e)
  end.

(** [.catch (handler)] *)
Definition catch_ {A} (p : closure * result A)
    (handler : closure -> error -> closure * result A) : closure * result A :=
  match p with
  | (c, Ok a) => (c, Ok a)
  | (c, Err e) => handler c e
  end.

(** Modelled from the spec: [map] of [common/array/map], a module whose
    source is not available.  Position i of the output corresponds to position i
    of the input (section 4.1, step 3); the elements are visited from the
    first to the last, and an exception thrown by the callback leaves the
    loop. *)
Fixpoint map_ {A B} (f : A -> closure -> closure * outcome B) (l : list A)
    (c : closure) : closure * result (list (settled B)) :=
  match l with
  | [] => (c, Ok [])
  | x :: l' =>
      match f x c with
      | (c1, Throws e) => (c1, Err e)
      | (c1, Returns p) =>
          match map_ f l' c1 with
          | (c2, Ok ps) => (c2, Ok (p :: ps))
          | (c2, Err e) => (c2, Err e)
          end
      end
  end.

Definition rejections {A} (ps : list (settled A)) : list error :=
  omap (fun p => match p with Rejected e => Some e | Fulfilled _ => None end)
    ps.
Definition fulfilments {A} (ps : list (settled A)) : list A :=
  omap (fun p => match p with Fulfilled a => Some a | Rejected _ => None end)
    ps.

(** [Promise.all]: the values in order when every promise is fulfilled,
    otherwise the rejection that comes first in time. *)
Definition promise_all {A} (w : world) (c : closure) (ps : list (settled A))
  : result (list A) :=
  match rejections ps with
  | [] => Ok (fulfilments ps)
  | e :: es => Err (nth (race w (trace c) (e :: es) `mod` length (e :: es))
                      (e :: es) e)
  end.

(** [Promise.all (map (l, f))] inside a handler. *)
Definition all_map {A B} (w : world) (f : A -> closure -> closure * outcome B)
    (l : list A) (c : closure) : closure * result (list B) :=
  match map_ f l c with
  | (c1, Ok ps) => (c1, promise_all w c1 ps)
  | (c1, Err e) => (c1, Err e)
  end.

(** *** The first handler (lines 47-72) *)

(** [fields = recordTypes[type]] *)
Definition fields_of (w : world) (rq : request) : option fieldDefs :=
  recordTypes w !! type rq.

(** The names enumerated by [for (field in fields)]. *)
Definition field_names (fields : option fieldDefs) : list string :=
  match fields with
  | Some fs => fs.*1
  | None => []
  end.

(** [linkKey in fields[field]] *)
Definition has_link (fields : option fieldDefs) (field : string) : bool :=
  match fields ≫= (fun fs => field_get fs field) with
  | Some d => bool_decide (is_Some (link d))
  | None => false
  end.

(** [denormalizedInverseKey in fields[field]] *)
Definition has_denormalizedInverse (fields : option fieldDefs)
    (field : string) : bool :=
  match fields ≫= (fun fs => field_get fs field) with
  | Some d => denormalizedInverse d
  | None => false
  end.

(** [links], after the loop of lines 62-69. *)
Definition links_of (fields : option fieldDefs) : list string :=
  filter (fun field => has_link fields field = true) (field_names fields).

(** [for (i = records.length; i--;) delete records[i][field]] *)
Definition delete_field (field : string) (rs : list record) : list record :=
  (fun r : record => delete field r) <$> rs.

(** The effect of the loop of lines 62-69 on the payload records. *)
Definition strip (fields : option fieldDefs) (rs : list record)
  : list record :=
  foldl (fun rs field =>
           if has_denormalizedInverse fields field then delete_field field rs
           else rs)
    rs (field_names fields).

(** Lines 47-72.  [language] is still [undefined] when the first error
    is made. *)
Definition on_payload (w : world) (rq : request) (c : closure)
    (p : option (list record)) : closure * result txn :=
  let c := set_payload_objects (set_records c (own <$> p)) p in
  match p with
  | None | Some [] =>
      (c, Err (BadRequestError (message "CreateRecordsInvalid" None)))
  | Some rs =>
      match meta rq with
      | None => (c, Err (TypeError "meta is undefined"))
      | Some _ =>
          let rs' := strip (fields_of w rq) rs in
          let c := set_payload_objects (set_records c (Some (own rs')))
                     (Some rs') in
          let res := adapter_beginTransaction w (trace c) in
          (emit_event c (BeginTransaction res), settle res)
      end
  end.

(** *** The second handler (lines 74-81) *)

(** The content of the record that the chain goes on with. *)
Definition content_of (after : record) (res : outcome returned)
  : outcome record :=
  match res with
  | Returns (Fulfilled Itself) => Returns (Fulfilled after)
  | Returns (Fulfilled (Another r)) => Returns (Fulfilled r)
  | Returns (Rejected e) => Returns (Rejected e)
  | Throws e => Throws e
  end.

(** The record that the chain goes on with: the object that was handed
    to the transform, or an object that is not the caller's. *)
Definition object_of (who : option nat) (after : record)
    (res : outcome returned) : outcome obj :=
  match res with
  | Returns (Fulfilled Itself) => Returns (Fulfilled (who, after))
  | Returns (Fulfilled (Another r)) => Returns (Fulfilled (None, r))
  | Returns (Rejected e) => Returns (Rejected e)
  | Throws e => Throws e
  end.

(** [transform[0] (context, record)] *)
Definition call_transform (f : hook) (o : obj) (c : closure)
  : closure * outcome obj :=
  let ans := f (trace c) o.2 in
  let c := write_back c o.1 ans.1 in
  (emit_event c (Transform o.2 ans.1 (content_of ans.1 ans.2)),
   object_of o.1 ans.1 ans.2).

Definition on_transaction (w : world) (rq : request) (c : closure)
    (t : txn) : closure * result (list obj) :=
  let c := set_transaction c (Some t) in
  match transforms w !! type rq with
  | None => (c, Err (TypeError "transform is undefined"))
  | Some None => (c, Ok (default [] (records c)))
  | Some (Some f) => all_map w (call_transform f) (default [] (records c)) c
  end.

(** *** The third handler (lines 83-94) *)

(** [checkLinks.call (...).then (function () { return record })] *)
Definition then_record {A} (r : A) (res : outcome unit) : outcome A :=
  match res with
  | Returns (Fulfilled _) => Returns (Fulfilled r)
  | Returns (Rejected e) => Returns (Rejected e)
  | Throws e => Throws e
  end.

(** The callback of lines 86-93.  [checkLinks] is handed the record as
    [enforce] has left it. *)
Definition enforce_and_check (w : world) (rq : request) (o : obj)
    (c : closure) : closure * outcome obj :=
  let fields := fields_of w rq in
  let ans := enforce w (trace c) (type rq) o.2 fields (meta rq) in
  let c := write_back c o.1 ans.1 in
  let c := emit_event c (Enforce (type rq) o.2 ans.1 ans.2) in
  match ans.2 with
  | Some e => (c, Throws e)
  | None =>
      let res :=
        checkLinks w (trace c) ans.1 fields (links_of fields) (meta rq) in
      (emit_event c (CheckLinks ans.1 res), then_record (o.1, ans.1) res)
  end.

Definition on_transformed (w : world) (rq : request) (c : closure)
    (results : list obj) : closure * result (list obj) :=
  let c := set_records c (Some results) in
  all_map w (enforce_and_check w rq) results c.

(** *** The fourth handler (lines 96-99) *)
Definition on_enforced (w : world) (rq : request) (c : closure)
    (objs : list obj) : closure * result (list record) :=
  let rs := objs.*2 in
  let fields := fields_of w rq in
  let res := validateRecords w (trace c) rs fields (links_of fields) (meta rq) in
  let c := emit_event c (ValidateRecords rs res) in
  match res with
  | Some e => (c, Err e)
  | None =>
      match transaction c with
      | None => (c, Err (TypeError "transaction is undefined"))
      | Some t =>
          let res := transaction_create w (trace c) t (type rq) rs (meta rq) in
          (emit_event c (TxCreate t (type rq) rs res), settle res)
      end
  end.

(** *** The fifth handler (lines 101-159) *)

(** [language = meta.language] *)
Definition language_of (rq : request) : option string :=
  meta rq ≫= language.

(** The callback of line 154-158, for one key of [updates]. *)
Definition update_type (w : world) (rq : request) (ty : string) (c : closure)
  : closure * outcome unit :=
  match upd_get (updates c) ty with
  | None => (c, Throws (TypeError "updates[type] is undefined"))
  | Some [] => (c, Returns (Fulfilled ()))
  | Some ops =>
      match transaction c with
      | None => (c, Throws (TypeError "transaction is undefined"))
      | Some t =>
          let res := transaction_update w (trace c) t ty ops (meta rq) in
          (emit_event c (TxUpdate t ty ops res), Returns res)
      end
  end.

(** When the loop of lines 121-152 throws, [updates] is left as it was
    at that point; nothing reads it afterwards, and it is kept here as it
    was before the loop. *)
Definition on_created (w : world) (rq : request) (c : closure)
    (createdRecords : list record) : closure * result (list unit) :=
  let c := set_response (set_records c (Some (foreign createdRecords)))
             (Some createdRecords) in
  match createdRecords with
  | [] => (c, Err (BadRequestError (message "CreateRecordsFail" (language_of rq))))
  | _ =>
      let fields := fields_of w rq in
      match build_updates (recordTypes w) fields (links_of fields)
              (language_of rq) (updates c, ∅) createdRecords with
      | Err e => (c, Err e)
      | Ok b =>
          let c := set_updates c b.1 in
          all_map w (update_type w rq) (updates c).*1 c
      end
  end.

(** *** The sixth handler (lines 161-163): commit *)
Definition on_updated (w : world) (c : closure) (_ : list unit)
  : closure * result unit :=
  match transaction c with
  | None => (c, Err (TypeError "transaction is undefined"))
  | Some t =>
      let res := transaction_endTransaction w (trace c) t None in
      (emit_event c (EndTransaction t None res), settle_outcome res)
  end.

(** *** The catch handler (lines 166-169)

    When [transaction.endTransaction (error)] returns, what it returns
    is a promise that nothing waits for: however it settles, the handler
    goes on to [throw error].  When the call throws, the handler is left
    at line 167 with the exception of the call. *)
Definition rethrown (e : error) (res : outcome unit) : error :=
  match res with
  | Returns _ => e
  | Throws e' => e'
  end.

Definition on_error (w : world) (c : closure) (error : error)
  : closure * result unit :=
  match transaction c with
  | Some t =>
      let res := transaction_endTransaction w (trace c) t (Some error) in
      (emit_event c (EndTransaction t (Some error) res),
       Err (rethrown error res))
  | None => (c, Err error)
  end.

(** *** The last handler (lines 171-187) *)

(** One turn of the loop of lines 177-181. *)
Definition add_update_entry (us : updates_t) (ev : eventData)
    (currentType : string) : eventData :=
  match upd_get us currentType with
  | None | Some [] => ev
  | Some ops =>
      EventData (ev_create ev)
        (Some (upd_put (default [] (ev_update ev)) currentType ops))
  end.

Definition assemble (ty : string) (rs : list record) (us : updates_t)
  : eventData :=
  foldl (add_update_entry us) (EventData (ty, rs) None) us.*1.

Definition on_committed (rq : request) (c : closure) (_ : unit)
  : closure * result context :=
  let eventData :=
    assemble (type rq) (default [] (records c)).*2 (updates c) in
  (emit_event c (Emit eventData),
   Ok (Context rq (transaction c) (response c))).

(** *** The promise chain *)

(** The chain handler by handler, down to the commit; the catch handler
    is attached after it. *)
Definition upto_begin (w : world) (rq : request) : closure * result txn :=
  on_payload w rq closure0 (payload rq).
Definition upto_transform (w : world) (rq : request)
  : closure * result (list obj) :=
  then_ (upto_begin w rq) (on_transaction w rq).
Definition upto_enforce (w : world) (rq : request)
  : closure * result (list obj) :=
  then_ (upto_transform w rq) (on_transformed w rq).
Definition upto_create (w : world) (rq : request)
  : closure * result (list record) :=
  then_ (upto_enforce w rq) (on_enforced w rq).
Definition upto_updates (w : world) (rq : request)
  : closure * result (list unit) :=
  then_ (upto_create w rq) (on_created w rq).
Definition chain (w : world) (rq : request) : closure * result unit :=
  then_ (upto_updates w rq) (on_updated w).

(** [module.exports] of create.js: the state left behind and what the
    returned promise settles to. *)
Definition create (w : world) (rq : request) : closure * result context :=
  then_ (catch_ (chain w rq) (on_error w)) (on_committed rq).

(** The variables that a callback of [map] leaves alone. *)
Definition same_vars (c c' : closure) : Prop :=
  updates c' = updates c /\ transaction c' = transaction c /\
  records c' = records c /\ response c' = response c.

(** *** What a trace of the chain looks like *)

(** The payload records after the first handler. *)
Definition stripped (w : world) (rq : request) : list record :=
  strip (fields_of w rq) (default [] (payload rq)).

Definition is_err {A} (r : result A) : Prop := exists e, r = Err e.

(** No transaction yet: nothing was called, or [beginTransaction] was
    and its promise was rejected. *)
Definition not_opened (c : closure) : Prop :=
  transaction c = None /\
  (trace c = [] \/ exists e, trace c = [BeginTransaction (Rejected e)]).

(** Where a record that reaches enforcement comes from: it is a payload
    record after the first handler, or what the input transform returned
    for one. *)
Definition origin (w : world) (rq : request) (evs : list event) (a : record)
  : Prop :=
  a ∈ stripped w rq \/
  exists x after,
    x ∈ stripped w rq /\ Transform x after (Returns (Fulfilled a)) ∈ evs.

(** Where a record that reaches the link check, the validation or the
    backend comes from: it is what a successful enforcement has left of a
    record of the above. *)
Definition enforced (w : world) (rq : request) (evs : list event)
    (a : record) : Prop :=
  exists x, origin w rq evs x /\ Enforce (type rq) x a None ∈ evs.

(** The calls between [beginTransaction] and [transaction.create]. *)
Definition check_ev (w : world) (rq : request) (evs : list event)
    (ev : event) : Prop :=
  match ev with
  | Transform x _ _ =>
      x ∈ stripped w rq /\ exists f, transforms w !! type rq = Some (Some f)
  | Enforce ty x _ _ => ty = type rq /\ origin w rq evs x
  | CheckLinks x _ => enforced w rq evs x
  | ValidateRecords rs _ => forall x, x ∈ rs -> enforced w rq evs x
  | _ => False
  end.

(** The calls of [transaction.update]. *)
Definition update_ev (c : closure) (t : txn) (ev : event) : Prop :=
  exists ty ops o,
    ev = TxUpdate t ty ops o /\ ops <> [] /\
    upd_get (updates c) ty = Some ops.

(** A transaction [t] is open; [evs] are the calls made before
    [transaction.create] and [tl] the calls from it on. *)
Definition opened_with (w : world) (rq : request) (c : closure) (t : txn)
    (evs tl : list event) : Prop :=
  transaction c = Some t /\
  trace c = BeginTransaction (Fulfilled t) :: evs ++ tl /\
  Forall (check_ev w rq evs) evs.

(** The records handed to [transaction.create] are what successful
    enforcements have left, and no enforcement has failed. *)
Definition all_enforced (w : world) (rq : request) (evs : list event)
    (rs : list record) : Prop :=
  (forall x, x ∈ rs -> enforced w rq evs x) /\
  (forall ty x after e, Enforce ty x after (Some e) ∉ evs).

(** What the chain has done once [transaction.create] has been called
    and answered by [res]: [upds] are the calls of [transaction.update]
    that follow it and [cm] the call that commits. *)
Definition after_create {A} (rq : request) (c : closure) (t : txn)
    (res : settled (list record)) (upds cm : list event) (r : result A)
  : Prop :=
  Forall (update_ev c t) upds /\
  (forall e, res = Rejected e -> upds = [] /\ cm = [] /\ r = Err e) /\
  (res = Fulfilled [] ->
     upds = [] /\ cm = [] /\
     r = Err (BadRequestError (message "CreateRecordsFail" (language_of rq)))) /\
  (forall created, res = Fulfilled created ->
     response c = Some created /\ records c = Some (foreign created)).

(** A record without any of the denormalized inverse fields. *)
Definition clean (fields : option fieldDefs) (r : record) : Prop :=
  forall field, has_denormalizedInverse fields field = true -> r !! field = None.

(** The update entries of the change event are entries of [updates]
    that hold at least one operation. *)
Definition update_entries_ok (us : updates_t) (ev : eventData) : Prop :=
  ev_update ev <> Some [] /\
  forall us' k ops,
    ev_update ev = Some us' -> (k, ops) ∈ us' ->
    ops <> [] /\ upd_get us k = Some ops.

(** A record that is link-checked, validated or handed to the backend
    in a trace. *)
Definition handled (tr : list event) (x : record) : Prop :=
  (exists o, CheckLinks x o ∈ tr) \/
  (exists rs o, ValidateRecords rs o ∈ tr /\ x ∈ rs) \/
  (exists t ty rs o, TxCreate t ty rs o ∈ tr /\ x ∈ rs).



(** *** Kinds of events *)
Definition is_begin (e : event) : bool :=
  match e with BeginTransaction _ => true | _ => false end.
Definition is_check (e : event) : bool :=
  match e with
  | Transform _ _ _ | Enforce _ _ _ _ | CheckLinks _ _
  | ValidateRecords _ _ => true
  | _ => false
  end.
Definition is_create (e : event) : bool :=
  match e with TxCreate _ _ _ _ => true | _ => false end.
Definition is_update (e : event) : bool :=
  match e with TxUpdate _ _ _ _ => true | _ => false end.
Definition is_end (e : event) : bool :=
  match e with EndTransaction _ _ _ => true | _ => false end.
Definition is_emit (e : event) : bool :=
  match e with Emit _ => true | _ => false end.

End Dispatch.

(** ** The update helpers, from the specification *)

(** Modelled from the spec: the field mutations of an Update Operation
    (section 3), which [./update_helpers] builds and which is not part of
    the sources at hand: per field, either add identifiers to an array
    field or replace a scalar field with an identifier. *)
Inductive mutation :=
| AddToArray (ids : list value)
| ReplaceScalar (id : value).

(** Modelled from the spec: an Update Operation (section 3) of
    [./update_helpers]; the record type is the key under which the
    operation is stored in [updates]. *)
Record UpdateOperation := UpdateOp {
  op_primaryKey : prim;
  fieldMutations : gmap string mutation
}.

(** Modelled from the spec: [getUpdate] of [./update_helpers], the
    lookup-or-create keyed by (linkedType, targetPrimaryKey) of section
    4.3: the operation of that target when [updates[type]] has one,
    otherwise a new operation, without field mutations, added at the end
    and remembered in the cache. *)
Definition spec_getUpdate (ty : string) (id : prim)
    (us : list (string * list UpdateOperation)) (c : gmap string (list prim))
  : list (string * list UpdateOperation) * gmap string (list prim) * nat :=
  let ops := default [] (upd_get us ty) in
  match list_find (fun u => op_primaryKey u = id) ops with
  | Some (k, _) => (us, c, k)
  | None =>
      (upd_put us ty (ops ++ [UpdateOp id ∅]),
       <[ty := id :: default [] (c !! ty)]> c,
       length ops)
  end.

(** Modelled from the spec: [addId] of [./update_helpers] (sections 3 and
    4.3): add the identifier to the array mutation of the field when the
    field is array-valued, replace the scalar otherwise. *)
Definition spec_addId (id : value) (u : UpdateOperation) (field : string)
    (isArr : bool) : UpdateOperation :=
  if isArr then
    let ids := match fieldMutations u !! field with
               | Some (AddToArray l) => l
               | _ => []
               end in
    UpdateOp (op_primaryKey u) (<[field := AddToArray (ids ++ [id])]> (fieldMutations u))
  else
    UpdateOp (op_primaryKey u) (<[field := ReplaceScalar id]> (fieldMutations u)).

(** Modelled from the spec: [constants.primary] and [message] are given;
    the helpers are the two above. *)
Definition SpecRequired (pk : string) (msg : string -> option string -> string)
  : Required :=
  {| primaryKey := pk;
     message := msg;
     update := UpdateOperation;
     cache := list prim;
     emptyCache := [];
     getUpdate := spec_getUpdate;
     addId := spec_addId |}.

(** ** What the merging of Update Operations is to achieve *)

(** The created record [r] refers to the record [id] of type [ty] through
    the link field [field], whose inverse is the field [inv] of [ty];
    [arr] tells whether that inverse field is array-valued (lines
    129-146). *)
Definition refers_by (rts : gmap string fieldDefs) (fields : option fieldDefs)
    (r : record) (field : string) (ty : string) (id : prim) (inv : string)
    (arr : bool) : Prop :=
  exists def v linkedFields inverseDef,
    fields ≫= (fun fs => field_get fs field) = Some def /\
    record_get r field = Some v /\
    truthy_string (inverse def) = Some inv /\
    link def = Some ty /\
    rts !! ty = Some linkedFields /\
    field_get linkedFields inv = Some inverseDef /\
    isArray inverseDef = arr /\
    id ∈ linkedIds_of v /\ id <> Null.

(** The same, through any of the link fields of the type. *)
Definition refers (rts : gmap string fieldDefs) (fields : option fieldDefs)
    (links : list string) (r : record) (ty : string) (id : prim) (inv : string)
    (arr : bool) : Prop :=
  exists field, field ∈ links /\ refers_by rts fields r field ty id inv arr.

(** Exactly one operation per target: within a type, no two operations
    have the same target. *)
Definition one_operation_per_target (us : list (string * list UpdateOperation))
  : Prop :=
  forall ty ops, upd_get us ty = Some ops -> NoDup (op_primaryKey <$> ops).

(** The operation carries the back-reference [pk] for the field [inv]. *)
Definition holds_backref (op : UpdateOperation) (inv : string) (pk : value)
  : Prop :=
  match fieldMutations op !! inv with
  | Some (AddToArray ids) => pk ∈ ids
  | Some (ReplaceScalar id) => id = pk
  | None => False
  end.

(** Every reference of every created record is a back-reference held by
    the operation of its target. *)
Definition all_backrefs_kept (pk0 : string) (rts : gmap string fieldDefs)
    (fields : option fieldDefs) (links : list string) (records : list record)
    (us : list (string * list UpdateOperation)) : Prop :=
  forall r ty id inv arr,
    r ∈ records -> refers rts fields links r ty id inv arr ->
    exists ops op,
      upd_get us ty = Some ops /\ op ∈ ops /\ op_primaryKey op = id /\
      holds_backref op inv (default (Prim Undefined) (r !! pk0)).

(** Among the created records that refer to a target through a singular
    inverse field, the one that the loop of line 121 comes to last: the
    loop runs from the last record to the first, so it is the first of
    them in [records]. *)
Definition processed_last (rts : gmap string fieldDefs)
    (fields : option fieldDefs) (links : list string) (records : list record)
    (ty : string) (id : prim) (inv : string) (r' : record) : Prop :=
  exists earlier later,
    records = earlier ++ r' :: later /\
    refers rts fields links r' ty id inv false /\
    Forall (fun r'' => ~ refers rts fields links r'' ty id inv false) earlier.

(** Every reference of every created record has reached the operation of
    its target: an array-valued inverse field lists the record, a singular
    inverse field holds the record, among those that refer to the target,
    that was processed last. *)
Definition backrefs_merged (pk0 : string) (rts : gmap string fieldDefs)
    (fields : option fieldDefs) (links : list string) (records : list record)
    (us : list (string * list UpdateOperation)) : Prop :=
  forall r ty id inv arr,
    r ∈ records -> refers rts fields links r ty id inv arr ->
    exists ops op,
      upd_get us ty = Some ops /\ op ∈ ops /\ op_primaryKey op = id /\
      if arr then
        exists ids, fieldMutations op !! inv = Some (AddToArray ids) /\
                    default (Prim Undefined) (r !! pk0) ∈ ids
      else
        exists r', processed_last rts fields links records ty id inv r' /\
                   fieldMutations op !! inv
                   = Some (ReplaceScalar (default (Prim Undefined) (r' !! pk0))).

(** A reference while the loops run: linked type, target, inverse field,
    cardinality of the inverse field, primary key of the created record. *)
Definition ref := (string * prim * string * bool * value)%type.

(** The inverse field of a linked type is array-valued or not, whatever
    the record that refers to it. *)
Definition consistent (All : ref -> Prop) : Prop :=
  forall ty inv id1 arr1 pk1 id2 arr2 pk2,
    All (ty, id1, inv, arr1, pk1) -> All (ty, id2, inv, arr2, pk2) -> arr1 = arr2.

Definition backref_ok (All : ref -> Prop) (ty : string) (op : UpdateOperation)
    (inv : string) (arr : bool) (pk : value) : Prop :=
  if arr then
    exists ids, fieldMutations op !! inv = Some (AddToArray ids) /\ pk ∈ ids
  else
    exists pk', All (ty, op_primaryKey op, inv, false, pk') /\
                fieldMutations op !! inv = Some (ReplaceScalar pk').

(** The invariant of the loops: [P] are the references dealt with so far,
    [All] the references there are. *)
Definition merged (All P : ref -> Prop)
    (us : list (string * list UpdateOperation)) : Prop :=
  one_operation_per_target us /\
  forall ty id inv arr pk,
    P (ty, id, inv, arr, pk) ->
    exists ops op,
      upd_get us ty = Some ops /\ op ∈ ops /\ op_primaryKey op = id /\
      backref_ok All ty op inv arr pk.

(** ** A schema and requests to run the dispatcher on

    The schema of section 8: a person has many pets, an animal has one
    owner; and a post with a denormalized field. *)
Definition person_fields : fieldDefs :=
  [("name", FieldDef None None false false);
   ("pets", FieldDef (Some "animal") (Some "owner") true false);
   ("followers", FieldDef (Some "person") (Some "following") true true);
   ("following", FieldDef (Some "person") (Some "followers") true false)].
Definition animal_fields : fieldDefs :=
  [("owner", FieldDef (Some "person") (Some "pets") false false)].
Definition demo_recordTypes : gmap string fieldDefs :=
  {[ "person" := person_fields; "animal" := animal_fields ]}.

Definition demo_message (id : string) (language : option string) : string := id.
Definition demo_required : Required := SpecRequired "id" demo_message.

Definition P1 : record :=
  {[ "id" := Prim (Num 1); "pets" := Arr [Str "A1"] ]}.
Definition P2 : record :=
  {[ "id" := Prim (Num 2); "pets" := Arr [Str "A1"] ]}.
Definition P3 : record :=
  {[ "id" := Prim (Num 3); "pets" := Prim Null ]}.

Definition P4 : record :=
  {[ "id" := Prim (Num 4); "name" := Prim (Str "Dee");
     "followers" := Arr [Num 1; Num 2] ]}.

(** A request to create persons. *)
Definition demo_request (rs : list record) : request :=
  Request (Some rs) "person" (Some (Meta None)).

(** An instance without transforms whose backend opens transaction 0 and
    accepts every update; enforcement leaves the records as they are and
    [endTransaction] returns; what enforcement throws, the result of
    [transaction.create] and the promises of [endTransaction] are given. *)
Definition demo_world
    (enf : record -> option error)
    (created : list record -> settled (list record))
    (ended : option error -> settled ()) : world (H := demo_required) :=
  {| recordTypes := demo_recordTypes;
     transforms := {[ "person" := None ]};
     adapter_beginTransaction := fun _ => Fulfilled (Txn 0);
     enforce := fun _ _ r _ _ => (r, enf r);
     checkLinks := fun _ _ _ _ _ => Returns (Fulfilled ());
     validateRecords := fun _ _ _ _ _ => None;
     transaction_create := fun _ _ _ rs _ => created rs;
     transaction_update := fun _ _ _ _ _ => Fulfilled ();
     transaction_endTransaction := fun _ _ err => Returns (ended err);
     race := fun _ _ => 0 |}.

(** Everything succeeds; the backend returns the records it is given. *)
Definition quiet_world : world (H := demo_required) :=
  demo_world (fun _ => None) Fulfilled (fun _ => Fulfilled ()).

(** The commit is rejected, and so is the abort that follows. *)
Definition failing_commit_world : world (H := demo_required) :=
  demo_world (fun _ => None) Fulfilled
    (fun err => match err with
                | None => Rejected (Error "commit failed")
                | Some _ => Rejected (Error "abort failed")
                end).


(** Enforcement rejects the record with primary key 2. *)
Definition strict_world : world (H := demo_required) :=
  demo_world
    (fun r => if decide (r !! "id" = Some (Prim (Num 2)))
              then Some (BadRequestError "EnforceValue") else None)
    Fulfilled (fun _ => Fulfilled ()).


(** A person with a field that the type does not declare. *)
Definition P5 : record :=
  {[ "id" := Prim (Num 5); "name" := Prim (Str "Eve");
     "nickname" := Prim (Str "E") ]}.

(** Enforcement removes the field [nickname], which the type does not
    declare, from the record it is handed; the backend rejects
    [transaction.create]. *)
Definition pruning_world : world (H := demo_required) :=
  {| recordTypes := demo_recordTypes;
     transforms := {[ "person" := None ]};
     adapter_beginTransaction := fun _ => Fulfilled (Txn 0);
     enforce := fun _ _ r _ _ => (delete "nickname" r, None);
     checkLinks := fun _ _ _ _ _ => Returns (Fulfilled ());
     validateRecords := fun _ _ _ _ _ => None;
     transaction_create := fun _ _ _ _ _ => Rejected (Error "disk full");
     transaction_update := fun _ _ _ _ _ => Fulfilled ();
     transaction_endTransaction := fun _ _ _ => Returns (Fulfilled ());
     race := fun _ _ => 0 |}.

(** Equal traces, up to the nesting of [++]. *)
Ltac solve_trace :=
  simpl; rewrite <- ?app_assoc; simpl; rewrite <- ?app_assoc; reflexivity.

(** ** More about the calls of a request *)
Section Calls.
Context `{Required}.

(** [transaction.endTransaction ()] and [transaction.endTransaction (error)] *)
Definition is_commit (e : event) : bool :=
  match e with EndTransaction _ None _ => true | _ => false end.
Definition is_abort (e : event) : bool :=
  match e with EndTransaction _ (Some _) _ => true | _ => false end.

(** The transaction on which a method is called. *)
Definition txn_of (e : event) : option txn :=
  match e with
  | TxCreate t _ _ _ | TxUpdate t _ _ _ | EndTransaction t _ _ => Some t
  | _ => None
  end.

(** How many calls of one kind a trace holds. *)
Definition calls (kind : event -> bool) (tr : list event) : nat :=
  length (filter (fun ev => kind ev = true) tr).

(** Records in the order of the payload: position by position, what the
    enforcement has left of the payload record as the first handler
    leaves it when the type has no input transform, and otherwise of what
    the transform has returned for that payload record. *)
Definition in_payload_order (w : world) (rq : request) (tr : list event)
    (rs : list record) : Prop :=
  match transforms w !! type rq with
  | Some (Some f) =>
      Forall2 (fun x a' =>
                 exists after a,
                   Transform x after (Returns (Fulfilled a)) ∈ tr /\
                   Enforce (type rq) a a' None ∈ tr)
        (stripped w rq) rs
  | _ =>
      Forall2 (fun x a' => Enforce (type rq) x a' None ∈ tr)
        (stripped w rq) rs
  end.

(** The calls that come after [transaction.create]. *)
Definition is_late (e : event) : bool :=
  is_update e || is_end e || is_emit e.
End Calls.

(** ** More instances to run the dispatcher on *)

(** The backend returns the records without their primary keys. *)
Definition keyless_backend_world : world (H := demo_required) :=
  demo_world (fun _ => None)
    (fun rs => Fulfilled ((fun r : record => delete "id" r) <$> rs))
    (fun _ => Fulfilled ()).

(** The backend refuses to open a transaction. *)
Definition closed_backend_world : world (H := demo_required) :=
  {| recordTypes := demo_recordTypes;
     transforms := {[ "person" := None ]};
     adapter_beginTransaction := fun _ => Rejected (Error "no connection");
     enforce := fun _ _ r _ _ => (r, None);
     checkLinks := fun _ _ _ _ _ => Returns (Fulfilled ());
     validateRecords := fun _ _ _ _ _ => None;
     transaction_create := fun _ _ _ rs _ => Fulfilled rs;
     transaction_update := fun _ _ _ _ _ => Fulfilled ();
     transaction_endTransaction := fun _ _ _ => Returns (Fulfilled ());
     race := fun _ _ => 0 |}.

(** * The instance (lib/index.js)

    The constructor of the instance on which the dispatcher runs, and the
    three methods that manage its connection.  Objects that the code
    enumerates ([recordTypes], [options.transforms]) are association lists
    in enumeration order, with distinct keys.  The modules that index.js
    requires and that are not modelled ([validate], [ensureTypes], the
    adapter singleton, [dispatch]) are oracles; an adapter method returns a
    promise, and [dispatch] returns a promise. *)
Module Index.

(** A double quote, for the messages that quote a type name. *)
Definition dquote : string := String (Ascii.ascii_of_nat 34) EmptyString.

(** [key in object], for an object literal: the key is one of its own
    or one that it inherits. *)
Definition has_key {A} (o : list (string * A)) (key : string) : bool :=
  bool_decide (key ∈ o.*1) || inherited key.

(** [object[key]] for a key of the object's own; [None] when the object
    has no such key of its own. *)
Fixpoint get {A} (o : list (string * A)) (key : string) : option A :=
  match o with
  | [] => None
  | (k, v) :: o' => if decide (k = key) then Some v else get o' key
  end.

(** What the constructor looks at in its first argument: a value whose
    [typeof] is not ['object'] ([undefined], a number, a string, a function,
    ...), [null], or an object, given by its entries. *)
Inductive recordTypes_arg :=
| NotAnObject
| NullValue
| Types (types : list (string * fieldDefs)).

(** [options.settings]; [enforceLinks] is [None] when the key is absent. *)
Record settings_t := Settings { enforceLinks : option bool }.

(** The states of [connectionStatus]. *)
Definition not_started : nat := 0.
Definition started : nat := 1.
Definition done : nat := 2.

Section Constructor.
Context `{Required}.

(** The value of [options.adapter], whose default is [[ memoryAdapter ]];
    the adapter singleton; a middleware function. *)
Context {adapter_option adapter_t middleware : Type}.
Variable memoryAdapter : adapter_option.

(** A value of [options.transforms]: an array, of which the dispatcher
    reads index 0 (a function or not), or something that is not an
    array. *)
Inductive transform_value :=
| NotArray
| TransformArray (input : option hook).

(** The [options] object; a key is [None] when it is absent. *)
Record options_t := Options {
  opt_adapter : option adapter_option;
  opt_settings : option settings_t;
  opt_transforms : option (list (string * transform_value))
}.

(** [validate] of [record_type/validate] throws or returns; [new
    AdapterSingleton (...)] throws or gives the adapter; [methods] and
    [middlewares] are the tables of [common/methods] and of [dispatch]. *)
Variable validate : fieldDefs -> option error.
Variable AdapterSingleton :
  adapter_option -> list (string * fieldDefs) ->
  list (string * transform_value) -> result adapter_t.
Variable methods : list (string * string).
Variable middlewares : string -> option middleware.

(** The properties that the constructor defines on the instance. *)
Record instance := Instance {
  connectionStatus : nat;
  options : options_t;
  transforms : list (string * transform_value);
  recordTypes : list (string * fieldDefs);
  adapter : adapter_t;
  flows : list (string * list (option middleware))
}.

(** Lines 381-385: the defaults are written into the object of the
    caller. *)
Definition with_defaults (o : options_t) : options_t :=
  Options
    (Some (default memoryAdapter (opt_adapter o)))
    (Some (Settings
             (Some (default true
                      (enforceLinks (default (Settings None) (opt_settings o)))))))
    (Some (default [] (opt_transforms o))).

(** [bindMiddleware (scope, method)]: a function that calls [method] on
    [scope]; it is given by the method it calls. *)
Definition bindMiddleware (m : option middleware) : option middleware := m.

(** Lines 388-396 *)
Definition make_flows : list (string * list (option middleware)) :=
  (fun m : string * string =>
     (m.2, bindMiddleware <$>
             [middlewares m.1; middlewares "include"; middlewares "end"]))
  <$> methods.

(** One turn of the loop of lines 401-408. *)
Definition check_transform (types : list (string * fieldDefs))
    (kv : string * transform_value) : result unit :=
  if negb (has_key types kv.1) then
    Err (Error ("Attempted to define transform on " ++ dquote ++ kv.1 ++
                dquote ++ " type which does not exist."))
  else
    match kv.2 with
    | NotArray =>
        Err (TypeError ("Transform value for " ++ dquote ++ kv.1 ++ dquote ++
                        " type must be an array."))
    | TransformArray _ => Ok ()
    end.

(** One turn of the loop of lines 411-414. *)
Definition validate_type (tr : list (string * transform_value))
    (kv : string * fieldDefs) : result (list (string * transform_value)) :=
  match validate kv.2 with
  | Some e => Err e
  | None =>
      Ok (if has_key tr kv.1 then tr else tr ++ [(kv.1, TransformArray None)])
  end.

(** [Fortune.prototype.constructor] (lines 371-443): the instance, or the
    exception.  [options] is [None] when the argument is [undefined]. *)
Definition constructor (recordTypes : recordTypes_arg)
    (options : option options_t) : result instance :=
  match recordTypes with
  | NotAnObject => Err (TypeError "First argument must be an object.")
  | NullValue => Err (TypeError "Cannot convert undefined or null to object")
  | Types [] => Err (Error "At least one type must be specified.")
  | Types types =>
      match options with
      | None =>
          Err (TypeError
                 "Cannot use 'in' operator to search for 'adapter' in undefined")
      | Some options =>
          let options := with_defaults options in
          let flows := make_flows in
          let transforms := default [] (opt_transforms options) in
          match fold_result (fun _ kv => check_transform types kv) ()
                  transforms with
          | Err e => Err e
          | Ok _ =>
              match fold_result validate_type transforms types with
              | Err e => Err e
              | Ok transforms =>
                  match AdapterSingleton
                          (default memoryAdapter (opt_adapter options))
                          types transforms with
                  | Err e => Err e
                  | Ok adapter =>
                      Ok (Instance not_started
                            (Options (opt_adapter options)
                               (opt_settings options) (Some transforms))
                            transforms types adapter flows)
                  end
              end
          end
      end
  end.

(** [function Fortune (options) { this.constructor (options) }] (lines
    232-234): the constructor is called with one argument. *)
Definition Fortune (options : recordTypes_arg) : result instance :=
  constructor options None.

(** What the dispatcher reads of an entry of [self.transforms]:
    [transform[0]]. *)
Definition input_of (v : transform_value) : option hook :=
  match v with
  | NotArray => None
  | TransformArray input => input
  end.

(** [self.transforms[type]] as the dispatcher reads it: the entry of
    the type or, for a name that the object inherits, a function, which
    has no [0]. *)
Definition transforms_of (tr : list (string * transform_value))
  : gmap string (option hook) :=
  list_to_map ((fun kv => (kv.1, input_of kv.2)) <$> tr) ∪
  list_to_map ((fun key => (key, None)) <$> Object_prototype).

(** The instance [i] as the dispatcher sees it, with the collaborators
    of [w]. *)
Definition world_of (i : instance) (w : world) : world :=
  World (list_to_map (recordTypes i))
    (transforms_of (transforms i))
    (adapter_beginTransaction w) (enforce w) (checkLinks w)
    (validateRecords w) (transaction_create w) (transaction_update w)
    (transaction_endTransaction w) (race w).
End Constructor.

(** ** [connect], [disconnect] and [request]

    The instance with the promises it has handed out.  A step is a call
    of one of the three methods, or a job of the promise queue: the
    reaction to a promise of the adapter that has been settled, or the
    reaction that [request] attaches to the promise of [connect]. *)

Inductive adapter_method := AdapterConnect | AdapterDisconnect.

(** [events.connect], [events.failure], [events.disconnect] *)
Inductive event_name := EvConnect | EvFailure | EvDisconnect.

#[global] Instance event_name_eq_dec : EqDecision event_name.
Proof. solve_decision. Defined.

(** What a promise is settled with: [resolve (self)], the promise that a
    call of [dispatch] returned (given by the position of the call), or an
    error. *)
Inductive settlement :=
| Self
| Dispatch (d : nat)
| Failure (e : error).

(** The calls of the adapter, their answers, and the events emitted. *)
Inductive note :=
| Calls (m : adapter_method)
| Settles (m : adapter_method) (res : option error)
| Emits (ev : event_name).

Section Connection.
(** The argument of [request]. *)
Context {request_options : Type}.

(** [ensureTypes (self.recordTypes)] throws or returns; it is given what
    has happened so far. *)
Variable ensureTypes : list note -> option error.

(** The two listeners that [request] registers with [self.once] (lines
    503-508), for the promise [p] that it returns. *)
Inductive listener :=
| RejectFailed (p : nat)
| ResolveDispatch (p : nat) (o : request_options).

(** [promises] holds every promise handed to a caller, [None] while it is
    pending.  [in_flight] are the promises of the adapter that are not
    settled, each with the promise of [connect] or [disconnect] that its
    reaction settles.  [reactions] are the callbacks [function () { return
    dispatch (self, options) }] (line 498), each with the promise it is
    attached to and the promise that [then] returned; [jobs] are those
    whose promise is fulfilled and that have not run yet.  [dispatched] are
    the calls of [dispatch], each with the promise that is resolved with
    what it returned. *)
Record state := State {
  status : nat;
  in_flight : list (adapter_method * nat);
  listeners : list (event_name * listener);
  reactions : list (nat * (nat * request_options));
  jobs : list (nat * request_options);
  promises : list (option settlement);
  dispatched : list (nat * request_options);
  notes : list note
}.

Definition set_status (s : state) (n : nat) : state :=
  State n (in_flight s) (listeners s) (reactions s) (jobs s) (promises s)
    (dispatched s) (notes s).
Definition set_in_flight (s : state) (l : list (adapter_method * nat))
  : state :=
  State (status s) l (listeners s) (reactions s) (jobs s) (promises s)
    (dispatched s) (notes s).
Definition set_listeners (s : state) (l : list (event_name * listener))
  : state :=
  State (status s) (in_flight s) l (reactions s) (jobs s) (promises s)
    (dispatched s) (notes s).
Definition set_reactions (s : state)
    (l : list (nat * (nat * request_options))) : state :=
  State (status s) (in_flight s) (listeners s) l (jobs s) (promises s)
    (dispatched s) (notes s).
Definition set_jobs (s : state) (l : list (nat * request_options)) : state :=
  State (status s) (in_flight s) (listeners s) (reactions s) l (promises s)
    (dispatched s) (notes s).
Definition set_promises (s : state) (l : list (option settlement)) : state :=
  State (status s) (in_flight s) (listeners s) (reactions s) (jobs s) l
    (dispatched s) (notes s).
Definition set_dispatched (s : state) (l : list (nat * request_options))
  : state :=
  State (status s) (in_flight s) (listeners s) (reactions s) (jobs s)
    (promises s) l (notes s).
Definition add_note (s : state) (n : note) : state :=
  State (status s) (in_flight s) (listeners s) (reactions s) (jobs s)
    (promises s) (dispatched s) (notes s ++ [n]).

(** The instance as the constructor leaves it. *)
Definition fresh : state := State not_started [] [] [] [] [] [] [].

(** [new Promise (...)]: the state with one more promise, and the
    promise. *)
Definition new_promise (s : state) : state * nat :=
  (set_promises s (promises s ++ [None]), length (promises s)).

(** [resolve] or [reject] on a promise that has no reaction: nothing
    happens when the promise is settled already. *)
Definition write (p : nat) (v : settlement) (s : state) : state :=
  match promises s !! p with
  | Some None => set_promises s (<[p := Some v]> (promises s))
  | _ => s
  end.

(** [resolve] or [reject]: the reactions attached to the promise become
    jobs when it is fulfilled; when it is rejected, the promises that
    [then] returned are rejected with the same error. *)
Definition settle (p : nat) (v : settlement) (s : state) : state :=
  match promises s !! p with
  | Some None =>
      let s := set_promises s (<[p := Some v]> (promises s)) in
      let mine := filter (fun r => r.1 = p) (reactions s) in
      let s := set_reactions s (filter (fun r => r.1 <> p) (reactions s)) in
      match v with
      | Failure e => foldl (fun s r => write r.2.1 (Failure e) s) s mine
      | _ => set_jobs s (jobs s ++ mine.*2)
      end
  | _ => s
  end.

(** [dispatch (self, options)], whose result settles [p]. *)
Definition dispatch (p : nat) (o : request_options) (s : state) : state :=
  write p (Dispatch (length (dispatched s)))
    (set_dispatched s (dispatched s ++ [(p, o)])).

(** A listener is called. *)
Definition call_listener (s : state) (l : listener) : state :=
  match l with
  | RejectFailed p => write p (Failure (Error "Connection failed.")) s
  | ResolveDispatch p o => dispatch p o s
  end.

(** [self.emit (name)]: the listeners registered with [once] for the
    event are called in the order of their registration, and each is
    removed as it is called. *)
Definition emit (name : event_name) (s : state) : state :=
  let called := filter (fun l => l.1 = name) (listeners s) in
  let s := set_listeners s (filter (fun l => l.1 <> name) (listeners s)) in
  foldl call_listener (add_note s (Emits name)) called.*2.

(** [Fortune.prototype.connect] (lines 523-548): the state and the
    promise returned. *)
Definition connect (s : state) : state * nat :=
  let (s, p) := new_promise s in
  if decide (status s = started) then
    (settle p (Failure (Error "Connection is in progress.")) s, p)
  else if decide (status s = done) then
    (settle p (Failure (Error "Connection is already done.")) s, p)
  else
    let s := set_status s started in
    match ensureTypes (notes s) with
    | Some e => (settle p (Failure e) s, p)
    | None =>
        (add_note (set_in_flight s (in_flight s ++ [(AdapterConnect, p)]))
           (Calls AdapterConnect), p)
    end.

(** [Fortune.prototype.disconnect] (lines 557-577) *)
Definition disconnect (s : state) : state * nat :=
  let (s, p) := new_promise s in
  if decide (status s <> done) then
    (settle p (Failure (Error "Instance has not been connected.")) s, p)
  else
    let s := set_status s started in
    (add_note (set_in_flight s (in_flight s ++ [(AdapterDisconnect, p)]))
       (Calls AdapterDisconnect), p).

(** [.then (function () { return dispatch (self, options) })] on the
    promise [p]. *)
Definition then_dispatch (p : nat) (o : request_options) (s : state)
  : state * nat :=
  let (s, q) := new_promise s in
  match promises s !! p with
  | Some (Some (Failure e)) => (write q (Failure e) s, q)
  | Some (Some _) => (set_jobs s (jobs s ++ [(q, o)]), q)
  | _ => (set_reactions s (reactions s ++ [(p, (q, o))]), q)
  end.

(** [Fortune.prototype.request] (lines 491-512) *)
Definition request (o : request_options) (s : state) : state * nat :=
  if decide (status s = not_started) then
    let (s, p) := connect s in
    then_dispatch p o s
  else if decide (status s = started) then
    let (s, p) := new_promise s in
    (set_listeners s
       (listeners s ++ [(EvFailure, RejectFailed p);
                        (EvConnect, ResolveDispatch p o)]), p)
  else
    let (s, p) := new_promise s in
    (dispatch p o s, p).

(** The reaction to the promise of the adapter at position [i] of
    [in_flight], which has been settled with [res] (lines 538-546 and
    567-575). *)
Definition answer (i : nat) (res : option error) (s : state) : state :=
  match in_flight s !! i with
  | None => s
  | Some (m, p) =>
      let s := add_note (set_in_flight s (delete i (in_flight s)))
                 (Settles m res) in
      match m, res with
      | AdapterConnect, None => settle p Self (emit EvConnect (set_status s done))
      | AdapterConnect, Some e =>
          settle p (Failure e) (emit EvFailure (set_status s not_started))
      | AdapterDisconnect, None =>
          settle p Self (emit EvDisconnect (set_status s not_started))
      | AdapterDisconnect, Some e =>
          settle p (Failure e) (emit EvFailure (set_status s done))
      end
  end.

(** The oldest job runs. *)
Definition run_job (s : state) : state :=
  match jobs s with
  | [] => s
  | (q, o) :: js => dispatch q o (set_jobs s js)
  end.

Inductive action :=
| CallConnect
| CallDisconnect
| CallRequest (o : request_options)
| AdapterSettles (i : nat) (res : option error)
| RunJob.

Definition step (s : state) (a : action) : state :=
  match a with
  | CallConnect => (connect s).1
  | CallDisconnect => (disconnect s).1
  | CallRequest o => (request o s).1
  | AdapterSettles i res => answer i res s
  | RunJob => run_job s
  end.

Definition run (s : state) (acts : list action) : state := foldl step s acts.

(** *** The adapter, as its calls and answers show it *)
Inductive phase := Down | Connecting | Up | Disconnecting.

(** One call or answer: [None] when it does not fit the phase. *)
Definition next_phase (ph : phase) (n : note) : option phase :=
  match n, ph with
  | Calls AdapterConnect, Down => Some Connecting
  | Settles AdapterConnect None, Connecting => Some Up
  | Settles AdapterConnect (Some _), Connecting => Some Down
  | Calls AdapterDisconnect, Up => Some Disconnecting
  | Settles AdapterDisconnect None, Disconnecting => Some Down
  | Settles AdapterDisconnect (Some _), Disconnecting => Some Up
  | Emits _, _ => Some ph
  | _, _ => None
  end.

Definition phase_of (ns : list note) : option phase :=
  foldl (fun ph n => ph ≫= fun ph => next_phase ph n) (Some Down) ns.

(** The status and the promises in flight that go with a phase of the
    adapter.  With the adapter down, the status is [started] when
    [ensureTypes] has thrown. *)
Definition fits (ph : phase) (s : state) : Prop :=
  match ph with
  | Down => (status s = not_started \/ status s = started) /\ in_flight s = []
  | Connecting =>
      status s = started /\ exists p, in_flight s = [(AdapterConnect, p)]
  | Up => status s = done /\ in_flight s = []
  | Disconnecting =>
      status s = started /\ exists p, in_flight s = [(AdapterDisconnect, p)]
  end.

(** The promises that calls of [dispatch] have settled or will settle. *)
Definition listener_promise (l : event_name * listener) : option nat :=
  match l.2 with
  | ResolveDispatch p _ => Some p
  | RejectFailed _ => None
  end.

Definition to_dispatch (s : state) : list nat :=
  (dispatched s).*1 ++ (jobs s).*1 ++ ((reactions s).*2).*1 ++
  omap listener_promise (listeners s).

(** The status and the promises in flight fit the phase that the calls
    and answers of the adapter show. *)
Definition coherent (s : state) : Prop :=
  exists ph, phase_of (notes s) = Some ph /\ fits ph s.

(** The promise that a listener settles. *)
Definition listener_id (l : event_name * listener) : nat :=
  match l.2 with
  | RejectFailed p | ResolveDispatch p _ => p
  end.

(** The promises that the state refers to; all of them have been
    created. *)
Definition mentioned (s : state) : list nat :=
  (in_flight s).*2 ++ (dispatched s).*1 ++ (jobs s).*1 ++
  (reactions s).*1 ++ ((reactions s).*2).*1 ++ (listener_id <$> listeners s).

Definition known (s : state) : Prop :=
  Forall (fun p => p < length (promises s)) (mentioned s).

(** [s'] is [s] with some of the pending promises among [T] settled. *)
Definition writes_only (T : list nat) (s s' : state) : Prop :=
  s' = set_promises s (promises s') /\
  length (promises s') = length (promises s) /\
  (forall q w, promises s !! q = Some (Some w) ->
               promises s' !! q = Some (Some w)) /\
  (forall q, q ∉ T -> promises s' !! q = promises s !! q).

(** The calls of [dispatch] that listeners make. *)
Definition dispatches_of (ls : list listener)
  : list (nat * request_options) :=
  omap (fun l => match l with
                 | ResolveDispatch p o => Some (p, o)
                 | RejectFailed _ => None
                 end) ls.

(** The promises that listeners settle. *)
Definition settled_by (ls : list listener) : list nat :=
  (fun l => match l with RejectFailed p | ResolveDispatch p _ => p end) <$> ls.

(** A change of the state that leaves the promises alone and does not
    look at them. *)
Definition apart (f : state -> state) : Prop :=
  (forall s ps, f (set_promises s ps) = set_promises (f s) ps) /\
  (forall s, promises (f s) = promises s).

(** From [s] to [s']: promises are created and pending ones settled, and
    the state refers to no other promises than before, new ones apart. *)
Definition grows (s s' : state) : Prop :=
  length (promises s) <= length (promises s') /\
  (forall q w, promises s !! q = Some (Some w) ->
               promises s' !! q = Some (Some w)) /\
  (forall x, x ∈ mentioned s' ->
             x ∈ mentioned s \/
             length (promises s) <= x < length (promises s')) /\
  (forall x, x ∈ to_dispatch s' ->
             x ∈ to_dispatch s \/ length (promises s) <= x).

(** The listeners are those that [request] registers. *)
Definition listeners_ok (s : state) : Prop :=
  Forall (fun l => match l with
                   | (EvFailure, RejectFailed _)
                   | (EvConnect, ResolveDispatch _ _) => True
                   | _ => False
                   end) (listeners s).

(** The state in which a throw of [ensureTypes] leaves the instance. *)
Definition stuck (ns : list note) (s : state) : Prop :=
  status s = started /\ in_flight s = [] /\ notes s = ns.

(** A pending promise that nothing but a listener can settle. *)
Definition waits (p : nat) (s : state) : Prop :=
  promises s !! p = Some None /\
  (p ∉ (dispatched s).*1) /\ (p ∉ (jobs s).*1) /\
  (p ∉ ((reactions s).*2).*1).
End Connection.
End Index.

(** The link check refuses the record with primary key 1. *)
Definition dangling_world : world (H := demo_required) :=
  {| recordTypes := demo_recordTypes;
     transforms := {[ "person" := None ]};
     adapter_beginTransaction := fun _ => Fulfilled (Txn 0);
     enforce := fun _ _ r _ _ => (r, None);
     checkLinks := fun _ r _ _ _ =>
       if decide (r !! "id" = Some (Prim (Num 1)))
       then Returns (Rejected (BadRequestError "RelatedRecordNotFound"))
       else Returns (Fulfilled ());
     validateRecords := fun _ _ _ _ _ => None;
     transaction_create := fun _ _ _ rs _ => Fulfilled rs;
     transaction_update := fun _ _ _ _ _ => Fulfilled ();
     transaction_endTransaction := fun _ _ _ => Returns (Fulfilled ());
     race := fun _ _ => 0 |}.

(** ** An instance of the schema of section 8

    The constructor with collaborators that accept everything, called
    with the two record types and a transforms entry for persons. *)
Definition demo_types : list (string * fieldDefs) :=
  [("person", person_fields); ("animal", animal_fields)].

Definition demo_options : @Index.options_t demo_required unit :=
  Index.Options None None (Some [("person", Index.TransformArray None)]).

Definition demo_constructor
  : Index.recordTypes_arg -> option (@Index.options_t demo_required unit) ->
    result (@Index.instance demo_required unit unit unit) :=
  Index.constructor tt (fun _ => None) (fun _ _ _ => Ok tt)
    [("create", "create")] (fun _ => None).

Definition demo_instance : @Index.instance demo_required unit unit unit :=
  Index.Instance 0
    (Index.Options (Some tt) (Some (Index.Settings (Some true)))
       (Some [("person", Index.TransformArray None);
              ("animal", Index.TransformArray None)]))
    [("person", Index.TransformArray None);
     ("animal", Index.TransformArray None)]
    demo_types tt [("create", [None; None; None])].

(** A schema with a record type named [valueOf], and transforms for
    [toString], which is no record type. *)
Definition odd_types : list (string * fieldDefs) :=
  [("person", person_fields); ("valueOf", animal_fields)].

Definition odd_options : @Index.options_t demo_required unit :=
  Index.Options None None (Some [("toString", Index.TransformArray None)]).

Definition odd_instance : @Index.instance demo_required unit unit unit :=
  Index.Instance 0
    (Index.Options (Some tt) (Some (Index.Settings (Some true)))
       (Some [("toString", Index.TransformArray None);
              ("person", Index.TransformArray None)]))
    [("toString", Index.TransformArray None);
     ("person", Index.TransformArray None)]
    odd_types tt [("create", [None; None; None])].

(** [ensureTypes] that returns, and [ensureTypes] that throws. *)
Definition types_fine (_ : list Index.note) : option error := None.
Definition types_broken (_ : list Index.note) : option error :=
  Some (Error "bad link").

(** A request comes in while the instance disconnects. *)
Definition disconnecting : list (@Index.action string) :=
  [Index.CallConnect; Index.AdapterSettles 0 None; Index.CallDisconnect;
   Index.CallRequest "find"].

(** A request has been rejected by a failed connection, and the instance
    connects again. *)
Definition reconnecting : @Index.state string :=
  Index.run types_fine Index.fresh
    [Index.CallConnect; Index.CallRequest "find";
     Index.AdapterSettles 0 (Some (Error "down")); Index.CallConnect].

(** Membership in a trace given by its parts. *)
Ltac split_in H :=
  repeat match type of H with
         | _ ∈ _ :: _ => apply elem_of_cons in H as [H|H]
         | _ ∈ _ ++ _ => apply elem_of_app in H as [H|H]
         | _ ∈ [] => by apply elem_of_nil in H
         end.

(** * Properties *)

(** ** The updates object *)
Section UpdatesFacts.
Context {U : Type}.
Implicit Types (us : list (string * list U)) (ops : list U).

Lemma upd_alter_elem f key us k ops :
  (k, ops) ∈ upd_alter f key us ->
  (k, ops) ∈ us \/ (k = key /\ exists old, upd_get us key = Some old /\ ops = f old).
Proof.
  induction us as [|[k0 v0] us IH]; simpl; [by left|].
  destruct (decide (k0 = key)) as [->|Hne].
  - intros Hin. apply elem_of_cons in Hin as [[= -> ->]|Hin].
    + right. eauto.
    + left. apply elem_of_cons. by right.
  - intros Hin. apply elem_of_cons in Hin as [[= -> ->]|Hin].
    + left. apply elem_of_cons. by left.
    + destruct (IH Hin) as [Hin'|Hin']; [|by right].
      left. apply elem_of_cons. by right.
Qed.

Lemma upd_put_elem us key v k ops :
  (k, ops) ∈ upd_put us key v -> (k, ops) ∈ us \/ (k = key /\ ops = v).
Proof.
  unfold upd_put. destruct (upd_get us key) eqn:Hget.
  - intros Hin. apply upd_alter_elem in Hin as [Hin | (-> & old & _ & ->)];
      [by left | by right].
  - intros Hin. apply elem_of_app in Hin as [Hin|Hin]; [by left|].
    apply list_elem_of_singleton in Hin as [= -> ->]. by right.
Qed.

Lemma upd_alter_length f key us : length (upd_alter f key us) = length us.
Proof.
  induction us as [|[k0 v0] us IH]; simpl; [done|].
  destruct (decide (k0 = key)); simpl; by rewrite ?IH.
Qed.

Lemma upd_put_nonempty us key v : upd_put us key v <> [].
Proof.
  unfold upd_put. destruct (upd_get us key) eqn:Hget.
  - destruct us as [|[k0 v0] us]; [discriminate|].
    intros Heq. apply (f_equal length) in Heq.
    rewrite upd_alter_length in Heq. discriminate.
  - by destruct us.
Qed.

Lemma upd_get_app us us' ty :
  upd_get (us ++ us') ty
  = match upd_get us ty with Some ops => Some ops | None => upd_get us' ty end.
Proof.
  induction us as [|[k0 v0] us IH]; simpl; [done|].
  by destruct (decide (k0 = ty)).
Qed.

Lemma upd_get_alter f key us ty :
  upd_get (upd_alter f key us) ty
  = if decide (ty = key) then f <$> upd_get us key else upd_get us ty.
Proof.
  induction us as [|[k0 v0] us IH]; simpl; [by destruct (decide _)|].
  destruct (decide (k0 = key)) as [->|Hne]; simpl.
  - destruct (decide (key = ty)) as [->|Hne'].
    + by rewrite decide_True.
    + rewrite decide_False; [done | congruence].
  - destruct (decide (k0 = ty)) as [->|Hne'].
    + by rewrite decide_False.
    + exact IH.
Qed.

Lemma upd_get_put us key v ty :
  upd_get (upd_put us key v) ty
  = if decide (ty = key) then Some v else upd_get us ty.
Proof.
  unfold upd_put. destruct (upd_get us key) eqn:Hget.
  - rewrite upd_get_alter, Hget. by destruct (decide _).
  - rewrite upd_get_app. simpl. destruct (decide (ty = key)) as [->|Hne].
    + by rewrite Hget, decide_True.
    + rewrite decide_False by congruence. by destruct (upd_get us ty).
Qed.

Lemma upd_get_init us key ty :
  upd_get (upd_init us key) ty
  = if decide (ty = key)
    then match upd_get us key with
         | Some ops => Some ops
         | None => if inherited key then None else Some []
         end
    else upd_get us ty.
Proof.
  unfold upd_init. destruct (upd_get us key) eqn:Hget.
  - destruct (decide (ty = key)) as [->|Hne]; [by rewrite Hget | done].
  - destruct (inherited key).
    { destruct (decide (ty = key)) as [->|Hne]; [by rewrite Hget | done]. }
    rewrite upd_get_app. simpl. destruct (decide (ty = key)) as [->|Hne].
    + by rewrite Hget, decide_True.
    + rewrite decide_False by congruence. by destruct (upd_get us ty).
Qed.

Lemma upd_get_init_default us key :
  default [] (upd_get (upd_init us key) key) = default [] (upd_get us key).
Proof.
  rewrite upd_get_init, decide_True by done.
  destruct (upd_get us key); [done|]. by destruct (inherited key).
Qed.
End UpdatesFacts.

(** ** Stripping the denormalized inverse fields *)
Section Strip.
Context `{Required}.

Lemma field_get_Some_elem (fs : fieldDefs) field d :
  field_get fs field = Some d -> field ∈ fs.*1.
Proof.
  induction fs as [|[k d0] fs IH]; simpl; [discriminate|].
  destruct (decide (k = field)) as [->|Hne]; intros Hget.
  - apply elem_of_cons. by left.
  - apply elem_of_cons. right. by apply IH.
Qed.

Lemma has_denormalizedInverse_name fields field :
  has_denormalizedInverse fields field = true -> field ∈ field_names fields.
Proof.
  unfold has_denormalizedInverse, field_names.
  destruct fields as [fs|]; simpl; [|discriminate].
  destruct (field_get fs field) eqn:Hget; [|discriminate].
  intros _. by eapply field_get_Some_elem.
Qed.

(** Deleting the marked fields among [names] from one record. *)
Lemma strip_record_lookup fields names (r : record) f :
  foldl (fun (r : record) field =>
           if has_denormalizedInverse fields field then delete field r else r)
    r names !! f
  = if decide (f ∈ names /\ has_denormalizedInverse fields f = true)
    then None else r !! f.
Proof.
  revert r. induction names as [|field names IH]; intros r.
  - cbn [foldl]. case_decide as Hd; [|done]. destruct Hd as [Hin _].
    by apply elem_of_nil in Hin.
  - cbn [foldl]. rewrite IH.
    destruct (decide (f ∈ names /\ _)) as [[Hin Hd]|Hno].
    + rewrite decide_True; [done|]. split; [apply elem_of_cons; by right|done].
    + destruct (decide (f ∈ field :: names /\ _)) as [[Hin Hd]|Hno'].
      * apply elem_of_cons in Hin as [->|Hin]; [|by destruct Hno].
        rewrite Hd. apply lookup_delete_eq.
      * destruct (has_denormalizedInverse fields field) eqn:Hd; [|done].
        rewrite lookup_delete_ne; [done|]. intros ->. apply Hno'.
        split; [apply elem_of_cons; by left | done].
Qed.

(** The loop of lines 62-69 works record by record. *)
Lemma strip_fold_lookup fields names (rs : list record) i :
  foldl (fun rs field =>
           if has_denormalizedInverse fields field then delete_field field rs
           else rs) rs names !! i
  = (fun r : record =>
       foldl (fun (r : record) field =>
                if has_denormalizedInverse fields field
                then delete field r else r) r names) <$> rs !! i.
Proof.
  revert rs. induction names as [|field names IH]; intros rs; simpl.
  - by destruct (rs !! i).
  - rewrite IH. destruct (has_denormalizedInverse fields field); [|done].
    unfold delete_field. rewrite list_lookup_fmap. by destruct (rs !! i).
Qed.

Lemma strip_lookup fields (rs : list record) i x' :
  strip fields rs !! i = Some x' ->
  exists x, rs !! i = Some x /\
    forall f, x' !! f
              = if has_denormalizedInverse fields f then None else x !! f.
Proof.
  unfold strip. rewrite strip_fold_lookup.
  destruct (rs !! i) as [x|]; [|discriminate]. simpl. intros [= <-].
  exists x. split; [done|]. intros f. rewrite strip_record_lookup.
  destruct (has_denormalizedInverse fields f) eqn:Hd.
  - rewrite decide_True; [done|].
    split; [by apply has_denormalizedInverse_name | done].
  - rewrite decide_False; [done|]. by intros [_ ?].
Qed.

Lemma strip_length fields (rs : list record) :
  length (strip fields rs) = length rs.
Proof.
  unfold strip. generalize (field_names fields) as names. intros names.
  revert rs. induction names as [|field names IH]; intros rs; simpl; [done|].
  rewrite IH. destruct (has_denormalizedInverse fields field); [|done].
  unfold delete_field. by rewrite length_fmap.
Qed.

Lemma strip_clean fields (rs : list record) x' :
  x' ∈ strip fields rs -> clean fields x'.
Proof.
  intros Hin. apply list_elem_of_lookup in Hin as [i Hi].
  apply strip_lookup in Hi as (x & _ & Hx).
  intros f Hf. by rewrite Hx, Hf.
Qed.
End Strip.

(** ** Records that name no linked record *)
Section NullLinks.
Context `{Required}.

Lemma fold_result_ind {A B} (P : B -> Prop) (f : B -> A -> result B) l :
  (forall b x b', x ∈ l -> P b -> f b x = Ok b' -> P b') ->
  forall b b', P b -> fold_result f b l = Ok b' -> P b'.
Proof.
  induction l as [|x l IH]; intros Hf b b' Hb; simpl.
  - by intros [= <-].
  - destruct (f b x) as [b1|e] eqn:Hfx; [|discriminate].
    apply IH.
    + intros b2 y b3 Hy. apply Hf, elem_of_cons. by right.
    + eapply Hf; [apply elem_of_cons; by left | done..].
Qed.

Lemma add_linked_id_Null pk linkedType inverseField linkedIsArray b :
  add_linked_id pk linkedType inverseField linkedIsArray b Null = b.
Proof. unfold add_linked_id. by rewrite decide_True. Qed.

Lemma foldl_add_linked_id_Null pk linkedType inverseField linkedIsArray b ids :
  Forall (fun id => id = Null) ids ->
  foldl (add_linked_id pk linkedType inverseField linkedIsArray) b ids = b.
Proof.
  induction 1 as [|id ids -> _ IH]; simpl; [done|].
  by rewrite add_linked_id_Null.
Qed.

Lemma grown_by_empty_refl P us : grown_by_empty P us us.
Proof. exists []. by rewrite app_nil_r. Qed.

Lemma grown_by_empty_trans P us1 us2 us3 :
  grown_by_empty P us1 us2 -> grown_by_empty P us2 us3 ->
  grown_by_empty P us1 us3.
Proof.
  intros (n1 & -> & H1) (n2 & -> & H2). exists (n1 ++ n2).
  split; [by rewrite app_assoc | by apply Forall_app].
Qed.

Lemma upd_init_grown (P : string -> Prop) (us : updates_t) ty :
  P ty -> grown_by_empty P us (upd_init us ty).
Proof.
  intros HP. unfold upd_init. destruct (upd_get us ty).
  - apply grown_by_empty_refl.
  - destruct (inherited ty); [apply grown_by_empty_refl|].
    exists [(ty, [])]. split; [done | by repeat constructor].
Qed.

Lemma link_step_null rts fields links r b field b' :
  field ∈ links ->
  null_or_absent r field ->
  link_step rts fields r b field = Ok b' ->
  grown_by_empty (linked_by fields links r) b.1 b'.1 /\
  (record_get r field = None -> b' = b).
Proof.
  intros Hin. unfold null_or_absent, link_step.
  destruct (fields ≫= _) as [def|] eqn:Hdef; [|discriminate].
  destruct (record_get r field) as [v|] eqn:Hv;
    [|intros _ [= <-]; split; [apply grown_by_empty_refl | done]].
  destruct (truthy_string (inverse def)) as [inv|] eqn:Hinv;
    [|intros _ [= <-]; split; [apply grown_by_empty_refl | done]].
  destruct (link def) as [ty|] eqn:Hty; [|discriminate].
  destruct (rts !! ty) as [lfs|]; [|discriminate].
  destruct (field_get lfs inv) as [idef|]; [|discriminate].
  intros Hnull [= <-]. rewrite foldl_add_linked_id_Null.
  - split; [|discriminate]. apply upd_init_grown.
    exists field, def. rewrite Hv, Hinv. by repeat split; eauto.
  - by apply Forall_reverse.
Qed.
End NullLinks.

(** ** Promise combinators *)
Section Combinators.
Context `{Required}.

Lemma then_inv {A B} (p : closure * result A)
    (h : closure -> A -> closure * result B) c r :
  then_ p h = (c, r) ->
  (exists e, p = (c, Err e) /\ r = Err e) \/
  (exists c0 a, p = (c0, Ok a) /\ h c0 a = (c, r)).
Proof.
  destruct p as [c0 [a|e]]; simpl; intros Heq.
  - right. eauto.
  - left. inversion Heq; subst. eauto.
Qed.

Lemma promise_all_Ok {A} w c (ps : list (settled A)) rs :
  promise_all w c ps = Ok rs -> rejections ps = [] /\ rs = fulfilments ps.
Proof.
  unfold promise_all. destruct (rejections ps); [|discriminate].
  intros [= <-]. done.
Qed.

Lemma all_map_inv {A B} w (f : A -> closure -> closure * outcome B) l c c' r :
  all_map w f l c = (c', r) ->
  (exists e, map_ f l c = (c', Err e) /\ r = Err e) \/
  (exists ps, map_ f l c = (c', Ok ps) /\ r = promise_all w c' ps).
Proof.
  unfold all_map. destruct (map_ f l c) as [c1 [ps|e]]; intros [= <- <-]; eauto.
Qed.

Lemma same_vars_refl c : same_vars c c.
Proof. by repeat split. Qed.

Lemma same_vars_trans c1 c2 c3 :
  same_vars c1 c2 -> same_vars c2 c3 -> same_vars c1 c3.
Proof.
  unfold same_vars. intros (?&?&?&?) (?&?&?&?).
  repeat split; congruence.
Qed.

Lemma same_vars_emit c e : same_vars c (emit_event c e).
Proof. by repeat split. Qed.

(** *** The three callbacks *)

Lemma write_back_same c who r : same_vars c (write_back c who r).
Proof. destruct who; by repeat split. Qed.

Lemma write_back_trace c who r : trace (write_back c who r) = trace c.
Proof. by destruct who. Qed.

(** The content of the object that a transform gives back is the content
    that is entered in the trace. *)
Lemma object_of_content who after o :
  content_of after o
  = match object_of who after o with
    | Returns (Fulfilled a) => Returns (Fulfilled a.2)
    | Returns (Rejected e) => Returns (Rejected e)
    | Throws e => Throws e
    end.
Proof. by destruct o as [[[|r]|e]|e]. Qed.

Lemma map_transform_spec f l c c' res :
  map_ (call_transform f) l c = (c', res) ->
  same_vars c c' /\
  exists evs, trace c' = trace c ++ evs /\
    Forall (fun ev => exists x after o, ev = Transform x after o /\ x ∈ l.*2) evs /\
    forall ps, res = Ok ps ->
      forall a, Fulfilled a ∈ ps ->
        exists x after,
          x ∈ l.*2 /\ Transform x after (Returns (Fulfilled a.2)) ∈ evs.
Proof.
  revert c c' res. induction l as [|x l IH]; intros c c' res; simpl.
  - intros [= <- <-]. split; [apply same_vars_refl|].
    exists []. rewrite app_nil_r. repeat split; [constructor|].
    intros ps [= <-] a Ha. by apply elem_of_nil in Ha.
  - destruct (f (trace c) x.2) as [after o] eqn:Hfx. simpl.
    set (c1 := emit_event (write_back c x.1 after)
                 (Transform x.2 after (content_of after o))).
    assert (Hs1 : same_vars c c1).
    { eapply same_vars_trans; [apply write_back_same | apply same_vars_emit]. }
    assert (Ht1 : trace c1 = trace c ++ [Transform x.2 after (content_of after o)]).
    { unfold c1. simpl. by rewrite write_back_trace. }
    assert (Hhd : forall evs,
      Forall (fun ev => exists x0 after0 o0,
                ev = Transform x0 after0 o0 /\ x0 ∈ l.*2) evs ->
      Forall (fun ev => exists x0 after0 o0,
                ev = Transform x0 after0 o0 /\ x0 ∈ x.2 :: l.*2)
        (Transform x.2 after (content_of after o) :: evs)).
    { intros evs HP. constructor.
      - eexists _, _, _. split; [done | apply elem_of_cons; auto].
      - eapply Forall_impl; [exact HP|].
        intros ev (x0 & after0 & o0 & -> & Hx0). eexists _, _, _.
        split; [done | apply elem_of_cons; auto]. }
    rewrite (object_of_content x.1) in Ht1, Hhd. fold c1.
    destruct (object_of x.1 after o) as [p|e] eqn:Hobj.
    + destruct (map_ (call_transform f) l c1) as [c2 r2] eqn:Hm.
      apply IH in Hm as [Hs (evs & Ht & HP & Hps)].
      destruct r2 as [ps|e]; intros [= <- <-];
        (split; [by eapply same_vars_trans|]);
        eexists (_ :: evs); rewrite Ht, Ht1, <- app_assoc;
        (split; [done|]); (split; [by apply Hhd|]).
      * intros ps' [= <-] a Ha. apply elem_of_cons in Ha as [Ha|Ha].
        -- subst p. exists x.2, after.
           split; apply elem_of_cons; auto.
        -- destruct (Hps ps eq_refl a Ha) as (x0 & after0 & Hx0 & Hev).
           exists x0, after0. split; apply elem_of_cons; auto.
      * intros ps' [=].
    + intros [= <- <-]. split; [done|].
      eexists [_]. rewrite Ht1. split; [done|]. split; [by apply Hhd|].
      intros ps [=].
Qed.

Lemma fulfilments_cons_Fulfilled {A} (a : A) ps :
  fulfilments (Fulfilled a :: ps) = a :: fulfilments ps.
Proof. done. Qed.

Lemma rejections_cons_inv {A} (p : settled A) ps :
  rejections (p :: ps) = [] ->
  (exists a, p = Fulfilled a) /\ rejections ps = [].
Proof. destruct p as [a|e]; [eauto | discriminate]. Qed.

(** One call of the callback of lines 86-93. *)
Lemma enforce_and_check_spec w rq x c :
  exists after err,
    enforce w (trace c) (type rq) x.2 (fields_of w rq) (meta rq) = (after, err) /\
    let c1 := emit_event (write_back c x.1 after)
                (Enforce (type rq) x.2 after err) in
    match err with
    | Some e => enforce_and_check w rq x c = (c1, Throws e)
    | None =>
        exists o,
          enforce_and_check w rq x c
          = (emit_event c1 (CheckLinks after o), then_record (x.1, after) o)
    end.
Proof.
  unfold enforce_and_check.
  destruct (enforce w (trace c) (type rq) x.2 _ _) as [after [e|]] eqn:He;
    exists after; eexists; (split; [done|]); simpl; [done | by eexists].
Qed.

Lemma map_enforce_spec w rq l c c' res :
  map_ (enforce_and_check w rq) l c = (c', res) ->
  same_vars c c' /\
  exists evs, trace c' = trace c ++ evs /\
    Forall (fun ev => exists x after, x ∈ l.*2 /\
              ((exists o, ev = Enforce (type rq) x after o) \/
               (exists o, ev = CheckLinks after o /\
                          Enforce (type rq) x after None ∈ evs))) evs /\
    forall ps, res = Ok ps ->
      (forall ty x after e, Enforce ty x after (Some e) ∉ evs) /\
      (rejections ps = [] ->
       Forall2 (fun o o' => o'.1 = o.1 /\
                            Enforce (type rq) o.2 o'.2 None ∈ evs)
         l (fulfilments ps)).
Proof.
  revert c c' res. induction l as [|x l IH]; intros c c' res; simpl.
  - intros [= <- <-]. split; [apply same_vars_refl|].
    exists []. rewrite app_nil_r. split; [done|]. split; [constructor|].
    intros ps [= <-]. split.
    + intros ty x after e Hx. by apply elem_of_nil in Hx.
    + intros _. constructor.
  - destruct (enforce_and_check_spec w rq x c) as (after & err & He & Hcall).
    simpl in Hcall.
    set (c1 := emit_event (write_back c x.1 after)
                 (Enforce (type rq) x.2 after err)) in *.
    assert (Hs1 : same_vars c c1).
    { eapply same_vars_trans; [apply write_back_same | apply same_vars_emit]. }
    assert (Ht1 : trace c1 = trace c ++ [Enforce (type rq) x.2 after err]).
    { unfold c1. simpl. by rewrite write_back_trace. }
    destruct err as [e|].
    { rewrite Hcall. intros [= <- <-]. split; [done|].
      eexists [_]. rewrite Ht1. split; [done|]. split; [|discriminate].
      constructor; [|constructor]. exists x.2, after.
      split; [apply elem_of_cons; auto | eauto]. }
    destruct Hcall as [o Hcall]. rewrite Hcall.
    set (c2 := emit_event c1 (CheckLinks after o)).
    assert (Hs2 : same_vars c c2).
    { eapply same_vars_trans; [exact Hs1 | apply same_vars_emit]. }
    assert (Ht2 : trace c2 = trace c ++ [Enforce (type rq) x.2 after None;
                                       CheckLinks after o]).
    { change (trace c2) with (trace c1 ++ [CheckLinks after o]).
      by rewrite Ht1, <- app_assoc. }
    assert (Hlift : forall evs,
      Forall (fun ev => exists x0 after0, x0 ∈ l.*2 /\
                ((exists o, ev = Enforce (type rq) x0 after0 o) \/
                 (exists o, ev = CheckLinks after0 o /\
                            Enforce (type rq) x0 after0 None ∈ evs))) evs ->
      Forall (fun ev => exists x0 after0, x0 ∈ x.2 :: l.*2 /\
                ((exists o0, ev = Enforce (type rq) x0 after0 o0) \/
                 (exists o0, ev = CheckLinks after0 o0 /\
                             Enforce (type rq) x0 after0 None
                             ∈ Enforce (type rq) x.2 after None ::
                                 CheckLinks after o :: evs)))
        (Enforce (type rq) x.2 after None :: CheckLinks after o :: evs)).
    { intros evs HP. constructor; [|constructor].
      - exists x.2, after. split; [apply elem_of_cons; auto | eauto].
      - exists x.2, after. split; [apply elem_of_cons; auto|]. right.
        exists o. split; [done | apply elem_of_cons; auto].
      - eapply Forall_impl; [exact HP|].
        intros ev (x0 & after0 & Hx0 & Hev). exists x0, after0.
        split; [apply elem_of_cons; auto|].
        destruct Hev as [Hev | (o0 & -> & Hin)]; [by left | right].
        exists o0. split; [done|]. by do 2 (apply elem_of_cons; right). }
    destruct (then_record (x.1, after) o) as [p|e] eqn:Hthen.
    + destruct (map_ (enforce_and_check w rq) l c2) as [c3 r3] eqn:Hm.
      apply IH in Hm as [Hs (evs & Ht & HP & Hps)].
      destruct r3 as [ps|e]; intros [= <- <-];
        (split; [by eapply same_vars_trans|]);
        exists (Enforce (type rq) x.2 after None :: CheckLinks after o :: evs);
        rewrite Ht, Ht2, <- app_assoc;
        (split; [done|]); (split; [by apply Hlift|]).
      * intros ps' [= <-]. destruct (Hps ps eq_refl) as (Hnone & Hful).
        split.
        -- intros ty y after0 e Hin.
           apply elem_of_cons in Hin as [Hin|Hin]; [discriminate|].
           apply elem_of_cons in Hin as [Hin|Hin]; [discriminate|].
           by eapply Hnone.
        -- intros Hrej. apply rejections_cons_inv in Hrej as [[a ->] Hrej].
           rewrite fulfilments_cons_Fulfilled.
           assert (a = (x.1, after)) as ->
             by (destruct o as [[[]|?]|?]; simpl in Hthen; congruence).
           constructor.
           ++ split; [done | apply elem_of_cons; auto].
           ++ eapply Forall2_impl; [exact (Hful Hrej)|].
              intros y y' [Hy Hin]. split; [done|].
              by do 2 (apply elem_of_cons; right).
      * discriminate.
    + intros [= <- <-]. split; [done|].
      exists [Enforce (type rq) x.2 after None; CheckLinks after o].
      rewrite Ht2. split; [done|].
      split; [apply (Hlift []); constructor | discriminate].
Qed.

Lemma map_update_spec w rq l c c' res :
  map_ (update_type w rq) l c = (c', res) ->
  same_vars c c' /\
  exists evs, trace c' = trace c ++ evs /\
    Forall (fun ev => exists t ty ops o,
              ev = TxUpdate t ty ops o /\ ops <> [] /\ ty ∈ l /\
              upd_get (updates c) ty = Some ops /\
              transaction c = Some t) evs.
Proof.
  revert c c' res. induction l as [|x l IH]; intros c c' res; simpl.
  - intros [= <- <-]. split; [apply same_vars_refl|].
    exists []. rewrite app_nil_r. split; [done | constructor].
  - assert (Hlift : forall c1 evs, same_vars c c1 ->
      Forall (fun ev => exists t ty ops o,
                ev = TxUpdate t ty ops o /\ ops <> [] /\ ty ∈ l /\
                upd_get (updates c1) ty = Some ops /\
                transaction c1 = Some t) evs ->
      Forall (fun ev => exists t ty ops o,
                ev = TxUpdate t ty ops o /\ ops <> [] /\ ty ∈ x :: l /\
                upd_get (updates c) ty = Some ops /\
                transaction c = Some t) evs).
    { intros c1 evs (Hu & Htx & _) HP.
      eapply Forall_impl; [exact HP|].
      intros ev (t & ty & ops & o & -> & Hne & Hty & Hget & Ht).
      exists t, ty, ops, o. rewrite <- Hu, <- Htx.
      repeat split; try done. apply elem_of_cons; auto. }
    unfold update_type at 1.
    destruct (upd_get (updates c) x) as [[|op ops]|] eqn:Hget.
    + destruct (map_ (update_type w rq) l c) as [c2 r2] eqn:Hm.
      apply IH in Hm as [Hs (evs & Ht & HP)].
      destruct r2; intros [= <- <-]; (split; [done|]);
        exists evs; (split; [done|]); by eapply Hlift; [apply same_vars_refl|].
    + destruct (transaction c) as [t|] eqn:Htx.
      * set (o := transaction_update w (trace c) t x (op :: ops) (meta rq)).
        destruct (map_ (update_type w rq) l _) as [c2 r2] eqn:Hm.
        apply IH in Hm as [Hs (evs & Ht & HP)].
        destruct r2; intros [= <- <-];
          (split; [eapply same_vars_trans; [apply same_vars_emit | exact Hs]|]);
          exists (TxUpdate t x (op :: ops) o :: evs);
          simpl in Ht; rewrite Ht, <- app_assoc; (split; [done|]);
          (constructor; [| by eapply Hlift; [apply same_vars_emit|]]);
          exists t, x, (op :: ops), o;
          (repeat split; try done; apply elem_of_cons; auto).
      * intros [= <- <-]. split; [apply same_vars_refl|].
        exists []. rewrite app_nil_r. split; [done | constructor].
    + intros [= <- <-]. split; [apply same_vars_refl|].
      exists []. rewrite app_nil_r. split; [done | constructor].
Qed.
End Combinators.

(** ** The chain, handler by handler *)
Section Stages.
Context `{Required}.

Lemma own_contents (rs : list record) : (own rs).*2 = rs.
Proof.
  apply list_eq. intros i. unfold own.
  rewrite list_lookup_fmap, list_lookup_imap. by destruct (rs !! i).
Qed.

Lemma foreign_contents (rs : list record) : (foreign rs).*2 = rs.
Proof.
  unfold foreign. rewrite <- list_fmap_compose. apply list_fmap_id.
Qed.


Lemma origin_app w rq evs evs' a :
  origin w rq evs a -> origin w rq (evs ++ evs') a.
Proof.
  intros [Ha | (x & after & Hx & Hev)]; [by left | right].
  exists x, after. split; [done|]. apply elem_of_app. by left.
Qed.

Lemma enforced_app w rq evs evs' a :
  enforced w rq evs a -> enforced w rq (evs ++ evs') a.
Proof.
  intros (x & Ho & Hev). exists x.
  split; [by apply origin_app | apply elem_of_app; by left].
Qed.

Lemma check_ev_app w rq evs evs' ev :
  check_ev w rq evs ev -> check_ev w rq (evs ++ evs') ev.
Proof.
  destruct ev; simpl; try done.
  - intros [-> Ho]. split; [done | by apply origin_app].
  - apply enforced_app.
  - intros Hrs x Hx. by apply enforced_app, Hrs.
Qed.

Lemma Forall_check_ev_app w rq evs evs' :
  Forall (check_ev w rq evs) evs ->
  Forall (check_ev w rq (evs ++ evs')) evs' ->
  Forall (check_ev w rq (evs ++ evs')) (evs ++ evs').
Proof.
  intros H1 H2. apply Forall_app. split; [|done].
  eapply Forall_impl; [exact H1|]. intros ev. apply check_ev_app.
Qed.

Lemma upto_begin_spec w rq c r :
  upto_begin w rq = (c, r) ->
  updates c = [] /\ response c = None /\ transaction c = None /\
  ((trace c = [] /\ is_err r /\ payload_objects c = payload rq) \/
   (exists res, trace c = [BeginTransaction res] /\ r = settle res /\
      records c = Some (own (stripped w rq)) /\
      payload_objects c = Some (stripped w rq))).
Proof.
  unfold upto_begin, on_payload, stripped.
  destruct (payload rq) as [[|r0 rs]|]; simpl.
  - intros [= <- <-]. repeat split; left; repeat split. by eexists.
  - destruct (meta rq); intros [= <- <-]; simpl.
    + repeat split. right. eexists. by repeat split.
    + repeat split. left. repeat split. by eexists.
  - intros [= <- <-]. repeat split; left; repeat split. by eexists.
Qed.

Lemma upto_transform_spec w rq c r :
  upto_transform w rq = (c, r) ->
  updates c = [] /\ response c = None /\
  ((not_opened c /\ is_err r) \/
   (exists t evs,
      opened_with w rq c t evs [] /\
      Forall (fun ev => exists x after o, ev = Transform x after o) evs /\
      forall objs, r = Ok objs -> forall a, a ∈ objs -> origin w rq evs a.2)).
Proof.
  unfold upto_transform. intros Hthen.
  apply then_inv in Hthen as [(e & Hb & ->) | (c0 & t & Hb & Hh)];
    apply upto_begin_spec in Hb
      as (Hu & Hr & Htx & [(Ht & Herr & Hp) | (res & Ht & Hres & Hrec & Hp)]).
  - repeat split; try done. left. split; [split; auto | by eexists].
  - repeat split; try done. left.
    destruct res; [discriminate|]. injection Hres as <-.
    split; [split; eauto | by eexists].
  - destruct Herr; discriminate.
  - destruct res as [t'|]; [|discriminate]. injection Hres as ->.
    unfold on_transaction in Hh. simpl in Hh. rewrite Hrec in Hh. simpl in Hh.
    destruct (transforms w !! type rq) as [[f|]|] eqn:Htf.
    + apply all_map_inv in Hh as [(e & Hm & ->) | (ps & Hm & ->)];
        apply map_transform_spec in Hm
          as ((Hu' & Htx' & Hrec' & Hr') & evs & Ht' & HP & Hps);
        rewrite own_contents in HP, Hps;
        simpl in *; (split; [congruence|]); (split; [congruence|]); right;
        exists t', evs;
        (assert (Hopen : opened_with w rq c t' evs []);
         [ unfold opened_with; rewrite app_nil_r, Ht', Ht;
           repeat split; [congruence.. |];
           eapply Forall_impl; [exact HP|];
           intros ev (x & after & o & -> & Hx); split; [done | by exists f] |]);
        (split; [done|]); (split; [eapply Forall_impl; [exact HP|];
                                    intros ev (x & after & o & -> & _); eauto|]).
      * discriminate.
      * intros rs Hrs a Ha.
        apply promise_all_Ok in Hrs as [_ ->].
        unfold fulfilments in Ha. apply list_elem_of_omap in Ha
          as ([a'|] & Hin & Heq); [|discriminate]. injection Heq as ->.
        right. destruct (Hps ps eq_refl a Hin) as (x & after & Hx & Hev). eauto.
    + injection Hh as <- <-. simpl. repeat split; try done. right.
      exists t', []. repeat split; simpl; try done.
      intros rs [= <-] a Ha. left.
      rewrite <- (own_contents (stripped w rq)).
      apply list_elem_of_fmap. eauto.
    + injection Hh as <- <-. simpl. repeat split; try done. right.
      exists t', []. repeat split; simpl; try done.
Qed.

Lemma all_enforced_app w rq evs evs' rs :
  all_enforced w rq evs rs ->
  (forall ty x after e, Enforce ty x after (Some e) ∉ evs') ->
  all_enforced w rq (evs ++ evs') rs.
Proof.
  intros [Hall Hnone] Hnone'. split.
  - intros x Hx. by apply enforced_app, Hall.
  - intros ty x after e Hin. apply elem_of_app in Hin as [Hin|Hin].
    + by eapply Hnone.
    + by eapply Hnone'.
Qed.

Lemma upto_enforce_spec w rq c r :
  upto_enforce w rq = (c, r) ->
  updates c = [] /\ response c = None /\
  ((not_opened c /\ is_err r) \/
   (exists t evs,
      opened_with w rq c t evs [] /\
      forall objs, r = Ok objs -> all_enforced w rq evs objs.*2)).
Proof.
  unfold upto_enforce. intros Hthen.
  apply then_inv in Hthen as [(e & Hb & ->) | (c0 & results & Hb & Hh)];
    apply upto_transform_spec in Hb
      as (Hu & Hr & [[Hno Herr] | (t & evs & Hopen & Htr & Hres)]).
  - repeat split; try done. left. split; [done | by eexists].
  - repeat split; try done. right. exists t, evs. split; [done|]. discriminate.
  - destruct Herr; discriminate.
  - specialize (Hres results eq_refl).
    assert (Hres' : forall x, x ∈ results.*2 -> origin w rq evs x).
    { intros x Hx. apply list_elem_of_fmap in Hx as (a & -> & Ha). auto. }
    destruct Hopen as (Htx & Ht & Hch). rewrite app_nil_r in Ht.
    unfold on_transformed in Hh.
    assert (Hnew : forall evs',
      Forall (fun ev => exists x after, x ∈ results.*2 /\
                ((exists o, ev = Enforce (type rq) x after o) \/
                 (exists o, ev = CheckLinks after o /\
                            Enforce (type rq) x after None ∈ evs'))) evs' ->
      Forall (check_ev w rq (evs ++ evs')) (evs ++ evs')).
    { intros evs' HP. apply Forall_check_ev_app; [done|].
      eapply Forall_impl; [exact HP|].
      intros ev (x & after & Hx & [[o ->] | (o & -> & Hin)]); simpl.
      - split; [done|]. by apply origin_app, Hres'.
      - exists x. split; [by apply origin_app, Hres'|].
        apply elem_of_app. by right. }
    apply all_map_inv in Hh as [(e & Hm & ->) | (ps & Hm & ->)];
      apply map_enforce_spec in Hm
        as ((Hu' & Htx' & Hrec' & Hr') & evs' & Ht' & HP & Hps);
      simpl in *; (split; [congruence|]); (split; [congruence|]); right;
      exists t, (evs ++ evs');
      (split; [unfold opened_with; rewrite app_nil_r, Ht', Ht;
               repeat split; [congruence.. | by apply Hnew] |]).
    + discriminate.
    + intros rs Hrs. apply promise_all_Ok in Hrs as [Hrej ->].
      destruct (Hps ps eq_refl) as (Hnone & Hful).
      specialize (Hful Hrej). split.
      * intros x' Hx'. apply list_elem_of_fmap in Hx' as (a' & -> & Ha').
        apply list_elem_of_lookup in Ha' as [i Hi].
        destruct (Forall2_lookup_r _ _ _ _ _ Hful Hi) as (a & Ha & _ & Hin).
        exists a.2. split.
        -- apply origin_app, Hres', list_elem_of_fmap.
           exists a. split; [done|]. by eapply list_elem_of_lookup_2.
        -- apply elem_of_app. by right.
      * intros ty x after e Hin. apply elem_of_app in Hin as [Hin|Hin].
        -- eapply Forall_forall in Hin; [|exact Htr].
           destruct Hin as (? & ? & ? & ?); discriminate.
        -- by eapply Hnone.
Qed.

Lemma opened_with_check w rq c t evs ev :
  opened_with w rq c t evs [] ->
  check_ev w rq (evs ++ [ev]) ev ->
  opened_with w rq (emit_event c ev) t (evs ++ [ev]) [].
Proof.
  intros (Htx & Ht & Hch) Hev. unfold opened_with. simpl.
  rewrite Ht, !app_nil_r. repeat split; try done.
  apply Forall_check_ev_app; [done | by constructor].
Qed.

Lemma opened_with_tail w rq c t evs tl ev :
  opened_with w rq c t evs tl ->
  opened_with w rq (emit_event c ev) t evs (tl ++ [ev]).
Proof.
  intros (Htx & Ht & Hch). unfold opened_with. simpl.
  rewrite Ht. repeat split; try done. simpl. by rewrite app_assoc.
Qed.

Lemma opened_with_same w rq c c' t evs tl tl' :
  opened_with w rq c t evs tl ->
  transaction c' = transaction c ->
  trace c' = trace c ++ tl' ->
  opened_with w rq c' t evs (tl ++ tl').
Proof.
  intros (Htx & Ht & Hch) Htx' Ht'.
  unfold opened_with. rewrite Ht', Ht.
  repeat split; try congruence. simpl. by rewrite app_assoc.
Qed.

Lemma upto_create_spec w rq c r :
  upto_create w rq = (c, r) ->
  updates c = [] /\ response c = None /\
  ((not_opened c /\ is_err r) \/
   (exists t evs,
      (opened_with w rq c t evs [] /\ is_err r) \/
      (exists rs res,
         opened_with w rq c t evs [TxCreate t (type rq) rs res] /\
         r = settle res /\ all_enforced w rq evs rs))).
Proof.
  unfold upto_create. intros Hthen.
  apply then_inv in Hthen as [(e & Hb & ->) | (c0 & objs & Hb & Hh)];
    apply upto_enforce_spec in Hb
      as (Hu & Hr & [[Hno Herr] | (t & evs & Hopen & Hres)]).
  - repeat split; try done. left. split; [done | by eexists].
  - repeat split; try done. right. exists t, evs. left.
    split; [done | by eexists].
  - destruct Herr; discriminate.
  - specialize (Hres objs eq_refl). unfold on_enforced in Hh.
    set (rs := objs.*2) in *.
    set (v := validateRecords w (trace c0) rs _ _ _) in Hh.
    assert (Hopen' : opened_with w rq (emit_event c0 (ValidateRecords rs v)) t
                       (evs ++ [ValidateRecords rs v]) []).
    { apply opened_with_check; [done|]. simpl. intros x Hx.
      apply enforced_app. by apply Hres. }
    assert (Henf : all_enforced w rq (evs ++ [ValidateRecords rs v]) rs).
    { apply all_enforced_app; [done|]. intros ty x after e Hin.
      apply list_elem_of_singleton in Hin. discriminate. }
    destruct v as [e|].
    + injection Hh as <- <-. simpl. repeat split; try done. right.
      exists t, (evs ++ [ValidateRecords rs (Some e)]). left.
      split; [done | by eexists].
    + destruct Hopen as (Htx & _). simpl in Hh. rewrite Htx in Hh.
      injection Hh as <- <-. simpl. repeat split; try done. right.
      exists t, (evs ++ [ValidateRecords rs None]). right.
      eexists rs, _. split; [|split; [reflexivity | done]].
      by apply (opened_with_tail _ _ _ _ _ []).
Qed.

Lemma after_create_rejected {A} rq c t e :
  @after_create _ A rq c t (Rejected e) [] [] (Err e).
Proof.
  split; [constructor|]. split; [|split].
  - by intros e' [= ->].
  - discriminate.
  - discriminate.
Qed.

Lemma after_create_fulfilled {A} rq c t r0 created upds cm (r : result A) :
  Forall (update_ev c t) upds ->
  response c = Some (r0 :: created) ->
  records c = Some (foreign (r0 :: created)) ->
  after_create rq c t (Fulfilled (r0 :: created)) upds cm r.
Proof.
  intros Hup Hresp Hrec. split; [done|]. split; [|split].
  - discriminate.
  - discriminate.
  - by intros created' [= <-].
Qed.

Lemma after_create_empty {A} rq c t :
  response c = Some [] -> records c = Some (foreign []) ->
  @after_create _ A rq c t (Fulfilled []) [] []
    (Err (BadRequestError (message "CreateRecordsFail" (language_of rq)))).
Proof.
  intros Hresp Hrec. split; [constructor|]. split; [|split].
  - discriminate.
  - done.
  - by intros created' [= <-].
Qed.

Lemma upto_updates_spec w rq c r :
  upto_updates w rq = (c, r) ->
  (not_opened c /\ is_err r) \/
  (exists t evs,
     (opened_with w rq c t evs [] /\ is_err r) \/
     (exists rs res upds,
        opened_with w rq c t evs (TxCreate t (type rq) rs res :: upds) /\
        all_enforced w rq evs rs /\
        after_create rq c t res upds [] r)).
Proof.
  unfold upto_updates. intros Hthen.
  apply then_inv in Hthen as [(e & Hb & ->) | (c0 & created & Hb & Hh)];
    apply upto_create_spec in Hb
      as (Hu & Hr & [[Hno Herr] |
            (t & evs & [[Hopen Herr] | (rs & res & Hopen & Hres & Henf)])]).
  - left. split; [done | by eexists].
  - right. exists t, evs. left. split; [done | by eexists].
  - right. exists t, evs. right. exists rs, res, [].
    split; [done|]. split; [done|].
    destruct res as [a|e']; [discriminate|]. injection Hres as ->.
    apply after_create_rejected.
  - destruct Herr; discriminate.
  - destruct Herr; discriminate.
  - destruct res as [a|e']; [|discriminate]. injection Hres as ->.
    right. exists t, evs. right. exists rs, (Fulfilled a).
    unfold on_created in Hh.
    set (c1 := set_response (set_records c0 (Some (foreign a))) (Some a))
      in Hh.
    assert (Hopen1 : forall c' tl',
              transaction c' = transaction c1 ->
              trace c' = trace c1 ++ tl' ->
              opened_with w rq c' t evs
                (TxCreate t (type rq) rs (Fulfilled a) :: tl')).
    { intros c' tl' Htx' Ht'.
      by apply (opened_with_same _ _ c0 c' _ _ [_] tl'). }
    destruct a as [|r0 a].
    { injection Hh as <- <-. exists [].
      split; [apply Hopen1; by rewrite ?app_nil_r|]. split; [done|].
      by apply after_create_empty. }
    destruct (build_updates _ _ _ _ _ _) as [b|e].
    + set (c2 := set_updates c1 b.1) in Hh.
      assert (Hc2 : transaction c2 = Some t) by (by destruct Hopen as [? _]).
      assert (Hcase : forall resm, map_ (update_type w rq) (updates c2).*1 c2
                 = (c, resm) ->
               exists upds,
                 opened_with w rq c t evs
                   (TxCreate t (type rq) rs (Fulfilled (r0 :: a)) :: upds) /\
                 Forall (update_ev c t) upds /\
                 response c = Some (r0 :: a) /\
                 records c = Some (foreign (r0 :: a))).
      { intros resm Hm.
        apply map_update_spec in Hm
          as ((Hu' & Htx' & Hrec' & Hr') & upds & Ht' & HP).
        exists upds. split; [by apply Hopen1|]. split; [|by rewrite Hr', Hrec'].
        eapply Forall_impl; [exact HP|].
        intros ev (t' & ty & ops & o & -> & Hne & _ & Hget & Ht2).
        exists ty, ops, o. rewrite Hu'.
        assert (t' = t) as -> by congruence. done. }
      apply all_map_inv in Hh as [(e & Hm & ->) | (ps & Hm & ->)];
        destruct (Hcase _ Hm) as (upds & Ho & Hup & Hresp & Hrec);
        exists upds; (split; [done|]); (split; [done|]);
        by apply after_create_fulfilled.
    + injection Hh as <- <-. exists [].
      split; [apply Hopen1; by rewrite ?app_nil_r|]. split; [done|].
      by apply after_create_fulfilled.
Qed.

Lemma update_ev_ext c c' t ev :
  updates c' = updates c -> update_ev c t ev -> update_ev c' t ev.
Proof.
  intros Hu (ty & ops & o & -> & Hne & Hget).
  exists ty, ops, o. by rewrite Hu.
Qed.

Lemma after_create_Err {A B} rq c t res upds cm e :
  @after_create _ A rq c t res upds cm (Err e) ->
  @after_create _ B rq c t res upds cm (Err e).
Proof.
  intros (Hup & Hrej & Hemp & Hful). split; [done|]. split; [|split].
  - intros e' He. destruct (Hrej e' He) as (? & ? & [= ->]). done.
  - intros He. destruct (Hemp He) as (? & ? & [= ->]). done.
  - done.
Qed.

Lemma chain_spec w rq c r :
  chain w rq = (c, r) ->
  (not_opened c /\ is_err r) \/
  (exists t evs,
     (opened_with w rq c t evs [] /\ is_err r) \/
     (exists rs res upds cm,
        opened_with w rq c t evs
          (TxCreate t (type rq) rs res :: upds ++ cm) /\
        all_enforced w rq evs rs /\
        after_create rq c t res upds cm r /\
        ((cm = [] /\ is_err r) \/
         (exists res', cm = [EndTransaction t None res'] /\
                       r = settle_outcome res')))).
Proof.
  unfold chain. intros Hthen.
  apply then_inv in Hthen as [(e & Hb & ->) | (c0 & a & Hb & Hh)];
    apply upto_updates_spec in Hb
      as [[Hno Herr] |
          (t & evs & [[Hopen Herr] | (rs & res & upds & Hopen & Henf & Haft)])].
  - left. split; [done | by eexists].
  - right. exists t, evs. left. split; [done | by eexists].
  - right. exists t, evs. right. exists rs, res, upds, [].
    rewrite app_nil_r. split; [done|]. split; [done|].
    split; [by eapply after_create_Err|].
    left. split; [done | by eexists].
  - destruct Herr; discriminate.
  - destruct Herr; discriminate.
  - right. exists t, evs. right. unfold on_updated in Hh.
    destruct Hopen as (Htx & Ht & Hch). rewrite Htx in Hh.
    set (res' := transaction_endTransaction w (trace c0) t None) in Hh.
    injection Hh as <- <-.
    exists rs, res, upds, [EndTransaction t None res'].
    destruct Haft as (Hup & Hrej & Hemp & Hful).
    split; [|split; [done|split]].
    + unfold opened_with. simpl. rewrite Ht. repeat split; try done.
      simpl. by rewrite <- !app_assoc.
    + split; [|split; [|split]].
      * eapply Forall_impl; [exact Hup|]. intros ev. by apply update_ev_ext.
      * intros e He. by destruct (Hrej e He) as (_ & _ & ?).
      * intros He. by destruct (Hemp He) as (_ & _ & ?).
      * intros created He. by apply Hful.
    + right. by exists res'.
Qed.

Lemma create_unfold w rq :
  create w rq =
  match chain w rq with
  | (c0, Ok _) =>
      (emit_event c0
         (Emit (assemble (type rq) (default [] (records c0)).*2 (updates c0))),
       Ok (Context rq (transaction c0) (response c0)))
  | (c0, Err e) =>
      match transaction c0 with
      | Some t =>
          let res := transaction_endTransaction w (trace c0) t (Some e) in
          (emit_event c0 (EndTransaction t (Some e) res),
           Err (rethrown e res))
      | None => (c0, Err e)
      end
  end.
Proof.
  unfold create. destruct (chain w rq) as [c0 [[]|e]]; simpl; [done|].
  unfold on_error. by destruct (transaction c0).
Qed.
End Stages.

(** ** The transaction around the chain *)
Section Transaction.
Context `{Required}.

Lemma check_ev_is_check w rq evs ev :
  check_ev w rq evs ev -> is_check ev = true.
Proof. by destruct ev. Qed.

Lemma update_ev_is_update c t ev : update_ev c t ev -> is_update ev = true.
Proof. by intros (ty & ops & o & -> & _). Qed.


(** The chain never emits the change event itself. *)
Lemma chain_no_emit w rq c r :
  chain w rq = (c, r) -> Forall (fun ev => is_emit ev = false) (trace c).
Proof.
  intros Hc. apply chain_spec in Hc
    as [[(Htx & [Ht | [e Ht]]) _] |
        (t & evs & [[(Htx & Ht & Hch) _] |
           (rs & res & upds & cm & (Htx & Ht & Hch) & _ & (Hup & _) & Hcm)])];
    rewrite Ht.
  - constructor.
  - by repeat constructor.
  - constructor; [done|]. rewrite app_nil_r.
    eapply Forall_impl; [exact Hch|]. intros ev Hev.
    apply check_ev_is_check in Hev. by destruct ev.
  - constructor; [done|]. apply Forall_app. split.
    + eapply Forall_impl; [exact Hch|]. intros ev Hev.
      apply check_ev_is_check in Hev. by destruct ev.
    + constructor; [done|]. apply Forall_app. split.
      * eapply Forall_impl; [exact Hup|]. intros ev Hev.
        apply update_ev_is_update in Hev. by destruct ev.
      * destruct Hcm as [[-> _] | (res' & -> & _)]; by repeat constructor.
Qed.

(** Every trace that [create] can leave behind. *)
Lemma create_spec w rq c r :
  create w rq = (c, r) ->
  (not_opened c /\ is_err r) \/
  exists t evs,
    Forall (check_ev w rq evs) evs /\
    ((exists e res',
        trace c = BeginTransaction (Fulfilled t) :: evs ++
                    [EndTransaction t (Some e) res'] /\
        r = Err (rethrown e res')) \/
     (exists rs res upds fin,
        trace c = BeginTransaction (Fulfilled t) :: evs ++
                    TxCreate t (type rq) rs res :: upds ++ fin /\
        all_enforced w rq evs rs /\
        Forall (update_ev c t) upds /\
        ((exists e res',
            fin = [EndTransaction t (Some e) res'] /\
            r = Err (rethrown e res') /\
            (res = Fulfilled [] ->
               upds = [] /\
               e = BadRequestError
                     (message "CreateRecordsFail" (language_of rq))) /\
            (forall e', res = Rejected e' -> upds = [] /\ e = e')) \/
         (exists e res0 res' r0 created,
            fin = [EndTransaction t None res0;
                   EndTransaction t (Some e) res'] /\
            settle_outcome res0 = Err e /\
            r = Err (rethrown e res') /\ res = Fulfilled (r0 :: created)) \/
         (exists ctx r0 created,
            fin = [EndTransaction t None (Returns (Fulfilled ()));
                   Emit (assemble (type rq) (r0 :: created) (updates c))] /\
            r = Ok ctx /\ res = Fulfilled (r0 :: created) /\
            response_records ctx = Some (r0 :: created))))).
Proof.
  rewrite create_unfold. destruct (chain w rq) as [c0 r0] eqn:Hc.
  apply chain_spec in Hc
    as [[Hno Herr] |
        (t & evs & [[(Htx & Ht & Hch) Herr] |
           (rs & res & upds & cm & (Htx & Ht & Hch) & Henf & Haft & Hcm)])].
  - destruct Herr as [e ->]. destruct Hno as [Htx Ht]. rewrite Htx.
    intros [= <- <-]. left. split; [by split | by eexists].
  - destruct Herr as [e ->]. rewrite Htx. intros [= <- <-]. right.
    exists t, evs. split; [done|]. left. eexists e, _. split; [|done].
    simpl. by rewrite Ht, app_nil_r.
  - destruct Haft as (Hup & Hrej & Hemp & Hful).
    destruct Hcm as [[-> [e ->]] | (res' & -> & ->)].
    + rewrite Htx. intros [= <- <-].
      right. exists t, evs. split; [done|]. right.
      eexists rs, res, upds, [_]. simpl. rewrite Ht, app_nil_r.
      split; [solve_trace|]. split; [done|]. split; [done|].
      left. eexists e, _. split; [done|]. split; [done|]. split.
      * intros He. destruct (Hemp He) as (-> & _ & [= ->]). done.
      * intros e' He. destruct (Hrej e' He) as (-> & _ & [= ->]). done.
    + assert (exists r1 created, res = Fulfilled (r1 :: created))
        as (r1 & created & ->).
      { destruct res as [[|r1 created]|e'].
        - by destruct (Hemp eq_refl) as (_ & ? & _).
        - eauto.
        - by destruct (Hrej e' eq_refl) as (_ & ? & _). }
      destruct (Hful _ eq_refl) as [Hresp Hrec].
      destruct (settle_outcome res') as [[]|e] eqn:Hres'.
      * assert (res' = Returns (Fulfilled ())) as ->
          by (by destruct res' as [[[]|?]|?]).
        intros [= <- <-].
        right. exists t, evs. split; [done|]. right.
        eexists rs, _, upds, [_; _].
        simpl. rewrite Ht, Hrec.
        change (default [] (Some (foreign (r1 :: created))))
          with (foreign (r1 :: created)).
        rewrite foreign_contents.
        split; [solve_trace|]. split; [done|]. split; [done|].
        right. right. eexists _, r1, created. by repeat split.
      * rewrite Htx. intros [= <- <-].
        right. exists t, evs. split; [done|]. right.
        eexists rs, _, upds, [_; _]. simpl. rewrite Ht.
        split; [solve_trace|]. split; [done|]. split; [done|].
        right. left. by eexists e, res', _, r1, created.
Qed.

Lemma Forall_check_kind (P : event -> Prop) w rq evs' evs :
  (forall ev, is_check ev = true -> P ev) ->
  Forall (check_ev w rq evs') evs -> Forall P evs.
Proof.
  intros HP Hch. eapply Forall_impl; [exact Hch|].
  intros ev Hev. by eapply HP, check_ev_is_check.
Qed.

Lemma Forall_update_kind (P : event -> Prop) c t upds :
  (forall ev, is_update ev = true -> P ev) ->
  Forall (update_ev c t) upds -> Forall P upds.
Proof.
  intros HP Hup. eapply Forall_impl; [exact Hup|].
  intros ev Hev. by eapply HP, update_ev_is_update.
Qed.
End Transaction.

(** ** The objects of the payload *)
Section Payload.
Context `{Required}.

















End Payload.

(** ** Merging the update operations (with the helpers of the spec) *)
Section Merging.
Variables (pk0 : string) (msg : string -> option string -> string).
Local Abbreviation spec := (SpecRequired pk0 msg).

Lemma spec_addId_primaryKey pk u f arr :
  op_primaryKey (spec_addId pk u f arr) = op_primaryKey u.
Proof. unfold spec_addId. by destruct arr. Qed.

Lemma spec_addId_lookup_ne pk u f arr f' :
  f <> f' ->
  fieldMutations (spec_addId pk u f arr) !! f' = fieldMutations u !! f'.
Proof.
  intros Hne. unfold spec_addId. destruct arr; simpl;
    by rewrite lookup_insert_ne.
Qed.

Lemma spec_addId_lookup_scalar pk u f :
  fieldMutations (spec_addId pk u f false) !! f = Some (ReplaceScalar pk).
Proof. unfold spec_addId. simpl. by rewrite lookup_insert_eq. Qed.

Lemma spec_addId_lookup_array pk u f :
  exists ids,
    fieldMutations (spec_addId pk u f true) !! f = Some (AddToArray ids) /\
    pk ∈ ids /\
    forall ids0, fieldMutations u !! f = Some (AddToArray ids0) ->
                 forall x, x ∈ ids0 -> x ∈ ids.
Proof.
  unfold spec_addId. simpl. eexists. rewrite lookup_insert_eq.
  split; [done|]. split.
  - apply elem_of_app. right. by apply list_elem_of_singleton.
  - intros ids0 -> x Hx. apply elem_of_app. by left.
Qed.

(** What one call of [addId (.., getUpdate (..), ..)] does to the
    operations of the linked type. *)
Lemma add_linked_id_spec pk ty inv arr
    (us : list (string * list UpdateOperation)) c id ops :
  id <> Null -> ops = default [] (upd_get us ty) ->
  exists ops',
    (forall ty',
       upd_get (add_linked_id (H := spec) pk ty inv arr (us, c) id).1 ty'
       = if decide (ty' = ty) then Some ops' else upd_get us ty') /\
    ((exists k op,
        ops !! k = Some op /\ op_primaryKey op = id /\
        ops' = alter (fun u => spec_addId pk u inv arr) k ops) \/
     ((forall op, op ∈ ops -> op_primaryKey op <> id) /\
      ops' = ops ++ [spec_addId pk (UpdateOp id ∅) inv arr])).
Proof.
  intros Hid Hops. unfold add_linked_id. rewrite decide_False by done.
  simpl. unfold spec_getUpdate. rewrite <- Hops. simpl.
  destruct (list_find _ ops) as [[k op]|] eqn:Hfind.
  - apply list_find_Some in Hfind as (Hk & Hop & _).
    assert (Hget : upd_get us ty = Some ops).
    { destruct (upd_get us ty); simpl in Hops; by subst ops. }
    eexists. split.
    + intros ty'. simpl. rewrite upd_get_alter, Hget. done.
    + left. by exists k, op.
  - apply list_find_None in Hfind.
    eexists. split.
    + intros ty'. simpl. rewrite upd_get_alter.
      destruct (decide (ty' = ty)) as [->|Hne].
      * rewrite upd_get_put, decide_True by done. simpl.
        by rewrite <- (Nat.add_0_r (length ops)), alter_app_r.
      * rewrite upd_get_put. by rewrite decide_False.
    + right. split; [|done]. intros op Hin.
      by eapply Forall_forall in Hfind.
Qed.

Lemma backref_ok_new All ty op0 id inv arr pk :
  All (ty, id, inv, arr, pk) -> op_primaryKey op0 = id ->
  backref_ok All ty (spec_addId pk op0 inv arr) inv arr pk.
Proof.
  intros Hnew Hkey. unfold backref_ok. destruct arr.
  - destruct (spec_addId_lookup_array pk op0 inv) as (ids & Hl & Hin & _).
    by exists ids.
  - exists pk. rewrite spec_addId_primaryKey, Hkey.
    split; [done | apply spec_addId_lookup_scalar].
Qed.

Lemma backref_ok_addId All ty op id inv arr pk inv1 arr1 pk1 :
  consistent All ->
  All (ty, id, inv, arr, pk) -> All (ty, id, inv1, arr1, pk1) ->
  op_primaryKey op = id ->
  backref_ok All ty op inv1 arr1 pk1 ->
  backref_ok All ty (spec_addId pk op inv arr) inv1 arr1 pk1.
Proof.
  intros Hcons Hnew Hold Hkey Hok.
  destruct (decide (inv = inv1)) as [<-|Hne].
  - assert (arr1 = arr) as -> by (by eapply Hcons).
    unfold backref_ok in *. destruct arr.
    + destruct Hok as (ids0 & Hl0 & Hin0).
      destruct (spec_addId_lookup_array pk op inv) as (ids & Hl & _ & Hsub).
      exists ids. split; [done | by eapply Hsub].
    + exists pk. rewrite spec_addId_primaryKey, Hkey.
      split; [done | apply spec_addId_lookup_scalar].
  - unfold backref_ok in *.
    rewrite spec_addId_primaryKey, spec_addId_lookup_ne by done. done.
Qed.

(** The operations of the linked type after one call, seen from the
    operations before it. *)
Lemma add_linked_id_ops pk inv arr id (ops ops' : list UpdateOperation) :
  NoDup (op_primaryKey <$> ops) ->
  ((exists k op,
      ops !! k = Some op /\ op_primaryKey op = id /\
      ops' = alter (fun u => spec_addId pk u inv arr) k ops) \/
   ((forall op, op ∈ ops -> op_primaryKey op <> id) /\
    ops' = ops ++ [spec_addId pk (UpdateOp id ∅) inv arr])) ->
  NoDup (op_primaryKey <$> ops') /\
  (forall op, op ∈ ops ->
     op ∈ ops' \/
     (op_primaryKey op = id /\ spec_addId pk op inv arr ∈ ops')) /\
  (exists op0, op_primaryKey op0 = id /\ spec_addId pk op0 inv arr ∈ ops').
Proof.
  intros Hnd [(k & op0 & Hk & Hkey & ->) | (Hnone & ->)].
  - assert (Hat : alter (fun u => spec_addId pk u inv arr) k ops !! k
                  = Some (spec_addId pk op0 inv arr)).
    { by rewrite list_lookup_alter_eq, Hk. }
    split; [|split].
    + rewrite (list_fmap_alter _ _ (fun x => x)).
      * by rewrite list_alter_id.
      * apply Forall_forall. intros x _. apply spec_addId_primaryKey.
    + intros op Hin. apply list_elem_of_lookup in Hin as [j Hj].
      destruct (decide (j = k)) as [->|Hne].
      * right. assert (op = op0) as -> by congruence.
        split; [done|]. by eapply list_elem_of_lookup_2.
      * left. eapply list_elem_of_lookup_2.
        by rewrite list_lookup_alter_ne.
    + exists op0. split; [done|]. by eapply list_elem_of_lookup_2.
  - split; [|split].
    + rewrite fmap_app. apply NoDup_app. split; [done|]. split.
      * intros x Hx Hx'. simpl in Hx'.
        apply list_elem_of_singleton in Hx'. subst x.
        rewrite spec_addId_primaryKey in Hx. simpl in Hx.
        apply list_elem_of_fmap in Hx as (op & Heq & Hin).
        by eapply Hnone.
      * simpl. apply NoDup_singleton.
    + intros op Hin. left. apply elem_of_app. by left.
    + exists (UpdateOp id ∅). split; [done|].
      apply elem_of_app. right. by apply list_elem_of_singleton.
Qed.

Lemma add_linked_id_merged All P pk ty inv arr
    (us : list (string * list UpdateOperation)) c id :
  consistent All -> (forall x, P x -> All x) ->
  All (ty, id, inv, arr, pk) ->
  merged All P us -> id <> Null ->
  merged All (fun x => P x \/ x = (ty, id, inv, arr, pk))
    (add_linked_id (H := spec) pk ty inv arr (us, c) id).1.
Proof.
  intros Hcons HPA Hnew [Hone Hrefs] Hid.
  destruct (add_linked_id_spec pk ty inv arr us c id _ Hid eq_refl)
    as (ops' & Hget' & Hcase).
  set (ops := default [] (upd_get us ty)) in *.
  assert (Hnd0 : NoDup (op_primaryKey <$> ops)).
  { unfold ops. destruct (upd_get us ty) eqn:Hget; simpl;
      [by eapply Hone | constructor]. }
  destruct (add_linked_id_ops pk inv arr id ops ops' Hnd0 Hcase)
    as (Hnd & Hold & op0 & Hkey0 & Hin0).
  split.
  - intros ty' ops1. rewrite Hget'.
    destruct (decide (ty' = ty)); [by intros [= <-] | apply Hone].
  - intros ty1 id1 inv1 arr1 pk1 [HP | [= -> -> -> -> ->]].
    + destruct (Hrefs _ _ _ _ _ HP) as (ops1 & op1 & Hg1 & Hin1 & Hk1 & Hok1).
      rewrite Hget'. destruct (decide (ty1 = ty)) as [->|Hne].
      * assert (ops1 = ops) as -> by (unfold ops; by rewrite Hg1).
        destruct (Hold op1 Hin1) as [Hin' | [Hk Hin']].
        -- by exists ops', op1.
        -- exists ops', (spec_addId pk op1 inv arr).
           rewrite spec_addId_primaryKey.
           split; [done|]. split; [done|]. split; [done|].
           apply (backref_ok_addId All ty op1 id inv arr pk inv1 arr1 pk1);
             try done.
           rewrite <- Hk, Hk1. by apply HPA.
      * by exists ops1, op1.
    + exists ops', (spec_addId pk op0 inv arr).
      rewrite Hget', decide_True, spec_addId_primaryKey by done.
      split; [done|]. split; [done|]. split; [done|].
      by apply (backref_ok_new All ty op0 id).
Qed.

Lemma merged_weaken All (P P' : ref -> Prop) us :
  (forall x, P' x -> P x) -> merged All P us -> merged All P' us.
Proof. intros HP [Hone Hrefs]. split; [done|]. intros * Hx. by apply Hrefs, HP. Qed.

Lemma merged_init All P (us : list (string * list UpdateOperation)) ty :
  merged All P us -> merged All P (upd_init us ty).
Proof.
  intros [Hone Hrefs]. split.
  - intros ty' ops. rewrite upd_get_init.
    destruct (decide (ty' = ty)) as [->|Hne]; [|apply Hone].
    destruct (upd_get us ty) eqn:Hget.
    + intros [= <-]. by eapply Hone.
    + destruct (inherited ty); [discriminate|]. intros [= <-]. constructor.
  - intros ty1 id1 inv1 arr1 pk1 HP.
    destruct (Hrefs _ _ _ _ _ HP) as (ops1 & op1 & Hg1 & Hrest).
    exists ops1, op1. split; [|done]. rewrite upd_get_init.
    destruct (decide (ty1 = ty)) as [->|Hne]; [|done]. by rewrite Hg1.
Qed.

Lemma foldl_add_linked_id_merged All pk ty inv arr l :
  consistent All ->
  (forall id, id ∈ l -> id <> Null -> All (ty, id, inv, arr, pk)) ->
  forall P (us : list (string * list UpdateOperation)) c,
    (forall x, P x -> All x) ->
    merged All P us ->
    merged All
      (fun x => P x \/
                exists id, id ∈ l /\ id <> Null /\ x = (ty, id, inv, arr, pk))
      (foldl (add_linked_id (H := spec) pk ty inv arr) (us, c) l).1.
Proof.
  intros Hcons. induction l as [|id l IH]; intros Hall P us c HPA Hm.
  - simpl. eapply merged_weaken; [|exact Hm].
    intros x [Hx | (id & Hin & _)]; [done | by apply elem_of_nil in Hin].
  - assert (Hall' : forall id', id' ∈ l -> id' <> Null ->
                     All (ty, id', inv, arr, pk)).
    { intros id' Hin. apply Hall, elem_of_cons. by right. }
    specialize (IH Hall'). cbn [foldl].
    destruct (decide (id = Null)) as [->|Hid].
    + rewrite (add_linked_id_Null (H := spec)).
      eapply merged_weaken; [|exact (IH P us c HPA Hm)].
      intros x [Hx | (id & Hin & Hne & ->)]; [by left|].
      apply elem_of_cons in Hin as [->|Hin]; [done|]. right. eauto.
    + assert (Hnew : All (ty, id, inv, arr, pk)).
      { apply Hall; [apply elem_of_cons; by left | done]. }
      pose proof (add_linked_id_merged All P pk ty inv arr us c id
                    Hcons HPA Hnew Hm Hid) as Hm'.
      destruct (add_linked_id (H := spec) pk ty inv arr (us, c) id)
        as [us1 c1] eqn:Hstep. simpl in Hm'.
      assert (HPA' : forall x, P x \/ x = (ty, id, inv, arr, pk) -> All x).
      { intros x [Hx | ->]; [by apply HPA | done]. }
      eapply merged_weaken; [|exact (IH _ us1 c1 HPA' Hm')].
      intros x [Hx | (id' & Hin & Hne & ->)]; [by left; left|].
      apply elem_of_cons in Hin as [->|Hin]; [left; by right|].
      right. eauto.
Qed.

Lemma link_step_merged All P rts fields r (b b' : builder (H := spec)) field :
  consistent All -> (forall x, P x -> All x) ->
  (forall ty id inv arr,
     refers_by rts fields r field ty id inv arr ->
     All (ty, id, inv, arr, pk_of (H := spec) r)) ->
  merged All P b.1 ->
  link_step (H := spec) rts fields r b field = Ok b' ->
  merged All
    (fun x => P x \/
              exists ty id inv arr,
                refers_by rts fields r field ty id inv arr /\
                x = (ty, id, inv, arr, pk_of (H := spec) r))
    b'.1.
Proof.
  intros Hcons HPA Hall Hm. unfold link_step.
  destruct (fields ≫= _) as [def|] eqn:Hdef; [|discriminate].
  destruct (record_get r field) as [v|] eqn:Hv.
  2:{ intros [= <-]. eapply merged_weaken; [|exact Hm].
      intros x [Hx | (ty & id & inv & arr & Href & _)]; [done|].
      destruct Href as (? & ? & ? & ? & _ & ? & _). congruence. }
  destruct (truthy_string (inverse def)) as [inv|] eqn:Hinv.
  2:{ intros [= <-]. eapply merged_weaken; [|exact Hm].
      intros x [Hx | (ty & id & inv & arr & Href & _)]; [done|].
      destruct Href as (? & ? & ? & ? & ? & _ & ? & _). congruence. }
  destruct (link def) as [ty|] eqn:Hty; [|discriminate].
  destruct (rts !! ty) as [lfs|] eqn:Hlfs; [|discriminate].
  destruct (field_get lfs inv) as [idef|] eqn:Hidef; [|discriminate].
  intros [= <-].
  eapply merged_weaken;
    [|apply (foldl_add_linked_id_merged All (pk_of (H := spec) r) ty inv
               (isArray idef) (reverse (linkedIds_of v)) Hcons)].
  - intros x [Hx | (ty' & id' & inv' & arr' & Href & ->)]; [by left|].
    right. destruct Href as (def' & v' & lfs' & idef' & Hd' & Hv' & Hi' &
                             Ht' & Hl' & Hf' & Ha' & Hin' & Hne').
    assert (def' = def) as -> by congruence.
    assert (v' = v) as -> by congruence.
    assert (inv' = inv) as -> by congruence.
    assert (ty' = ty) as -> by congruence.
    assert (lfs' = lfs) as -> by congruence.
    assert (idef' = idef) as -> by congruence.
    exists id'. rewrite elem_of_reverse. by subst arr'.
  - intros id Hin Hne. rewrite elem_of_reverse in Hin. apply Hall.
    by exists def, v, lfs, idef.
  - done.
  - simpl. by apply merged_init.
Qed.

Lemma fold_result_merged {A} All (Q : A -> ref -> Prop)
    (f : builder (H := spec) -> A -> result (builder (H := spec))) l :
  (forall x y, x ∈ l -> Q x y -> All y) ->
  (forall P b x b',
     x ∈ l -> (forall y, P y -> All y) -> merged All P b.1 ->
     f b x = Ok b' -> merged All (fun y => P y \/ Q x y) b'.1) ->
  forall P b b',
    (forall y, P y -> All y) -> merged All P b.1 ->
    fold_result f b l = Ok b' ->
    merged All (fun y => P y \/ exists x, x ∈ l /\ Q x y) b'.1.
Proof.
  induction l as [|x l IH]; intros HQ Hf P b b' HPA Hm; simpl.
  - intros [= <-]. eapply merged_weaken; [|exact Hm].
    intros y [Hy | (x & Hin & _)]; [done | by apply elem_of_nil in Hin].
  - destruct (f b x) as [b1|e] eqn:Hfx; [|discriminate]. intros Hfold.
    assert (Hm1 : merged All (fun y => P y \/ Q x y) b1.1).
    { eapply Hf; [apply elem_of_cons; by left | done..]. }
    assert (HQ' : forall x' y, x' ∈ l -> Q x' y -> All y).
    { intros x' y Hin. apply HQ, elem_of_cons. by right. }
    assert (Hf' : forall P b x' b',
              x' ∈ l -> (forall y, P y -> All y) -> merged All P b.1 ->
              f b x' = Ok b' -> merged All (fun y => P y \/ Q x' y) b'.1).
    { intros P' b2 x' b3 Hin. apply Hf, elem_of_cons. by right. }
    assert (HPA1 : forall y, P y \/ Q x y -> All y).
    { intros y [Hy | Hq]; [by apply HPA|].
      eapply HQ; [apply elem_of_cons; by left | done]. }
    eapply merged_weaken; [|exact (IH HQ' Hf' _ b1 b' HPA1 Hm1 Hfold)].
    intros y [Hy | (x' & Hin & Hq)]; [by left; left|].
    apply elem_of_cons in Hin as [->|Hin]; [left; by right|].
    right. eauto.
Qed.

(** *** A singular inverse field: the reference that is written last *)

(** The operation of the target [id] of the type [ty] holds the record
    [pk] in its singular field [inv]. *)
Local Abbreviation scalar_is us ty id inv pk :=
  (exists ops op,
     upd_get (U := UpdateOperation) us ty = Some ops /\ op ∈ ops /\
     op_primaryKey op = id /\
     fieldMutations op !! inv = Some (ReplaceScalar pk)).

Lemma fold_result_app {A B} (f : B -> A -> result B) b l1 l2 :
  fold_result f b (l1 ++ l2)
  = match fold_result f b l1 with
    | Ok b1 => fold_result f b1 l2
    | Err e => Err e
    end.
Proof.
  revert b. induction l1 as [|x l1 IH]; intros b; simpl; [done|].
  by destruct (f b x).
Qed.

Lemma refers_by_dec rts fields r field ty id inv arr :
  refers_by rts fields r field ty id inv arr \/
  ~ refers_by rts fields r field ty id inv arr.
Proof.
  unfold refers_by.
  destruct (fields ≫= (fun fs => field_get fs field)) as [def|] eqn:Hd.
  2:{ right. by intros (? & ? & ? & ? & ? & _). }
  destruct (record_get r field) as [v|] eqn:Hv.
  2:{ right. by intros (? & ? & ? & ? & _ & ? & _). }
  destruct (decide (truthy_string (inverse def) = Some inv)) as [Hi|Hi].
  2:{ right. intros (? & ? & ? & ? & ? & _ & ? & _). by simplify_eq. }
  destruct (decide (link def = Some ty)) as [Ht|Ht].
  2:{ right. intros (? & ? & ? & ? & ? & _ & _ & ? & _). by simplify_eq. }
  destruct (rts !! ty) as [lfs|] eqn:Hl.
  2:{ right. by intros (? & ? & ? & ? & _ & _ & _ & _ & ? & _). }
  destruct (field_get lfs inv) as [idef|] eqn:Hf.
  2:{ right. intros (? & ? & ? & ? & _ & _ & _ & _ & ? & ? & _).
      by simplify_eq. }
  destruct (decide (isArray idef = arr)) as [Ha|Ha].
  2:{ right. intros (? & ? & ? & ? & _ & _ & _ & _ & ? & ? & ? & _).
      by simplify_eq. }
  destruct (decide (id ∈ linkedIds_of v)) as [Hin|Hin].
  2:{ right. intros (? & ? & ? & ? & _ & ? & _ & _ & _ & _ & _ & ? & _).
      by simplify_eq. }
  destruct (decide (id = Null)) as [Hn|Hn].
  { right. by intros (? & ? & ? & ? & _ & _ & _ & _ & _ & _ & _ & _ & ?). }
  left. by exists def, v, lfs, idef.
Qed.

Lemma refers_dec rts fields links r ty id inv arr :
  refers rts fields links r ty id inv arr \/
  ~ refers rts fields links r ty id inv arr.
Proof.
  unfold refers. induction links as [|field links IH].
  { right. by intros (? & ?%elem_of_nil & _). }
  destruct (refers_by_dec rts fields r field ty id inv arr) as [Hr|Hr].
  { left. exists field. split; [apply elem_of_cons; by left | done]. }
  destruct IH as [(f & Hin & Hf) | Hno].
  - left. exists f. split; [apply elem_of_cons; by right | done].
  - right. intros (f & [->|Hin]%elem_of_cons & Hf); [done|].
    apply Hno. by exists f.
Qed.

(** Whether the inverse field is array-valued is a matter of the linked
    type and of the field alone. *)
Lemma refers_by_cardinality rts fields r1 f1 r2 f2 ty id1 id2 inv arr1 arr2 :
  refers_by rts fields r1 f1 ty id1 inv arr1 ->
  refers_by rts fields r2 f2 ty id2 inv arr2 -> arr1 = arr2.
Proof.
  intros (? & ? & lfs1 & idef1 & _ & _ & _ & _ & Hl1 & Hg1 & <- & _)
         (? & ? & lfs2 & idef2 & _ & _ & _ & _ & Hl2 & Hg2 & <- & _).
  congruence.
Qed.

Lemma add_linked_id_sets pk ty inv
    (b : builder (H := spec)) id :
  id <> Null ->
  scalar_is (add_linked_id (H := spec) pk ty inv false b id).1 ty id inv pk.
Proof.
  intros Hid. destruct b as [us c].
  destruct (add_linked_id_spec pk ty inv false us c id _ Hid eq_refl)
    as (ops' & Hget' & Hcase).
  rewrite Hget', decide_True by done.
  destruct Hcase as [(k & op0 & Hk & Hkey & ->) | (_ & ->)].
  - exists (alter (fun u => spec_addId pk u inv false) k
              (default [] (upd_get us ty))),
      (spec_addId pk op0 inv false).
    split; [done|]. split.
    + eapply list_elem_of_lookup_2. rewrite list_lookup_alter_eq.
      exact (f_equal (fmap _) Hk).
    + by rewrite spec_addId_primaryKey, spec_addId_lookup_scalar.
  - eexists _, (spec_addId pk (UpdateOp id ∅) inv false).
    split; [done|]. split.
    + apply elem_of_app. right. by apply list_elem_of_singleton.
    + by rewrite spec_addId_primaryKey, spec_addId_lookup_scalar.
Qed.

Lemma add_linked_id_keeps pk ty inv arr (b : builder (H := spec)) id
    ty1 id1 inv1 pk1 :
  (ty1 = ty -> inv1 = inv -> id1 = id -> id = Null) ->
  scalar_is b.1 ty1 id1 inv1 pk1 ->
  scalar_is (add_linked_id (H := spec) pk ty inv arr b id).1 ty1 id1 inv1 pk1.
Proof.
  intros Hother (ops1 & op1 & Hg1 & Hin1 & Hk1 & Hm1).
  destruct (decide (id = Null)) as [->|Hid].
  { rewrite (add_linked_id_Null (H := spec)). by exists ops1, op1. }
  destruct b as [us c]. simpl in Hg1.
  destruct (add_linked_id_spec pk ty inv arr us c id _ Hid eq_refl)
    as (ops' & Hget' & Hcase).
  rewrite Hget'. destruct (decide (ty1 = ty)) as [->|Hne].
  2:{ by exists ops1, op1. }
  rewrite Hg1 in Hcase. simpl in Hcase.
  destruct Hcase as [(k & op0 & Hk & Hkey & ->) | (_ & ->)].
  - apply list_elem_of_lookup in Hin1 as [j Hj].
    destruct (decide (j = k)) as [->|Hjk].
    + assert (op1 = op0) as -> by congruence.
      assert (Hinv : inv <> inv1).
      { intros <-. apply Hid, Hother; congruence. }
      eexists _, (spec_addId pk op0 inv arr). split; [done|]. split.
      * eapply list_elem_of_lookup_2. rewrite list_lookup_alter_eq.
        exact (f_equal (fmap _) Hk).
      * by rewrite spec_addId_primaryKey, spec_addId_lookup_ne.
    + eexists _, op1. split; [done|]. split; [|done].
      eapply list_elem_of_lookup_2. by rewrite list_lookup_alter_ne.
  - eexists _, op1. split; [done|]. split; [|done].
    apply elem_of_app. by left.
Qed.

Lemma foldl_add_linked_id_keeps pk ty inv arr l ty1 id1 inv1 pk1 :
  (ty1 = ty -> inv1 = inv -> id1 ∈ l -> id1 = Null) ->
  forall b : builder (H := spec),
    scalar_is b.1 ty1 id1 inv1 pk1 ->
    scalar_is (foldl (add_linked_id (H := spec) pk ty inv arr) b l).1
      ty1 id1 inv1 pk1.
Proof.
  induction l as [|id l IH]; intros Hother b Hb; [done|].
  cbn [foldl]. apply IH.
  - intros Ht Hi Hin. apply Hother; try done. apply elem_of_cons. by right.
  - apply add_linked_id_keeps; [|done].
    intros Ht Hi <-. apply Hother; try done. apply elem_of_cons. by left.
Qed.

Lemma foldl_add_linked_id_sets pk ty inv l id :
  id ∈ l -> id <> Null ->
  forall b : builder (H := spec),
    scalar_is (foldl (add_linked_id (H := spec) pk ty inv false) b l).1
      ty id inv pk.
Proof.
  induction l as [|x l IH]; intros Hin Hid b.
  { by apply elem_of_nil in Hin. }
  cbn [foldl]. destruct (decide (id ∈ l)) as [Hl|Hl]; [by apply IH|].
  apply elem_of_cons in Hin as [->|Hin]; [|done].
  apply foldl_add_linked_id_keeps; [by intros _ _ ?|].
  by apply add_linked_id_sets.
Qed.

Lemma upd_init_keeps (us : list (string * list UpdateOperation)) ty
    ty1 id1 inv1 pk1 :
  scalar_is us ty1 id1 inv1 pk1 ->
  scalar_is (upd_init us ty) ty1 id1 inv1 pk1.
Proof.
  intros (ops1 & op1 & Hg1 & Hrest). exists ops1, op1. split; [|done].
  rewrite upd_get_init. destruct (decide (ty1 = ty)) as [->|Hne]; [|done].
  by rewrite Hg1.
Qed.

(** A link field through which the record refers to the target writes
    the record into the singular inverse field. *)
Lemma link_step_sets rts fields r (b b' : builder (H := spec)) field
    ty id inv :
  refers_by rts fields r field ty id inv false ->
  link_step (H := spec) rts fields r b field = Ok b' ->
  scalar_is b'.1 ty id inv (pk_of (H := spec) r).
Proof.
  intros (def & v & lfs & idef & Hd & Hv & Hi & Ht & Hl & Hf & Ha & Hin & Hn).
  unfold link_step. rewrite Hd, Hv, Hi, Ht, Hl, Hf, Ha. intros [= <-].
  apply foldl_add_linked_id_sets; [|done]. by rewrite elem_of_reverse.
Qed.

(** A link field through which the record does not refer to the target
    leaves the inverse field of the target as it is. *)
Lemma link_step_keeps rts fields r (b b' : builder (H := spec)) field
    ty id inv pk1 :
  (forall arr, ~ refers_by rts fields r field ty id inv arr) ->
  scalar_is b.1 ty id inv pk1 ->
  link_step (H := spec) rts fields r b field = Ok b' ->
  scalar_is b'.1 ty id inv pk1.
Proof.
  intros Hno Hb. unfold link_step.
  destruct (fields ≫= _) as [def|] eqn:Hd; [|discriminate].
  destruct (record_get r field) as [v|] eqn:Hv; [|by intros [= <-]].
  destruct (truthy_string (inverse def)) as [inv'|] eqn:Hi;
    [|by intros [= <-]].
  destruct (link def) as [ty'|] eqn:Ht; [|discriminate].
  destruct (rts !! ty') as [lfs|] eqn:Hl; [|discriminate].
  destruct (field_get lfs inv') as [idef|] eqn:Hf; [|discriminate].
  intros [= <-]. apply foldl_add_linked_id_keeps.
  - intros -> -> Hin. rewrite elem_of_reverse in Hin.
    destruct (decide (id = Null)) as [|Hn]; [done|].
    destruct (Hno (isArray idef)). by exists def, v, lfs, idef.
  - simpl. by apply upd_init_keeps.
Qed.

Lemma fold_link_step_keeps rts fields r l ty id inv pk1 :
  (forall field arr, field ∈ l -> ~ refers_by rts fields r field ty id inv arr) ->
  forall b b' : builder (H := spec),
    scalar_is b.1 ty id inv pk1 ->
    fold_result (link_step (H := spec) rts fields r) b l = Ok b' ->
    scalar_is b'.1 ty id inv pk1.
Proof.
  induction l as [|x l IH]; intros Hno b b' Hb; simpl.
  { by intros [= <-]. }
  destruct (link_step rts fields r b x) as [b1|e] eqn:Hx; [|discriminate].
  apply IH.
  - intros field arr Hin. apply Hno, elem_of_cons. by right.
  - eapply link_step_keeps; [|exact Hb|exact Hx].
    intros arr. apply Hno, elem_of_cons. by left.
Qed.

Lemma fold_link_step_sets rts fields r l ty id inv :
  (exists field, field ∈ l /\ refers_by rts fields r field ty id inv false) ->
  forall b b' : builder (H := spec),
    fold_result (link_step (H := spec) rts fields r) b l = Ok b' ->
    scalar_is b'.1 ty id inv (pk_of (H := spec) r).
Proof.
  induction l as [|x l IH] using rev_ind; intros (field & Hin & Href) b b'.
  { by apply elem_of_nil in Hin. }
  rewrite fold_result_app.
  destruct (fold_result _ b l) as [b1|e] eqn:Hl; [|discriminate]. simpl.
  destruct (link_step rts fields r b1 x) as [b2|e] eqn:Hx; [|discriminate].
  intros [= <-].
  destruct (refers_by_dec rts fields r x ty id inv false) as [Hr|Hr].
  { by eapply link_step_sets. }
  apply elem_of_app in Hin as [Hin|Hin].
  2:{ apply list_elem_of_singleton in Hin. by subst. }
  eapply link_step_keeps; [|by eapply IH; eauto|exact Hx].
  intros arr Harr.
  by rewrite (refers_by_cardinality _ _ _ _ _ _ _ _ _ _ _ _ Harr Href) in Harr.
Qed.

(** A record that refers to the target writes itself into the singular
    inverse field; one that does not leaves the field as it is. *)
Lemma record_step_sets rts fields links language r (b b' : builder (H := spec))
    ty id inv :
  refers rts fields links r ty id inv false ->
  record_step (H := spec) rts fields links language b r = Ok b' ->
  scalar_is b'.1 ty id inv (pk_of (H := spec) r).
Proof.
  intros (field & Hin & Href). unfold record_step.
  destruct (r !! primaryKey); [|discriminate].
  apply fold_link_step_sets. exists field. by rewrite elem_of_reverse.
Qed.

Lemma record_step_keeps rts fields links language r
    (b b' : builder (H := spec)) ty id inv pk1 :
  (forall arr, ~ refers rts fields links r ty id inv arr) ->
  scalar_is b.1 ty id inv pk1 ->
  record_step (H := spec) rts fields links language b r = Ok b' ->
  scalar_is b'.1 ty id inv pk1.
Proof.
  intros Hno Hb. unfold record_step.
  destruct (r !! primaryKey); [|discriminate].
  apply fold_link_step_keeps; [|done].
  intros field arr Hin Href. apply (Hno arr). exists field.
  by rewrite elem_of_reverse in Hin.
Qed.

Lemma fold_record_step_keeps rts fields links language l ty id inv pk1 :
  (forall r arr, r ∈ l -> ~ refers rts fields links r ty id inv arr) ->
  forall b b' : builder (H := spec),
    scalar_is b.1 ty id inv pk1 ->
    fold_result (record_step (H := spec) rts fields links language) b l
    = Ok b' ->
    scalar_is b'.1 ty id inv pk1.
Proof.
  induction l as [|x l IH]; intros Hno b b' Hb; simpl.
  { by intros [= <-]. }
  destruct (record_step rts fields links language b x) as [b1|e] eqn:Hx;
    [|discriminate].
  apply IH.
  - intros r arr Hin. apply Hno, elem_of_cons. by right.
  - eapply record_step_keeps; [|exact Hb|exact Hx].
    intros arr. apply Hno, elem_of_cons. by left.
Qed.

(** The loop over the created records leaves, in the singular inverse
    field of a target, the record that it came to last. *)
Lemma build_updates_last rts fields links language records
    (b b' : builder (H := spec)) ty id inv r' :
  processed_last rts fields links records ty id inv r' ->
  build_updates (H := spec) rts fields links language b records = Ok b' ->
  scalar_is b'.1 ty id inv (pk_of (H := spec) r').
Proof.
  intros (earlier & later & -> & Href & Hno). unfold build_updates.
  rewrite reverse_app, reverse_cons, <- app_assoc, !fold_result_app.
  destruct (fold_result _ b (reverse later)) as [b1|e]; [|discriminate].
  simpl.
  destruct (record_step rts fields links language b1 r') as [b2|e] eqn:Hr';
    [|discriminate].
  apply fold_record_step_keeps.
  - intros r arr Hin (f & Hf & Harr). rewrite elem_of_reverse in Hin.
    eapply Forall_forall in Hno; [|exact Hin]. apply Hno.
    destruct Href as (f' & _ & Href).
    rewrite (refers_by_cardinality _ _ _ _ _ _ _ _ _ _ _ _ Harr Href) in Harr.
    by exists f.
  - by eapply record_step_sets.
Qed.

Lemma processed_last_exists rts fields links records r ty id inv :
  r ∈ records -> refers rts fields links r ty id inv false ->
  exists r', processed_last rts fields links records ty id inv r'.
Proof.
  induction records as [|x records IH]; intros Hin Href.
  { by apply elem_of_nil in Hin. }
  destruct (refers_dec rts fields links x ty id inv false) as [Hx|Hx].
  { exists x, [], records. by split_and!. }
  apply elem_of_cons in Hin as [->|Hin]; [done|].
  destruct (IH Hin Href) as (r' & earlier & later & -> & Hr' & Hno).
  exists r', (x :: earlier), later. split_and!; [done | done|].
  by constructor.
Qed.

(** C2 (as amended).  With the helpers as the specification describes
    them, the operations that the loops of lines 121-152 build hold, per
    linked type, exactly one operation per target, whatever the number of
    references to it; each reference of each created record has reached
    that operation: an array-valued inverse field lists the primary key
    of the record, and a singular inverse field holds the primary key of
    one record, the one that the loop came to last among the records
    that refer to the target. *)
Theorem updates_merged_per_target (rts : gmap string fieldDefs)
    (fields : option fieldDefs) (links : list string)
    (language : option string) (records : list record)
    (b : builder (H := spec)) :
  build_updates (H := spec) rts fields links language ([], ∅) records = Ok b ->
  one_operation_per_target b.1 /\
  backrefs_merged pk0 rts fields links records b.1.
Proof.
  intros Hbuild.
  set (All := fun x : ref =>
         let '(ty, id, inv, arr, pk) := x in
         exists r, r ∈ records /\ refers rts fields links r ty id inv arr /\
                   pk = pk_of (H := spec) r).
  assert (Hcons : consistent All).
  { intros ty inv id1 arr1 pk1 id2 arr2 pk2
      (r1 & _ & (f1 & _ & Hr1) & _) (r2 & _ & (f2 & _ & Hr2) & _).
    by eapply refers_by_cardinality. }
  set (Qf := fun (r : record) (field : string) (y : ref) =>
         exists ty id inv arr,
           refers_by rts fields r field ty id inv arr /\
           y = (ty, id, inv, arr, pk_of (H := spec) r)).
  assert (Hrec : forall P (b1 : builder (H := spec)) r b2,
            r ∈ reverse records -> (forall y, P y -> All y) ->
            merged All P b1.1 ->
            record_step (H := spec) rts fields links language b1 r = Ok b2 ->
            merged All
              (fun y => P y \/ exists field, field ∈ reverse links /\ Qf r field y)
              b2.1).
  { intros P b1 r b2 Hr HPA Hm. unfold record_step.
    destruct (r !! primaryKey); [|discriminate].
    apply (fold_result_merged All (Qf r)); try done.
    - intros field y Hin (ty & id & inv & arr & Href & ->).
      exists r. rewrite elem_of_reverse in Hr. rewrite elem_of_reverse in Hin.
      split; [done|]. split; [by exists field | done].
    - intros P' b3 field b4 Hin HPA' Hm' Hstep.
      apply (link_step_merged All P' rts fields r b3 b4 field); try done.
      intros ty id inv arr Href. exists r.
      rewrite elem_of_reverse in Hr. rewrite elem_of_reverse in Hin.
      split; [done|]. split; [by exists field | done]. }
  pose proof Hbuild as Hlast.
  unfold build_updates in Hbuild.
  apply (fold_result_merged All
           (fun r y => exists field, field ∈ reverse links /\ Qf r field y)
           _ _) with (P := fun _ => False) in Hbuild.
  - destruct Hbuild as [Hone Hrefs]. split; [done|].
    intros r ty id inv arr Hr Href. destruct arr.
    + destruct Href as (field & Hfield & Href).
      destruct (Hrefs ty id inv true (pk_of (H := spec) r))
        as (ops & op & Hget & Hin & Hkey & Hok).
      { right. exists r. rewrite elem_of_reverse. split; [done|].
        exists field. rewrite elem_of_reverse. split; [done|].
        by exists ty, id, inv, true. }
      by exists ops, op.
    + destruct (processed_last_exists _ _ _ _ _ _ _ _ Hr Href) as [r' Hr'].
      destruct (build_updates_last _ _ _ _ _ _ _ _ _ _ _ Hr' Hlast)
        as (ops & op & Hget & Hin & Hkey & Hmut).
      exists ops, op. split_and!; try done. by exists r'.
  - intros r y Hr (field & Hin & ty & id & inv & arr & Href & ->).
    exists r. rewrite elem_of_reverse in Hr. rewrite elem_of_reverse in Hin.
    split; [done|]. split; [by exists field | done].
  - intros P b1 r b2 Hr HPA Hm Hstep. by eapply Hrec.
  - done.
  - split; [by intros ty ops [=] | by intros ty id inv arr pk []].
Qed.
End Merging.




(** * The claims *)
Section Claims.
Context `{Required}.

(** C6. A create request whose payload is missing or is an empty
    sequence is rejected with the bad-request error, and nothing has been
    called by then: no transaction is opened. *)
Theorem create_rejects_missing_payload (w : world) (rq : request) :
  payload rq = None \/ payload rq = Some [] ->
  (create w rq).2
    = Err (BadRequestError (message "CreateRecordsInvalid" None)) /\
  trace (create w rq).1 = [] /\
  Forall (fun ev => is_begin ev = false) (trace (create w rq).1).
Proof.
  intros Hp. unfold create, chain, upto_updates, upto_create, upto_enforce,
    upto_transform, upto_begin, on_payload.
  destruct Hp as [-> | ->]; simpl; repeat split; constructor.
Qed.


(** C4. The change event is emitted only by a request that succeeds,
    and then exactly once, as the last call, right after the commit has
    been fulfilled and without any abort; a request that fails (and so
    every request whose transaction is aborted) emits nothing. *)
Theorem change_event_once_after_commit (w : world) (rq : request)
    (c : closure) (r : result context) :
  create w rq = (c, r) ->
  match r with
  | Ok _ =>
      exists pre t ev,
        trace c = pre ++ [EndTransaction t None (Returns (Fulfilled ()));
                          Emit ev] /\
        Forall (fun e => is_emit e = false /\ is_end e = false) pre
  | Err _ => Forall (fun e => is_emit e = false) (trace c)
  end.
Proof.
  intros Hc. apply create_spec in Hc
    as [[(_ & [Ht | [e Ht]]) [e' ->]] |
        (t & evs & Hch &
           [(e & res' & Ht & ->) |
            (rs & res & upds & fin & Ht & _ & Hup &
               [(e & res' & -> & -> & _) |
                [(e & res0 & res' & r0 & created & -> & _ & -> & _) |
                 (ctx & r0 & created & -> & -> & _)]])])];
    rewrite Ht.
  - constructor.
  - by repeat constructor.
  - constructor; [done|]. apply Forall_app. split; [|by repeat constructor].
    eapply Forall_check_kind; [|exact Hch]. by intros [].
  - constructor; [done|]. apply Forall_app. split.
    { eapply Forall_check_kind; [|exact Hch]. by intros []. }
    constructor; [done|]. apply Forall_app. split; [|by repeat constructor].
    eapply Forall_update_kind; [|exact Hup]. by intros [].
  - constructor; [done|]. apply Forall_app. split.
    { eapply Forall_check_kind; [|exact Hch]. by intros []. }
    constructor; [done|]. apply Forall_app. split; [|by repeat constructor].
    eapply Forall_update_kind; [|exact Hup]. by intros [].
  - eexists (BeginTransaction (Fulfilled t) :: evs ++
               TxCreate t (type rq) rs _ :: upds), t, _.
    split; [solve_trace|].
    constructor; [done|]. apply Forall_app. split.
    { eapply Forall_check_kind; [|exact Hch]. by intros []. }
    constructor; [done|].
    eapply Forall_update_kind; [|exact Hup]. by intros [].
Qed.


(** C5. A call of [transaction.create] comes only after every record
    handed to it has been enforced successfully (the record is handed
    over as that enforcement has left it): no enforcement follows it and
    none has failed before it.  So when the enforcement of any record
    fails, [transaction.create] is not called at all. *)
Theorem enforcement_precedes_create (w : world) (rq : request)
    (c : closure) (r : result context) :
  create w rq = (c, r) ->
  (forall ty x after e,
     Enforce ty x after (Some e) ∈ trace c ->
     Forall (fun ev => is_create ev = false) (trace c)) /\
  (Forall (fun ev => is_create ev = false) (trace c) \/
   exists pre t rs res post,
     trace c = pre ++ TxCreate t (type rq) rs res :: post /\
     Forall (fun ev => is_create ev = false) pre /\
     Forall (fun ev => is_create ev = false) post /\
     (forall x', x' ∈ rs -> exists x, Enforce (type rq) x x' None ∈ pre) /\
     (forall ty x after o,
        Enforce ty x after o ∈ trace c ->
        o = None /\ Enforce ty x after o ∈ pre)).
Proof.
  intros Hc.
  apply create_spec in Hc
    as [[(_ & [Ht | [e1 Ht]]) _] |
        (t & evs & Hch &
           [(e1 & res' & Ht & ->) |
            (rs & res & upds & fin & Ht & [Hall Hnone] & Hup & Hfin)])];
    rewrite Ht.
  - split; [intros; constructor | left; constructor].
  - split; [intros; by repeat constructor | left; by repeat constructor].
  - assert (Hno : Forall (fun ev => is_create ev = false)
                    (BeginTransaction (Fulfilled t) :: evs ++
                       [EndTransaction t (Some e1) res'])).
    { constructor; [done|]. apply Forall_app. split; [|by repeat constructor].
      eapply Forall_check_kind; [|exact Hch]. by intros []. }
    split; [by intros | by left].
  - assert (Hupk : Forall (fun ev => is_update ev = true) upds).
    { eapply Forall_update_kind; [|exact Hup]. done. }
    assert (Hfk : Forall (fun ev => is_end ev || is_emit ev = true) fin).
    { destruct Hfin as [(e1 & res' & -> & _) |
                        [(e1 & res0 & res' & r0 & created & -> & _) |
                         (ctx & r0 & created & -> & _)]];
        by repeat constructor. }
    assert (Hin_evs : forall ty x after o,
              Enforce ty x after o ∈ BeginTransaction (Fulfilled t) :: evs ++
                TxCreate t (type rq) rs res :: upds ++ fin ->
              o = None /\ Enforce ty x after o ∈ evs).
    { intros ty x after o Hin.
      apply elem_of_cons in Hin as [Hin|Hin]; [discriminate|].
      apply elem_of_app in Hin as [Hin|Hin].
      - split; [|done]. destruct o as [e|]; [|done].
        by apply Hnone in Hin.
      - exfalso. apply elem_of_cons in Hin as [Hin|Hin]; [discriminate|].
        apply elem_of_app in Hin as [Hin|Hin].
        + eapply Forall_forall in Hupk; [|exact Hin]. discriminate.
        + eapply Forall_forall in Hfk; [|exact Hin]. discriminate. }
    split.
    + intros ty x after e Hin. by destruct (Hin_evs ty x after (Some e) Hin).
    + right. exists (BeginTransaction (Fulfilled t) :: evs), t, rs, res,
        (upds ++ fin).
      split; [done|]. split; [|split; [|split]].
      * constructor; [done|].
        eapply Forall_check_kind; [|exact Hch]. by intros [].
      * apply Forall_app. split.
        -- eapply Forall_impl; [exact Hupk|]. by intros [].
        -- eapply Forall_impl; [exact Hfk|]. by intros [].
      * intros x' Hx'. destruct (Hall x' Hx') as (x & _ & Hin).
        exists x. apply elem_of_cons. by right.
      * intros ty x after o Hin.
        destruct (Hin_evs ty x after o Hin) as [-> Hev].
        split; [done|]. apply elem_of_cons. by right.
Qed.

Lemma add_update_entries_ok (us : updates_t) keys ev0 :
  update_entries_ok us ev0 ->
  update_entries_ok us (foldl (add_update_entry us) ev0 keys).
Proof.
  revert ev0. induction keys as [|key keys IH]; intros ev0 [Hne Hin];
    simpl; [done|].
  apply IH. unfold add_update_entry.
  destruct (upd_get us key) as [[|op ops']|] eqn:Hget; [done| |done].
  split; simpl.
  - intros [= Heq]. by apply upd_put_nonempty in Heq.
  - intros us' k ops [= <-] Hk.
    apply upd_put_elem in Hk as [Hk | [-> ->]]; [|done].
    destruct (ev_update ev0) as [us0|]; simpl in Hk.
    + by eapply Hin.
    + by apply elem_of_nil in Hk.
Qed.

Lemma assemble_updates ty rs (us : updates_t) :
  update_entries_ok us (assemble ty rs us).
Proof.
  unfold assemble. apply add_update_entries_ok.
  split; simpl; [discriminate | by intros us' k ops [=]].
Qed.

(** C7. [transaction.update] is called only for a type whose entry in
    [updates] holds at least one operation, and the change event has an
    update entry only for such a type (and no [update] key at all when
    there is none): a type that ends up in [updates] with no operation
    gets no update call and no entry in the event. *)
Theorem empty_update_types_skipped (w : world) (rq : request)
    (c : closure) (r : result context) :
  create w rq = (c, r) ->
  (forall t ty ops o,
     TxUpdate t ty ops o ∈ trace c ->
     ops <> [] /\ upd_get (updates c) ty = Some ops) /\
  (forall ev,
     Emit ev ∈ trace c ->
     ev_update ev <> Some [] /\
     forall us ty ops,
       ev_update ev = Some us -> (ty, ops) ∈ us ->
       ops <> [] /\ upd_get (updates c) ty = Some ops) /\
  (forall ty,
     upd_get (updates c) ty = Some [] ->
     (forall t ops o, TxUpdate t ty ops o ∉ trace c) /\
     (forall ev us ops,
        Emit ev ∈ trace c -> ev_update ev = Some us -> (ty, ops) ∉ us)).
Proof.
  intros Hc.
  assert (Hmain :
    (forall t ty ops o,
       TxUpdate t ty ops o ∈ trace c ->
       ops <> [] /\ upd_get (updates c) ty = Some ops) /\
    (forall ev, Emit ev ∈ trace c -> update_entries_ok (updates c) ev)).
  { apply create_spec in Hc
      as [[(_ & [Ht | [e1 Ht]]) _] |
          (t & evs & Hch &
             [(e1 & res' & Ht & ->) |
              (rs & res & upds & fin & Ht & _ & Hup & Hfin)])];
      rewrite Ht.
    - split; intros; exfalso; by eapply elem_of_nil.
    - split; intros * Hin; apply list_elem_of_singleton in Hin; discriminate.
    - assert (Hck : Forall (fun ev => is_update ev = false /\ is_emit ev = false)
                      evs).
      { eapply Forall_check_kind; [|exact Hch]. by intros []. }
      split; intros * Hin;
        (apply elem_of_cons in Hin as [Hin|Hin]; [discriminate|]);
        (apply elem_of_app in Hin as [Hin|Hin];
         [eapply Forall_forall in Hck; [|exact Hin]; by destruct Hck |
          apply list_elem_of_singleton in Hin; discriminate]).
    - assert (Hck : Forall (fun ev => is_update ev = false /\ is_emit ev = false)
                      evs).
      { eapply Forall_check_kind; [|exact Hch]. by intros []. }
      assert (Hupk : Forall (fun ev => is_update ev = true) upds).
      { eapply Forall_update_kind; [|exact Hup]. done. }
      split.
      + intros t' ty ops o Hin.
        apply elem_of_cons in Hin as [Hin|Hin]; [discriminate|].
        apply elem_of_app in Hin as [Hin|Hin].
        { eapply Forall_forall in Hck; [|exact Hin]. by destruct Hck. }
        apply elem_of_cons in Hin as [Hin|Hin]; [discriminate|].
        apply elem_of_app in Hin as [Hin|Hin].
        * eapply Forall_forall in Hup; [|exact Hin].
          destruct Hup as (ty' & ops' & o' & [= -> -> ->] & Hne & Hget). done.
        * exfalso.
          destruct Hfin as [(e1 & res' & -> & _) |
                            [(e1 & res0 & res' & r0 & created & -> & _) |
                             (ctx & r0 & created & -> & _)]];
            repeat (apply elem_of_cons in Hin as [Hin|Hin]; [discriminate|]);
            by apply elem_of_nil in Hin.
      + intros ev Hin.
        apply elem_of_cons in Hin as [Hin|Hin]; [discriminate|].
        apply elem_of_app in Hin as [Hin|Hin].
        { eapply Forall_forall in Hck; [|exact Hin]. by destruct Hck. }
        apply elem_of_cons in Hin as [Hin|Hin]; [discriminate|].
        apply elem_of_app in Hin as [Hin|Hin].
        * eapply Forall_forall in Hupk; [|exact Hin]. discriminate.
        * destruct Hfin as [(e1 & res' & -> & _) |
                            [(e1 & res0 & res' & r0 & created & -> & _) |
                             (ctx & r0 & created & -> & _)]];
            repeat (apply elem_of_cons in Hin as [Hin|Hin];
                    [try discriminate|]);
            try (by apply elem_of_nil in Hin).
          injection Hin as ->. apply assemble_updates. }
  destruct Hmain as [Hupd Hemit]. split; [done|]. split.
  - intros ev Hin. by apply Hemit.
  - intros ty Hget. split.
    + intros t ops o Hin. destruct (Hupd _ _ _ _ Hin) as [Hne Hget'].
      congruence.
    + intros ev us ops Hin Hev Hty.
      destruct (Hemit ev Hin) as [_ Hent].
      destruct (Hent us ty ops Hev Hty) as [Hne Hget']. congruence.
Qed.

(** The calls made before [transaction.create], and the records that
    [transaction.create] gets, in any trace of [create]. *)
Lemma create_checks w rq c r :
  create w rq = (c, r) ->
  exists evs,
    Forall (check_ev w rq evs) evs /\
    (forall ev, ev ∈ evs -> ev ∈ trace c) /\
    (forall ev, is_check ev = true -> ev ∈ trace c -> ev ∈ evs) /\
    (forall t ty rs o x,
       TxCreate t ty rs o ∈ trace c -> x ∈ rs -> enforced w rq evs x).
Proof.
  intros Hc.
  apply create_spec in Hc
    as [[(_ & [Ht | [e1 Ht]]) _] |
        (t & evs & Hch &
           [(e1 & res' & Ht & ->) |
            (rs & res & upds & fin & Ht & [Hall Hnone] & Hup & Hfin)])];
    rewrite Ht.
  - exists []. split; [constructor|]. split; [done|].
    split; [intros ev Hk Hin | intros * Hin Hx]; by apply elem_of_nil in Hin.
  - exists []. split; [constructor|].
    split; [intros ev Hin; by apply elem_of_nil in Hin|].
    split; [intros ev Hk Hin | intros * Hin Hx];
      apply list_elem_of_singleton in Hin; subst; discriminate.
  - exists evs. split; [done|].
    split; [intros ev Hin; apply elem_of_cons; right;
            apply elem_of_app; by left|].
    split; [intros ev Hk Hin | intros * Hin Hx];
      (apply elem_of_cons in Hin as [Hin|Hin]; [subst; discriminate|]);
      (apply elem_of_app in Hin as [Hin|Hin]).
    + done.
    + apply list_elem_of_singleton in Hin. subst. discriminate.
    + eapply Forall_forall in Hch; [|exact Hin].
      by apply check_ev_is_check in Hch.
    + apply list_elem_of_singleton in Hin. discriminate.
  - assert (Hupk : Forall (fun ev => is_update ev = true) upds).
    { eapply Forall_update_kind; [|exact Hup]. done. }
    assert (Hfk : Forall (fun ev => is_end ev || is_emit ev = true) fin).
    { destruct Hfin as [(e1 & res' & -> & _) |
                        [(e1 & res0 & res' & r0 & created & -> & _) |
                         (ctx & r0 & created & -> & _)]];
        by repeat constructor. }
    exists evs. split; [done|].
    split; [intros ev Hin; apply elem_of_cons; right;
            apply elem_of_app; by left|].
    split; [intros ev Hk Hin | intros * Hin Hx];
      (apply elem_of_cons in Hin as [Hin|Hin]; [subst; discriminate|]);
      (apply elem_of_app in Hin as [Hin|Hin]).
    + done.
    + exfalso. apply elem_of_cons in Hin as [Hin|Hin]; [subst; discriminate|].
      apply elem_of_app in Hin as [Hin|Hin].
      * eapply Forall_forall in Hupk; [|exact Hin]. by destruct ev.
      * eapply Forall_forall in Hfk; [|exact Hin]. by destruct ev.
    + eapply Forall_forall in Hch; [|exact Hin].
      by apply check_ev_is_check in Hch.
    + apply elem_of_cons in Hin as [Hin|Hin].
      * injection Hin as -> -> -> ->. by apply Hall.
      * exfalso. apply elem_of_app in Hin as [Hin|Hin].
        -- eapply Forall_forall in Hupk; [|exact Hin]. discriminate.
        -- eapply Forall_forall in Hfk; [|exact Hin]. discriminate.
Qed.

(** C8. Every record given to the input transform is a payload record
    from which the first handler has removed all the denormalized
    inverse fields.  A record that is enforced is such a stripped record
    or what the input transform returned for one; without an input
    transform it is a stripped record, and has none of the denormalized
    inverse fields.  A record that is checked, validated or handed to
    [transaction.create] is a record that has been enforced, as the
    enforcement has left it. *)
Theorem denormalized_fields_stripped (w : world) (rq : request)
    (c : closure) (r : result context) :
  create w rq = (c, r) ->
  (forall x after o,
     Transform x after o ∈ trace c ->
     x ∈ stripped w rq /\ clean (fields_of w rq) x) /\
  (forall ty x after o,
     Enforce ty x after o ∈ trace c ->
     clean (fields_of w rq) x \/
     exists x0 after0,
       clean (fields_of w rq) x0 /\
       Transform x0 after0 (Returns (Fulfilled x)) ∈ trace c) /\
  (forall x',
     handled (trace c) x' ->
     exists x, Enforce (type rq) x x' None ∈ trace c) /\
  (transforms w !! type rq = Some None ->
   forall ty x after o,
     Enforce ty x after o ∈ trace c ->
     x ∈ stripped w rq /\ clean (fields_of w rq) x).
Proof.
  intros Hc. apply create_checks in Hc as (evs & Hch & Hsub & Hsup & Hcr).
  assert (Hstr : forall x, x ∈ stripped w rq -> clean (fields_of w rq) x).
  { intros x. apply strip_clean. }
  assert (Horigin : forall ty x after o,
            Enforce ty x after o ∈ trace c -> origin w rq evs x).
  { intros ty x after o Hin. apply Hsup in Hin; [|done].
    eapply Forall_forall in Hch; [|exact Hin]. by destruct Hch. }
  assert (Henf : forall x', handled (trace c) x' -> enforced w rq evs x').
  { intros x' [(o & Hin) | [(rs & o & Hin & Hx) |
                 (t & ty & rs & o & Hin & Hx)]].
    - apply Hsup in Hin; [|done].
      eapply Forall_forall in Hch; [|exact Hin]. done.
    - apply Hsup in Hin; [|done].
      eapply Forall_forall in Hch; [|exact Hin]. by apply Hch.
    - by eapply Hcr. }
  split; [|split; [|split]].
  - intros x after o Hin. apply Hsup in Hin; [|done].
    eapply Forall_forall in Hch; [|exact Hin]. destruct Hch as [Hx _].
    split; [done | by apply Hstr].
  - intros ty x after o Hx.
    destruct (Horigin _ _ _ _ Hx) as [Hs | (x0 & after0 & Hx0 & Hev)].
    + left. by apply Hstr.
    + right. exists x0, after0. split; [by apply Hstr | by apply Hsub].
  - intros x' Hx'. destruct (Henf x' Hx') as (x & _ & Hin).
    exists x. by apply Hsub.
  - intros Hno ty x after o Hx.
    destruct (Horigin _ _ _ _ Hx) as [Hs | (x0 & after0 & Hx0 & Hev)].
    + split; [done | by apply Hstr].
    + eapply Forall_forall in Hch; [|exact Hev].
      destruct Hch as [_ [f Hf]]. congruence.
Qed.


(** C9 (as amended).  A [null] identifier is skipped: it reaches neither
    [getUpdate] nor [addId].  A created record whose link fields are all
    absent, [null] or arrays of [null] adds no operation: all it can do
    to [updates] is to add entries without operations, for the linked
    types of the fields it has; when the fields are all absent it leaves
    [updates] and the cache exactly as they were. *)
Theorem null_links_add_no_operation (rts : gmap string fieldDefs)
    (fields : option fieldDefs) (links : list string)
    (language : option string) (b b' : builder) (r : record) :
  (forall field, field ∈ links -> null_or_absent r field) ->
  record_step rts fields links language b r = Ok b' ->
  grown_by_empty (linked_by fields links r) b.1 b'.1 /\
  ((forall field, field ∈ links -> record_get r field = None) -> b' = b) /\
  (forall pk ty inv arr b0, add_linked_id pk ty inv arr b0 Null = b0).
Proof.
  intros Hnull. unfold record_step.
  destruct (r !! primaryKey); [|discriminate]. intros Hfold.
  split; [|split].
  - revert Hfold.
    apply (fold_result_ind
             (fun b1 => grown_by_empty (linked_by fields links r) b.1 b1.1));
      [|apply grown_by_empty_refl].
    intros b1 field b2 Hin Hb1 Hstep. rewrite elem_of_reverse in Hin.
    destruct (link_step_null _ _ _ _ _ _ _ Hin (Hnull _ Hin) Hstep) as [Hg _].
    by eapply grown_by_empty_trans.
  - intros Habs. revert Hfold.
    apply (fold_result_ind (fun b1 => b1 = b)); [|done].
    intros b1 field b2 Hin -> Hstep. rewrite elem_of_reverse in Hin.
    destruct (link_step_null _ _ _ _ _ _ _ Hin (Hnull _ Hin) Hstep)
      as [_ Heq].
    by apply Heq, Habs.
  - intros. apply add_linked_id_Null.
Qed.
End Claims.

(** * The claims on the schema of section 8 *)

(** C6 on a request without payload. *)
Lemma create_rejects_missing_payload_witness :
  let rq := Request None "person" (Some (Meta None)) in
  (payload rq = None \/ payload rq = Some []) /\
  (create quiet_world rq).2
    = Err (BadRequestError (@message demo_required "CreateRecordsInvalid" None)) /\
  trace (create quiet_world rq).1 = [] /\
  Forall (fun ev => is_begin ev = false) (trace (create quiet_world rq).1).
Proof.
  intros rq. split; [left; reflexivity|].
  apply (create_rejects_missing_payload quiet_world rq). left. reflexivity.
Defined.



(** C4 on a request that succeeds. *)
Lemma change_event_once_after_commit_witness :
  let w := quiet_world in
  let rq := demo_request [P1; P2] in
  (exists ctx, (create w rq).2 = Ok ctx) /\
  exists pre t ev,
    trace (create w rq).1
      = pre ++ [EndTransaction t None (Returns (Fulfilled ())); Emit ev] /\
    Forall (fun e => is_emit e = false /\ is_end e = false) pre.
Proof.
  intros w rq.
  assert (Hok : match (create w rq).2 with Ok _ => True | Err _ => False end)
    by (vm_compute; exact I).
  destruct (create w rq) as [c [ctx|e]] eqn:Hrun; [|contradiction].
  split; [by exists ctx|].
  exact (change_event_once_after_commit w rq c (Ok ctx) Hrun).
Defined.


(** C5 on a request whose second record fails enforcement. *)
Lemma enforcement_precedes_create_witness :
  let w := strict_world in
  let rq := demo_request [P1; P2] in
  exists ty x after e,
    Enforce ty x after (Some e) ∈ trace (create w rq).1 /\
    Forall (fun ev => is_create ev = false) (trace (create w rq).1).
Proof.
  intros w rq.
  assert (Hkind : match trace (create w rq).1 !! 3 with
                  | Some (Enforce _ _ _ (Some _)) => True
                  | _ => False
                  end) by (vm_compute; exact I).
  destruct (create w rq) as [c r] eqn:Hrun. simpl in *.
  destruct (trace c !! 3) as [ev|] eqn:H3; [|contradiction].
  destruct ev as [| |ty x after [e|]| | | | | |]; try contradiction.
  exists ty, x, after, e.
  assert (Hin : Enforce ty x after (Some e) ∈ trace c)
    by (by eapply list_elem_of_lookup_2).
  split; [exact Hin|].
  exact (proj1 (enforcement_precedes_create w rq c r Hrun) ty x after e Hin).
Defined.

(** C7 on a request whose only record has a [null] link: [updates] ends
    with an entry for the linked type that holds no operation; there is no
    update call and the event has no entry for the type. *)
Lemma empty_update_types_skipped_witness :
  let w := quiet_world in
  let rq := demo_request [P3] in
  upd_get (updates (create w rq).1) "animal" = Some [] /\
  (forall t ops o, TxUpdate t "animal" ops o ∉ trace (create w rq).1) /\
  (forall ev us ops,
     Emit ev ∈ trace (create w rq).1 -> ev_update ev = Some us ->
     ("animal", ops) ∉ us).
Proof.
  intros w rq.
  assert (Hget : upd_get (updates (create w rq).1) "animal" = Some [])
    by (vm_compute; reflexivity).
  split; [exact Hget|].
  exact (proj2 (proj2 (empty_update_types_skipped w rq _ _
                         (surjective_pairing (create w rq))))
           "animal" Hget).
Defined.

(** C8 on a record that comes with a denormalized inverse field. *)
Lemma denormalized_fields_stripped_witness :
  let w := quiet_world in
  let rq := demo_request [P4] in
  has_denormalizedInverse (fields_of w rq) "followers" = true /\
  P4 !! "followers" = Some (Arr [Num 1; Num 2]) /\
  forall ty x after o,
    Enforce ty x after o ∈ trace (create w rq).1 ->
    x !! "followers" = None.
Proof.
  intros w rq.
  assert (Hd : has_denormalizedInverse (fields_of w rq) "followers" = true)
    by (vm_compute; reflexivity).
  assert (Htf : transforms w !! type rq = Some None)
    by apply lookup_singleton_eq.
  split; [exact Hd|]. split; [vm_compute; reflexivity|].
  intros ty x after o Hx.
  exact (proj2 (proj2 (proj2 (proj2 (denormalized_fields_stripped w rq _ _
                         (surjective_pairing (create w rq)))))
           Htf ty x after o Hx) "followers" Hd).
Defined.



(** C9 as stated fails: the created record [P3] has a [null] link and
    nothing else, and yet it leaves an entry in [updates]. *)
Lemma null_link_leaves_empty_entry :
  (forall field, field ∈ ["pets"] -> null_or_absent P3 field) /\
  exists b' : builder (H := demo_required),
    record_step demo_recordTypes (Some person_fields) ["pets"] None ([], ∅) P3
      = Ok b' /\
    b'.1 = [("animal", [])] /\ b'.1 <> [].
Proof.
  split.
  - intros field Hin. apply list_elem_of_singleton in Hin. subst field.
    unfold null_or_absent.
    assert (record_get P3 "pets" = Some (Prim Null)) as ->
      by (vm_compute; reflexivity).
    by repeat constructor.
  - assert (Hfact : match record_step (H := demo_required) demo_recordTypes
                            (Some person_fields) ["pets"] None ([], ∅) P3 with
                    | Ok b' => b'.1
                    | Err _ => []
                    end = [("animal", [])]) by (vm_compute; reflexivity).
    destruct (record_step _ _ _ _ _ _) as [b'|e]; [|discriminate].
    exists b'. split; [done|]. split; [done|]. by rewrite Hfact.
Defined.

(** C9 (as amended) on the same record. *)
Lemma null_links_add_no_operation_witness :
  (forall field, field ∈ ["pets"] -> null_or_absent P3 field) /\
  exists b' : builder (H := demo_required),
    record_step demo_recordTypes (Some person_fields) ["pets"] None ([], ∅) P3
      = Ok b' /\
    grown_by_empty (linked_by (Some person_fields) ["pets"] P3)
      ([] : updates_t (H := demo_required)) b'.1.
Proof.
  assert (Hnull : forall field, field ∈ ["pets"] -> null_or_absent P3 field).
  { intros field Hin. apply list_elem_of_singleton in Hin. subst field.
    unfold null_or_absent.
    assert (record_get P3 "pets" = Some (Prim Null)) as ->
      by (vm_compute; reflexivity).
    by repeat constructor. }
  assert (Hok : match record_step (H := demo_required) demo_recordTypes
                        (Some person_fields) ["pets"] None ([], ∅) P3 with
                | Ok _ => True
                | Err _ => False
                end) by (vm_compute; exact I).
  split; [exact Hnull|].
  destruct (record_step _ _ _ _ _ _) as [b'|e] eqn:Hstep; [|contradiction].
  exists b'. split; [done|].
  exact (proj1 (null_links_add_no_operation demo_recordTypes
                  (Some person_fields) ["pets"] None ([], ∅) b' P3 Hnull Hstep)).
Defined.

(** C2 as stated fails on the scenario of section 8: two created persons
    list the same animal; its one operation replaces the singular field
    [owner], so it holds the back-reference of one person only. *)
Lemma singular_inverse_keeps_one_backref :
  exists b : builder (H := demo_required),
    build_updates demo_recordTypes (Some person_fields) ["pets"] None
      ([], ∅) [P1; P2] = Ok b /\
    (fun ops : list UpdateOperation =>
       (fun op => (op_primaryKey op, fieldMutations op !! "owner")) <$> ops)
    <$> @upd_get UpdateOperation b.1 "animal"
    = Some [(Str "A1", Some (ReplaceScalar (Prim (Num 1))))] /\
    ~ all_backrefs_kept "id" demo_recordTypes (Some person_fields) ["pets"]
        [P1; P2] b.1.
Proof.
  assert (Hfact :
    match build_updates (H := demo_required) demo_recordTypes
            (Some person_fields) ["pets"] None ([], ∅) [P1; P2] with
    | Ok b =>
        (fun ops : list UpdateOperation =>
           (fun op => (op_primaryKey op, fieldMutations op !! "owner")) <$> ops)
        <$> @upd_get UpdateOperation b.1 "animal"
    | Err _ => None
    end = Some [(Str "A1", Some (ReplaceScalar (Prim (Num 1))))])
    by (vm_compute; reflexivity).
  destruct (build_updates _ _ _ _ _ _) as [b|e] eqn:Hbuild; [|discriminate].
  exists b. split; [done|]. split; [exact Hfact|].
  intros Hall.
  destruct (Hall P2 "animal" (Str "A1") "owner" false)
    as (ops & op & Hget & Hin & _ & Hback).
  - apply elem_of_cons. right. apply elem_of_cons. by left.
  - exists "pets". split; [apply elem_of_cons; by left|].
    exists (FieldDef (Some "animal") (Some "owner") true false),
      (Arr [Str "A1"]), animal_fields,
      (FieldDef (Some "person") (Some "pets") false false).
    split; [vm_compute; reflexivity|]. split; [vm_compute; reflexivity|].
    split; [vm_compute; reflexivity|]. split; [reflexivity|].
    split; [vm_compute; reflexivity|]. split; [vm_compute; reflexivity|].
    split; [reflexivity|]. split; [|discriminate].
    apply elem_of_cons. by left.
  - rewrite Hget in Hfact. simpl in Hfact. injection Hfact as Hfact.
    destruct ops as [|op0 [|op1 ops]]; try discriminate.
    injection Hfact as _ Hown.
    apply list_elem_of_singleton in Hin. subst op.
    unfold holds_backref in Hback. rewrite Hown in Hback.
    assert (P2 !! "id" = Some (Prim (Num 2))) as Hid by (vm_compute; reflexivity).
    rewrite Hid in Hback. discriminate.
Defined.

(** C2 (as amended) on the same scenario. *)
Lemma updates_merged_per_target_witness :
  exists b : builder (H := demo_required),
    build_updates demo_recordTypes (Some person_fields) ["pets"] None
      ([], ∅) [P1; P2] = Ok b /\
    one_operation_per_target b.1 /\
    backrefs_merged "id" demo_recordTypes (Some person_fields) ["pets"]
      [P1; P2] b.1.
Proof.
  assert (Hok :
    match build_updates (H := demo_required) demo_recordTypes
            (Some person_fields) ["pets"] None ([], ∅) [P1; P2] with
    | Ok _ => True
    | Err _ => False
    end) by (vm_compute; exact I).
  destruct (build_updates _ _ _ _ _ _) as [b|e] eqn:Hbuild; [|contradiction].
  exists b. split; [done|].
  exact (updates_merged_per_target "id" demo_message demo_recordTypes
           (Some person_fields) ["pets"] None [P1; P2] b Hbuild).
Defined.

(** * More properties of create.js *)

Section CallCounts.
Context `{Required}.

Lemma calls_app kind (tr1 tr2 : list event) :
  calls kind (tr1 ++ tr2) = calls kind tr1 + calls kind tr2.
Proof. unfold calls. by rewrite filter_app, length_app. Qed.

Lemma calls_cons kind ev (tr : list event) :
  calls kind (ev :: tr) = (if kind ev then 1 else 0) + calls kind tr.
Proof.
  unfold calls. destruct (kind ev) eqn:Hk.
  - by rewrite filter_cons_True.
  - rewrite filter_cons_False; [done|]. by rewrite Hk.
Qed.

Lemma calls_none kind (tr : list event) :
  Forall (fun ev => kind ev = false) tr -> calls kind tr = 0.
Proof.
  induction 1 as [|ev tr Hev _ IH]; [done|].
  by rewrite calls_cons, Hev, IH.
Qed.

Lemma calls_checks kind w rq evs' evs :
  (forall ev, is_check ev = true -> kind ev = false) ->
  Forall (check_ev w rq evs') evs -> calls kind evs = 0.
Proof. intros Hk Hch. apply calls_none. by eapply Forall_check_kind. Qed.

Lemma calls_updates kind c t upds :
  (forall ev, is_update ev = true -> kind ev = false) ->
  Forall (update_ev c t) upds -> calls kind upds = 0.
Proof. intros Hk Hup. apply calls_none. by eapply Forall_update_kind. Qed.

(** X1. A request calls [beginTransaction], [transaction.create], the
    commit, the abort and [emit] at most once each (nothing is retried),
    and the first call it makes is [beginTransaction]. *)
Theorem each_call_at_most_once (w : world) (rq : request)
    (c : closure) (r : result context) :
  create w rq = (c, r) ->
  calls is_begin (trace c) <= 1 /\
  calls is_create (trace c) <= 1 /\
  calls is_commit (trace c) <= 1 /\
  calls is_abort (trace c) <= 1 /\
  calls is_emit (trace c) <= 1 /\
  (forall ev, head (trace c) = Some ev -> is_begin ev = true).
Proof.
  intros Hc. apply create_spec in Hc
    as [[(_ & [Ht | [e Ht]]) _] |
        (t & evs & Hch &
           [(e & res' & Ht & ->) |
            (rs & res & upds & fin & Ht & _ & Hup & Hfin)])];
    rewrite Ht.
  - split_and!; try (rewrite ?calls_cons; cbn; lia). discriminate.
  - split_and!; try (rewrite ?calls_cons; cbn; lia). by intros ev [= <-].
  - rewrite !calls_cons, !calls_app.
    rewrite !(calls_checks _ w rq evs evs) by (done || by intros []).
    split_and!; try (rewrite ?calls_cons; cbn; lia). by intros ev [= <-].
  - rewrite !calls_cons, !calls_app, !calls_cons, !calls_app.
    rewrite !(calls_checks _ w rq evs evs) by (done || by intros []).
    rewrite !(calls_updates _ c t upds) by (done || by intros []).
    destruct Hfin as [(e1 & res' & -> & _) |
                      [(e1 & res0 & res' & r0 & created & -> & _) |
                       (ctx & r0 & created & -> & _)]];
      (split_and!; try (rewrite ?calls_cons; cbn; lia)); by intros ev [= <-].
Qed.
End CallCounts.

Section MoreTransaction.
Context `{Required}.

(** X2. Every call on a transaction ([create], [update],
    [endTransaction]) is made on the handle that [beginTransaction] was
    fulfilled with, which is the first call of the trace. *)
Theorem one_transaction_handle (w : world) (rq : request)
    (c : closure) (r : result context) (ev : event) (t : txn) :
  create w rq = (c, r) ->
  ev ∈ trace c -> txn_of ev = Some t ->
  head (trace c) = Some (BeginTransaction (Fulfilled t)).
Proof.
  intros Hc Hin Ht.
  assert (Hck : forall evs' evs, Forall (check_ev w rq evs') evs ->
                                 ev ∈ evs -> False).
  { intros evs' evs Hch Hev. eapply Forall_forall in Hch; [|exact Hev].
    apply check_ev_is_check in Hch. by destruct ev. }
  apply create_spec in Hc
    as [[(_ & [Htr | [e Htr]]) _] |
        (t0 & evs & Hch &
           [(e & res' & Htr & ->) |
            (rs & res & upds & fin & Htr & _ & Hup & Hfin)])];
    rewrite Htr in Hin |- *.
  - by apply elem_of_nil in Hin.
  - apply list_elem_of_singleton in Hin. by subst ev.
  - split_in Hin; subst; try done; try (exfalso; by eapply Hck).
    by injection Ht as ->.
  - assert (Hfk : forall ev', ev' ∈ fin -> txn_of ev' = Some t -> t = t0).
    { intros ev' Hev Ht'.
      destruct Hfin as [(e1 & res' & -> & _) |
                        [(e1 & res0 & res' & r0 & created & -> & _) |
                         (ctx & r0 & created & -> & _)]];
        split_in Hev; subst ev'; simpl in Ht'; congruence. }
    split_in Hin; subst; try done; try (exfalso; by eapply Hck).
    + by injection Ht as ->.
    + eapply Forall_forall in Hup; [|exact Hin].
      destruct Hup as (ty & ops & o & -> & _). by injection Ht as ->.
    + by rewrite (Hfk ev Hin Ht).
Qed.

(** X3. When the commit fails (its promise is rejected, or the call
    throws), [endTransaction] is called a second time on the same
    transaction, now with the error of the commit; these are the last two
    calls and nothing is emitted.  The error of the commit is what the
    catch handler rethrows: the caller gets it whenever the abort
    returns. *)
Theorem failed_commit_is_aborted (w : world) (rq : request)
    (c : closure) (r : result context) (t : txn) (res0 : outcome unit)
    (e : error) :
  create w rq = (c, r) ->
  EndTransaction t None res0 ∈ trace c ->
  settle_outcome res0 = Err e ->
  exists pre res',
    r = Err (rethrown e res') /\
    trace c = pre ++ [EndTransaction t None res0;
                      EndTransaction t (Some e) res'] /\
    Forall (fun ev => is_end ev = false /\ is_emit ev = false) pre.
Proof.
  intros Hc Hin Hfail.
  assert (Hck : forall evs' evs,
            Forall (check_ev w rq evs') evs ->
            Forall (fun ev => is_end ev = false /\ is_emit ev = false) evs).
  { intros evs' evs Hch. eapply Forall_check_kind; [|exact Hch]. by intros []. }
  assert (Hno : forall evs,
            Forall (fun ev => is_end ev = false /\ is_emit ev = false) evs ->
            EndTransaction t None res0 ∈ evs -> False).
  { intros evs Hall Hev. eapply Forall_forall in Hall; [|exact Hev].
    by destruct Hall. }
  apply create_spec in Hc
    as [[(_ & [Htr | [e1 Htr]]) _] |
        (t0 & evs & Hch &
           [(e1 & res' & Htr & ->) |
            (rs & res & upds & fin & Htr & _ & Hup & Hfin)])];
    rewrite Htr in Hin |- *.
  - by apply elem_of_nil in Hin.
  - apply list_elem_of_singleton in Hin. discriminate.
  - exfalso. split_in Hin; try discriminate. exact (Hno _ (Hck _ _ Hch) Hin).
  - assert (Hupk : Forall (fun ev => is_end ev = false /\ is_emit ev = false)
                     upds).
    { eapply Forall_update_kind; [|exact Hup]. by intros []. }
    destruct Hfin as [(e1 & res' & -> & -> & _) |
                      [(e1 & res1 & res' & r0 & created & -> & Hres1 & -> & _) |
                       (ctx & r0 & created & -> & -> & _)]];
      split_in Hin; try discriminate;
      try (exfalso; exact (Hno _ (Hck _ _ Hch) Hin));
      try (exfalso; exact (Hno _ Hupk Hin)).
    + injection Hin as <- <-.
      assert (e1 = e) as -> by congruence.
      exists (BeginTransaction (Fulfilled t) :: evs ++
                TxCreate t (type rq) rs res :: upds), res'.
      split; [done|]. split; [solve_trace|].
      constructor; [done|]. apply Forall_app. split; [by eapply Hck|].
      by constructor.
    + injection Hin as _ ->. discriminate Hfail.
Qed.
End MoreTransaction.

(** ** The handlers once more, for what they add to the trace *)
Section Handlers.
Context `{Required}.

Lemma then_Err {A B} c e (h : closure -> A -> closure * result B) :
  then_ (c, Err e) h = (c, Err e).
Proof. done. Qed.

Lemma fold_result_fails {A B} (f : B -> A -> result B) l x :
  x ∈ l -> (forall b, is_err (f b x)) -> forall b, is_err (fold_result f b l).
Proof.
  intros Hin Hx. induction l as [|y l IH]; intros b; simpl.
  - by apply elem_of_nil in Hin.
  - apply elem_of_cons in Hin as [<-|Hin].
    + destruct (Hx b) as [e ->]. by exists e.
    + destruct (f b y) as [b'|e]; [by apply IH | by exists e].
Qed.

(** A created record without primary key makes the loop of lines 121-152
    throw. *)
Lemma build_updates_missing_key rts fields links language (b : builder)
    records x :
  x ∈ records -> x !! primaryKey = None ->
  is_err (build_updates rts fields links language b records).
Proof.
  intros Hin Hx. unfold build_updates.
  apply (fold_result_fails _ _ x); [by apply elem_of_reverse|].
  intros b'. unfold record_step. rewrite Hx. by eexists.
Qed.

Lemma build_updates_missing_key_last rts fields links language (b : builder)
    records x :
  last records = Some x -> x !! primaryKey = None ->
  build_updates rts fields links language b records
  = Err (Error (message "CreateRecordMissingID" language)).
Proof.
  intros Hlast Hx. unfold build_updates.
  apply last_Some in Hlast as [l' ->].
  rewrite reverse_snoc. simpl. unfold record_step at 1. by rewrite Hx.
Qed.

(** The update calls are made for every type that has operations, when
    none of them throws; the promise of each is among those handed to
    [Promise.all]. *)
Lemma map_update_complete w rq l c c' ps t evs :
  map_ (update_type w rq) l c = (c', Ok ps) ->
  transaction c = Some t ->
  trace c' = trace c ++ evs ->
  forall ty ops,
    ty ∈ l -> upd_get (updates c) ty = Some ops -> ops <> [] ->
    exists o, o ∈ ps /\ TxUpdate t ty ops o ∈ evs.
Proof.
  revert c c' ps evs.
  induction l as [|x l IH]; intros c c' ps evs Hm Htx Htr ty ops Hin.
  { by apply elem_of_nil in Hin. }
  simpl in Hm. unfold update_type at 1 in Hm.
  destruct (upd_get (updates c) x) as [[|op0 ops0]|] eqn:Hx; [| |discriminate].
  - destruct (map_ (update_type w rq) l c) as [c2 [ps2|e]] eqn:Hm2;
      [|discriminate]. injection Hm as <- <-.
    intros Hget Hne. apply elem_of_cons in Hin as [->|Hin]; [congruence|].
    destruct (IH c c2 ps2 evs Hm2 Htx Htr ty ops Hin Hget Hne) as (o & Ho & Hev).
    exists o. split; [|done]. apply elem_of_cons. by right.
  - rewrite Htx in Hm.
    set (o := transaction_update w (trace c) t x (op0 :: ops0) (meta rq)) in Hm.
    set (c1 := emit_event c (TxUpdate t x (op0 :: ops0) o)) in Hm.
    destruct (map_ (update_type w rq) l c1) as [c2 [ps2|e]] eqn:Hm2;
      [|discriminate]. injection Hm as <- <-.
    intros Hget Hne.
    destruct (map_update_spec _ _ _ _ _ _ Hm2) as (_ & evs2 & Ht & _).
    assert (evs = TxUpdate t x (op0 :: ops0) o :: evs2) as ->.
    { rewrite Ht in Htr. simpl in Htr. rewrite <- app_assoc in Htr.
      by apply app_inv_head in Htr. }
    apply elem_of_cons in Hin as [->|Hin].
    + exists o. split; apply elem_of_cons; left; congruence.
    + destruct (IH c1 c2 ps2 evs2 Hm2 Htx Ht ty ops Hin Hget Hne)
        as (o' & Ho' & Hev).
      exists o'. split; apply elem_of_cons; by right.
Qed.

Lemma rejections_nil {A} (ps : list (settled A)) o :
  rejections ps = [] -> o ∈ ps -> exists a, o = Fulfilled a.
Proof.
  intros Hr Ho. destruct o as [a|e]; [by exists a|].
  assert (He : e ∈ rejections ps).
  { apply list_elem_of_omap. by exists (Rejected e). }
  rewrite Hr in He. by apply elem_of_nil in He.
Qed.

(** What the fifth handler does. *)
Lemma on_created_spec w rq c created c' (r : result (list unit)) t :
  on_created w rq c created = (c', r) ->
  transaction c = Some t ->
  transaction c' = Some t /\ response c' = Some created /\
  records c' = Some (foreign created) /\
  exists upds,
    trace c' = trace c ++ upds /\ Forall (update_ev c' t) upds /\
    (created = [] ->
     upds = [] /\
     r = Err (BadRequestError (message "CreateRecordsFail" (language_of rq)))) /\
    (forall e,
       build_updates (recordTypes w) (fields_of w rq)
         (links_of (fields_of w rq)) (language_of rq) (updates c, ∅) created
       = Err e ->
       created <> [] -> upds = [] /\ r = Err e) /\
    (forall l, r = Ok l ->
       created <> [] /\
       exists b,
         build_updates (recordTypes w) (fields_of w rq)
           (links_of (fields_of w rq)) (language_of rq) (updates c, ∅) created
         = Ok b /\
         updates c' = b.1 /\
         forall ty ops,
           upd_get b.1 ty = Some ops -> ops <> [] ->
           TxUpdate t ty ops (Fulfilled ()) ∈ upds).
Proof.
  unfold on_created. intros Hh Htx.
  destruct created as [|r0 created].
  { injection Hh as <- <-. simpl. split_and!; try done.
    exists []. rewrite app_nil_r. split_and!; try done. }
  destruct (build_updates _ _ _ _ _ _) as [b|e] eqn:Hb.
  2:{ injection Hh as <- <-. simpl. split_and!; try done.
      exists []. rewrite app_nil_r. split_and!; try done.
      by intros e' [= <-] _. }
  set (c2 := set_updates _ b.1) in Hh.
  apply all_map_inv in Hh as [(e & Hm & ->) | (ps & Hm & ->)].
  - destruct (map_update_spec _ _ _ _ _ _ Hm)
      as ((Hu & Ht' & Hrec & Hresp) & upds & Htr & Hup).
    split_and!; try (simpl in *; congruence).
    exists upds. split; [done|]. split; [|split_and!; try done].
    eapply Forall_impl; [exact Hup|].
    intros ev (t' & ty & ops & o & -> & Hne & _ & Hget & Ht2).
    exists ty, ops, o. rewrite Hu.
    assert (t' = t) as -> by (simpl in Ht2; congruence). done.
  - destruct (map_update_spec _ _ _ _ _ _ Hm)
      as ((Hu & Ht' & Hrec & Hresp) & upds & Htr & Hup).
    split_and!; try (simpl in *; congruence).
    exists upds. split; [done|]. split; [|split_and!; try done].
    { eapply Forall_impl; [exact Hup|].
      intros ev (t' & ty & ops & o & -> & Hne & _ & Hget & Ht2).
      exists ty, ops, o. rewrite Hu.
      assert (t' = t) as -> by (simpl in Ht2; congruence). done. }
    intros l Hl. apply promise_all_Ok in Hl as [Hrej _]. split; [done|].
    exists b. split; [done|]. split; [done|].
    intros ty ops Hget Hne.
    destruct (map_update_complete w rq _ c2 c' ps t upds Hm Htx Htr ty ops)
      as (o & Ho & Hev); try done; cycle 1.
    { destruct (rejections_nil ps o Hrej Ho) as [[] ->]. done. }
    clear -Hget. simpl. induction b.1 as [|[k v] us IH]; [discriminate|].
    simpl in *. apply elem_of_cons.
    destruct (decide (k = ty)) as [->|Hne]; [by left | right; by apply IH].
Qed.
End Handlers.

(** ** The chain after [transaction.create] *)
Section AfterCreate.
Context `{Required}.

Lemma create_unfold_failed w rq c0 e :
  upto_create w rq = (c0, Err e) ->
  create w rq =
  match transaction c0 with
  | Some t =>
      let res := transaction_endTransaction w (trace c0) t (Some e) in
      (emit_event c0 (EndTransaction t (Some e) res), Err (rethrown e res))
  | None => (c0, Err e)
  end.
Proof.
  intros Hup. unfold create, chain, upto_updates. rewrite Hup. simpl.
  unfold on_error. by destruct (transaction c0).
Qed.

Lemma create_unfold_created w rq c0 created t :
  upto_create w rq = (c0, Ok created) -> transaction c0 = Some t ->
  create w rq =
  let (c1, r1) := on_created w rq c0 created in
  match r1 with
  | Err e =>
      let res := transaction_endTransaction w (trace c1) t (Some e) in
      (emit_event c1 (EndTransaction t (Some e) res), Err (rethrown e res))
  | Ok _ =>
      let res := transaction_endTransaction w (trace c1) t None in
      let c2 := emit_event c1 (EndTransaction t None res) in
      match settle_outcome res with
      | Ok _ =>
          (emit_event c2
             (Emit (assemble (type rq) (default [] (records c1)).*2
                      (updates c1))),
           Ok (Context rq (Some t) (response c1)))
      | Err e =>
          let res' := transaction_endTransaction w (trace c2) t (Some e) in
          (emit_event c2 (EndTransaction t (Some e) res'),
           Err (rethrown e res'))
      end
  end.
Proof.
  intros Hup Htx. unfold create, chain, upto_updates. rewrite Hup. simpl.
  destruct (on_created w rq c0 created) as [c1 r1] eqn:Hon.
  destruct (on_created_spec _ _ _ _ _ _ _ Hon Htx) as (Htx1 & _).
  destruct r1 as [l|e]; simpl.
  - unfold on_updated. rewrite Htx1.
    destruct (settle_outcome (transaction_endTransaction w (trace c1) t None))
      as [[]|e] eqn:He; simpl.
    + unfold on_committed. simpl. by rewrite Htx1.
    + unfold on_error. simpl. by rewrite Htx1.
  - unfold on_error. by rewrite Htx1.
Qed.

(** The state in which [transaction.create] has just been answered. *)
Lemma upto_create_Ok w rq c0 created :
  upto_create w rq = (c0, Ok created) ->
  updates c0 = [] /\
  exists t evs rs,
    transaction c0 = Some t /\
    trace c0 = BeginTransaction (Fulfilled t) :: evs ++
                 [TxCreate t (type rq) rs (Fulfilled created)] /\
    Forall (check_ev w rq evs) evs /\ all_enforced w rq evs rs.
Proof.
  intros Hup. apply upto_create_spec in Hup
    as (Hu & _ & [[_ [e He]] | (t & evs & [[_ [e He]] |
          (rs & res & (Htx & Htr & Hch) & Hr & Henf)])]); try discriminate.
  split; [done|]. exists t, evs, rs. destruct res as [a|e]; [|discriminate].
  injection Hr as ->. done.
Qed.

Lemma upto_create_Err w rq c0 e t ty rs created :
  upto_create w rq = (c0, Err e) ->
  TxCreate t ty rs (Fulfilled created) ∉ trace c0.
Proof.
  intros Hup Hin. apply upto_create_spec in Hup
    as (_ & _ & [[(_ & [Htr | [e' Htr]]) _] | (t0 & evs & [[(_ & Htr & Hch) _] |
          (rs0 & res & (_ & Htr & Hch) & Hr & _)])]);
    rewrite Htr in Hin; split_in Hin; try done;
    try (eapply Forall_forall in Hch; [|exact Hin]; done).
  destruct res; [discriminate|]. done.
Qed.

(** The create entry of the change event. *)
Lemma assemble_create ty rs (us : updates_t) :
  ev_create (assemble ty rs us) = (ty, rs).
Proof.
  unfold assemble.
  assert (Hgen : forall keys ev0,
            ev_create (foldl (add_update_entry us) ev0 keys) = ev_create ev0).
  { induction keys as [|k keys IH]; intros ev0; [done|]. simpl.
    rewrite IH. unfold add_update_entry.
    by destruct (upd_get us k) as [[|]|]. }
  by rewrite Hgen.
Qed.

(** Every type of [updates] that holds an operation has its entry in the
    change event. *)
Lemma assemble_complete ty rs (us : updates_t) k ops :
  upd_get us k = Some ops -> ops <> [] ->
  exists us', ev_update (assemble ty rs us) = Some us' /\
              upd_get us' k = Some ops.
Proof.
  intros Hget Hne. unfold assemble.
  set (Q := fun ev : eventData =>
         exists us', ev_update ev = Some us' /\ upd_get us' k = Some ops).
  assert (Hkeep : forall ev k', Q ev -> Q (add_update_entry us ev k')).
  { intros ev k' (us' & Hev & Hk). unfold add_update_entry.
    destruct (upd_get us k') as [[|op0 ops0]|] eqn:Hk'; try by exists us'.
    eexists. split; [done|]. rewrite Hev. simpl. rewrite upd_get_put.
    destruct (decide (k = k')) as [->|Hneq]; [congruence | done]. }
  assert (Hput : forall ev, Q (add_update_entry us ev k)).
  { intros ev. unfold add_update_entry. rewrite Hget.
    destruct ops as [|op0 ops0]; [done|].
    eexists. split; [done|]. rewrite upd_get_put. by rewrite decide_True. }
  assert (Hgen : forall keys ev0,
            Q ev0 \/ k ∈ keys -> Q (foldl (add_update_entry us) ev0 keys)).
  { induction keys as [|k' keys IH]; intros ev0 [HQ|Hin]; simpl.
    - done.
    - by apply elem_of_nil in Hin.
    - apply IH. left. by apply Hkeep.
    - apply elem_of_cons in Hin as [<-|Hin]; apply IH; [left|right]; done. }
  apply Hgen. right.
  clear -Hget. induction us as [|[k' v] us IH]; [discriminate|].
  simpl in *. apply elem_of_cons.
  destruct (decide (k' = k)) as [->|Hneq]; [by left | right; by apply IH].
Qed.

(** X4. A record returned by [transaction.create] without a primary key
    fails the request: no update is written, nothing is committed or
    emitted, and the call that follows [transaction.create] is the abort,
    whose error is [rethrown] to the caller.  When the record is the last
    of the result (the first one the loop visits), the error is the one
    of line 126. *)
Theorem created_record_without_key_aborts (w : world) (rq : request)
    (c : closure) (r : result context) (t : txn) (ty : string)
    (rs created : list record) (x : record) :
  create w rq = (c, r) ->
  TxCreate t ty rs (Fulfilled created) ∈ trace c ->
  x ∈ created -> x !! primaryKey = None ->
  exists pre e res',
    r = Err (rethrown e res') /\
    trace c = pre ++ [TxCreate t ty rs (Fulfilled created);
                      EndTransaction t (Some e) res'] /\
    (last created = Some x ->
     e = Error (message "CreateRecordMissingID" (language_of rq))).
Proof.
  intros Hc Hin Hx Hkey.
  destruct (upto_create w rq) as [c0 [created0|e0]] eqn:Hup.
  2:{ exfalso. rewrite (create_unfold_failed _ _ _ _ Hup) in Hc.
      pose proof (upto_create_Err _ _ _ _ t ty rs created Hup) as Hno.
      destruct (transaction c0); injection Hc as <- <-; simpl in Hin;
        split_in Hin; done. }
  destruct (upto_create_Ok _ _ _ _ Hup)
    as (Hu & t0 & evs & rs0 & Htx & Htr & Hch & _).
  rewrite (create_unfold_created _ _ _ _ _ Hup Htx) in Hc.
  destruct (on_created w rq c0 created0) as [c1 r1] eqn:Hon.
  destruct (on_created_spec _ _ _ _ _ _ _ Hon Htx)
    as (_ & _ & _ & upds & Htr1 & Hupds & _ & Hbuild & _).
  assert (Hsame : TxCreate t ty rs (Fulfilled created)
                  = TxCreate t0 (type rq) rs0 (Fulfilled created0)).
  { assert (Hin1 : TxCreate t ty rs (Fulfilled created) ∈ trace c1).
    { destruct r1 as [l|e].
      - simpl in Hc.
        destruct (settle_outcome
                    (transaction_endTransaction w (trace c1) t0 None));
          injection Hc as <- <-; simpl in Hin; split_in Hin; done.
      - injection Hc as <- <-. simpl in Hin. split_in Hin; done. }
    rewrite Htr1, Htr in Hin1. split_in Hin1; try done.
    - eapply Forall_forall in Hch; [|exact Hin1]. done.
    - eapply Forall_forall in Hupds; [|exact Hin1].
      by destruct Hupds as (? & ? & ? & ? & _). }
  injection Hsame as -> -> -> ->.
  destruct (build_updates_missing_key (recordTypes w) (fields_of w rq)
              (links_of (fields_of w rq)) (language_of rq) (updates c0, ∅)
              created0 x Hx Hkey) as [e He].
  destruct (Hbuild e He) as [-> ->].
  { intros ->. by apply elem_of_nil in Hx. }
  injection Hc as <- <-. simpl.
  exists (BeginTransaction (Fulfilled t0) :: evs), e,
    (transaction_endTransaction w (trace c1) t0 (Some e)).
  split; [done|]. split.
  { rewrite Htr1, Htr, app_nil_r. simpl. by rewrite <- app_assoc. }
  intros Hlast.
  rewrite (build_updates_missing_key_last _ _ _ _ _ _ x Hlast Hkey) in He.
  by injection He as <-.
Qed.

(** X5. A request that succeeds returns the request itself, the handle
    of its transaction, and as response the records that the backend
    returned from [transaction.create] (not the payload); there is at
    least one.  The change event is the last call, and its create entry
    holds the same records under the type of the request. *)
Theorem success_returns_created_records (w : world) (rq : request)
    (c : closure) (ctx : context) :
  create w rq = (c, Ok ctx) ->
  exists t rs created ev,
    created <> [] /\
    ctx = Context rq (Some t) (Some created) /\
    TxCreate t (type rq) rs (Fulfilled created) ∈ trace c /\
    EndTransaction t None (Returns (Fulfilled ())) ∈ trace c /\
    last (trace c) = Some (Emit ev) /\
    ev_create ev = (type rq, created).
Proof.
  intros Hc.
  destruct (upto_create w rq) as [c0 [created|e0]] eqn:Hup.
  2:{ rewrite (create_unfold_failed _ _ _ _ Hup) in Hc.
      by destruct (transaction c0). }
  destruct (upto_create_Ok _ _ _ _ Hup)
    as (Hu & t & evs & rs & Htx & Htr & _).
  rewrite (create_unfold_created _ _ _ _ _ Hup Htx) in Hc.
  destruct (on_created w rq c0 created) as [c1 r1] eqn:Hon.
  destruct (on_created_spec _ _ _ _ _ _ _ Hon Htx)
    as (_ & Hresp & Hrec & upds & Htr1 & _ & _ & _ & Hok).
  destruct r1 as [l|e]; [|discriminate]. simpl in Hc.
  destruct (Hok l eq_refl) as [Hne _].
  destruct (transaction_endTransaction w (trace c1) t None)
    as [[[]|e]|e] eqn:Hend; [|discriminate..].
  injection Hc as <- <-. simpl.
  exists t, rs, created, (assemble (type rq) created (updates c1)).
  rewrite Hresp, Hrec, Htr1, Htr.
  change (default [] (Some (foreign created))) with (foreign created).
  rewrite foreign_contents. simpl. split_and!; try done.
  - apply elem_of_cons. right. rewrite <- !app_assoc.
    apply elem_of_app. right. apply elem_of_cons. by left.
  - apply elem_of_cons. right. rewrite <- !app_assoc.
    do 3 (apply elem_of_app; right). apply elem_of_cons. by left.
  - by rewrite app_comm_cons, last_snoc.
  - apply assemble_create.
Qed.

(** X6. When a request succeeds, [updates] holds what the loops of lines
    121-152 built from the records that the backend returned, starting
    from nothing; every type of it that holds at least one operation has
    had its operations written by one fulfilled call of
    [transaction.update] and has its entry, with the same operations, in
    the change event. *)
Theorem updates_all_written_and_reported (w : world) (rq : request)
    (c : closure) (ctx : context) :
  create w rq = (c, Ok ctx) ->
  exists t created b ev,
    ctx = Context rq (Some t) (Some created) /\
    build_updates (recordTypes w) (fields_of w rq)
      (links_of (fields_of w rq)) (language_of rq) ([], ∅) created = Ok b /\
    updates c = b.1 /\
    last (trace c) = Some (Emit ev) /\
    forall ty ops,
      upd_get (updates c) ty = Some ops -> ops <> [] ->
      TxUpdate t ty ops (Fulfilled ()) ∈ trace c /\
      exists us, ev_update ev = Some us /\ upd_get us ty = Some ops.
Proof.
  intros Hc.
  destruct (upto_create w rq) as [c0 [created|e0]] eqn:Hup.
  2:{ rewrite (create_unfold_failed _ _ _ _ Hup) in Hc.
      by destruct (transaction c0). }
  destruct (upto_create_Ok _ _ _ _ Hup)
    as (Hu & t & evs & rs & Htx & Htr & _).
  rewrite (create_unfold_created _ _ _ _ _ Hup Htx) in Hc.
  destruct (on_created w rq c0 created) as [c1 r1] eqn:Hon.
  destruct (on_created_spec _ _ _ _ _ _ _ Hon Htx)
    as (_ & Hresp & Hrec & upds & Htr1 & _ & _ & _ & Hok).
  destruct r1 as [l|e]; [|discriminate]. simpl in Hc.
  destruct (Hok l eq_refl) as (Hne & b & Hb & Hub & Hall).
  destruct (transaction_endTransaction w (trace c1) t None)
    as [[[]|e]|e] eqn:Hend; [|discriminate..].
  injection Hc as <- <-. simpl.
  exists t, created, b,
    (assemble (type rq) (default [] (records c1)).*2 (updates c1)).
  rewrite Hresp. rewrite Hu in Hb. split_and!; try done.
  - by rewrite last_snoc.
  - intros ty ops Hget Hnops. split.
    + rewrite Htr1. rewrite Hub in Hget.
      apply elem_of_app. left. apply elem_of_app. left.
      apply elem_of_app. right. by apply Hall.
    + by apply assemble_complete.
Qed.
End AfterCreate.

(** ** From one stage of the chain to the next *)
Section Order.
Context `{Required}.

Lemma fulfilments_all {A} (ps : list (settled A)) :
  rejections ps = [] -> ps = Fulfilled <$> fulfilments ps.
Proof.
  induction ps as [|[a|e] ps IH]; [done| |discriminate].
  intros Hr. unfold fulfilments. simpl. f_equal. by apply IH.
Qed.

Lemma Forall2_through {A B C} (P : A -> B -> Prop) (Q : B -> C -> Prop)
    l k m :
  Forall2 P l k -> Forall2 Q k m ->
  Forall2 (fun x z => exists y, P x y /\ Q y z) l m.
Proof.
  intros HP. revert m. induction HP as [|x y l k Hxy _ IH]; intros m HQ;
    inversion HQ; subst; constructor; eauto.
Qed.

Lemma map_transform_order f l c c' ps :
  map_ (call_transform f) l c = (c', Ok ps) ->
  Forall2 (fun x p =>
             exists after o,
               Transform x.2 after o ∈ trace c' /\
               forall a, p = Fulfilled a -> o = Returns (Fulfilled a.2))
    l ps.
Proof.
  revert c c' ps. induction l as [|x l IH]; intros c c' ps; simpl.
  { intros [= <- <-]. constructor. }
  destruct (f (trace c) x.2) as [after o] eqn:Hf. simpl.
  destruct (object_of x.1 after o) as [p|e] eqn:Hobj; [|discriminate].
  destruct (map_ (call_transform f) l _) as [c2 [ps2|e]] eqn:Hm;
    [|discriminate].
  intros [= <- <-]. constructor; [|by eapply IH].
  destruct (map_transform_spec _ _ _ _ _ Hm) as (_ & evs & -> & _).
  exists after, (content_of after o). split.
  - apply elem_of_app. left. simpl. rewrite write_back_trace.
    apply elem_of_app. right. by apply list_elem_of_singleton.
  - intros a ->. by rewrite (object_of_content x.1), Hobj.
Qed.

(** What the second handler resolves to, position by position. *)
Lemma upto_transform_order w rq c objs :
  upto_transform w rq = (c, Ok objs) ->
  match transforms w !! type rq with
  | Some (Some f) =>
      Forall2 (fun x a =>
                 exists after,
                   Transform x after (Returns (Fulfilled a)) ∈ trace c)
        (stripped w rq) objs.*2
  | _ => objs.*2 = stripped w rq
  end.
Proof.
  unfold upto_transform. intros Hthen.
  apply then_inv in Hthen as [(e & _ & [=]) | (c0 & t & Hb & Hh)].
  apply upto_begin_spec in Hb
    as (_ & _ & _ & [(_ & [e He] & _) | (res & _ & _ & Hrec & _)]);
    [discriminate|].
  unfold on_transaction in *.
  destruct (transforms w !! type rq) as [[f|]|]; [| |discriminate].
  - apply all_map_inv in Hh as [(e & _ & [=]) | (ps & Hm & Hall)].
    symmetry in Hall. apply promise_all_Ok in Hall as [Hrej ->].
    apply map_transform_order in Hm. simpl in Hm. rewrite Hrec in Hm.
    simpl in Hm. rewrite (fulfilments_all ps Hrej) in Hm at 1.
    apply Forall2_fmap_r in Hm.
    rewrite <- (own_contents (stripped w rq)). apply Forall2_fmap.
    eapply Forall2_impl; [exact Hm|].
    intros x a (after & o & Hin & Ho). exists after.
    by rewrite <- (Ho a eq_refl).
  - injection Hh as <- <-. simpl. rewrite Hrec. simpl. apply own_contents.
Qed.

(** The third handler hands on the records it was given, each as the
    enforcement has left it. *)
Lemma upto_enforce_Ok w rq c2 objs2 :
  upto_enforce w rq = (c2, Ok objs2) ->
  exists c1 objs1 evs,
    upto_transform w rq = (c1, Ok objs1) /\
    trace c2 = trace c1 ++ evs /\
    Forall2 (fun x x' => Enforce (type rq) x x' None ∈ evs)
      objs1.*2 objs2.*2.
Proof.
  unfold upto_enforce. intros Hthen.
  apply then_inv in Hthen as [(e & _ & [=]) | (c1 & objs1 & Hb & Hh)].
  unfold on_transformed in Hh.
  apply all_map_inv in Hh as [(e & _ & [=]) | (ps & Hm & Hall)].
  symmetry in Hall. apply promise_all_Ok in Hall as [Hrej ->].
  destruct (map_enforce_spec _ _ _ _ _ _ Hm) as (_ & evs & Htr & _ & Hok).
  destruct (Hok ps eq_refl) as (_ & Hful).
  exists c1, objs1, evs. split; [done|]. split; [done|].
  apply Forall2_fmap. eapply Forall2_impl; [exact (Hful Hrej)|].
  by intros x x' [_ Hin].
Qed.

Lemma upto_enforce_no_create w rq c2 r2 :
  upto_enforce w rq = (c2, r2) ->
  Forall (fun ev => is_begin ev = true \/ is_check ev = true) (trace c2).
Proof.
  intros Hup. apply upto_enforce_spec in Hup
    as (_ & _ & [[(_ & [-> | [e ->]]) _] | (t & evs & (_ & -> & Hch) & _)]).
  - constructor.
  - repeat constructor.
  - constructor; [by left|]. rewrite app_nil_r.
    eapply Forall_check_kind; [|exact Hch]. intros ev Hev. by right.
Qed.

(** [transaction.create] is given what the third handler resolved to. *)
Lemma upto_create_records w rq c0 r0 t ty rs res :
  upto_create w rq = (c0, r0) ->
  TxCreate t ty rs res ∈ trace c0 ->
  exists c2 objs evs,
    upto_enforce w rq = (c2, Ok objs) /\ rs = objs.*2 /\
    trace c0 = trace c2 ++ evs.
Proof.
  unfold upto_create. intros Hthen Hin.
  apply then_inv in Hthen as [(e & Hb & _) | (c2 & objs & Hb & Hh)].
  { apply upto_enforce_no_create in Hb.
    eapply Forall_forall in Hb; [|exact Hin]. by destruct Hb. }
  pose proof (upto_enforce_no_create _ _ _ _ Hb) as Hno.
  assert (Hnin : TxCreate t ty rs res ∉ trace c2).
  { intros Hin2. eapply Forall_forall in Hno; [|exact Hin2]. by destruct Hno. }
  unfold on_enforced in Hh.
  destruct (validateRecords w (trace c2) objs.*2 _ _ _) as [e|].
  { injection Hh as <- _. simpl in Hin. split_in Hin; done. }
  simpl in Hh. destruct (transaction c2) as [t2|].
  2:{ injection Hh as <- _. simpl in Hin. split_in Hin; done. }
  injection Hh as <- _. simpl in Hin. split_in Hin; try done.
  injection Hin as -> -> -> ->. exists c2, objs. eexists. split; [done|].
  split; [done|]. simpl. by rewrite <- app_assoc.
Qed.

(** After [transaction.create] come only updates, [endTransaction] and
    the change event. *)
Lemma create_adds w rq c0 r0 c r :
  upto_create w rq = (c0, r0) -> create w rq = (c, r) ->
  exists rest, trace c = trace c0 ++ rest /\
               Forall (fun ev => is_late ev = true) rest.
Proof.
  intros Hup Hc. destruct r0 as [created|e].
  - destruct (upto_create_Ok _ _ _ _ Hup) as (_ & t & _ & _ & Htx & _).
    rewrite (create_unfold_created _ _ _ _ _ Hup Htx) in Hc.
    destruct (on_created w rq c0 created) as [c1 r1] eqn:Hon.
    destruct (on_created_spec _ _ _ _ _ _ _ Hon Htx)
      as (_ & _ & _ & upds & Htr1 & Hupds & _).
    assert (Hl : Forall (fun ev => is_late ev = true) upds).
    { eapply Forall_update_kind; [|exact Hupds]. by intros []. }
    destruct r1 as [l|e]; simpl in Hc.
    + destruct (settle_outcome
                  (transaction_endTransaction w (trace c1) t None));
        injection Hc as <- <-; simpl; rewrite Htr1, <- !app_assoc;
        eexists; (split; [done|]); apply Forall_app; split; try done;
        by repeat constructor.
    + injection Hc as <- <-. simpl. rewrite Htr1, <- !app_assoc.
      eexists. split; [done|]. apply Forall_app. split; [done|].
      by repeat constructor.
  - rewrite (create_unfold_failed _ _ _ _ Hup) in Hc.
    destruct (transaction c0); injection Hc as <- <-; simpl.
    + eexists. split; [done|]. by repeat constructor.
    + exists []. by rewrite app_nil_r.
Qed.

(** X7. The records handed to [transaction.create] are the records of
    the payload in the order of the payload, none dropped, added or
    moved: position by position, each is what the enforcement has left
    of the stripped payload record when the type has no input transform,
    and otherwise of what the transform returned for that payload
    record. *)
Theorem create_keeps_payload_order (w : world) (rq : request)
    (c : closure) (r : result context) (t : txn) (ty : string)
    (rs : list record) (res : settled (list record)) :
  create w rq = (c, r) ->
  TxCreate t ty rs res ∈ trace c ->
  in_payload_order w rq (trace c) rs /\
  length rs = length (default [] (payload rq)).
Proof.
  intros Hc Hin.
  destruct (upto_create w rq) as [c0 r0] eqn:Hup.
  destruct (create_adds _ _ _ _ _ _ Hup Hc) as (rest & Htr & Hrest).
  assert (Hin0 : TxCreate t ty rs res ∈ trace c0).
  { rewrite Htr in Hin. apply elem_of_app in Hin as [Hin|Hin]; [done|].
    eapply Forall_forall in Hrest; [|exact Hin]. done. }
  destruct (upto_create_records _ _ _ _ _ _ _ _ Hup Hin0)
    as (c2 & objs2 & evs2 & Hen & -> & Htr0).
  destruct (upto_enforce_Ok _ _ _ _ Hen)
    as (c1 & objs1 & evs1 & Htf & Htr2 & Henf).
  pose proof (upto_transform_order _ _ _ _ Htf) as Hord.
  assert (Hsub1 : forall ev, ev ∈ trace c1 -> ev ∈ trace c).
  { intros ev Hev. rewrite Htr, Htr0, Htr2.
    by do 3 (apply elem_of_app; left). }
  assert (Hsub2 : forall ev, ev ∈ evs1 -> ev ∈ trace c).
  { intros ev Hev. rewrite Htr, Htr0, Htr2.
    do 2 (apply elem_of_app; left). apply elem_of_app. by right. }
  assert (Hord' : in_payload_order w rq (trace c) objs2.*2).
  { unfold in_payload_order.
    destruct (transforms w !! type rq) as [[f|]|].
    - eapply Forall2_impl; [exact (Forall2_through _ _ _ _ _ Hord Henf)|].
      intros x a' (a & [after Hx] & Ha). exists after, a. auto.
    - rewrite <- Hord. eapply Forall2_impl; [exact Henf|]. auto.
    - rewrite <- Hord. eapply Forall2_impl; [exact Henf|]. auto. }
  split; [done|].
  assert (Hlen : length objs2.*2 = length (stripped w rq)).
  { unfold in_payload_order in Hord'.
    destruct (transforms w !! type rq) as [[f|]|];
      symmetry; by eapply Forall2_length. }
  rewrite Hlen. unfold stripped. apply strip_length.
Qed.
End Order.

(** ** Failures before [transaction.create] *)
Section EarlyFailures.
Context `{Required}.

(** An exception of [enforce] leaves the loop of [map]. *)
Lemma map_enforce_throw w rq l c c' res evs ty x after e0 :
  map_ (enforce_and_check w rq) l c = (c', res) ->
  trace c' = trace c ++ evs ->
  Enforce ty x after (Some e0) ∈ evs ->
  res = Err e0 /\ exists pre, evs = pre ++ [Enforce ty x after (Some e0)].
Proof.
  revert c c' res evs. induction l as [|x0 l IH]; intros c c' res evs; simpl.
  { intros [= <- <-] Htr Hin. rewrite <- (app_nil_r (trace c)) in Htr at 1.
    apply app_inv_head in Htr as <-. by apply elem_of_nil in Hin. }
  destruct (enforce_and_check_spec w rq x0 c) as (after0 & err & He & Hcall).
  simpl in Hcall.
  destruct err as [e|].
  { rewrite Hcall. intros [= <- <-] Htr Hin. simpl in Htr.
    rewrite write_back_trace in Htr. apply app_inv_head in Htr as <-.
    apply list_elem_of_singleton in Hin. injection Hin as -> -> -> ->.
    split; [done|]. by exists []. }
  destruct Hcall as [o ->].
  set (c1 := emit_event (emit_event _ _) _).
  assert (Ht1 : trace c1 = trace c ++ [Enforce (type rq) x0.2 after0 None;
                                       CheckLinks after0 o]).
  { unfold c1. simpl. by rewrite write_back_trace, <- app_assoc. }
  destruct (then_record (x0.1, after0) o) as [p|e] eqn:Hp.
  2:{ intros [= <- <-] Htr Hin. rewrite Ht1 in Htr.
      apply app_inv_head in Htr as <-. split_in Hin; done. }
  destruct (map_ (enforce_and_check w rq) l c1) as [c2 res2] eqn:Hm.
  destruct (map_enforce_spec _ _ _ _ _ _ Hm) as (_ & evs2 & Htr2 & _).
  intros Hres Htr Hin.
  assert (c' = c2 /\ (forall e, res2 = Err e -> res = Err e)) as [-> Hr].
  { destruct res2; injection Hres as <- <-; split; try done. }
  rewrite Htr2, Ht1, <- !app_assoc in Htr.
  apply app_inv_head in Htr as <-. simpl in Hin. split_in Hin; try done.
  destruct (IH c1 c2 res2 evs2 Hm Htr2 Hin) as (Hres2 & pre & ->).
  split; [by apply Hr|]. by eexists (_ :: _ :: pre).
Qed.

Lemma upto_transform_no_enforce w rq c1 r1 ty x after o :
  upto_transform w rq = (c1, r1) -> Enforce ty x after o ∉ trace c1.
Proof.
  intros Hup Hin. apply upto_transform_spec in Hup
    as (_ & _ & [[(_ & [Htr | [e Htr]]) _] |
                 (t & evs & (_ & Htr & _) & Htf & _)]);
    rewrite Htr in Hin; split_in Hin; try done.
  eapply Forall_forall in Htf; [|exact Hin].
  by destruct Htf as (? & ? & ? & ?).
Qed.

Lemma upto_enforce_throw w rq c2 r2 ty x after e0 :
  upto_enforce w rq = (c2, r2) ->
  Enforce ty x after (Some e0) ∈ trace c2 ->
  r2 = Err e0 /\
  exists pre t, trace c2 = pre ++ [Enforce ty x after (Some e0)] /\
                transaction c2 = Some t.
Proof.
  intros Hup Hin.
  assert (Htx : exists t, transaction c2 = Some t).
  { apply upto_enforce_spec in Hup
      as (_ & _ & [[(_ & [Htr | [e Htr]]) _] | (t & evs & (Htx & _) & _)]);
      [rewrite Htr in Hin; split_in Hin; done.. | by exists t]. }
  destruct Htx as [t Htx].
  unfold upto_enforce in Hup.
  apply then_inv in Hup as [(e & Hb & _) | (c1 & rs1 & Hb & Hh)].
  { by apply upto_transform_no_enforce with (ty := ty) (x := x)
      (after := after) (o := Some e0) in Hb. }
  apply upto_transform_no_enforce with (ty := ty) (x := x) (after := after)
    (o := Some e0) in Hb.
  unfold on_transformed in Hh.
  apply all_map_inv in Hh as [(e & Hm & ->) | (ps & Hm & ->)];
    destruct (map_enforce_spec _ _ _ _ _ _ Hm) as (_ & evs & Htr & _);
    simpl in Htr; rewrite Htr in Hin;
    (apply elem_of_app in Hin as [Hin|Hin]; [done|]);
    destruct (map_enforce_throw _ _ _ _ _ _ _ _ _ _ _ Hm Htr Hin)
      as (Hres & pre & ->); [|discriminate].
  injection Hres as ->. split; [done|].
  exists (trace c1 ++ pre), t. by rewrite Htr, app_assoc.
Qed.

(** X8. Enforcement fails fast: when [enforce] throws for a record,
    nothing more is enforced or checked for the records that follow it,
    the only call made afterwards is the abort of the transaction, and
    the error that [enforce] threw is the one [rethrown] to the caller
    (the error itself whenever the abort returns). *)
Theorem enforce_failure_stops_the_batch (w : world) (rq : request)
    (c : closure) (r : result context) (ty : string) (x after : record)
    (e : error) :
  create w rq = (c, r) ->
  Enforce ty x after (Some e) ∈ trace c ->
  exists pre t res',
    r = Err (rethrown e res') /\
    trace c = pre ++ [Enforce ty x after (Some e);
                      EndTransaction t (Some e) res'] /\
    head pre = Some (BeginTransaction (Fulfilled t)).
Proof.
  intros Hc Hin.
  destruct (upto_create w rq) as [c0 r0] eqn:Hup.
  destruct (upto_enforce w rq) as [c2 r2] eqn:Hen.
  assert (Hin2 : Enforce ty x after (Some e) ∈ trace c2).
  { destruct (create_adds _ _ _ _ _ _ Hup Hc) as (rest & Htr & Hrest).
    rewrite Htr in Hin. apply elem_of_app in Hin as [Hin|Hin].
    2:{ eapply Forall_forall in Hrest; [|exact Hin]. done. }
    unfold upto_create in Hup. rewrite Hen in Hup.
    destruct r2 as [rs2|e2]; [|by injection Hup as <- _].
    simpl in Hup. unfold on_enforced in Hup.
    destruct (validateRecords w (trace c2) rs2.*2 _ _ _);
      [|simpl in Hup; destruct (transaction c2)];
      injection Hup as <- _; simpl in Hin; split_in Hin; done. }
  destruct (upto_enforce_throw _ _ _ _ _ _ _ _ Hen Hin2)
    as (-> & pre & t & Htr2 & Htx).
  unfold upto_create in Hup. rewrite Hen in Hup. simpl in Hup.
  injection Hup as <- <-.
  assert (Hup' : upto_create w rq = (c2, Err e)).
  { unfold upto_create. by rewrite Hen. }
  rewrite (create_unfold_failed _ _ _ _ Hup'), Htx in Hc.
  injection Hc as <- <-.
  exists pre, t. eexists. split; [done|]. simpl. rewrite Htr2, <- app_assoc.
  split; [done|].
  apply upto_enforce_spec in Hen
    as (_ & _ & [[(Hno & _) _] | (t' & evs & (Htx' & Htr' & _) & _)]);
    [congruence|].
  assert (t' = t) as -> by congruence.
  rewrite Htr2 in Htr'. destruct pre as [|ev pre]; simpl in *.
  - by injection Htr'.
  - by injection Htr' as ->.
Qed.

(** The handlers only add to the trace. *)
Lemma then_trace {A B} (p : closure * result A)
    (h : closure -> A -> closure * result B) :
  (forall c a, exists evs, trace (h c a).1 = trace c ++ evs) ->
  exists evs, trace (then_ p h).1 = trace p.1 ++ evs.
Proof.
  intros Hh. destruct p as [c [a|e]]; simpl; [apply Hh|].
  exists []. by rewrite app_nil_r.
Qed.

Lemma on_transaction_trace w rq c t :
  exists evs, trace (on_transaction w rq c t).1 = trace c ++ evs.
Proof.
  unfold on_transaction.
  destruct (transforms w !! type rq) as [[f|]|]; simpl;
    try (exists []; by rewrite app_nil_r).
  destruct (all_map _ _ _ _) as [c' r] eqn:Hall.
  apply all_map_inv in Hall as [(e & Hm & _) | (ps & Hm & _)];
    destruct (map_transform_spec _ _ _ _ _ Hm) as (_ & evs & Htr & _);
    by exists evs.
Qed.

Lemma on_transformed_trace w rq c rs :
  exists evs, trace (on_transformed w rq c rs).1 = trace c ++ evs.
Proof.
  unfold on_transformed.
  destruct (all_map _ _ _ _) as [c' r] eqn:Hall.
  apply all_map_inv in Hall as [(e & Hm & _) | (ps & Hm & _)];
    destruct (map_enforce_spec _ _ _ _ _ _ Hm) as (_ & evs & Htr & _);
    by exists evs.
Qed.

Lemma on_enforced_trace w rq c rs :
  exists evs, trace (on_enforced w rq c rs).1 = trace c ++ evs.
Proof.
  unfold on_enforced.
  destruct (validateRecords w (trace c) rs.*2 _ _ _); simpl; [by eexists|].
  destruct (transaction c); simpl; [|by eexists].
  eexists. by rewrite <- app_assoc.
Qed.

Lemma create_extends_begin w rq c r :
  create w rq = (c, r) ->
  exists evs, trace c = trace (upto_begin w rq).1 ++ evs.
Proof.
  intros Hc.
  destruct (upto_create w rq) as [c0 r0] eqn:Hup.
  destruct (create_adds _ _ _ _ _ _ Hup Hc) as (rest & -> & _).
  assert (Hc0 : c0 = (upto_create w rq).1) by by rewrite Hup.
  rewrite Hc0. unfold upto_create, upto_enforce, upto_transform.
  destruct (then_trace
              (then_ (then_ (upto_begin w rq) (on_transaction w rq))
                 (on_transformed w rq)) _
              (on_enforced_trace w rq)) as [evs3 ->].
  destruct (then_trace (then_ (upto_begin w rq) (on_transaction w rq)) _
              (on_transformed_trace w rq)) as [evs2 ->].
  destruct (then_trace (upto_begin w rq) _ (on_transaction_trace w rq))
    as [evs1 ->].
  rewrite <- !app_assoc. by eexists.
Qed.

(** X9. When [beginTransaction] is rejected, it is the only call of the
    request: the caller gets its error, and the payload records have been
    stripped all the same. *)
Theorem rejected_begin_is_the_only_call (w : world) (rq : request)
    (c : closure) (r : result context) (e : error) :
  create w rq = (c, r) ->
  BeginTransaction (Rejected e) ∈ trace c ->
  r = Err e /\ trace c = [BeginTransaction (Rejected e)] /\
  payload_objects c = Some (stripped w rq).
Proof.
  intros Hc Hin.
  assert (Htrace : trace c = [BeginTransaction (Rejected e)]).
  { pose proof Hc as Hc'. apply create_spec in Hc'
      as [[(_ & [Ht | [e1 Ht]]) _] |
          (t0 & evs & Hch &
             [(e1 & res' & Ht & _) |
              (rs & res & upds & fin & Ht & _ & Hupd & Hfin)])];
      rewrite Ht in Hin |- *.
    - by apply elem_of_nil in Hin.
    - apply list_elem_of_singleton in Hin. by injection Hin as ->.
    - exfalso. split_in Hin; try done.
      eapply Forall_forall in Hch; [|exact Hin]. done.
    - exfalso.
      assert (Hf : forall ev, ev ∈ fin -> is_begin ev = false).
      { intros ev Hev.
        destruct Hfin as [(e1 & res' & -> & _) |
                          [(e1 & res0 & res' & r0 & created & -> & _) |
                           (ctx & r0 & created & -> & _)]];
          split_in Hev; by subst ev. }
      split_in Hin; try done.
      + eapply Forall_forall in Hch; [|exact Hin]. done.
      + eapply Forall_forall in Hupd; [|exact Hin].
        by destruct Hupd as (? & ? & ? & ? & _).
      + by apply Hf in Hin. }
  destruct (create_extends_begin _ _ _ _ Hc) as [evs Hext].
  destruct (upto_begin w rq) as [c0 r0] eqn:Hb.
  pose proof Hb as Hb'.
  apply upto_begin_spec in Hb'
    as (_ & _ & Htx & [(Htr & [e0 ->] & _) | (res & Htr & -> & _ & Hp)]).
  - unfold create, chain, upto_updates, upto_create, upto_enforce,
      upto_transform in Hc. rewrite Hb in Hc. simpl in Hc.
    unfold on_error in Hc. rewrite Htx in Hc. injection Hc as <- <-.
    by rewrite Htr in Htrace.
  - simpl in Hext. rewrite Htr, Htrace in Hext. injection Hext as <- _.
    unfold create, chain, upto_updates, upto_create, upto_enforce,
      upto_transform in Hc. rewrite Hb in Hc. simpl in Hc.
    unfold on_error in Hc. rewrite Htx in Hc. by injection Hc as <- <-.
Qed.

(** X10. A request with records and a [meta], for a type for which
    [transforms[type]] is [undefined], is not refused before the
    transaction is opened: its first call is [beginTransaction].  When
    that is fulfilled, reading [transform[0]] throws a [TypeError] in the
    second handler, and the only other call is the abort of the
    transaction with that [TypeError], which is [rethrown] to the caller;
    when it is rejected, it is the only call. *)
Theorem unknown_type_opens_and_aborts (w : world) (rq : request)
    (c : closure) (r : result context) (x : record) (xs : list record)
    (m : meta_t) :
  transforms w !! type rq = None ->
  payload rq = Some (x :: xs) -> meta rq = Some m ->
  create w rq = (c, r) ->
  match adapter_beginTransaction w [] with
  | Fulfilled t =>
      exists msg res',
        r = Err (rethrown (TypeError msg) res') /\
        trace c = [BeginTransaction (Fulfilled t);
                   EndTransaction t (Some (TypeError msg)) res']
  | Rejected e => r = Err e /\ trace c = [BeginTransaction (Rejected e)]
  end.
Proof.
  intros Htf Hp Hm Hc.
  unfold create, chain, upto_updates, upto_create, upto_enforce,
    upto_transform, upto_begin, on_payload in Hc.
  rewrite Hp, Hm in Hc. simpl in Hc.
  destruct (adapter_beginTransaction w []) as [t|e]; simpl in Hc.
  - unfold on_transaction in Hc. rewrite Htf in Hc. simpl in Hc.
    unfold on_error in Hc. simpl in Hc. injection Hc as <- <-.
    by eexists _, _.
  - unfold on_error in Hc. simpl in Hc. by injection Hc as <- <-.
Qed.
End EarlyFailures.

(** ** A link check that is rejected *)
Section LinkChecks.
Context `{Required}.

Lemma promise_all_Err {A} w c (ps : list (settled A)) e :
  promise_all w c ps = Err e -> e ∈ rejections ps.
Proof.
  unfold promise_all. destruct (rejections ps) as [|e0 es]; [done|].
  generalize (race w (trace c) (e0 :: es) `mod` length (e0 :: es))
    (Nat.mod_upper_bound (race w (trace c) (e0 :: es)) (length (e0 :: es))
       ltac:(done)).
  intros n Hn Heq. assert (e = nth n (e0 :: es) e0) as -> by congruence.
  apply list_elem_of_In, nth_In, Hn.
Qed.

(** The promises that the callback of line 86 returns are those of the
    link checks; one that is rejected comes from a check that was
    rejected. *)
Lemma map_enforce_rejections w rq l c c' res evs :
  map_ (enforce_and_check w rq) l c = (c', res) ->
  trace c' = trace c ++ evs ->
  (forall e, res = Err e ->
     (exists x after, Enforce (type rq) x after (Some e) ∈ evs) \/
     (exists x, CheckLinks x (Throws e) ∈ evs)) /\
  (forall ps, res = Ok ps ->
     (forall e, e ∈ rejections ps ->
        exists x, CheckLinks x (Returns (Rejected e)) ∈ evs) /\
     (forall x e, CheckLinks x (Returns (Rejected e)) ∈ evs ->
        e ∈ rejections ps)).
Proof.
  revert c c' res evs. induction l as [|x0 l IH]; intros c c' res evs; simpl.
  { intros [= <- <-] Htr. rewrite <- (app_nil_r (trace c)) in Htr at 1.
    apply app_inv_head in Htr as <-. split; [done|].
    intros ps [= <-]. split; [by intros e ?%elem_of_nil|].
    by intros x e ?%elem_of_nil. }
  destruct (enforce_and_check_spec w rq x0 c) as (after0 & err & He & Hcall).
  simpl in Hcall.
  destruct err as [e0|].
  { rewrite Hcall. intros [= <- <-] Htr. simpl in Htr.
    rewrite write_back_trace in Htr. apply app_inv_head in Htr as <-.
    split; [|done]. intros e [= <-]. left. exists x0.2, after0.
    by apply list_elem_of_singleton. }
  destruct Hcall as [ck ->].
  set (c1 := emit_event (emit_event _ _) _).
  assert (Ht1 : trace c1 = trace c ++ [Enforce (type rq) x0.2 after0 None;
                                       CheckLinks after0 ck]).
  { unfold c1. simpl. by rewrite write_back_trace, <- app_assoc. }
  destruct (then_record (x0.1, after0) ck) as [p|e0] eqn:Hp.
  2:{ intros [= <- <-] Htr. rewrite Ht1 in Htr.
      apply app_inv_head in Htr as <-. split; [|done].
      intros e [= <-]. right. exists after0.
      assert (ck = Throws e0) as ->.
      { by destruct ck as [[]|]; simpl in Hp; simplify_eq. }
      apply elem_of_cons. right. by apply list_elem_of_singleton. }
  destruct (map_ (enforce_and_check w rq) l c1) as [c2 res2] eqn:Hm.
  destruct (map_enforce_spec _ _ _ _ _ _ Hm) as (_ & evs2 & Htr2 & _).
  intros Hres Htr.
  assert (evs = Enforce (type rq) x0.2 after0 None
                  :: CheckLinks after0 ck :: evs2) as ->.
  { assert (c' = c2) as -> by (by destruct res2; injection Hres as <- _).
    rewrite Htr2, Ht1, <- !app_assoc in Htr.
    by apply app_inv_head in Htr as <-. }
  destruct (IH c1 c2 res2 evs2 Hm Htr2) as [IHe IHo].
  split.
  - intros e ->. destruct res2 as [ps2|e2]; [done|]. injection Hres as _ <-.
    destruct (IHe e2 eq_refl) as [(x & a & Hx) | [x Hx]]; [left | right].
    + exists x, a. by do 2 (apply elem_of_cons; right).
    + exists x. by do 2 (apply elem_of_cons; right).
  - intros ps ->. destruct res2 as [ps2|e2]; [|done].
    injection Hres as _ <-. destruct (IHo ps2 eq_refl) as [IH1 IH2].
    assert (Hck : forall e, ck = Returns (Rejected e) <-> p = Rejected e).
    { intros e. destruct ck as [[[]|e']|e']; simpl in Hp; simplify_eq;
        split; intros; simplify_eq; done. }
    split.
    + intros e Hin. unfold rejections in Hin. simpl in Hin.
      destruct p as [a|e']; simpl in Hin.
      * destruct (IH1 e Hin) as [x Hx]. exists x.
        by do 2 (apply elem_of_cons; right).
      * apply elem_of_cons in Hin as [->|Hin].
        -- exists after0. apply elem_of_cons. right. apply elem_of_cons. left.
           f_equal. symmetry. by apply Hck.
        -- destruct (IH1 e Hin) as [x Hx]. exists x.
           by do 2 (apply elem_of_cons; right).
    + intros x e Hin. apply elem_of_cons in Hin as [[=]|Hin].
      apply elem_of_cons in Hin as [[= -> Hc]|Hin].
      * symmetry in Hc. apply Hck in Hc as ->. unfold rejections. simpl.
        apply elem_of_cons. by left.
      * unfold rejections. simpl. destruct p as [a|e'].
        -- by eapply IH2.
        -- apply elem_of_cons. right. by eapply IH2.
Qed.

Lemma upto_transform_no_check w rq c1 r1 x o :
  upto_transform w rq = (c1, r1) -> CheckLinks x o ∉ trace c1.
Proof.
  intros Hup Hin. apply upto_transform_spec in Hup
    as (_ & _ & [[(_ & [Htr | [e Htr]]) _] |
                 (t & evs & (_ & Htr & _) & Htf & _)]);
    rewrite Htr in Hin; split_in Hin; try done.
  eapply Forall_forall in Htf; [|exact Hin].
  by destruct Htf as (? & ? & ? & ?).
Qed.

(** X11. A link check that is rejected fails the batch as well, though
    it does not stop the loop: the request fails with the error of one of
    the checks that failed (the one that [Promise.all] sees first, or the
    exception that ended the loop), nothing is written, the last call is
    the abort of the transaction with that error, and that error is the
    one [rethrown] to the caller (the error itself whenever the abort
    returns). *)
Theorem rejected_link_check_fails_the_batch (w : world) (rq : request)
    (c : closure) (r : result context) (x : record) (e : error) :
  create w rq = (c, r) ->
  CheckLinks x (Returns (Rejected e)) ∈ trace c ->
  exists e' t res',
    r = Err (rethrown e' res') /\
    last (trace c) = Some (EndTransaction t (Some e') res') /\
    Forall (fun ev => is_create ev = false /\ is_update ev = false /\
                      is_emit ev = false) (trace c) /\
    ((exists y, CheckLinks y (Returns (Rejected e')) ∈ trace c) \/
     (exists y, CheckLinks y (Throws e') ∈ trace c) \/
     (exists y after, Enforce (type rq) y after (Some e') ∈ trace c)).
Proof.
  intros Hc Hin.
  destruct (upto_create w rq) as [c0 r0] eqn:Hup.
  destruct (upto_enforce w rq) as [c2 r2] eqn:Hen.
  assert (Hin2 : CheckLinks x (Returns (Rejected e)) ∈ trace c2).
  { destruct (create_adds _ _ _ _ _ _ Hup Hc) as (rest & Htr & Hrest).
    rewrite Htr in Hin. apply elem_of_app in Hin as [Hin|Hin].
    2:{ eapply Forall_forall in Hrest; [|exact Hin]. done. }
    unfold upto_create in Hup. rewrite Hen in Hup.
    destruct r2 as [rs2|e2]; [|by injection Hup as <- _].
    simpl in Hup. unfold on_enforced in Hup.
    destruct (validateRecords w (trace c2) rs2.*2 _ _ _);
      [|simpl in Hup; destruct (transaction c2)];
      injection Hup as <- _; simpl in Hin; split_in Hin; done. }
  pose proof (upto_enforce_no_create _ _ _ _ Hen) as Hkinds.
  assert (Htx : exists t, transaction c2 = Some t).
  { pose proof Hen as Hen'. apply upto_enforce_spec in Hen'
      as (_ & _ & [[(_ & [Htr | [e1 Htr]]) _] | (t & evs & (Htx & _) & _)]);
      [rewrite Htr in Hin2; split_in Hin2; done.. | by exists t]. }
  destruct Htx as [t Htx].
  assert (Hfail : exists e',
    r2 = Err e' /\
    ((exists y, CheckLinks y (Returns (Rejected e')) ∈ trace c2) \/
     (exists y, CheckLinks y (Throws e') ∈ trace c2) \/
     (exists y after, Enforce (type rq) y after (Some e') ∈ trace c2))).
  { unfold upto_enforce in Hen.
    apply then_inv in Hen as [(e1 & Hb & _) | (c1 & rs1 & Hb & Hh)].
    { by apply upto_transform_no_check with (x := x)
        (o := Returns (Rejected e)) in Hb. }
    apply upto_transform_no_check with (x := x) (o := Returns (Rejected e))
      in Hb.
    unfold on_transformed in Hh.
    apply all_map_inv in Hh as [(e1 & Hm & ->) | (ps & Hm & ->)];
      destruct (map_enforce_spec _ _ _ _ _ _ Hm) as (_ & evs & Htr & _);
      simpl in Htr; rewrite Htr in Hin2 |- *;
      (apply elem_of_app in Hin2 as [Hin2|Hin2]; [done|]);
      destruct (map_enforce_rejections _ _ _ _ _ _ _ Hm Htr) as [Herr Hok].
    - exists e1. split; [done|].
      destruct (Herr e1 eq_refl) as [(y & a & Hy) | [y Hy]].
      + right. right. exists y, a. apply elem_of_app. by right.
      + right. left. exists y. apply elem_of_app. by right.
    - destruct (Hok ps eq_refl) as [Hrej1 Hrej2].
      pose proof (Hrej2 _ _ Hin2) as Hne.
      destruct (promise_all w c2 ps) as [rs|e'] eqn:Hall.
      { apply promise_all_Ok in Hall as [Hnil _]. rewrite Hnil in Hne.
        by apply elem_of_nil in Hne. }
      exists e'. split; [done|]. left.
      destruct (Hrej1 e' (promise_all_Err _ _ _ _ Hall)) as [y Hy].
      exists y. apply elem_of_app. by right. }
  destruct Hfail as (e' & -> & Hprov).
  unfold upto_create in Hup. rewrite Hen in Hup. simpl in Hup.
  injection Hup as <- <-.
  assert (Hup' : upto_create w rq = (c2, Err e')).
  { unfold upto_create. by rewrite Hen. }
  rewrite (create_unfold_failed _ _ _ _ Hup'), Htx in Hc.
  injection Hc as <- <-. simpl.
  exists e', t. eexists. split; [done|]. split; [by rewrite last_snoc|].
  split.
  - apply Forall_app. split; [|by repeat constructor].
    eapply Forall_impl; [exact Hkinds|]. intros ev [Hb|Hck]; by destruct ev.
  - destruct Hprov as [[y Hy] | [[y Hy] | (y & a & Hy)]];
      [left; exists y | right; left; exists y | right; right; exists y, a];
      apply elem_of_app; by left.
Qed.
End LinkChecks.

(** * The instance *)

(** ** The constructor *)
Section ConstructorFacts.
Context `{Required}.
Context {adapter_option adapter_t middleware : Type}.
Variable memoryAdapter : adapter_option.
Variable validate : fieldDefs -> option error.
Variable AdapterSingleton :
  adapter_option -> list (string * fieldDefs) ->
  list (string * Index.transform_value) -> result adapter_t.
Variable methods : list (string * string).
Variable middlewares : string -> option middleware.

Local Abbreviation constructor :=
  (Index.constructor memoryAdapter validate AdapterSingleton methods
     middlewares).
Local Abbreviation Fortune :=
  (Index.Fortune memoryAdapter validate AdapterSingleton methods middlewares).
Local Abbreviation instance :=
  (@Index.instance _ adapter_option adapter_t middleware).

Lemma has_key_true {A} (o : list (string * A)) key :
  Index.has_key o key = true <-> (key ∈ o.*1 \/ inherited key = true).
Proof.
  unfold Index.has_key. by rewrite orb_true_iff, bool_decide_eq_true.
Qed.

Lemma has_key_false {A} (o : list (string * A)) key :
  Index.has_key o key = false <-> ((key ∉ o.*1) /\ inherited key = false).
Proof.
  unfold Index.has_key. by rewrite orb_false_iff, bool_decide_eq_false.
Qed.

Lemma get_Some_key {A} (o : list (string * A)) key v :
  Index.get o key = Some v -> (key, v) ∈ o.
Proof.
  induction o as [|[k v'] o IH]; simpl; [done|].
  destruct (decide (k = key)) as [->|Hne].
  - intros [= ->]. apply elem_of_cons. by left.
  - intros Hg. apply elem_of_cons. right. by apply IH.
Qed.

Lemma get_is_Some {A} (o : list (string * A)) key :
  key ∈ o.*1 <-> is_Some (Index.get o key).
Proof.
  induction o as [|[k v] o IH]; simpl.
  - split; [by intros ?%elem_of_nil | by intros [? ?]].
  - destruct (decide (k = key)) as [->|Hne].
    + split; [by eexists | intros _; apply elem_of_cons; by left].
    + rewrite <- IH. rewrite elem_of_cons. simpl. split; [|by right].
      by intros [?|?].
Qed.

Lemma get_app {A} (o o' : list (string * A)) key :
  Index.get (o ++ o') key
  = match Index.get o key with Some v => Some v | None => Index.get o' key end.
Proof.
  induction o as [|[k v] o IH]; simpl; [done|]. by destruct (decide (k = key)).
Qed.

(** The loop over [options.transforms] ends when every key is a key of
    [recordTypes], its own or one that it inherits, and every value an
    array. *)
Lemma check_transforms_Ok types
    (tr : list (string * Index.transform_value)) u :
  fold_result (fun _ kv => Index.check_transform types kv) () tr = Ok u ->
  forall kv, kv ∈ tr ->
    (kv.1 ∈ types.*1 \/ inherited kv.1 = true) /\
    exists input, kv.2 = Index.TransformArray input.
Proof.
  induction tr as [|kv0 tr IH]; simpl; intros Hf kv Hin.
  { by apply elem_of_nil in Hin. }
  destruct (Index.check_transform types kv0) as [[]|e] eqn:Hc; [|discriminate].
  apply elem_of_cons in Hin as [->|Hin]; [|by apply IH].
  unfold Index.check_transform in Hc.
  destruct (Index.has_key types kv0.1) eqn:Hk; [|discriminate]. simpl in Hc.
  apply has_key_true in Hk. split; [done|].
  destruct kv0.2 as [|input]; [discriminate | by exists input].
Qed.

(** The loop over the record types validates each of them and adds the
    entries that are missing, after those that are there; a type whose
    name the object inherits is not missing. *)
Lemma validate_types_Ok types (tr0 tr : list (string * Index.transform_value)) :
  fold_result (Index.validate_type validate) tr0 types = Ok tr ->
  (forall kv, kv ∈ types -> validate kv.2 = None) /\
  (forall key, key ∈ types.*1 -> key ∈ tr.*1 \/ inherited key = true) /\
  exists added,
    tr = tr0 ++ added /\
    forall kv, kv ∈ added ->
      kv.1 ∈ types.*1 /\ kv.2 = Index.TransformArray None /\
      (kv.1 ∉ tr0.*1) /\ inherited kv.1 = false.
Proof.
  revert tr0. induction types as [|ty types IH]; simpl; intros tr0 Hf.
  { injection Hf as <-. split_and!.
    - by intros kv ?%elem_of_nil.
    - by intros key ?%elem_of_nil.
    - exists []. rewrite app_nil_r. split; [done|]. by intros kv ?%elem_of_nil. }
  unfold Index.validate_type at 1 in Hf.
  destruct (validate ty.2) as [e|] eqn:Hv; [discriminate|].
  apply IH in Hf as (Hval & Hcov & added & -> & Hadd).
  destruct (Index.has_key tr0 ty.1) eqn:Hk.
  - apply has_key_true in Hk. split_and!.
    + intros kv [->|Hin]%elem_of_cons; [done | by apply Hval].
    + intros key [->|Hin]%elem_of_cons; [|by apply Hcov].
      destruct Hk as [Hk|Hk]; [left | by right].
      rewrite fmap_app. apply elem_of_app. by left.
    + exists added. split; [done|]. intros kv Hin.
      destruct (Hadd kv Hin) as (Hty & Hv' & Hnin & Hown).
      split_and!; try done. apply elem_of_cons. by right.
  - apply has_key_false in Hk as [Hnk Hown0].
    split_and!.
    + intros kv [->|Hin]%elem_of_cons; [done | by apply Hval].
    + intros key [->|Hin]%elem_of_cons; [|by apply Hcov].
      left. rewrite !fmap_app. apply elem_of_app. left. apply elem_of_app.
      right. simpl. apply list_elem_of_singleton. done.
    + exists ((ty.1, Index.TransformArray None) :: added).
      split; [by rewrite <- app_assoc|].
      intros kv [->|Hin]%elem_of_cons.
      * simpl. split_and!; try done. apply elem_of_cons. by left.
      * destruct (Hadd kv Hin) as (Hty & Hv' & Hnin & Hown).
        split_and!; try done.
        -- apply elem_of_cons. by right.
        -- intros Hin0. apply Hnin. rewrite fmap_app. apply elem_of_app.
           by left.
Qed.

(** What an instance that the constructor returns is made of. *)
Lemma constructor_Ok rt o (i : instance) :
  constructor rt (Some o) = Ok i ->
  exists types u adapter,
    rt = Index.Types types /\ types <> [] /\
    fold_result (fun _ kv => Index.check_transform types kv) ()
      (default [] (Index.opt_transforms o)) = Ok u /\
    fold_result (Index.validate_type validate)
      (default [] (Index.opt_transforms o)) types
    = Ok (Index.transforms i) /\
    i = Index.Instance Index.not_started
          (Index.Options
             (Some (default memoryAdapter (Index.opt_adapter o)))
             (Some (Index.Settings
                      (Some (default true
                               (Index.enforceLinks
                                  (default (Index.Settings None)
                                     (Index.opt_settings o)))))))
             (Some (Index.transforms i)))
          (Index.transforms i) types adapter
          (Index.make_flows methods middlewares).
Proof.
  unfold Index.constructor. destruct rt as [| |[|ty types]]; try discriminate.
  remember (ty :: types) as tys eqn:Htys. simpl.
  destruct (fold_result _ () _) as [u|e] eqn:Hc; [|discriminate].
  destruct (fold_result (Index.validate_type validate) _ tys)
    as [tr|e] eqn:Hv; [|discriminate].
  destruct (AdapterSingleton _ _ _) as [ad|e]; [|discriminate].
  intros [= <-]. simpl. exists tys, u, ad. split_and!; try done.
  by rewrite Htys.
Qed.

(** X12. [new Fortune (x)] never gives an instance: the function
    [Fortune] hands its only argument to the constructor, whose second
    parameter is then [undefined], and the constructor reads ['adapter' in
    options] as soon as the first argument has passed its two checks. *)
Theorem Fortune_always_throws (x : Index.recordTypes_arg) :
  (exists msg, Fortune x = Err (TypeError msg)) \/
  (x = Index.Types [] /\
   Fortune x = Err (Error "At least one type must be specified.")).
Proof.
  unfold Index.Fortune, Index.constructor.
  destruct x as [| |[|ty types]]; eauto.
Qed.

(** X13. In an instance that the constructor returns, every key of
    [transforms] is a key of [recordTypes], its own or one that it
    inherits from [Object.prototype] (['toString' in recordTypes] holds
    for every object), and every entry is an array.  The entries of the
    caller are kept as they are.  A record type without one is given the
    empty array, unless its name is one that [transforms] inherits
    ([valueOf], [constructor], ...): such a type is left without an entry
    of its own.  So [type in transforms] holds for every record type.
    Every record type has passed [validate], the status is 0, and
    [enforceLinks] is what the caller has set, [true] when the caller has
    not set it. *)
Theorem constructor_completes_transforms (rt : Index.recordTypes_arg)
    (o : Index.options_t) (i : instance) :
  constructor rt (Some o) = Ok i ->
  rt = Index.Types (Index.recordTypes i) /\
  Index.connectionStatus i = 0 /\
  (forall type,
     type ∈ (Index.transforms i).*1 ->
     Index.has_key (Index.recordTypes i) type = true) /\
  (forall type,
     type ∈ (Index.recordTypes i).*1 ->
     Index.has_key (Index.transforms i) type = true) /\
  (forall kv, kv ∈ Index.transforms i ->
     exists input, kv.2 = Index.TransformArray input) /\
  (forall type v,
     Index.get (default [] (Index.opt_transforms o)) type = Some v ->
     Index.get (Index.transforms i) type = Some v) /\
  (forall type,
     Index.get (default [] (Index.opt_transforms o)) type = None ->
     Index.get (Index.transforms i) type
     = if bool_decide (type ∈ (Index.recordTypes i).*1) && negb (inherited type)
       then Some (Index.TransformArray None) else None) /\
  (forall kv, kv ∈ Index.recordTypes i -> validate kv.2 = None) /\
  Index.opt_transforms (Index.options i) = Some (Index.transforms i) /\
  Index.opt_settings (Index.options i)
  = Some (Index.Settings
            (Some (default true (Index.opt_settings o ≫= Index.enforceLinks)))).
Proof.
  intros Hc.
  destruct (constructor_Ok _ _ _ Hc) as (types & u & ad & -> & Hne & Hck & Hv & Hi).
  pose proof (check_transforms_Ok _ _ _ Hck) as Hck'.
  destruct (validate_types_Ok _ _ _ Hv) as (Hval & Hcov & added & Htr & Hadd).
  assert (Hrt : Index.recordTypes i = types) by (by rewrite Hi).
  rewrite Hrt. split_and!.
  - done.
  - by rewrite Hi.
  - intros type. rewrite has_key_true, Htr, fmap_app, elem_of_app.
    intros [Hin|Hin]; apply list_elem_of_fmap in Hin as (kv & -> & Hkv).
    + by apply Hck'.
    + left. by apply Hadd.
  - intros type Hin. apply has_key_true. by apply Hcov.
  - intros kv. rewrite Htr, elem_of_app. intros [Hin|Hin].
    + by apply Hck'.
    + destruct (Hadd kv Hin) as (_ & -> & _). by eexists.
  - intros type v Hg. by rewrite Htr, get_app, Hg.
  - intros type Hg. rewrite Htr, get_app, Hg.
    destruct (Index.get added type) as [v|] eqn:Hga.
    + apply get_Some_key in Hga.
      destruct (Hadd _ Hga) as (Hty & Hv2 & _ & Hown). simpl in *. subst v.
      by rewrite bool_decide_eq_true_2, Hown.
    + destruct (bool_decide (type ∈ types.*1)) eqn:Hty; [|done].
      apply bool_decide_eq_true in Hty.
      destruct (inherited type) eqn:Hown; [done|]. simpl.
      destruct (Hcov _ Hty) as [Hin|Hin]; [|congruence].
      rewrite Htr, fmap_app, elem_of_app in Hin.
      destruct Hin as [Hin|Hin]; apply get_is_Some in Hin as [v Hv'];
        congruence.
  - done.
  - by rewrite Hi.
  - rewrite Hi. simpl. by destruct (Index.opt_settings o) as [[[b|]]|].
Qed.
End ConstructorFacts.

(** ** The dispatcher on an instance of the constructor *)
Section SecondCall.
Context `{Required}.

Lemma upto_begin_Ok w rq c0 t0 :
  upto_begin w rq = (c0, Ok t0) ->
  exists x rest,
    stripped w rq = x :: rest /\
    trace c0 = [BeginTransaction (Fulfilled t0)] /\
    records c0 = Some (own (x :: rest)) /\ transaction c0 = None.
Proof.
  unfold upto_begin, on_payload, stripped.
  destruct (payload rq) as [[|x0 rs0]|]; try discriminate.
  destruct (meta rq); [|discriminate]. simpl.
  destruct (adapter_beginTransaction w []) as [t|e] eqn:Hbt; [|discriminate].
  intros [= <- <-]. simpl.
  pose proof (strip_length (fields_of w rq) (x0 :: rs0)) as Hlen.
  destruct (strip (fields_of w rq) (x0 :: rs0)) as [|x rest]; [discriminate|].
  by exists x, rest.
Qed.

Lemma create_begin_failed w rq c0 e0 :
  upto_begin w rq = (c0, Err e0) ->
  create w rq = (c0, Err e0) /\
  forall t, BeginTransaction (Fulfilled t) ∉ trace c0.
Proof.
  intros Hb. pose proof Hb as Hb'.
  apply upto_begin_spec in Hb'
    as (_ & _ & Htx & [(Htr & _ & _) | (res & Htr & Hres & _)]).
  - split.
    + unfold create, chain, upto_updates, upto_create, upto_enforce,
        upto_transform. rewrite Hb. simpl. unfold on_error. by rewrite Htx.
    + intros t. rewrite Htr. by intros ?%elem_of_nil.
  - split.
    + unfold create, chain, upto_updates, upto_create, upto_enforce,
        upto_transform. rewrite Hb. simpl. unfold on_error. by rewrite Htx.
    + intros t. rewrite Htr. destruct res; [discriminate|].
      intros Hin. split_in Hin; done.
Qed.

Lemma all_map_transform_head w f (x : obj) l c :
  exists after o evs,
    trace (all_map w (call_transform f) (x :: l) c).1
    = trace c ++ Transform x.2 after o :: evs.
Proof.
  unfold all_map. simpl. unfold call_transform at 1.
  destruct (f (trace c) x.2) as [after o] eqn:Hf. simpl.
  exists after, (content_of after o).
  destruct (object_of x.1 after o) as [p|e]; simpl.
  2:{ exists []. by rewrite write_back_trace. }
  match goal with
  | |- context [map_ ?g l ?c1] => destruct (map_ g l c1) as [c2 res] eqn:Hm
  end.
  destruct res as [ps|e];
    destruct (map_transform_spec _ _ _ _ _ Hm) as (_ & evs & Htr & _);
    simpl; rewrite Htr; simpl; exists evs;
    by rewrite write_back_trace, <- app_assoc.
Qed.

Lemma all_map_enforce_head w rq (x : obj) l c :
  exists after o evs,
    trace (all_map w (enforce_and_check w rq) (x :: l) c).1
    = trace c ++ Enforce (type rq) x.2 after o :: evs.
Proof.
  unfold all_map. simpl.
  destruct (enforce_and_check_spec w rq x c) as (after & err & He & Hcall).
  simpl in Hcall. exists after, err.
  destruct err as [e|].
  { rewrite Hcall. simpl. exists []. by rewrite write_back_trace. }
  destruct Hcall as [ck ->].
  destruct (then_record _ ck) as [p|e]; simpl.
  2:{ eexists [_]. by rewrite write_back_trace, <- app_assoc. }
  match goal with
  | |- context [map_ ?g l ?c1] => destruct (map_ g l c1) as [c2 res] eqn:Hm
  end.
  destruct res as [ps|e];
    destruct (map_enforce_spec _ _ _ _ _ _ Hm) as (_ & evs & Htr & _);
    simpl; rewrite Htr; simpl; eexists (_ :: evs);
    by rewrite write_back_trace, <- !app_assoc.
Qed.

Lemma create_extends_enforce w rq c r :
  create w rq = (c, r) ->
  exists evs, trace c = trace (upto_enforce w rq).1 ++ evs.
Proof.
  intros Hc.
  destruct (upto_create w rq) as [c0 r0] eqn:Hup.
  destruct (create_adds _ _ _ _ _ _ Hup Hc) as (rest & -> & _).
  assert (Hc0 : c0 = (upto_create w rq).1) by by rewrite Hup.
  rewrite Hc0. unfold upto_create.
  destruct (then_trace (upto_enforce w rq) _ (on_enforced_trace w rq))
    as [evs3 ->].
  rewrite <- !app_assoc. by eexists.
Qed.

(** The call that follows [beginTransaction], for a type that has an
    entry in [transforms]. *)
Lemma second_call w rq c r t :
  create w rq = (c, r) ->
  BeginTransaction (Fulfilled t) ∈ trace c ->
  is_Some (transforms w !! type rq) ->
  exists x,
    head (stripped w rq) = Some x /\
    ((exists f after o, transforms w !! type rq = Some (Some f) /\
                        trace c !! 1 = Some (Transform x after o)) \/
     (exists after o, transforms w !! type rq = Some None /\
                      trace c !! 1 = Some (Enforce (type rq) x after o))).
Proof.
  intros Hc Hin [tf Htf].
  destruct (create_extends_enforce _ _ _ _ Hc) as [evs Hext].
  destruct (upto_begin w rq) as [c0 [t0|e0]] eqn:Hb.
  2:{ destruct (create_begin_failed _ _ _ _ Hb) as [Hc' Hno].
      rewrite Hc' in Hc. injection Hc as <- _. by apply Hno in Hin. }
  destruct (upto_begin_Ok _ _ _ _ Hb) as (x & rest & Hst & Htr0 & Hrec & _).
  exists x. split; [by rewrite Hst|].
  rewrite Hext. unfold upto_enforce, upto_transform. rewrite Hb. simpl.
  unfold on_transaction. rewrite Htf. destruct tf as [f|].
  - left. exists f. simpl. rewrite Hrec.
    change (default [] (Some (own (x :: rest))))
      with ((Some 0, x) :: imap (fun i r => (Some (S i), r)) rest).
    match goal with
    | |- context [then_ (all_map w (call_transform f) (?x0 :: ?l0) ?c1) _] =>
        destruct (all_map_transform_head w f x0 l0 c1)
          as (after & o & evs1 & Htr1);
        destruct (then_trace (all_map w (call_transform f) (x0 :: l0) c1) _
                    (on_transformed_trace w rq)) as [evs2 Htr2]
    end.
    exists after, o. split; [done|]. unfold obj in *.
    rewrite Htr2, Htr1. simpl. by rewrite Htr0.
  - right. simpl. rewrite Hrec.
    change (default [] (Some (own (x :: rest))))
      with ((Some 0, x) :: imap (fun i r => (Some (S i), r)) rest).
    unfold on_transformed.
    match goal with
    | |- context [all_map w (enforce_and_check w rq) (?x0 :: ?l0) ?c1] =>
        destruct (all_map_enforce_head w rq x0 l0 c1)
          as (after & o & evs1 & Htr1)
    end.
    exists after, o. split; [done|]. unfold obj in *.
    rewrite Htr1. simpl. by rewrite Htr0.
Qed.
End SecondCall.

Section OnAnInstance.
Context `{Required}.
Context {adapter_option adapter_t middleware : Type}.
Variable memoryAdapter : adapter_option.
Variable validate : fieldDefs -> option error.
Variable AdapterSingleton :
  adapter_option -> list (string * fieldDefs) ->
  list (string * Index.transform_value) -> result adapter_t.
Variable methods : list (string * string).
Variable middlewares : string -> option middleware.

Local Abbreviation constructor :=
  (Index.constructor memoryAdapter validate AdapterSingleton methods
     middlewares).
Local Abbreviation instance :=
  (@Index.instance _ adapter_option adapter_t middleware).

Lemma lookup_list_to_map_get {A} (o : list (string * A)) key :
  (list_to_map o : gmap string A) !! key = Index.get o key.
Proof.
  induction o as [|[k v] o IH]; simpl; [done|].
  destruct (decide (k = key)) as [->|Hne].
  - by rewrite lookup_insert_eq.
  - by rewrite lookup_insert_ne.
Qed.

Lemma get_fmap_value {A B} (f : A -> B) (o : list (string * A)) key :
  Index.get ((fun kv => (kv.1, f kv.2)) <$> o) key = f <$> Index.get o key.
Proof.
  induction o as [|[k v] o IH]; simpl; [done|]. by destruct (decide (k = key)).
Qed.

Lemma lookup_names {A} (l : list string) type :
  (list_to_map ((fun key : string => (key, @None A)) <$> l)
     : gmap string (option A)) !! type
  = if bool_decide (type ∈ l) then Some None else None.
Proof.
  induction l as [|k l IH]; [done|].
  rewrite fmap_cons, list_to_map_cons.
  destruct (decide (k = type)) as [->|Hne].
  - rewrite lookup_insert_eq, bool_decide_eq_true_2; [done|].
    apply elem_of_cons. by left.
  - rewrite lookup_insert_ne by done. rewrite IH.
    destruct (bool_decide (type ∈ l)) eqn:Hl.
    + apply bool_decide_eq_true in Hl. rewrite bool_decide_eq_true_2; [done|].
      apply elem_of_cons. by right.
    + apply bool_decide_eq_false in Hl. rewrite bool_decide_eq_false_2; [done|].
      intros [?|?]%elem_of_cons; [congruence | done].
Qed.

Lemma lookup_inherited_names type :
  (list_to_map ((fun key : string => (key, @None hook)) <$> Object_prototype)
     : gmap string (option hook)) !! type
  = if inherited type then Some None else None.
Proof. apply lookup_names. Qed.

Lemma world_of_lookups (i : instance) w0 type :
  recordTypes (Index.world_of i w0) !! type
  = Index.get (Index.recordTypes i) type /\
  transforms (Index.world_of i w0) !! type
  = match Index.get (Index.transforms i) type with
    | Some v => Some (Index.input_of v)
    | None => if inherited type then Some None else None
    end.
Proof.
  split; simpl.
  - apply lookup_list_to_map_get.
  - unfold Index.transforms_of.
    rewrite lookup_union, lookup_list_to_map_get, get_fmap_value,
      lookup_inherited_names.
    destruct (Index.get (Index.transforms i) type); simpl;
      by destruct (inherited type).
Qed.

(** X14. On an instance that the constructor has returned, a create
    request for one of its record types does not fail on a missing
    transform: once the transaction is open, the call that follows is the
    input transform of the type or, when it has none, the enforcement of
    the first record of the payload. *)
Theorem known_type_reaches_its_records (rt : Index.recordTypes_arg)
    (o : Index.options_t) (i : instance) (w0 : world) (rq : request)
    (c : closure) (r : result context) (t : txn) :
  constructor rt (Some o) = Ok i ->
  type rq ∈ (Index.recordTypes i).*1 ->
  create (Index.world_of i w0) rq = (c, r) ->
  BeginTransaction (Fulfilled t) ∈ trace c ->
  is_Some (fields_of (Index.world_of i w0) rq) /\
  exists x,
    head (stripped (Index.world_of i w0) rq) = Some x /\
    ((exists after ans, trace c !! 1 = Some (Transform x after ans)) \/
     (exists after ans, trace c !! 1 = Some (Enforce (type rq) x after ans))).
Proof.
  intros Hi Hty Hc Hin.
  destruct (constructor_Ok _ _ _ _ _ _ _ _ Hi)
    as (types & u & ad & -> & Hne & Hck & Hv & Hi').
  destruct (validate_types_Ok _ _ _ _ Hv) as (_ & Hcov & _).
  assert (Htypes : Index.recordTypes i = types) by (by rewrite Hi').
  destruct (world_of_lookups i w0 (type rq)) as [Hrt Htf].
  split.
  { unfold fields_of. rewrite Hrt. by apply get_is_Some. }
  assert (Hsome : is_Some (transforms (Index.world_of i w0) !! type rq)).
  { rewrite Htf. rewrite Htypes in Hty.
    destruct (Hcov _ Hty) as [Hk|Hk].
    - apply get_is_Some in Hk as [v ->]. by eexists.
    - rewrite Hk.
      destruct (Index.get (Index.transforms i) (type rq)); by eexists. }
  destruct (second_call _ _ _ _ _ Hc Hin Hsome)
    as (x & Hx & [(f & after & ans & _ & Hl) | (after & ans & _ & Hl)]);
    exists x; (split; [done|]); [left | right]; by exists after, ans.
Qed.
End OnAnInstance.

(** ** [connect], [disconnect] and [request] *)
Section ConnectionFacts.
Context {request_options : Type}.
Variable ensureTypes : list Index.note -> option error.

Local Abbreviation state := (@Index.state request_options).
Local Abbreviation connect := (Index.connect ensureTypes).
Local Abbreviation request := (Index.request ensureTypes).
Local Abbreviation step := (Index.step ensureTypes).
Local Abbreviation run := (Index.run ensureTypes).

(** *** Settling promises *)

Lemma writes_only_refl (s : state) T : Index.writes_only T s s.
Proof. destruct s. by repeat split. Qed.

Lemma writes_only_trans (s1 s2 s3 : state) T :
  Index.writes_only T s1 s2 -> Index.writes_only T s2 s3 ->
  Index.writes_only T s1 s3.
Proof.
  intros (E1 & L1 & S1 & F1) (E2 & L2 & S2 & F2). split_and!.
  - rewrite E2 at 1. rewrite E1 at 1. by destruct s1.
  - congruence.
  - eauto.
  - intros q Hq. rewrite F2, F1; done.
Qed.

Lemma writes_only_mono (s s' : state) T T' :
  T ⊆ T' -> Index.writes_only T s s' -> Index.writes_only T' s s'.
Proof.
  intros HT (E & L & S & F). split_and!; try done.
  intros q Hq. apply F. intros Hin. by apply Hq, HT.
Qed.

Lemma write_writes_only p v (s : state) :
  Index.writes_only [p] s (Index.write p v s).
Proof.
  unfold Index.write.
  destruct (Index.promises s !! p) as [[w|]|] eqn:Hp;
    try apply writes_only_refl.
  split_and!; simpl.
  - done.
  - by rewrite length_insert.
  - intros q w Hq. rewrite list_lookup_insert_ne; [done|]. congruence.
  - intros q Hq. rewrite list_lookup_insert_ne; [done|].
    intros ->. apply Hq. by apply list_elem_of_singleton.
Qed.

Lemma write_pending p v (s : state) :
  Index.promises s !! p = Some None ->
  Index.promises (Index.write p v s) !! p = Some (Some v).
Proof.
  intros Hp. unfold Index.write. rewrite Hp. simpl.
  apply list_lookup_insert_eq. by eapply lookup_lt_Some.
Qed.

Lemma foldl_write_writes_only {A} (g : A -> nat) v (l : list A) (s : state) :
  Index.writes_only (g <$> l) s
    (foldl (fun s r => Index.write (g r) v s) s l).
Proof.
  revert s. induction l as [|r l IH]; intros s; simpl.
  { apply writes_only_refl. }
  eapply writes_only_trans.
  - eapply writes_only_mono; [|apply write_writes_only].
    intros x ->%list_elem_of_singleton. apply elem_of_cons. by left.
  - eapply writes_only_mono; [|apply IH].
    intros x Hx. apply elem_of_cons. by right.
Qed.

Lemma writes_only_apart (f : state -> state) T (s s' : state) :
  Index.apart f -> Index.writes_only T s s' ->
  Index.writes_only T (f s) (f s').
Proof.
  intros [Hf Hp] (E & L & S & F). split_and!; rewrite ?Hp; try done.
  rewrite E at 1. apply Hf.
Qed.

Lemma write_apart (f : state -> state) p v (s : state) :
  Index.apart f -> Index.write p v (f s) = f (Index.write p v s).
Proof.
  intros [Hf Hp]. unfold Index.write. rewrite Hp.
  by destruct (Index.promises s !! p) as [[w|]|].
Qed.

Lemma apart_set_dispatched l : Index.apart (fun s : state => Index.set_dispatched s l).
Proof. by split. Qed.
Lemma apart_set_listeners l : Index.apart (fun s : state => Index.set_listeners s l).
Proof. by split. Qed.
Lemma apart_set_jobs l : Index.apart (fun s : state => Index.set_jobs s l).
Proof. by split. Qed.
Lemma apart_set_reactions l : Index.apart (fun s : state => Index.set_reactions s l).
Proof. by split. Qed.
Lemma apart_set_status n : Index.apart (fun s : state => Index.set_status s n).
Proof. by split. Qed.
Lemma apart_set_in_flight l : Index.apart (fun s : state => Index.set_in_flight s l).
Proof. by split. Qed.
Lemma apart_add_note n : Index.apart (fun s : state => Index.add_note s n).
Proof. by split. Qed.

(** The listeners of an event, called one after the other. *)
Lemma foldl_call_listener (ls : list (Index.listener)) (s : state) :
  Index.writes_only (Index.settled_by ls)
    (Index.set_dispatched s (Index.dispatched s ++ Index.dispatches_of ls))
    (foldl Index.call_listener s ls).
Proof.
  revert s. induction ls as [|[p|p o] ls IH]; intros s; simpl.
  - rewrite app_nil_r. destruct s. apply writes_only_refl.
  - eapply writes_only_trans; [|eapply writes_only_mono; [|apply IH]].
    + pose proof (write_writes_only p (Index.Failure (Error "Connection failed.")) s) as Hw.
      apply (writes_only_apart _ _ _ _
               (apart_set_dispatched
                  (Index.dispatched s ++ Index.dispatches_of ls))) in Hw.
      destruct Hw as (E & L & S & F).
      assert (Hd : Index.dispatched (Index.write p (Index.Failure (Error "Connection failed.")) s)
                   = Index.dispatched s).
      { destruct (write_writes_only p (Index.Failure (Error "Connection failed.")) s)
          as (E' & _). rewrite E'. done. }
      rewrite Hd. eapply writes_only_mono; [|by split_and!].
      intros x ->%list_elem_of_singleton. apply elem_of_cons. by left.
    + intros x Hx. apply elem_of_cons. by right.
  - eapply writes_only_trans; [|eapply writes_only_mono; [|apply IH]].
    + unfold Index.dispatch.
      set (s1 := Index.set_dispatched s (Index.dispatched s ++ [(p, o)])).
      pose proof (write_writes_only p (Index.Dispatch (length (Index.dispatched s))) s1) as Hw.
      assert (Hd : Index.dispatched (Index.write p (Index.Dispatch (length (Index.dispatched s))) s1)
                   = Index.dispatched s ++ [(p, o)]).
      { destruct Hw as (E' & _). rewrite E'. done. }
      rewrite Hd.
      apply (writes_only_apart _ _ _ _
               (apart_set_dispatched
                  ((Index.dispatched s ++ [(p, o)]) ++ Index.dispatches_of ls)))
        in Hw.
      rewrite <- app_assoc in Hw |- *. simpl in Hw |- *.
      eapply writes_only_mono; [|exact Hw].
      intros x ->%list_elem_of_singleton. apply elem_of_cons. by left.
    + intros x Hx. apply elem_of_cons. by right.
Qed.

Lemma writes_only_fields T (s s' : state) :
  Index.writes_only T s s' ->
  Index.status s' = Index.status s /\
  Index.in_flight s' = Index.in_flight s /\
  Index.listeners s' = Index.listeners s /\
  Index.reactions s' = Index.reactions s /\
  Index.jobs s' = Index.jobs s /\
  Index.dispatched s' = Index.dispatched s /\
  Index.notes s' = Index.notes s.
Proof. intros (E & _). rewrite E. by repeat split. Qed.

Lemma emit_shape name (s : state) :
  let called := filter (fun l => l.1 = name) (Index.listeners s) in
  Index.writes_only (Index.settled_by called.*2)
    (Index.set_dispatched
       (Index.add_note
          (Index.set_listeners s
             (filter (fun l => l.1 <> name) (Index.listeners s)))
          (Index.Emits name))
       (Index.dispatched s ++ Index.dispatches_of called.*2))
    (Index.emit name s).
Proof.
  intros called. unfold Index.emit.
  exact (foldl_call_listener called.*2
           (Index.add_note
              (Index.set_listeners s
                 (filter (fun l => l.1 <> name) (Index.listeners s)))
              (Index.Emits name))).
Qed.

Lemma settle_shape p v (s : state) :
  (Index.promises s !! p <> Some None /\ Index.settle p v s = s) \/
  (Index.promises s !! p = Some None /\
   Index.promises (Index.settle p v s) !! p = Some (Some v) /\
   let mine := filter (fun r => r.1 = p) (Index.reactions s) in
   Index.writes_only (p :: (mine.*2).*1)
     (Index.set_jobs
        (Index.set_reactions s
           (filter (fun r => r.1 <> p) (Index.reactions s)))
        (match v with
         | Index.Failure _ => Index.jobs s
         | _ => Index.jobs s ++ mine.*2
         end))
     (Index.settle p v s)).
Proof.
  unfold Index.settle.
  destruct (Index.promises s !! p) as [[w|]|] eqn:Hp;
    [left; split; [congruence | done] | | left; split; [congruence | done]].
  right. split; [done|].
  set (mine := filter (fun r => r.1 = p) (Index.reactions s)).
  set (rest := filter (fun r => r.1 <> p) (Index.reactions s)).
  set (s1 := Index.set_promises s (<[p := Some v]> (Index.promises s))).
  assert (Hw1 : Index.writes_only [p] s s1).
  { pose proof (write_writes_only p v s) as Hw. unfold Index.write in Hw.
    by rewrite Hp in Hw. }
  assert (Hp1 : Index.promises s1 !! p = Some (Some v)).
  { simpl. apply list_lookup_insert_eq. by eapply lookup_lt_Some. }
  assert (Hjobs : Index.jobs s = Index.jobs (Index.set_reactions s1 rest)) by done.
  destruct v as [|d|e]; simpl.
  - split; [done|].
    eapply writes_only_mono;
      [|exact (writes_only_apart _ _ _ _
                 (apart_set_jobs (Index.jobs s ++ mine.*2))
                 (writes_only_apart _ _ _ _ (apart_set_reactions rest) Hw1))].
    intros x ->%list_elem_of_singleton. apply elem_of_cons. by left.
  - split; [done|].
    eapply writes_only_mono;
      [|exact (writes_only_apart _ _ _ _
                 (apart_set_jobs (Index.jobs s ++ mine.*2))
                 (writes_only_apart _ _ _ _ (apart_set_reactions rest) Hw1))].
    intros x ->%list_elem_of_singleton. apply elem_of_cons. by left.
  - pose proof (foldl_write_writes_only (fun r : nat * (nat * request_options) => r.2.1)
                  (Index.Failure e) mine (Index.set_reactions s1 rest)) as Hw2.
    split.
    { destruct Hw2 as (_ & _ & S & _). by apply S. }
    eapply writes_only_trans.
    + eapply writes_only_mono;
        [|exact (writes_only_apart _ _ _ _
                   (apart_set_jobs (Index.jobs s))
                   (writes_only_apart _ _ _ _ (apart_set_reactions rest) Hw1))].
      intros x ->%list_elem_of_singleton. apply elem_of_cons. by left.
    + assert (Heq : Index.set_jobs (Index.set_reactions s1 rest) (Index.jobs s)
                    = Index.set_reactions s1 rest) by done.
      rewrite Heq. eapply writes_only_mono; [|exact Hw2].
      intros x Hx. apply elem_of_cons. right.
      by rewrite <- list_fmap_compose.
Qed.

(** *** What the adapter sees *)

Lemma settle_fields p v (s : state) :
  Index.status (Index.settle p v s) = Index.status s /\
  Index.in_flight (Index.settle p v s) = Index.in_flight s /\
  Index.listeners (Index.settle p v s) = Index.listeners s /\
  Index.dispatched (Index.settle p v s) = Index.dispatched s /\
  Index.notes (Index.settle p v s) = Index.notes s.
Proof.
  destruct (settle_shape p v s) as [[_ ->] | (_ & _ & Hw)]; [done|].
  apply writes_only_fields in Hw as (-> & -> & -> & _ & _ & -> & ->). done.
Qed.

Lemma emit_fields name (s : state) :
  Index.status (Index.emit name s) = Index.status s /\
  Index.in_flight (Index.emit name s) = Index.in_flight s /\
  Index.reactions (Index.emit name s) = Index.reactions s /\
  Index.jobs (Index.emit name s) = Index.jobs s /\
  Index.notes (Index.emit name s) = Index.notes s ++ [Index.Emits name] /\
  Index.listeners (Index.emit name s)
  = filter (fun l => l.1 <> name) (Index.listeners s) /\
  Index.dispatched (Index.emit name s)
  = Index.dispatched s ++
    Index.dispatches_of (filter (fun l => l.1 = name) (Index.listeners s)).*2.
Proof.
  pose proof (emit_shape name s) as Hw. simpl in Hw.
  apply writes_only_fields in Hw as (-> & -> & -> & -> & -> & -> & ->). done.
Qed.

Lemma dispatch_fields p o (s : state) :
  Index.status (Index.dispatch p o s) = Index.status s /\
  Index.in_flight (Index.dispatch p o s) = Index.in_flight s /\
  Index.listeners (Index.dispatch p o s) = Index.listeners s /\
  Index.reactions (Index.dispatch p o s) = Index.reactions s /\
  Index.jobs (Index.dispatch p o s) = Index.jobs s /\
  Index.dispatched (Index.dispatch p o s) = Index.dispatched s ++ [(p, o)] /\
  Index.notes (Index.dispatch p o s) = Index.notes s.
Proof.
  unfold Index.dispatch.
  pose proof (write_writes_only p (Index.Dispatch (length (Index.dispatched s)))
                (Index.set_dispatched s (Index.dispatched s ++ [(p, o)]))) as Hw.
  apply writes_only_fields in Hw as (-> & -> & -> & -> & -> & -> & ->). done.
Qed.

Lemma phase_of_snoc ns n :
  Index.phase_of (ns ++ [n])
  = Index.phase_of ns ≫= fun ph => Index.next_phase ph n.
Proof. unfold Index.phase_of. by rewrite foldl_app. Qed.

Lemma coherent_same (s s' : state) :
  Index.status s' = Index.status s ->
  Index.in_flight s' = Index.in_flight s ->
  Index.notes s' = Index.notes s ->
  Index.coherent s -> Index.coherent s'.
Proof.
  intros Hs Hf Hn (ph & Hph & Hfit). exists ph. rewrite Hn. split; [done|].
  destruct ph; unfold Index.fits in *; by rewrite Hs, Hf.
Qed.

Lemma connect_coherent (s : state) :
  Index.coherent s -> Index.coherent (connect s).1.
Proof.
  intros Hco. unfold Index.connect, Index.new_promise.
  set (s0 := Index.set_promises s (Index.promises s ++ [None])).
  set (p := length (Index.promises s)).
  assert (Hco0 : Index.coherent s0) by (by eapply coherent_same; [..|exact Hco]).
  change (Index.status s0) with (Index.status s).
  destruct (decide (Index.status s = Index.started)) as [H1|H1]; simpl.
  { destruct (settle_fields p (Index.Failure (Error "Connection is in progress.")) s0)
      as (Hs & Hf & _ & _ & Hn).
    by eapply coherent_same; [..|exact Hco0]. }
  destruct (decide (Index.status s = Index.done)) as [H2|H2]; simpl.
  { destruct (settle_fields p (Index.Failure (Error "Connection is already done.")) s0)
      as (Hs & Hf & _ & _ & Hn).
    by eapply coherent_same; [..|exact Hco0]. }
  destruct Hco as (ph & Hph & Hfit).
  assert (ph = Index.Down /\ Index.in_flight s = []) as [-> Hnil].
  { destruct ph; simpl in Hfit; destruct Hfit as [Hst Hfl]; try done;
      try (destruct Hst; done). }
  change (Index.notes (Index.set_status s0 Index.started)) with (Index.notes s).
  destruct (ensureTypes (Index.notes s)) as [e|]; simpl.
  - destruct (settle_fields p (Index.Failure e) (Index.set_status s0 Index.started))
      as (Hs & Hf & _ & _ & Hn).
    exists Index.Down. rewrite Hn. split; [done|]. simpl. rewrite Hs, Hf.
    split; [by right | done].
  - exists Index.Connecting. simpl. rewrite phase_of_snoc, Hph. simpl.
    split; [done|]. split; [done|]. exists p. by rewrite Hnil.
Qed.

Lemma disconnect_coherent (s : state) :
  Index.coherent s -> Index.coherent (Index.disconnect s).1.
Proof.
  intros Hco. unfold Index.disconnect, Index.new_promise.
  set (s0 := Index.set_promises s (Index.promises s ++ [None])).
  set (p := length (Index.promises s)).
  assert (Hco0 : Index.coherent s0) by (by eapply coherent_same; [..|exact Hco]).
  change (Index.status s0) with (Index.status s).
  destruct (decide (Index.status s <> Index.done)) as [H2|H2]; simpl.
  { destruct (settle_fields p (Index.Failure (Error "Instance has not been connected.")) s0)
      as (Hs & Hf & _ & _ & Hn).
    by eapply coherent_same; [..|exact Hco0]. }
  apply dec_stable in H2.
  destruct Hco as (ph & Hph & Hfit).
  assert (ph = Index.Up /\ Index.in_flight s = []) as [-> Hnil].
  { destruct ph; simpl in Hfit; destruct Hfit as [Hst Hfl]; try done;
      try (rewrite H2 in Hst; discriminate).
    destruct Hst as [Hst|Hst]; rewrite H2 in Hst; discriminate. }
  exists Index.Disconnecting. simpl. rewrite phase_of_snoc, Hph. simpl.
  split; [done|]. split; [done|]. exists p. by rewrite Hnil.
Qed.

Lemma then_dispatch_fields p o (s : state) :
  Index.status (Index.then_dispatch p o s).1 = Index.status s /\
  Index.in_flight (Index.then_dispatch p o s).1 = Index.in_flight s /\
  Index.notes (Index.then_dispatch p o s).1 = Index.notes s /\
  Index.listeners (Index.then_dispatch p o s).1 = Index.listeners s /\
  Index.dispatched (Index.then_dispatch p o s).1 = Index.dispatched s.
Proof.
  unfold Index.then_dispatch, Index.new_promise.
  set (s0 := Index.set_promises s (Index.promises s ++ [None])).
  destruct (Index.promises s0 !! p) as [[[| |e]|]|]; simpl; try done.
  pose proof (write_writes_only (length (Index.promises s)) (Index.Failure e) s0) as Hw.
  apply writes_only_fields in Hw as (-> & -> & -> & _ & _ & -> & ->). done.
Qed.

Lemma request_coherent o (s : state) :
  Index.coherent s -> Index.coherent (request o s).1.
Proof.
  intros Hco. unfold Index.request.
  destruct (decide (Index.status s = Index.not_started)) as [H0|H0].
  { destruct (connect s) as [s1 p] eqn:Hc.
    assert (Hco1 : Index.coherent s1).
    { pose proof (connect_coherent s Hco) as H. by rewrite Hc in H. }
    destruct (then_dispatch_fields p o s1) as (Hs & Hf & Hn & _).
    by eapply coherent_same; [..|exact Hco1]. }
  destruct (decide (Index.status s = Index.started)) as [H1|H1]; simpl.
  { by eapply coherent_same; [..|exact Hco]. }
  destruct (dispatch_fields (length (Index.promises s)) o
              (Index.set_promises s (Index.promises s ++ [None])))
    as (Hs & Hf & _ & _ & _ & _ & Hn).
  by eapply coherent_same; [..|exact Hco].
Qed.

Lemma answer_coherent i res (s : state) :
  Index.coherent s -> Index.coherent (Index.answer i res s).
Proof.
  intros Hco. unfold Index.answer.
  destruct (Index.in_flight s !! i) as [[m p]|] eqn:Hi; [|done].
  destruct Hco as (ph & Hph & Hfit).
  set (s1 := Index.add_note
               (Index.set_in_flight s (delete i (Index.in_flight s)))
               (Index.Settles m res)).
  assert (Hcase :
    (ph = Index.Connecting /\ m = Index.AdapterConnect \/
     ph = Index.Disconnecting /\ m = Index.AdapterDisconnect) /\
    Index.in_flight s = [(m, p)] /\ i = 0).
  { destruct ph; simpl in Hfit.
    - destruct Hfit as [_ Hnil]. by rewrite Hnil in Hi.
    - destruct Hfit as [_ [q Hq]]. rewrite Hq in Hi.
      destruct i; [|by destruct i]. injection Hi as <- <-. eauto.
    - destruct Hfit as [_ Hnil]. by rewrite Hnil in Hi.
    - destruct Hfit as [_ [q Hq]]. rewrite Hq in Hi.
      destruct i; [|by destruct i]. injection Hi as <- <-. eauto. }
  destruct Hcase as (Hph' & Hfl & ->).
  assert (Hfl1 : Index.in_flight s1 = []) by (simpl; by rewrite Hfl).
  assert (Hdone : forall n name v ph',
    Index.next_phase ph (Index.Settles m res) = Some ph' ->
    Index.fits ph' (Index.set_status s1 n) ->
    Index.coherent
      (Index.settle p v (Index.emit name (Index.set_status s1 n)))).
  { intros n name v ph' Hnext Hfit'.
    destruct (settle_fields p v (Index.emit name (Index.set_status s1 n)))
      as (Hs & Hf & _ & _ & Hn).
    destruct (emit_fields name (Index.set_status s1 n))
      as (Hs' & Hf' & _ & _ & Hn' & _).
    assert (Hns1 : Index.notes (Index.set_status s1 n)
                   = Index.notes s ++ [Index.Settles m res]) by done.
    exists ph'. rewrite Hn, Hn', Hns1, !phase_of_snoc, Hph.
    change (Some ph ≫= (fun ph0 => Index.next_phase ph0 (Index.Settles m res)))
      with (Index.next_phase ph (Index.Settles m res)).
    rewrite Hnext. split; [done|].
    destruct ph'; simpl in *; rewrite Hs, Hs', Hf, Hf'; done. }
  destruct Hph' as [[-> ->] | [-> ->]]; destruct res as [e|].
  - apply (Hdone _ _ _ Index.Down); [done|]. split; [by left | exact Hfl1].
  - apply (Hdone _ _ _ Index.Up); [done|]. split; [done | exact Hfl1].
  - apply (Hdone _ _ _ Index.Up); [done|]. split; [done | exact Hfl1].
  - apply (Hdone _ _ _ Index.Down); [done|]. split; [by left | exact Hfl1].
Qed.

Lemma run_job_coherent (s : state) :
  Index.coherent s -> Index.coherent (Index.run_job s).
Proof.
  intros Hco. unfold Index.run_job.
  destruct (Index.jobs s) as [|[q o] js]; [done|].
  destruct (dispatch_fields q o (Index.set_jobs s js))
    as (Hs & Hf & _ & _ & _ & _ & Hn).
  by eapply coherent_same; [..|exact Hco].
Qed.

Lemma step_coherent (s : state) a :
  Index.coherent s -> Index.coherent (step s a).
Proof.
  destruct a; simpl.
  - apply connect_coherent.
  - apply disconnect_coherent.
  - apply request_coherent.
  - apply answer_coherent.
  - apply run_job_coherent.
Qed.

Lemma run_snoc (s : state) acts a : run s (acts ++ [a]) = step (run s acts) a.
Proof. unfold Index.run. by rewrite foldl_app. Qed.

Lemma run_coherent (s : state) acts :
  Index.coherent s -> Index.coherent (run s acts).
Proof.
  intros Hs. induction acts as [|a acts IH] using rev_ind; [done|].
  rewrite run_snoc. by apply step_coherent.
Qed.

Lemma fresh_coherent : Index.coherent (@Index.fresh request_options).
Proof. exists Index.Down. split; [done|]. split; [by left | done]. Qed.

(** X15. However [connect], [disconnect] and [request] are called and
    however the adapter answers, the adapter is asked to connect only when
    it is down and to disconnect only when it is up, and never while an
    earlier call of it is unanswered: at most one promise of the adapter is
    in flight, the status is 2 exactly while the adapter is up with nothing
    in flight, and it is 1 while a call is in flight. *)
Theorem adapter_calls_alternate (acts : list (@Index.action request_options)) :
  let s := run Index.fresh acts in
  Index.status s <= 2 /\ length (Index.in_flight s) <= 1 /\
  exists ph,
    Index.phase_of (Index.notes s) = Some ph /\ Index.fits ph s /\
    (Index.status s = 2 <-> ph = Index.Up) /\
    (Index.in_flight s <> [] -> Index.status s = 1).
Proof.
  intros s.
  destruct (run_coherent Index.fresh acts fresh_coherent) as (ph & Hph & Hfit).
  fold s in Hph, Hfit.
  assert (Hst : Index.status s <= 2 /\ length (Index.in_flight s) <= 1 /\
                (Index.status s = 2 <-> ph = Index.Up) /\
                (Index.in_flight s <> [] -> Index.status s = 1)).
  { destruct ph; simpl in Hfit;
      unfold Index.not_started, Index.started, Index.done in Hfit.
    - destruct Hfit as [[Hs|Hs] Hf]; rewrite Hs, Hf; simpl;
        (split_and!; [lia | lia | split; discriminate | done]).
    - destruct Hfit as [Hs [p Hf]]. rewrite Hs, Hf. simpl.
      split_and!; [lia | lia | split; discriminate | done].
    - destruct Hfit as [Hs Hf]. rewrite Hs, Hf. simpl.
      split_and!; [lia | lia | done | done].
    - destruct Hfit as [Hs [p Hf]]. rewrite Hs, Hf. simpl.
      split_and!; [lia | lia | split; discriminate | done]. }
  destruct Hst as (H1 & H2 & H3 & H4). split_and!; try done.
  by exists ph.
Qed.

(** *** The promises that a state refers to *)

Lemma grows_refl (s : state) : Index.grows s s.
Proof. split_and!; eauto. Qed.

Lemma grows_trans (s1 s2 s3 : state) :
  Index.grows s1 s2 -> Index.grows s2 s3 -> Index.grows s1 s3.
Proof.
  intros (L1 & S1 & M1 & D1) (L2 & S2 & M2 & D2). split_and!.
  - lia.
  - eauto.
  - intros x Hx. destruct (M2 x Hx) as [H2|H2]; [|right; lia].
    destruct (M1 x H2) as [H1|H1]; [by left | right; lia].
  - intros x Hx. destruct (D2 x Hx) as [H2|H2]; [|right; lia].
    destruct (D1 x H2) as [H1|H1]; [by left | right; lia].
Qed.

Lemma grows_core (s X : state) :
  Index.promises X = Index.promises s ->
  Index.mentioned X ⊆ Index.mentioned s ->
  Index.to_dispatch X ⊆ Index.to_dispatch s ->
  Index.grows s X.
Proof.
  intros HP HM HD. split_and!; rewrite ?HP; try done.
  - intros x Hx. left. by apply HM.
  - intros x Hx. left. by apply HD.
Qed.

Lemma writes_only_grows T (s s' : state) :
  Index.writes_only T s s' -> Index.grows s s'.
Proof.
  intros Hw. pose proof (writes_only_fields _ _ _ Hw)
    as (Hs & Hf & Hl & Hr & Hj & Hd & Hn).
  destruct Hw as (E & L & S & F). split_and!.
  - lia.
  - done.
  - intros x Hx. left. revert Hx. unfold Index.mentioned.
    by rewrite Hf, Hd, Hj, Hr, Hl.
  - intros x Hx. left. revert Hx. unfold Index.to_dispatch.
    by rewrite Hd, Hj, Hr, Hl.
Qed.

Lemma known_grows (s s' : state) :
  Index.known s -> Index.grows s s' -> Index.known s'.
Proof.
  intros Hk (L & _ & M & _). apply Forall_forall. intros x Hx.
  destruct (M x Hx) as [Hin|Hin]; [|lia].
  eapply Forall_forall in Hk; [|exact Hin]. simpl in Hk. lia.
Qed.

Lemma new_promise_grows (s : state) : Index.grows s (Index.new_promise s).1.
Proof.
  unfold Index.new_promise. simpl. split_and!; simpl.
  - rewrite length_app. lia.
  - intros q w Hq. by apply lookup_app_l_Some.
  - intros x Hx. by left.
  - intros x Hx. by left.
Qed.

Lemma settle_grows p v (s : state) : Index.grows s (Index.settle p v s).
Proof.
  destruct (settle_shape p v s) as [[_ ->] | (_ & _ & Hw)];
    [apply grows_refl|].
  eapply grows_trans; [|by eapply writes_only_grows].
  set (mine := filter (fun r => r.1 = p) (Index.reactions s)).
  assert (Hmine : mine ⊆ Index.reactions s).
  { intros r Hr. by apply list_elem_of_filter in Hr as [_ ?]. }
  assert (Hrest : filter (fun r => r.1 <> p) (Index.reactions s)
                  ⊆ Index.reactions s).
  { intros r Hr. by apply list_elem_of_filter in Hr as [_ ?]. }
  assert (Hjobs : forall x,
            x ∈ (match v with
                 | Index.Failure _ => Index.jobs s
                 | _ => Index.jobs s ++ mine.*2
                 end).*1 ->
            x ∈ (Index.jobs s).*1 \/ x ∈ ((Index.reactions s).*2).*1).
  { intros x Hx.
    assert (Hx' : x ∈ (Index.jobs s ++ mine.*2).*1 -> 
                  x ∈ (Index.jobs s).*1 \/ x ∈ ((Index.reactions s).*2).*1).
    { rewrite fmap_app, elem_of_app. intros [?|Hm]; [by left | right].
      apply list_elem_of_fmap in Hm as (y & -> & Hy).
      apply list_elem_of_fmap in Hy as (r & -> & Hr).
      apply list_elem_of_fmap. exists r.2. split; [done|].
      apply list_elem_of_fmap. exists r. split; [done|]. by apply Hmine. }
    destruct v; auto. }
  apply grows_core; [done|..]; intros x; unfold Index.mentioned,
    Index.to_dispatch; simpl; rewrite !elem_of_app.
  - intros [?|[?|[Hj|[Hr|[Hr|?]]]]]; auto 10.
    + destruct (Hjobs x Hj); auto 10.
    + do 3 right. left. apply list_elem_of_fmap in Hr as (r & -> & Hr).
      apply list_elem_of_fmap. exists r. split; [done|]. by apply Hrest.
    + do 4 right. left. apply list_elem_of_fmap in Hr as (y & -> & Hy).
      apply list_elem_of_fmap in Hy as (r & -> & Hr).
      apply list_elem_of_fmap. exists r.2. split; [done|].
      apply list_elem_of_fmap. exists r. split; [done|]. by apply Hrest.
  - intros [?|[Hj|[Hr|?]]]; auto 10.
    + destruct (Hjobs x Hj); auto 10.
    + do 2 right. left. apply list_elem_of_fmap in Hr as (y & -> & Hy).
      apply list_elem_of_fmap in Hy as (r & -> & Hr).
      apply list_elem_of_fmap. exists r.2. split; [done|].
      apply list_elem_of_fmap. exists r. split; [done|]. by apply Hrest.
Qed.

Lemma dispatches_of_ids
    (ls : list (Index.event_name * @Index.listener request_options)) x :
  x ∈ (Index.dispatches_of (request_options := request_options) ls.*2).*1 ->
  x ∈ omap Index.listener_promise ls.
Proof.
  intros Hx. apply list_elem_of_fmap in Hx as ([p o] & -> & Hpo).
  apply list_elem_of_omap in Hpo as (l & Hl & Hsome).
  apply list_elem_of_fmap in Hl as (nl & -> & Hnl).
  apply list_elem_of_omap. exists nl. split; [done|].
  unfold Index.listener_promise. by destruct nl.2; simplify_eq.
Qed.

Lemma listener_promise_id
    (ls : list (Index.event_name * @Index.listener request_options)) x :
  x ∈ omap (Index.listener_promise (request_options := request_options)) ls ->
  x ∈ Index.listener_id <$> ls.
Proof.
  intros Hx. apply list_elem_of_omap in Hx as (l & Hl & Hsome).
  apply list_elem_of_fmap. exists l. split; [|done].
  unfold Index.listener_promise, Index.listener_id in *.
  by destruct l.2; simplify_eq.
Qed.

Lemma emit_grows name (s : state) : Index.grows s (Index.emit name s).
Proof.
  pose proof (emit_shape name s) as Hw. simpl in Hw.
  eapply grows_trans; [|by eapply writes_only_grows].
  set (called := filter (fun l => l.1 = name) (Index.listeners s)).
  assert (Hcalled : called ⊆ Index.listeners s).
  { intros r Hr. by apply list_elem_of_filter in Hr as [_ ?]. }
  assert (Hrest : filter (fun l => l.1 <> name) (Index.listeners s)
                  ⊆ Index.listeners s).
  { intros r Hr. by apply list_elem_of_filter in Hr as [_ ?]. }
  assert (Hsub : forall (l1 l2 : list (Index.event_name *
                                       @Index.listener request_options)) x,
            l1 ⊆ l2 -> x ∈ omap Index.listener_promise l1 ->
            x ∈ omap Index.listener_promise l2).
  { intros l1 l2 x H12 Hx. apply list_elem_of_omap in Hx as (l & Hl & Hsome).
    apply list_elem_of_omap. exists l. split; [by apply H12 | done]. }
  apply grows_core; [done|..]; intros x; unfold Index.mentioned,
    Index.to_dispatch; simpl; rewrite !fmap_app, !elem_of_app.
  - intros [?|[[?|Hd]|[?|[?|[?|Hl]]]]]; auto 10.
    + do 5 right. apply listener_promise_id, (Hsub called); [done|].
      by apply dispatches_of_ids.
    + do 5 right. apply list_elem_of_fmap in Hl as (l & -> & Hl).
      apply list_elem_of_fmap. exists l. split; [done | by apply Hrest].
  - intros [[?|Hd]|[?|[?|Hl]]]; auto 10.
    + do 3 right. apply (Hsub called); [done|]. by apply dispatches_of_ids.
    + do 3 right. by apply (Hsub _ _ _ Hrest).
Qed.

Lemma dispatch_grows p o (s : state) :
  p ∈ Index.to_dispatch s ->
  Index.grows s (Index.dispatch p o s).
Proof.
  intros Hp. unfold Index.dispatch.
  eapply grows_trans; [|eapply writes_only_grows, write_writes_only].
  assert (Hm : p ∈ Index.mentioned s).
  { revert Hp. unfold Index.mentioned, Index.to_dispatch.
    rewrite !elem_of_app. intros [?|[?|[?|?]]]; auto 10.
    do 5 right. by apply listener_promise_id. }
  apply grows_core; [done|..]; intros x; unfold Index.mentioned,
    Index.to_dispatch in *; simpl; rewrite !fmap_app, !elem_of_app;
    simpl; rewrite list_elem_of_singleton.
  - intros [?|[[?| ->]|?]]; rewrite ?elem_of_app in *; auto 10.
  - intros [[?| ->]|?]; rewrite ?elem_of_app in *; auto 10.
Qed.

Lemma connect_promise (s : state) : (connect s).2 = length (Index.promises s).
Proof.
  unfold Index.connect, Index.new_promise. simpl.
  repeat case_decide; try done. by destruct (ensureTypes _).
Qed.

Lemma disconnect_promise (s : state) :
  (Index.disconnect s).2 = length (Index.promises s).
Proof.
  unfold Index.disconnect, Index.new_promise. simpl. by case_decide.
Qed.

Lemma in_flight_grows m (s0 s : state) :
  Index.grows s0 s ->
  length (Index.promises s0) < length (Index.promises s) ->
  Index.grows s0
    (Index.add_note
       (Index.set_in_flight (Index.set_status s Index.started)
          (Index.in_flight s ++ [(m, length (Index.promises s0))]))
       (Index.Calls m)).
Proof.
  intros (L & S & M & D) Hlt. split_and!; simpl; try done.
  - intros x. unfold Index.mentioned. simpl.
    rewrite fmap_app, <- !app_assoc, elem_of_app. simpl.
    intros [Hx|Hx].
    + apply M. unfold Index.mentioned. apply elem_of_app. by left.
    + apply elem_of_cons in Hx as [->|Hx]; [right; lia|].
      apply M. unfold Index.mentioned. apply elem_of_app. by right.
Qed.

Lemma connect_grows (s : state) : Index.grows s (connect s).1.
Proof.
  unfold Index.connect.
  pose proof (new_promise_grows s) as H0.
  destruct (Index.new_promise s) as [s0 p] eqn:Hnp. simpl in H0.
  assert (Hp : p = length (Index.promises s) /\
               length (Index.promises s) < length (Index.promises s0)).
  { unfold Index.new_promise in Hnp. injection Hnp as <- <-. simpl.
    rewrite length_app. simpl. lia. }
  destruct Hp as [-> Hlt].
  repeat case_decide; simpl.
  - eapply grows_trans; [exact H0 | apply settle_grows].
  - eapply grows_trans; [exact H0 | apply settle_grows].
  - destruct (ensureTypes _); simpl.
    + eapply grows_trans; [|apply settle_grows].
      eapply grows_trans; [exact H0|].
      apply grows_core; done.
    + by apply in_flight_grows.
Qed.

Lemma disconnect_grows (s : state) : Index.grows s (Index.disconnect s).1.
Proof.
  unfold Index.disconnect.
  pose proof (new_promise_grows s) as H0.
  destruct (Index.new_promise s) as [s0 p] eqn:Hnp. simpl in H0.
  assert (Hp : p = length (Index.promises s) /\
               length (Index.promises s) < length (Index.promises s0)).
  { unfold Index.new_promise in Hnp. injection Hnp as <- <-. simpl.
    rewrite length_app. simpl. lia. }
  destruct Hp as [-> Hlt].
  case_decide; simpl.
  - eapply grows_trans; [exact H0 | apply settle_grows].
  - by apply in_flight_grows.
Qed.

Lemma to_dispatch_mentioned (s : state) x :
  x ∈ Index.to_dispatch s -> x ∈ Index.mentioned s.
Proof.
  unfold Index.mentioned, Index.to_dispatch.
  rewrite !elem_of_app. intros [?|[?|[?|?]]]; auto 10.
  do 5 right. by apply listener_promise_id.
Qed.

Lemma mentioned_elem (s : state) x :
  x ∈ Index.mentioned s <->
  x ∈ (Index.in_flight s).*2 \/ x ∈ (Index.dispatched s).*1 \/
  x ∈ (Index.jobs s).*1 \/ x ∈ (Index.reactions s).*1 \/
  x ∈ ((Index.reactions s).*2).*1 \/
  x ∈ Index.listener_id <$> Index.listeners s.
Proof. unfold Index.mentioned. by rewrite !elem_of_app. Qed.

Lemma to_dispatch_elem (s : state) x :
  x ∈ Index.to_dispatch s <->
  x ∈ (Index.dispatched s).*1 \/ x ∈ (Index.jobs s).*1 \/
  x ∈ ((Index.reactions s).*2).*1 \/
  x ∈ omap Index.listener_promise (Index.listeners s).
Proof. unfold Index.to_dispatch. by rewrite !elem_of_app. Qed.

Lemma dispatch_grows_from (s0 s : state) p o :
  Index.grows s0 s ->
  p ∈ Index.to_dispatch s0 \/
  length (Index.promises s0) <= p < length (Index.promises s) ->
  Index.grows s0 (Index.dispatch p o s).
Proof.
  intros (L & S & M & D) Hp. unfold Index.dispatch.
  eapply grows_trans; [|eapply writes_only_grows, write_writes_only].
  split_and!; simpl; try done.
  - intros x Hx. apply mentioned_elem in Hx. simpl in Hx.
    rewrite fmap_app, elem_of_app in Hx. simpl in Hx.
    rewrite list_elem_of_singleton in Hx.
    destruct Hx as [Hx|[[Hx| ->]|Hx]].
    + apply M, mentioned_elem. auto.
    + apply M, mentioned_elem. auto.
    + destruct Hp as [Hp|Hp]; [left; by apply to_dispatch_mentioned | by right].
    + apply M, mentioned_elem. auto.
  - intros x Hx. apply to_dispatch_elem in Hx. simpl in Hx.
    rewrite fmap_app, elem_of_app in Hx. simpl in Hx.
    rewrite list_elem_of_singleton in Hx.
    destruct Hx as [[Hx| ->]|Hx].
    + apply D, to_dispatch_elem. auto.
    + destruct Hp as [Hp|Hp]; [by left | right; lia].
    + apply D, to_dispatch_elem. auto.
Qed.

Lemma connect_length (s : state) :
  length (Index.promises (connect s).1) = S (length (Index.promises s)).
Proof.
  unfold Index.connect, Index.new_promise.
  set (s0 := Index.set_promises s (Index.promises s ++ [None])).
  assert (H0 : length (Index.promises s0) = S (length (Index.promises s))).
  { simpl. rewrite length_app. simpl. lia. }
  assert (Hset : forall p v (s1 : state),
            length (Index.promises s1) = S (length (Index.promises s)) ->
            length (Index.promises (Index.settle p v s1))
            = S (length (Index.promises s))).
  { intros p v s1 H1.
    destruct (settle_shape p v s1) as [[_ ->] | (_ & _ & (_ & L & _))];
      [done|]. by rewrite L. }
  repeat case_decide; simpl; try by apply Hset.
  destruct (ensureTypes _); simpl; [by apply Hset | done].
Qed.

Lemma then_dispatch_grows (s0 s : state) p o :
  Index.grows s0 s ->
  length (Index.promises s0) <= p < length (Index.promises s) ->
  Index.grows s0 (Index.then_dispatch p o s).1.
Proof.
  intros Hg Hp. unfold Index.then_dispatch, Index.new_promise.
  set (s1 := Index.set_promises s (Index.promises s ++ [None])).
  set (q := length (Index.promises s)).
  assert (H1 : Index.grows s0 s1).
  { eapply grows_trans; [exact Hg | apply (new_promise_grows s)]. }
  assert (Hl1 : length (Index.promises s1) = S q).
  { simpl. rewrite length_app. simpl. unfold q. lia. }
  assert (Hq : length (Index.promises s0) <= q) by (destruct Hg; unfold q; lia).
  pose proof H1 as H1'. destruct H1 as (L1 & S1 & M1 & D1).
  assert (Hjob : Index.grows s0 (Index.set_jobs s1 (Index.jobs s1 ++ [(q, o)]))).
  { split_and!; simpl; try done.
    - intros x Hx. apply mentioned_elem in Hx. simpl in Hx.
      rewrite fmap_app, elem_of_app in Hx. simpl in Hx.
      rewrite list_elem_of_singleton in Hx.
      destruct Hx as [Hx|[Hx|[[Hx| ->]|Hx]]]; try (right; simpl; rewrite ?length_app; simpl; unfold q in *; lia);
        apply M1, mentioned_elem; auto 10.
    - intros x Hx. apply to_dispatch_elem in Hx. simpl in Hx.
      rewrite fmap_app, elem_of_app in Hx. simpl in Hx.
      rewrite list_elem_of_singleton in Hx.
      destruct Hx as [Hx|[[Hx| ->]|Hx]]; try (right; simpl; rewrite ?length_app; simpl; unfold q in *; lia);
        apply D1, to_dispatch_elem; auto 10. }
  assert (Hreact : Index.grows s0
            (Index.set_reactions s1 (Index.reactions s1 ++ [(p, (q, o))]))).
  { split_and!; simpl; try done.
    - intros x Hx. apply mentioned_elem in Hx. simpl in Hx.
      rewrite !fmap_app, !elem_of_app in Hx. simpl in Hx.
      rewrite !list_elem_of_singleton in Hx.
      destruct Hx as [Hx|[Hx|[Hx|[[Hx| ->]|[[Hx| ->]|Hx]]]]];
        try (right; simpl; rewrite ?length_app; simpl; unfold q in *; lia); apply M1, mentioned_elem; auto 10.
    - intros x Hx. apply to_dispatch_elem in Hx. simpl in Hx.
      rewrite !fmap_app, !elem_of_app in Hx. simpl in Hx.
      rewrite list_elem_of_singleton in Hx.
      destruct Hx as [Hx|[Hx|[[Hx| ->]|Hx]]]; try (right; simpl; rewrite ?length_app; simpl; unfold q in *; lia);
        apply D1, to_dispatch_elem; auto 10. }
  destruct (Index.promises s1 !! p) as [[[| |e]|]|]; simpl; try done.
  eapply grows_trans; [exact H1'|].
  eapply writes_only_grows, write_writes_only.
Qed.

Lemma request_grows o (s : state) : Index.grows s (request o s).1.
Proof.
  unfold Index.request. case_decide.
  { pose proof (connect_grows s) as Hg. pose proof (connect_length s) as Hl.
    pose proof (connect_promise s) as Hp.
    destruct (connect s) as [s1 p]. simpl in *. subst p.
    apply then_dispatch_grows; [done | lia]. }
  case_decide; simpl.
  - split_and!; simpl.
    + rewrite length_app. lia.
    + intros q w Hq. by apply lookup_app_l_Some.
    + intros x Hx. apply mentioned_elem in Hx. simpl in Hx.
      rewrite !fmap_app, !elem_of_app in Hx. simpl in Hx.
      rewrite length_app. simpl.
      destruct Hx as [Hx|[Hx|[Hx|[Hx|[Hx|[Hx|Hx]]]]]];
        try (left; apply mentioned_elem; by auto 10).
      right. unfold Index.listener_id in Hx. simpl in Hx.
      apply elem_of_cons in Hx as [->|Hx]; [lia|].
      apply list_elem_of_singleton in Hx as ->. lia.
    + intros x Hx. apply to_dispatch_elem in Hx. simpl in Hx.
      rewrite omap_app, !elem_of_app in Hx. simpl in Hx.
      destruct Hx as [Hx|[Hx|[Hx|[Hx|Hx]]]];
        try (left; apply to_dispatch_elem; by auto 10).
      right. apply list_elem_of_singleton in Hx as ->. lia.
  - apply dispatch_grows_from; [apply (new_promise_grows s)|].
    right. simpl. rewrite length_app. simpl. lia.
Qed.

Lemma answer_grows i res (s : state) : Index.grows s (Index.answer i res s).
Proof.
  unfold Index.answer.
  destruct (Index.in_flight s !! i) as [[m p]|] eqn:Hi; [|apply grows_refl].
  set (s1 := Index.add_note
               (Index.set_in_flight s (delete i (Index.in_flight s)))
               (Index.Settles m res)).
  assert (H1 : forall n, Index.grows s (Index.set_status s1 n)).
  { intros n. apply grows_core; [done|..]; intros x;
      unfold Index.mentioned, Index.to_dispatch; simpl; [|done].
    rewrite !elem_of_app. intros [Hx|Hx]; [left | by right].
    apply list_elem_of_fmap in Hx as (y & -> & Hy).
    apply list_elem_of_fmap. exists y. split; [done|].
    by eapply list_elem_of_delete_inv. }
  destruct m, res;
    (eapply grows_trans; [|apply settle_grows]);
    (eapply grows_trans; [|apply emit_grows]); apply H1.
Qed.

Lemma run_job_grows (s : state) : Index.grows s (Index.run_job s).
Proof.
  unfold Index.run_job.
  destruct (Index.jobs s) as [|[q o] js] eqn:Hj; [apply grows_refl|].
  apply dispatch_grows_from.
  - apply grows_core; [done|..]; intros x Hx.
    + apply mentioned_elem in Hx. apply mentioned_elem. simpl in Hx.
      rewrite Hj. simpl. rewrite elem_of_cons.
      destruct Hx as [?|[?|[?|[?|[?|?]]]]]; auto 10.
    + apply to_dispatch_elem in Hx. apply to_dispatch_elem. simpl in Hx.
      rewrite Hj. simpl. rewrite elem_of_cons.
      destruct Hx as [?|[?|[?|?]]]; auto 10.
  - left. unfold Index.to_dispatch. rewrite Hj. simpl.
    rewrite !elem_of_app, elem_of_cons. auto.
Qed.

Lemma step_grows (s : state) a : Index.grows s (step s a).
Proof.
  destruct a; simpl.
  - apply connect_grows.
  - apply disconnect_grows.
  - apply request_grows.
  - apply answer_grows.
  - apply run_job_grows.
Qed.

Lemma run_grows (s : state) acts : Index.grows s (run s acts).
Proof.
  induction acts as [|a acts IH] using rev_ind; [apply grows_refl|].
  rewrite run_snoc. eapply grows_trans; [exact IH | apply step_grows].
Qed.

Lemma fresh_known : Index.known (@Index.fresh request_options).
Proof. constructor. Qed.

Lemma run_known (acts : list (@Index.action request_options)) :
  Index.known (run Index.fresh acts).
Proof. eapply known_grows; [apply fresh_known | apply run_grows]. Qed.

(** *** The listeners *)

Lemma connect_listeners (s : state) :
  Index.listeners (connect s).1 = Index.listeners s.
Proof.
  unfold Index.connect, Index.new_promise.
  repeat case_decide; simpl;
    try (by destruct (settle_fields (length (Index.promises s))
                        (Index.Failure (Error "Connection is in progress."))
                        (Index.set_promises s (Index.promises s ++ [None])))
           as (_ & _ & -> & _));
    try (by destruct (settle_fields (length (Index.promises s))
                        (Index.Failure (Error "Connection is already done."))
                        (Index.set_promises s (Index.promises s ++ [None])))
           as (_ & _ & -> & _)).
  destruct (ensureTypes _) as [e|]; simpl; [|done].
  by destruct (settle_fields (length (Index.promises s)) (Index.Failure e)
                 (Index.set_status
                    (Index.set_promises s (Index.promises s ++ [None]))
                    Index.started)) as (_ & _ & -> & _).
Qed.

Lemma listeners_ok_step (s : state) a :
  Index.listeners_ok s -> Index.listeners_ok (step s a).
Proof.
  unfold Index.listeners_ok. intros Hok. destruct a as [| |o|i res|]; simpl.
  - by rewrite connect_listeners.
  - unfold Index.disconnect, Index.new_promise. case_decide; simpl; [|done].
    by destruct (settle_fields (length (Index.promises s))
                   (Index.Failure (Error "Instance has not been connected."))
                   (Index.set_promises s (Index.promises s ++ [None])))
      as (_ & _ & -> & _).
  - unfold Index.request. case_decide.
    { pose proof (connect_listeners s) as Hl.
      destruct (connect s) as [s1 p]. simpl in Hl.
      destruct (then_dispatch_fields p o s1) as (_ & _ & _ & -> & _).
      by rewrite Hl. }
    case_decide; simpl.
    + apply Forall_app. split; [done|]. by repeat constructor.
    + by destruct (dispatch_fields (length (Index.promises s)) o
                     (Index.set_promises s (Index.promises s ++ [None])))
        as (_ & _ & -> & _).
  - unfold Index.answer.
    destruct (Index.in_flight s !! i) as [[m p]|]; [|done].
    assert (Hgen : forall n name v,
      Forall (fun l : Index.event_name * Index.listener =>
                match l with
                | (Index.EvFailure, Index.RejectFailed _)
                | (Index.EvConnect, Index.ResolveDispatch _ _) => True
                | _ => False
                end)
        (Index.listeners
           (Index.settle p v
              (Index.emit name
                 (Index.set_status
                    (Index.add_note
                       (Index.set_in_flight s (delete i (Index.in_flight s)))
                       (Index.Settles m res)) n))))).
    { intros n name v.
      destruct (settle_fields p v
                  (Index.emit name
                     (Index.set_status
                        (Index.add_note
                           (Index.set_in_flight s
                              (delete i (Index.in_flight s)))
                           (Index.Settles m res)) n)))
        as (_ & _ & -> & _).
      destruct (emit_fields name
                  (Index.set_status
                     (Index.add_note
                        (Index.set_in_flight s (delete i (Index.in_flight s)))
                        (Index.Settles m res)) n))
        as (_ & _ & _ & _ & _ & -> & _).
      simpl. apply Forall_forall. intros l [_ Hl]%list_elem_of_filter.
      by eapply Forall_forall in Hok. }
    destruct m, res; apply Hgen.
  - unfold Index.run_job. destruct (Index.jobs s) as [|[q o] js]; [done|].
    by destruct (dispatch_fields q o (Index.set_jobs s js))
      as (_ & _ & -> & _).
Qed.

Lemma run_listeners_ok (acts : list (@Index.action request_options)) :
  Index.listeners_ok (run Index.fresh acts).
Proof.
  induction acts as [|a acts IH] using rev_ind; [constructor|].
  rewrite run_snoc. by apply listeners_ok_step.
Qed.

Lemma failure_listeners_dispatch_nothing (s : state) :
  Index.listeners_ok s ->
  Index.dispatches_of
    (filter (fun l => l.1 = Index.EvFailure) (Index.listeners s)).*2 = [].
Proof.
  unfold Index.listeners_ok. induction 1 as [|[name l] ls Hl _ IH]; [done|].
  destruct (decide (name = Index.EvFailure)) as [->|Hne].
  - rewrite filter_cons_True by done. simpl. by destruct l.
  - by rewrite filter_cons_False.
Qed.

(** *** Requests that wait for the connection *)

Lemma settle_pending p v (s : state) :
  Index.promises s !! p = Some None ->
  Index.promises (Index.settle p v s) !! p = Some (Some v).
Proof.
  intros Hp. by destruct (settle_shape p v s) as [[? _] | (_ & ? & _)].
Qed.

Lemma foldl_reject (ls : list (@Index.listener request_options)) (s : state) p :
  Forall (fun l => match l with Index.RejectFailed _ => True | _ => False end)
    ls ->
  Index.RejectFailed p ∈ ls ->
  Index.promises s !! p = Some None ->
  Index.promises (foldl Index.call_listener s ls) !! p
  = Some (Some (Index.Failure (Error "Connection failed."))).
Proof.
  intros Hall. revert s. induction Hall as [|l ls Hl _ IH]; intros s Hin Hp.
  { by apply elem_of_nil in Hin. }
  destruct l as [p'|]; [|done]. simpl.
  destruct (decide (p' = p)) as [->|Hne].
  - destruct (foldl_call_listener ls
                (Index.write p (Index.Failure (Error "Connection failed.")) s))
      as (_ & _ & S & _).
    apply S. by apply write_pending.
  - apply IH.
    + apply elem_of_cons in Hin as [[=]|Hin]; [congruence | done].
    + destruct (write_writes_only p'
                  (Index.Failure (Error "Connection failed.")) s)
        as (_ & _ & _ & F).
      rewrite F; [done|]. by intros ->%list_elem_of_singleton.
Qed.

Lemma emit_failure_rejects (s : state) p :
  Index.listeners_ok s ->
  (Index.EvFailure, Index.RejectFailed p) ∈ Index.listeners s ->
  Index.promises s !! p = Some None ->
  Index.promises (Index.emit Index.EvFailure s) !! p
  = Some (Some (Index.Failure (Error "Connection failed."))).
Proof.
  intros Hok Hin Hp. unfold Index.emit. apply foldl_reject; [| |done].
  - apply Forall_forall. intros l Hl.
    apply list_elem_of_fmap in Hl as ([name l'] & -> & Hl).
    apply list_elem_of_filter in Hl as [Hname Hl]. simpl in Hname. subst name.
    eapply Forall_forall in Hok; [|exact Hl]. simpl in *. by destruct l'.
  - apply list_elem_of_fmap. exists (Index.EvFailure, Index.RejectFailed p).
    split; [done|]. by apply list_elem_of_filter.
Qed.

(** X16. A request that was made while a [disconnect] was in progress
    waits for the event [connect] or [failure].  When the adapter fails to
    disconnect, the event [failure] is emitted: the request is rejected
    with 'Connection failed.' and is not dispatched, although the status of
    the instance is back to 2, connected. *)
Theorem failed_disconnect_fails_waiting_requests
    (acts : list (@Index.action request_options)) (i q p : nat) (e : error) :
  let s := run Index.fresh acts in
  Index.in_flight s !! i = Some (Index.AdapterDisconnect, q) ->
  (Index.EvFailure, Index.RejectFailed p) ∈ Index.listeners s ->
  Index.promises s !! p = Some None ->
  let s' := Index.answer i (Some e) s in
  Index.status s' = 2 /\
  Index.promises s' !! p
  = Some (Some (Index.Failure (Error "Connection failed."))) /\
  Index.dispatched s' = Index.dispatched s.
Proof.
  intros s Hi Hin Hp s'. subst s'. unfold Index.answer. rewrite Hi.
  set (s1 := Index.set_status
               (Index.add_note
                  (Index.set_in_flight s (delete i (Index.in_flight s)))
                  (Index.Settles Index.AdapterDisconnect (Some e)))
               Index.done).
  pose proof (run_listeners_ok acts) as Hok. fold s in Hok.
  destruct (settle_fields q (Index.Failure e) (Index.emit Index.EvFailure s1))
    as (-> & _ & _ & -> & _).
  destruct (emit_fields Index.EvFailure s1) as (-> & _ & _ & _ & _ & _ & ->).
  split; [done|]. split.
  - destruct (settle_grows q (Index.Failure e) (Index.emit Index.EvFailure s1))
      as (_ & S & _).
    apply S. by apply emit_failure_rejects.
  - simpl. rewrite (failure_listeners_dispatch_nothing s Hok).
    by rewrite app_nil_r.
Qed.

(** X17. The two listeners of a waiting request are removed one by one,
    each when it is called.  A request that the event [failure] has
    rejected keeps its listener for [connect]: when the adapter connects
    later, [dispatch] is called for that request, and the promise of the
    request stays as it was settled. *)
Theorem settled_request_is_dispatched_on_connect (s : state)
    (i q p : nat) (o : request_options) (v : Index.settlement) :
  Index.in_flight s !! i = Some (Index.AdapterConnect, q) ->
  (Index.EvConnect, Index.ResolveDispatch p o) ∈ Index.listeners s ->
  Index.promises s !! p = Some (Some v) ->
  let s' := Index.answer i None s in
  Index.status s' = 2 /\
  Index.promises s' !! p = Some (Some v) /\
  exists before after,
    Index.dispatched s' = Index.dispatched s ++ before ++ (p, o) :: after.
Proof.
  intros Hi Hin Hp s'.
  pose proof (answer_grows i None s) as (_ & S & _). fold s' in S.
  subst s'. unfold Index.answer in *. rewrite Hi in *.
  set (s1 := Index.set_status
               (Index.add_note
                  (Index.set_in_flight s (delete i (Index.in_flight s)))
                  (Index.Settles Index.AdapterConnect None))
               Index.done) in *.
  destruct (settle_fields q Index.Self (Index.emit Index.EvConnect s1))
    as (Hst & _ & _ & Hd & _).
  destruct (emit_fields Index.EvConnect s1) as (Hst' & _ & _ & _ & _ & _ & Hd').
  split; [by rewrite Hst, Hst'|]. split; [by apply S|].
  rewrite Hd, Hd'. simpl.
  assert (Hpo : (p, o) ∈ Index.dispatches_of
            (filter (fun l => l.1 = Index.EvConnect) (Index.listeners s)).*2).
  { apply list_elem_of_omap. exists (Index.ResolveDispatch p o).
    split; [|done]. apply list_elem_of_fmap.
    exists (Index.EvConnect, Index.ResolveDispatch p o). split; [done|].
    by apply list_elem_of_filter. }
  apply list_elem_of_split in Hpo as (before & after & ->).
  by exists before, after.
Qed.

(** *** A request on an instance that has not connected *)

Lemma known_lt (s : state) x :
  Index.known s -> x ∈ Index.mentioned s -> x < length (Index.promises s).
Proof. intros Hk Hx. by eapply Forall_forall in Hk. Qed.

Lemma coherent_idle (s : state) :
  Index.coherent s -> Index.status s <> Index.started ->
  Index.in_flight s = [].
Proof.
  intros (ph & _ & Hfit) Hs. by destruct ph; simpl in Hfit; destruct Hfit.
Qed.

Lemma filter_reactions_fresh (s : state) p :
  Index.known s -> length (Index.promises s) <= p ->
  filter (fun r => r.1 = p) (Index.reactions s) = [] /\
  filter (fun r => r.1 <> p) (Index.reactions s) = Index.reactions s.
Proof.
  intros Hk Hp.
  assert (Hall : Forall (fun r => r.1 <> p) (Index.reactions s)).
  { apply Forall_forall. intros r Hr.
    assert (r.1 < length (Index.promises s)); [|lia].
    apply known_lt; [done|]. apply mentioned_elem. do 3 right. left.
    apply list_elem_of_fmap. by exists r. }
  split.
  - induction Hall as [|r rs Hr _ IH]; [done|].
    by rewrite filter_cons_False by (by intros ?).
  - induction Hall as [|r rs Hr _ IH]; [done|].
    rewrite filter_cons_True by done. by rewrite IH.
Qed.

Lemma lookup_two_more {A} (l : list A) x y :
  ((l ++ [x]) ++ [y]) !! length l = Some x /\
  ((l ++ [x]) ++ [y]) !! S (length l) = Some y.
Proof.
  rewrite <- app_assoc. split.
  - rewrite lookup_app_r by lia. by rewrite Nat.sub_diag.
  - rewrite lookup_app_r by lia.
    by replace (S (length l) - length l) with 1 by lia.
Qed.

Lemma request_not_started o (s : state) :
  Index.status s = Index.not_started -> ensureTypes (Index.notes s) = None ->
  request o s =
  (Index.State Index.started
     (Index.in_flight s ++ [(Index.AdapterConnect, length (Index.promises s))])
     (Index.listeners s)
     (Index.reactions s ++
      [(length (Index.promises s), (S (length (Index.promises s)), o))])
     (Index.jobs s) ((Index.promises s ++ [None]) ++ [None])
     (Index.dispatched s) (Index.notes s ++ [Index.Calls Index.AdapterConnect]),
   S (length (Index.promises s))).
Proof.
  intros Hs Hen. unfold Index.request. rewrite decide_True by done.
  unfold Index.connect, Index.new_promise. simpl.
  rewrite Hs. simpl. rewrite Hen.
  unfold Index.then_dispatch, Index.new_promise. simpl.
  rewrite length_app. simpl. rewrite Nat.add_1_r.
  by rewrite (proj1 (lookup_two_more (Index.promises s) None None)).
Qed.

Lemma emit_promise_fresh name (s : state) p :
  Index.known s -> Index.promises s !! p = Some None ->
  (forall l, l ∈ Index.listeners s -> Index.listener_id l <> p) ->
  Index.promises (Index.emit name s) !! p = Some None.
Proof.
  intros Hk Hp Hfresh. destruct (emit_shape name s) as (_ & _ & _ & F).
  simpl in F. rewrite F; [done|]. intros Hin.
  apply list_elem_of_fmap in Hin as (l & Hl & Hin).
  apply list_elem_of_fmap in Hin as (nl & -> & Hnl).
  apply list_elem_of_filter in Hnl as [_ Hnl].
  apply (Hfresh nl Hnl). unfold Index.listener_id. by destruct nl.2.
Qed.

(** X18. A request on an instance that has not connected asks the
    adapter to connect and waits.  When the adapter refuses, the request is
    rejected with the error of the adapter and is never dispatched,
    whatever happens afterwards; when the adapter connects, the status is
    2 and the dispatch of the request is the job that has been queued
    last. *)
Theorem request_connects_first (acts0 : list (@Index.action request_options))
    (o : request_options) :
  let s0 := run Index.fresh acts0 in
  Index.status s0 = 0 -> ensureTypes (Index.notes s0) = None ->
  let s1 := (request o s0).1 in
  let p := (request o s0).2 in
  Index.in_flight s1 = [(Index.AdapterConnect, length (Index.promises s0))] /\
  Index.dispatched s1 = Index.dispatched s0 /\
  Index.promises s1 !! p = Some None /\
  (forall e acts,
     let s2 := run (Index.answer 0 (Some e) s1) acts in
     Index.promises s2 !! p = Some (Some (Index.Failure e)) /\
     p ∉ (Index.dispatched s2).*1) /\
  (let s2 := Index.answer 0 None s1 in
   Index.status s2 = 2 /\ Index.jobs s2 = Index.jobs s0 ++ [(p, o)] /\
   Index.promises s2 !! p = Some None /\ p ∉ (Index.dispatched s2).*1).
Proof.
  intros s0 Hs Hen s1 p.
  pose proof (run_known acts0) as Hk. fold s0 in Hk.
  pose proof (run_listeners_ok acts0) as Hok. fold s0 in Hok.
  pose proof (run_coherent Index.fresh acts0 fresh_coherent) as Hco.
  fold s0 in Hco.
  assert (Hfl : Index.in_flight s0 = []).
  { apply coherent_idle; [done|]. by rewrite Hs. }
  subst s1 p. rewrite (request_not_started o s0 Hs Hen). cbn [fst snd].
  set (p0 := length (Index.promises s0)).
  set (s1 := Index.State _ _ _ _ _ _ _ _).
  assert (Hp0 : Index.promises s1 !! p0 = Some None).
  { apply (lookup_two_more (Index.promises s0) None None). }
  assert (Hq : Index.promises s1 !! S p0 = Some None).
  { apply (lookup_two_more (Index.promises s0) None None). }
  assert (Hlt : forall x, x ∈ Index.mentioned s0 -> x < p0).
  { intros x Hx. by apply known_lt. }
  assert (Hlis : forall l, l ∈ Index.listeners s0 -> Index.listener_id l < p0).
  { intros l Hl. apply Hlt, mentioned_elem. do 5 right.
    apply list_elem_of_fmap. by exists l. }
  destruct (filter_reactions_fresh s0 p0 Hk) as [Hmine Hrest]; [done|].
  split; [simpl; by rewrite Hfl|]. split; [done|]. split; [done|].
  assert (Hi : Index.in_flight s1 !! 0 = Some (Index.AdapterConnect, p0)).
  { simpl. by rewrite Hfl. }
  assert (Hk1 : forall n res,
            Index.known
              (Index.set_status
                 (Index.add_note
                    (Index.set_in_flight s1 (delete 0 (Index.in_flight s1)))
                    (Index.Settles Index.AdapterConnect res)) n) ).
  { intros n res. apply Forall_forall. intros x Hx.
    apply mentioned_elem in Hx. simpl in Hx. rewrite Hfl in Hx. simpl in Hx.
    unfold s1. simpl. rewrite !length_app. simpl.
    rewrite !fmap_app, !elem_of_app in Hx. simpl in Hx.
    rewrite !list_elem_of_singleton in Hx.
    destruct Hx as [Hx|[Hx|[Hx|[[Hx| ->]|[[Hx| ->]|Hx]]]]];
      try (by apply elem_of_nil in Hx); try (unfold p0; lia);
      (assert (x < p0); [apply Hlt, mentioned_elem; by auto 10 | unfold p0 in *; lia]). }
  assert (Hemit : forall n res name,
    let E := Index.emit name
               (Index.set_status
                  (Index.add_note
                     (Index.set_in_flight s1 (delete 0 (Index.in_flight s1)))
                     (Index.Settles Index.AdapterConnect res)) n) in
    Index.promises E !! p0 = Some None /\
    Index.promises E !! S p0 = Some None /\
    Index.reactions E = Index.reactions s0 ++ [(p0, (S p0, o))] /\
    Index.jobs E = Index.jobs s0 /\ Index.status E = n /\
    (forall x, x ∈ (Index.dispatched E).*1 -> x < p0) /\
    (forall l, l ∈ Index.listeners E -> l ∈ Index.listeners s0)).
  { intros n res name E. subst E.
    set (sA := Index.set_status _ n).
    destruct (emit_fields name sA) as (Hst & _ & Hr & Hj & _ & Hl & Hd).
    split_and!; [..|intros l; rewrite Hl;
                    by intros [_ ?]%list_elem_of_filter].
    - apply emit_promise_fresh; [apply Hk1 | done |].
      intros l Hl'. apply Hlis in Hl'. lia.
    - apply emit_promise_fresh; [apply Hk1 | done |].
      intros l Hl'. apply Hlis in Hl'. lia.
    - by rewrite Hr.
    - by rewrite Hj.
    - by rewrite Hst.
    - intros x. rewrite Hd. simpl. rewrite fmap_app, elem_of_app.
      intros [Hx|Hx].
      + apply Hlt, mentioned_elem. auto.
      + apply dispatches_of_ids, listener_promise_id in Hx.
        apply list_elem_of_fmap in Hx as (l & -> & Hl').
        apply list_elem_of_filter in Hl' as [_ Hl']. by apply Hlis. }
  assert (Hfilter :
    filter (fun r : nat * (nat * request_options) => r.1 = p0)
      (Index.reactions s0 ++ [(p0, (S p0, o))]) = [(p0, (S p0, o))] /\
    filter (fun r : nat * (nat * request_options) => r.1 <> p0)
      (Index.reactions s0 ++ [(p0, (S p0, o))]) = Index.reactions s0).
  { rewrite !filter_app, Hmine, Hrest. simpl.
    rewrite filter_cons_True by done. rewrite filter_cons_False by (by intros ?).
    by rewrite app_nil_r. }
  destruct Hfilter as [Hf1 Hf2].
  split.
  - intros e acts. cbn zeta.
    set (s2' := Index.answer 0 (Some e) s1).
    set (s2 := run s2' acts).
    assert (Hs2 : Index.promises s2' !! S p0 = Some (Some (Index.Failure e)) /\
                  S p0 < length (Index.promises s2') /\
                  S p0 ∉ Index.to_dispatch s2').
    { subst s2'. unfold Index.answer. rewrite Hi.
      destruct (Hemit Index.not_started (Some e) Index.EvFailure)
        as (HE0 & HEq & HEr & HEj & _ & HEd & HEl).
      remember (Index.emit Index.EvFailure _) as E eqn:HeqE. clear HeqE.
      unfold Index.settle. rewrite HE0. cbn [Index.reactions Index.set_promises].
      rewrite HEr, Hf1, Hf2. cbn [foldl fst snd].
      set (s3 := Index.set_reactions _ _).
      assert (H3 : Index.promises s3 !! S p0 = Some None).
      { simpl. rewrite list_lookup_insert_ne by lia. done. }
      split; [by apply write_pending|].
      destruct (write_writes_only (S p0) (Index.Failure e) s3) as (E3 & L3 & _).
      split.
      { rewrite L3. by eapply lookup_lt_Some. }
      intros Hin. apply to_dispatch_elem in Hin. rewrite E3 in Hin.
      simpl in Hin. rewrite HEj in Hin.
      destruct Hin as [Hin|[Hin|[Hin|Hin]]].
      - apply HEd in Hin. lia.
      - assert (S p0 < p0); [|lia]. apply Hlt, mentioned_elem. auto.
      - assert (S p0 < p0); [|lia]. apply Hlt, mentioned_elem. auto 10.
      - apply listener_promise_id in Hin.
        apply list_elem_of_fmap in Hin as (l & Hl & Hin).
        apply HEl, Hlis in Hin. lia. }
    destruct Hs2 as (Hv & Hlen & Hnd).
    destruct (run_grows s2' acts) as (_ & HS & _ & HD). fold s2 in HS, HD.
    split; [by apply HS|].
    intros Hin. destruct (HD (S p0)) as [Hd|Hd]; [|done|lia].
    apply to_dispatch_elem. by left.
  - cbn zeta. unfold Index.answer. rewrite Hi.
    destruct (Hemit Index.done None Index.EvConnect)
      as (HE0 & HEq & HEr & HEj & HEs & HEd & _).
    remember (Index.emit Index.EvConnect _) as E eqn:HeqE. clear HeqE.
    destruct (settle_fields p0 Index.Self E) as (-> & _ & _ & -> & _).
    split; [done|].
    unfold Index.settle. rewrite HE0. cbn [Index.reactions Index.set_promises].
    rewrite HEr, Hf1, Hf2. simpl.
    rewrite HEj. split; [done|]. split.
    + rewrite list_lookup_insert_ne by lia. done.
    + intros Hin. apply HEd in Hin. lia.
Qed.

(** *** When [ensureTypes] throws *)

Lemma fresh_settled (s : state) v :
  let s0 := Index.set_promises s (Index.promises s ++ [None]) in
  forall s1 : state,
    Index.promises s1 = Index.promises s0 ->
    Index.promises (Index.settle (length (Index.promises s)) v s1)
      !! length (Index.promises s) = Some (Some v).
Proof.
  intros s0 s1 H1. apply settle_pending. rewrite H1. simpl.
  rewrite lookup_app_r by lia. by rewrite Nat.sub_diag.
Qed.

Lemma stuck_step ns (s : state) a :
  Index.stuck ns s -> Index.stuck ns (step s a).
Proof.
  intros (Hs & Hf & Hn). unfold Index.stuck.
  destruct a as [| |o|i res|]; simpl.
  - unfold Index.connect, Index.new_promise. simpl.
    rewrite decide_True by done. simpl.
    destruct (settle_fields (length (Index.promises s))
                (Index.Failure (Error "Connection is in progress."))
                (Index.set_promises s (Index.promises s ++ [None])))
      as (-> & -> & _ & _ & ->). done.
  - unfold Index.disconnect, Index.new_promise. simpl.
    rewrite decide_True by (rewrite Hs; discriminate). simpl.
    destruct (settle_fields (length (Index.promises s))
                (Index.Failure (Error "Instance has not been connected."))
                (Index.set_promises s (Index.promises s ++ [None])))
      as (-> & -> & _ & _ & ->). done.
  - unfold Index.request.
    rewrite decide_False by (rewrite Hs; discriminate).
    by rewrite decide_True by done.
  - unfold Index.answer. by rewrite Hf.
  - unfold Index.run_job. destruct (Index.jobs s) as [|[q o] js]; [done|].
    destruct (dispatch_fields q o (Index.set_jobs s js))
      as (-> & -> & _ & _ & _ & _ & ->). done.
Qed.

Lemma stuck_run ns (s : state) acts :
  Index.stuck ns s -> Index.stuck ns (run s acts).
Proof.
  intros Hs. induction acts as [|a acts IH] using rev_ind; [done|].
  rewrite run_snoc. by apply stuck_step.
Qed.

Lemma settle_fresh_waits (s : state) v p :
  Index.waits p s ->
  Index.waits p
    (Index.settle (length (Index.promises s)) v
       (Index.set_promises s (Index.promises s ++ [None]))).
Proof.
  intros (Hp & Hd & Hj & Hr).
  set (s0 := Index.set_promises s (Index.promises s ++ [None])).
  set (p' := length (Index.promises s)).
  assert (Hlt : p < p') by (by eapply lookup_lt_Some).
  assert (Hp0 : Index.promises s0 !! p = Some None).
  { simpl. by apply lookup_app_l_Some. }
  destruct (settle_shape p' v s0) as [[_ ->] | (_ & _ & Hw)]; [done|].
  pose proof (writes_only_fields _ _ _ Hw) as (_ & _ & _ & Hr' & Hj' & Hd' & _).
  destruct Hw as (_ & _ & _ & F). unfold Index.waits.
  rewrite Hr', Hj', Hd'. simpl. split_and!.
  - rewrite F; [done|]. intros Hin. apply elem_of_cons in Hin as [->|Hin]; [lia|].
    apply Hr. apply list_elem_of_fmap in Hin as (y & -> & Hy).
    apply list_elem_of_fmap in Hy as (r & -> & Hr0).
    apply list_elem_of_filter in Hr0 as [_ Hr0].
    apply list_elem_of_fmap. exists r.2. split; [done|].
    apply list_elem_of_fmap. by exists r.
  - done.
  - intros Hin. destruct v; try done;
      rewrite fmap_app, elem_of_app in Hin; destruct Hin as [Hin|Hin];
      try done; apply Hr;
      apply list_elem_of_fmap in Hin as (y & -> & Hy);
      apply list_elem_of_fmap in Hy as (r & -> & Hr0);
      apply list_elem_of_filter in Hr0 as [_ Hr0];
      apply list_elem_of_fmap; exists r.2; (split; [done|]);
      apply list_elem_of_fmap; by exists r.
  - intros Hin. apply Hr.
    apply list_elem_of_fmap in Hin as (y & -> & Hy).
    apply list_elem_of_fmap in Hy as (r & -> & Hr0).
    apply list_elem_of_filter in Hr0 as [_ Hr0].
    apply list_elem_of_fmap. exists r.2. split; [done|].
    apply list_elem_of_fmap. by exists r.
Qed.

Lemma waits_step ns (s : state) a p :
  Index.stuck ns s -> Index.waits p s -> Index.waits p (step s a).
Proof.
  intros (Hs & Hf & Hn) Hw. destruct a as [| |o|i res|]; simpl.
  - unfold Index.connect, Index.new_promise. simpl.
    rewrite decide_True by done. simpl. by apply settle_fresh_waits.
  - unfold Index.disconnect, Index.new_promise. simpl.
    rewrite decide_True by (rewrite Hs; discriminate). simpl.
    by apply settle_fresh_waits.
  - unfold Index.request.
    rewrite decide_False by (rewrite Hs; discriminate).
    rewrite decide_True by done. simpl.
    destruct Hw as (Hp & Hd & Hj & Hr). split_and!; simpl; try done.
    by apply lookup_app_l_Some.
  - unfold Index.answer. by rewrite Hf.
  - unfold Index.run_job. destruct (Index.jobs s) as [|[q o] js] eqn:Hjobs;
      [done|].
    destruct Hw as (Hp & Hd & Hj & Hr). rewrite Hjobs in Hj. simpl in Hj.
    apply not_elem_of_cons in Hj as [Hq Hj].
    destruct (dispatch_fields q o (Index.set_jobs s js))
      as (_ & _ & _ & Hr' & Hj' & Hd' & _).
    unfold Index.waits. rewrite Hr', Hj', Hd'. simpl. split_and!; try done.
    + unfold Index.dispatch.
      destruct (write_writes_only q
                  (Index.Dispatch (length (Index.dispatched (Index.set_jobs s js))))
                  (Index.set_dispatched (Index.set_jobs s js)
                     (Index.dispatched (Index.set_jobs s js) ++ [(q, o)])))
        as (_ & _ & _ & F).
      rewrite F; [done|]. by intros ->%list_elem_of_singleton.
    + rewrite fmap_app, elem_of_app. simpl. rewrite list_elem_of_singleton.
      by intros [?|?].
Qed.

Lemma waits_run ns (s : state) acts p :
  Index.stuck ns s -> Index.waits p s -> Index.waits p (run s acts).
Proof.
  intros Hs Hw. induction acts as [|a acts IH] using rev_ind; [done|].
  rewrite run_snoc. eapply waits_step; [by apply stuck_run | done].
Qed.

(** X19. When [ensureTypes] throws, [connect] has already set the status
    to 1 and nothing sets it back.  The promise of that [connect] is
    rejected with the error; from then on, whatever is called, the adapter
    is never called and no event is emitted, every [connect] is rejected
    with 'Connection is in progress.', every [disconnect] with 'Instance
    has not been connected.', and a request is never dispatched: its
    promise stays pending for ever. *)
Theorem ensureTypes_failure_blocks_the_instance
    (acts0 : list (@Index.action request_options)) (e : error) :
  let s0 := run Index.fresh acts0 in
  Index.status s0 = 0 -> ensureTypes (Index.notes s0) = Some e ->
  Index.promises (connect s0).1 !! (connect s0).2
  = Some (Some (Index.Failure e)) /\
  forall acts,
    let s := run (connect s0).1 acts in
    Index.status s = 1 /\ Index.in_flight s = [] /\
    Index.notes s = Index.notes s0 /\
    Index.promises (connect s).1 !! (connect s).2
    = Some (Some (Index.Failure (Error "Connection is in progress."))) /\
    Index.promises (Index.disconnect s).1 !! (Index.disconnect s).2
    = Some (Some (Index.Failure (Error "Instance has not been connected."))) /\
    forall o acts',
      let s' := run (request o s).1 acts' in
      Index.promises s' !! (request o s).2 = Some None /\
      (request o s).2 ∉ (Index.dispatched s').*1.
Proof.
  intros s0 Hs Hen.
  pose proof (run_coherent Index.fresh acts0 fresh_coherent) as Hco.
  fold s0 in Hco.
  assert (Hfl : Index.in_flight s0 = []).
  { apply coherent_idle; [done|]. by rewrite Hs. }
  assert (Hc : connect s0 =
               (Index.settle (length (Index.promises s0)) (Index.Failure e)
                  (Index.set_status
                     (Index.set_promises s0 (Index.promises s0 ++ [None]))
                     Index.started),
                length (Index.promises s0))).
  { unfold Index.connect, Index.new_promise. simpl. rewrite Hs. simpl.
    by rewrite Hen. }
  assert (Hstuck : Index.stuck (Index.notes s0) (connect s0).1).
  { rewrite Hc. simpl.
    destruct (settle_fields (length (Index.promises s0)) (Index.Failure e)
                (Index.set_status
                   (Index.set_promises s0 (Index.promises s0 ++ [None]))
                   Index.started)) as (H1 & H2 & _ & _ & H3).
    split_and!; [by rewrite H1 | by rewrite H2 | by rewrite H3]. }
  split.
  { rewrite Hc. simpl. by apply fresh_settled. }
  intros acts s.
  pose proof (stuck_run _ _ acts Hstuck) as (Hs1 & Hf1 & Hn1). fold s in Hs1, Hf1, Hn1.
  assert (Hk : Index.known s).
  { assert (Hs' : s = run Index.fresh (acts0 ++ Index.CallConnect :: acts)).
    { unfold s, Index.run. by rewrite foldl_app. }
    rewrite Hs'. apply run_known. }
  split; [done|]. split; [done|]. split; [done|]. split; [|split].
  - unfold Index.connect, Index.new_promise. simpl.
    rewrite decide_True by done. simpl. by apply fresh_settled.
  - unfold Index.disconnect, Index.new_promise. simpl.
    rewrite decide_True by (rewrite Hs1; discriminate). simpl.
    by apply fresh_settled.
  - intros o acts' s'.
    assert (Hr : request o s =
                 (Index.set_listeners
                    (Index.set_promises s (Index.promises s ++ [None]))
                    (Index.listeners s ++
                     [(Index.EvFailure, Index.RejectFailed (length (Index.promises s)));
                      (Index.EvConnect,
                       Index.ResolveDispatch (length (Index.promises s)) o)]),
                  length (Index.promises s))).
    { unfold Index.request.
      rewrite decide_False by (rewrite Hs1; discriminate).
      by rewrite decide_True by done. }
    subst s'. rewrite Hr. cbn [fst snd].
    set (sr := Index.set_listeners _ _).
    assert (Hsr : Index.stuck (Index.notes s0) sr) by done.
    assert (Hw : Index.waits (length (Index.promises s)) sr).
    { assert (Hlt : forall x, x ∈ Index.mentioned s ->
                              x <> length (Index.promises s)).
      { intros x Hx. apply (known_lt _ _ Hk) in Hx. lia. }
      split_and!; simpl.
      - rewrite lookup_app_r by lia. by rewrite Nat.sub_diag.
      - intros Hin. eapply Hlt; [|done]. apply mentioned_elem. auto.
      - intros Hin. eapply Hlt; [|done]. apply mentioned_elem. auto.
      - intros Hin. eapply Hlt; [|done]. apply mentioned_elem. auto 10. }
    by destruct (waits_run _ _ acts' _ Hsr Hw) as (? & ? & _).
Qed.

(** *** No request is dispatched twice *)

Lemma NoDup_submseteq_inv {A} (l k : list A) : l ⊆+ k -> NoDup k -> NoDup l.
Proof.
  intros [k' Hk]%submseteq_Permutation Hn. rewrite Hk in Hn.
  by apply NoDup_app in Hn as [? _].
Qed.

Lemma writes_only_to_dispatch T (s s' : state) :
  Index.writes_only T s s' -> Index.to_dispatch s' = Index.to_dispatch s.
Proof.
  intros Hw. apply writes_only_fields in Hw as (_ & _ & Hl & Hr & Hj & Hd & _).
  unfold Index.to_dispatch. by rewrite Hl, Hr, Hj, Hd.
Qed.

Lemma settle_to_dispatch p v (s : state) :
  Index.to_dispatch (Index.settle p v s) ⊆+ Index.to_dispatch s.
Proof.
  destruct (settle_shape p v s) as [[_ ->] | (_ & _ & Hw)]; [done|].
  rewrite (writes_only_to_dispatch _ _ _ Hw). unfold Index.to_dispatch.
  cbn [Index.dispatched Index.jobs Index.reactions Index.listeners
       Index.set_jobs Index.set_reactions].
  set (mine := filter (fun r => r.1 = p) (Index.reactions s)).
  set (rest := filter (fun r => r.1 <> p) (Index.reactions s)).
  assert (Hperm : mine ++ rest ≡ₚ Index.reactions s)
    by apply filter_app_complement.
  rewrite <- Hperm. destruct v; rewrite !fmap_app; solve_submseteq.
Qed.

Lemma dispatches_of_promises
    (ls : list (Index.event_name * @Index.listener request_options)) :
  (Index.dispatches_of ls.*2).*1 = omap Index.listener_promise ls.
Proof.
  unfold Index.dispatches_of.
  induction ls as [|[name [p|p o]] ls IH]; csimpl; [done|done|].
  by f_equal.
Qed.

Lemma emit_to_dispatch name (s : state) :
  Index.to_dispatch (Index.emit name s) ≡ₚ Index.to_dispatch s.
Proof.
  pose proof (emit_shape name s) as Hw. cbn zeta in Hw.
  rewrite (writes_only_to_dispatch _ _ _ Hw). unfold Index.to_dispatch.
  cbn [Index.dispatched Index.jobs Index.reactions Index.listeners
       Index.set_dispatched Index.add_note Index.set_listeners].
  set (called := filter (fun l => l.1 = name) (Index.listeners s)).
  set (rest := filter (fun l => l.1 <> name) (Index.listeners s)).
  assert (Hperm : called ++ rest ≡ₚ Index.listeners s)
    by apply filter_app_complement.
  rewrite <- Hperm, omap_app, fmap_app, dispatches_of_promises.
  solve_Permutation.
Qed.

Lemma connect_to_dispatch (s : state) :
  Index.to_dispatch (connect s).1 ⊆+ Index.to_dispatch s.
Proof.
  unfold Index.connect, Index.new_promise.
  repeat case_decide; cbn [fst]; try (etrans; [apply settle_to_dispatch|done]).
  destruct (ensureTypes _); cbn [fst]; [|done].
  etrans; [apply settle_to_dispatch|done].
Qed.

Lemma disconnect_to_dispatch (s : state) :
  Index.to_dispatch (Index.disconnect s).1 ⊆+ Index.to_dispatch s.
Proof.
  unfold Index.disconnect, Index.new_promise.
  case_decide; cbn [fst]; [|done].
  etrans; [apply settle_to_dispatch|done].
Qed.

Lemma answer_to_dispatch i res (s : state) :
  Index.to_dispatch (Index.answer i res s) ⊆+ Index.to_dispatch s.
Proof.
  unfold Index.answer.
  destruct (Index.in_flight s !! i) as [[m p]|]; [|done].
  destruct m, res;
    (etrans; [apply settle_to_dispatch|]);
    (etrans; [apply Permutation_submseteq, emit_to_dispatch|]); done.
Qed.

Lemma run_job_to_dispatch (s : state) :
  Index.to_dispatch (Index.run_job s) ≡ₚ Index.to_dispatch s.
Proof.
  unfold Index.run_job. destruct (Index.jobs s) as [|[q o] js] eqn:Hj; [done|].
  unfold Index.dispatch.
  rewrite (writes_only_to_dispatch _ _ _
             (write_writes_only q _ (Index.set_dispatched _ _))).
  unfold Index.to_dispatch. simpl. rewrite Hj, fmap_app. simpl.
  solve_Permutation.
Qed.

Lemma request_to_dispatch o (s : state) :
  Index.to_dispatch (request o s).1
  ⊆+ Index.to_dispatch s ++ [(request o s).2].
Proof.
  unfold Index.request. case_decide.
  { pose proof (connect_to_dispatch s) as Hc.
    destruct (connect s) as [s1 p]. cbn [fst] in Hc.
    unfold Index.then_dispatch, Index.new_promise.
    set (s2 := Index.set_promises s1 (Index.promises s1 ++ [None])).
    set (q := length (Index.promises s1)).
    assert (H2 : Index.to_dispatch s2 = Index.to_dispatch s1) by done.
    assert (Hadd : forall l, l ≡ₚ Index.to_dispatch s1 ++ [q] ->
                             l ⊆+ Index.to_dispatch s ++ [q]).
    { intros l ->. by apply submseteq_skips_r. }
    destruct (Index.promises s2 !! p) as [[[| |e]|]|]; cbn [fst snd].
    - apply Hadd. unfold Index.to_dispatch. simpl. rewrite fmap_app. simpl.
      solve_Permutation.
    - apply Hadd. unfold Index.to_dispatch. simpl. rewrite fmap_app. simpl.
      solve_Permutation.
    - rewrite (writes_only_to_dispatch _ _ _ (write_writes_only q _ s2)), H2.
      by apply submseteq_inserts_r.
    - apply Hadd. unfold Index.to_dispatch. simpl. rewrite !fmap_app. simpl.
      solve_Permutation.
    - apply Hadd. unfold Index.to_dispatch. simpl. rewrite !fmap_app. simpl.
      solve_Permutation. }
  case_decide; cbn [fst snd Index.new_promise].
  - unfold Index.to_dispatch. simpl. rewrite omap_app. simpl.
    by rewrite !app_assoc.
  - unfold Index.dispatch.
    rewrite (writes_only_to_dispatch _ _ _
               (write_writes_only _ _ (Index.set_dispatched _ _))).
    unfold Index.to_dispatch. simpl. rewrite fmap_app. simpl.
    apply Permutation_submseteq. solve_Permutation.
Qed.

Lemma request_promise_fresh o (s : state) :
  length (Index.promises s) <= (request o s).2.
Proof.
  unfold Index.request. case_decide.
  { pose proof (connect_length s) as Hl.
    destruct (connect s) as [s1 p]. cbn [fst] in Hl.
    unfold Index.then_dispatch, Index.new_promise.
    destruct (_ !! p) as [[[| |e]|]|]; cbn [snd]; lia. }
  case_decide; cbn [snd Index.new_promise]; lia.
Qed.

Lemma step_to_dispatch (s : state) a :
  Index.known s -> NoDup (Index.to_dispatch s) ->
  NoDup (Index.to_dispatch (step s a)).
Proof.
  intros Hk Hn. destruct a as [| |o|i res|]; simpl.
  - eapply NoDup_submseteq_inv; [apply connect_to_dispatch | done].
  - eapply NoDup_submseteq_inv; [apply disconnect_to_dispatch | done].
  - eapply NoDup_submseteq_inv; [apply request_to_dispatch|].
    apply NoDup_app. split; [done|]. split; [|apply NoDup_singleton].
    intros x Hx ->%list_elem_of_singleton.
    apply to_dispatch_mentioned, (known_lt _ _ Hk) in Hx.
    pose proof (request_promise_fresh o s). lia.
  - eapply NoDup_submseteq_inv; [apply answer_to_dispatch | done].
  - by rewrite run_job_to_dispatch.
Qed.

(** X20. No request is dispatched twice: the promises that calls of
    [dispatch] have resolved are distinct, whatever is called and however
    the adapter answers. *)
Theorem no_request_is_dispatched_twice
    (acts : list (@Index.action request_options)) :
  NoDup (Index.dispatched (run Index.fresh acts)).*1.
Proof.
  assert (Hn : NoDup (Index.to_dispatch (run Index.fresh acts))).
  { induction acts as [|a acts IH] using rev_ind; [constructor|].
    rewrite run_snoc. apply step_to_dispatch; [apply run_known | done]. }
  unfold Index.to_dispatch in Hn. by apply NoDup_app in Hn as [? _].
Qed.
End ConnectionFacts.

(** * The further properties on the schema of section 8 *)

(** X1 on a request that succeeds. *)
Lemma each_call_at_most_once_witness :
  let w := quiet_world in
  let rq := demo_request [P1; P2] in
  calls is_begin (trace (create w rq).1) <= 1 /\
  calls is_create (trace (create w rq).1) <= 1 /\
  calls is_commit (trace (create w rq).1) <= 1 /\
  calls is_abort (trace (create w rq).1) <= 1 /\
  calls is_emit (trace (create w rq).1) <= 1 /\
  (forall ev, head (trace (create w rq).1) = Some ev -> is_begin ev = true).
Proof.
  intros w rq.
  exact (each_call_at_most_once w rq _ _ (surjective_pairing (create w rq))).
Defined.

(** X2 on the call of [transaction.create] of a request that succeeds. *)
Lemma one_transaction_handle_witness :
  let w := quiet_world in
  let rq := demo_request [P1; P2] in
  exists ev t,
    ev ∈ trace (create w rq).1 /\ txn_of ev = Some t /\
    head (trace (create w rq).1) = Some (BeginTransaction (Fulfilled t)).
Proof.
  intros w rq.
  assert (Hkind : match trace (create w rq).1 !! 6 with
                  | Some (TxCreate _ _ _ _) => True
                  | _ => False
                  end) by (vm_compute; exact I).
  destruct (create w rq) as [c r] eqn:Hrun. simpl in *.
  destruct (trace c !! 6) as [ev|] eqn:H6; [|contradiction].
  destruct ev as [| | | | |t ty rs res| | |]; try contradiction.
  exists (TxCreate t ty rs res), t.
  assert (Hin : TxCreate t ty rs res ∈ trace c)
    by (by eapply list_elem_of_lookup_2).
  split; [exact Hin|]. split; [reflexivity|].
  exact (one_transaction_handle w rq c r _ t Hrun Hin eq_refl).
Defined.

(** X3 on a backend that rejects the commit. *)
Lemma failed_commit_is_aborted_witness :
  let w := failing_commit_world in
  let rq := demo_request [P1; P2] in
  exists t e,
    EndTransaction t None (Returns (Rejected e)) ∈ trace (create w rq).1 /\
    settle_outcome (Returns (@Rejected unit e)) = Err e /\
    exists pre res',
      (create w rq).2 = Err (rethrown e res') /\
      trace (create w rq).1
        = pre ++ [EndTransaction t None (Returns (Rejected e));
                  EndTransaction t (Some e) res'] /\
      Forall (fun ev => is_end ev = false /\ is_emit ev = false) pre.
Proof.
  intros w rq.
  assert (Hkind : match trace (create w rq).1 !! 8 with
                  | Some (EndTransaction _ None (Returns (Rejected _))) => True
                  | _ => False
                  end) by (vm_compute; exact I).
  destruct (create w rq) as [c r] eqn:Hrun. simpl in *.
  destruct (trace c !! 8) as [ev|] eqn:H8; [|contradiction].
  destruct ev as [| | | | | | |t [e1|] [[u|e]|e]|]; try contradiction.
  exists t, e.
  assert (Hin : EndTransaction t None (Returns (Rejected e)) ∈ trace c)
    by (by eapply list_elem_of_lookup_2).
  split; [exact Hin|]. split; [reflexivity|].
  exact (failed_commit_is_aborted w rq c r t (Returns (Rejected e)) e Hrun Hin
           eq_refl).
Defined.

(** X4 on a backend that returns the records without their keys. *)
Lemma created_record_without_key_aborts_witness :
  let w := keyless_backend_world in
  let rq := demo_request [P1; P2] in
  exists t ty rs created x pre e res',
    TxCreate t ty rs (Fulfilled created) ∈ trace (create w rq).1 /\
    last created = Some x /\ x !! @primaryKey demo_required = None /\
    (create w rq).2 = Err (rethrown e res') /\
    trace (create w rq).1
      = pre ++ [TxCreate t ty rs (Fulfilled created);
                EndTransaction t (Some e) res'] /\
    e = Error (@message demo_required "CreateRecordMissingID"
                 (language_of rq)).
Proof.
  intros w rq.
  assert (Hkind : match trace (create w rq).1 !! 6 with
                  | Some (TxCreate _ _ _ (Fulfilled created)) =>
                      match last created with
                      | Some x => x !! @primaryKey demo_required = None
                      | None => False
                      end
                  | _ => False
                  end) by (vm_compute; reflexivity).
  destruct (create w rq) as [c r] eqn:Hrun. simpl in *.
  destruct (trace c !! 6) as [ev|] eqn:H6; [|contradiction].
  destruct ev as [| | | | |t ty rs [created|]| | |]; try contradiction.
  destruct (last created) as [x|] eqn:Hlast; [|contradiction].
  assert (Hin : TxCreate t ty rs (Fulfilled created) ∈ trace c)
    by (by eapply list_elem_of_lookup_2).
  assert (Hx : x ∈ created).
  { apply last_Some in Hlast as [l' ->]. apply elem_of_app. right.
    by apply list_elem_of_singleton. }
  destruct (created_record_without_key_aborts w rq c r t ty rs created x
              Hrun Hin Hx Hkind) as (pre & e & res' & Hr & Htr & He).
  exists t, ty, rs, created, x, pre, e, res'.
  split; [exact Hin|]. split; [exact Hlast|]. split; [exact Hkind|].
  split; [exact Hr|]. split; [exact Htr|]. exact (He Hlast).
Defined.

(** X5 and X6 on a request that succeeds: two persons with the same
    pet. *)
Lemma success_returns_created_records_witness :
  let w := quiet_world in
  let rq := demo_request [P1; P2] in
  exists ctx t rs created ev,
    (create w rq).2 = Ok ctx /\
    created <> [] /\
    ctx = Context rq (Some t) (Some created) /\
    TxCreate t (type rq) rs (Fulfilled created) ∈ trace (create w rq).1 /\
    EndTransaction t None (Returns (Fulfilled ())) ∈ trace (create w rq).1 /\
    last (trace (create w rq).1) = Some (Emit ev) /\
    ev_create ev = (type rq, created).
Proof.
  intros w rq.
  assert (Hok : match (create w rq).2 with Ok _ => True | Err _ => False end)
    by (vm_compute; exact I).
  destruct (create w rq) as [c [ctx|e]] eqn:Hrun; [|contradiction].
  destruct (success_returns_created_records w rq c ctx Hrun)
    as (t & rs & created & ev & Hall).
  exists ctx, t, rs, created, ev. split; [reflexivity | exact Hall].
Defined.

Lemma updates_all_written_and_reported_witness :
  let w := quiet_world in
  let rq := demo_request [P1; P2] in
  exists ctx t ops ev us,
    (create w rq).2 = Ok ctx /\
    upd_get (updates (create w rq).1) "animal" = Some ops /\ ops <> [] /\
    TxUpdate t "animal" ops (Fulfilled ()) ∈ trace (create w rq).1 /\
    last (trace (create w rq).1) = Some (Emit ev) /\
    ev_update ev = Some us /\ upd_get us "animal" = Some ops.
Proof.
  intros w rq.
  assert (Hok : match (create w rq).2 with Ok _ => True | Err _ => False end)
    by (vm_compute; exact I).
  assert (Hops : match upd_get (updates (create w rq).1) "animal" with
                 | Some (_ :: _) => True
                 | _ => False
                 end) by (vm_compute; exact I).
  destruct (create w rq) as [c [ctx|e]] eqn:Hrun; [|contradiction].
  cbn [fst snd] in *.
  destruct (upd_get (updates c) "animal") as [[|op ops]|] eqn:Hget;
    try contradiction.
  destruct (updates_all_written_and_reported w rq c ctx Hrun)
    as (t & created & b & ev & _ & _ & _ & Hlast & Hall).
  destruct (Hall "animal" (op :: ops) Hget ltac:(discriminate))
    as (Hin & us & Hev & Hus).
  exists ctx, t, (op :: ops), ev, us.
  split; [reflexivity|]. split; [reflexivity|]. split; [discriminate|].
  split; [exact Hin|]. split; [exact Hlast|]. split; [exact Hev | exact Hus].
Defined.

(** X7 on an instance whose enforcement removes the field [nickname]
    from the record: the record handed to [transaction.create] is the
    payload record as the enforcement has left it. *)
Lemma create_keeps_payload_order_witness :
  let w := pruning_world in
  let rq := demo_request [P5] in
  exists t ty x' res,
    TxCreate t ty [x'] res ∈ trace (create w rq).1 /\
    x' !! "nickname" = None /\ x' !! "name" = P5 !! "name" /\
    in_payload_order w rq (trace (create w rq).1) [x'] /\
    length [x'] = 1.
Proof.
  intros w rq.
  assert (Hkind : match trace (create w rq).1 !! 4 with
                  | Some (TxCreate _ _ [x'] _) =>
                      x' !! "nickname" = None /\ x' !! "name" = P5 !! "name"
                  | _ => False
                  end) by (vm_compute; split; reflexivity).
  destruct (create w rq) as [c r] eqn:Hrun. simpl in *.
  destruct (trace c !! 4) as [ev|] eqn:H4; [|contradiction].
  destruct ev as [| | | | |t ty [|x' [|]] res| | |]; try contradiction.
  exists t, ty, x', res.
  assert (Hin : TxCreate t ty [x'] res ∈ trace c)
    by (by eapply list_elem_of_lookup_2).
  split; [exact Hin|]. split; [exact (proj1 Hkind)|].
  split; [exact (proj2 Hkind)|].
  exact (create_keeps_payload_order w rq c r t ty [x'] res Hrun Hin).
Defined.

(** X8 on a request whose second record fails enforcement. *)
Lemma enforce_failure_stops_the_batch_witness :
  let w := strict_world in
  let rq := demo_request [P1; P2] in
  exists ty x after e pre t res',
    Enforce ty x after (Some e) ∈ trace (create w rq).1 /\
    (create w rq).2 = Err (rethrown e res') /\
    trace (create w rq).1
      = pre ++ [Enforce ty x after (Some e);
                EndTransaction t (Some e) res'] /\
    head pre = Some (BeginTransaction (Fulfilled t)).
Proof.
  intros w rq.
  assert (Hkind : match trace (create w rq).1 !! 3 with
                  | Some (Enforce _ _ _ (Some _)) => True
                  | _ => False
                  end) by (vm_compute; exact I).
  destruct (create w rq) as [c r] eqn:Hrun. simpl in *.
  destruct (trace c !! 3) as [ev|] eqn:H3; [|contradiction].
  destruct ev as [| |ty x after [e|]| | | | | |]; try contradiction.
  assert (Hin : Enforce ty x after (Some e) ∈ trace c)
    by (by eapply list_elem_of_lookup_2).
  destruct (enforce_failure_stops_the_batch w rq c r ty x after e Hrun Hin)
    as (pre & t & res' & Hr & Htr & Hhd).
  exists ty, x, after, e, pre, t, res'.
  split; [exact Hin|]. split; [exact Hr|]. split; [exact Htr | exact Hhd].
Defined.

(** X9 on a backend that opens no transaction. *)
Lemma rejected_begin_is_the_only_call_witness :
  let w := closed_backend_world in
  let rq := demo_request [P4] in
  exists e,
    BeginTransaction (Rejected e) ∈ trace (create w rq).1 /\
    (create w rq).2 = Err e /\
    trace (create w rq).1 = [BeginTransaction (Rejected e)] /\
    payload_objects (create w rq).1 = Some (stripped w rq).
Proof.
  intros w rq.
  assert (Hkind : match trace (create w rq).1 !! 0 with
                  | Some (BeginTransaction (Rejected _)) => True
                  | _ => False
                  end) by (vm_compute; exact I).
  destruct (create w rq) as [c r] eqn:Hrun. simpl in *.
  destruct (trace c !! 0) as [ev|] eqn:H0; [|contradiction].
  destruct ev as [[t|e]| | | | | | | |]; try contradiction.
  assert (Hin : BeginTransaction (Rejected e) ∈ trace c)
    by (by eapply list_elem_of_lookup_2).
  exists e. split; [exact Hin|].
  exact (rejected_begin_is_the_only_call w rq c r e Hrun Hin).
Defined.

(** X10 on a request for a type that the instance does not have. *)
Lemma unknown_type_opens_and_aborts_witness :
  let w := quiet_world in
  let rq := Request (Some [P1]) "robot" (Some (Meta None)) in
  transforms w !! type rq = None /\
  payload rq = Some [P1] /\ meta rq = Some (Meta None) /\
  match adapter_beginTransaction w [] with
  | Fulfilled t =>
      exists msg res',
        (create w rq).2 = Err (rethrown (TypeError msg) res') /\
        trace (create w rq).1
        = [BeginTransaction (Fulfilled t);
           EndTransaction t (Some (TypeError msg)) res']
  | Rejected e =>
      (create w rq).2 = Err e /\
      trace (create w rq).1 = [BeginTransaction (Rejected e)]
  end.
Proof.
  intros w rq.
  assert (Htf : transforms w !! type rq = None) by reflexivity.
  split; [exact Htf|]. split; [reflexivity|]. split; [reflexivity|].
  exact (unknown_type_opens_and_aborts w rq _ _ P1 [] (Meta None) Htf
           eq_refl eq_refl (surjective_pairing (create w rq))).
Defined.

(** X11 on an instance whose link check refuses the first record: the
    second record is enforced and checked all the same. *)
Lemma rejected_link_check_fails_the_batch_witness :
  let w := dangling_world in
  let rq := demo_request [P1; P2] in
  exists x e e' t res',
    CheckLinks x (Returns (Rejected e)) ∈ trace (create w rq).1 /\
    (create w rq).2 = Err (rethrown e' res') /\
    last (trace (create w rq).1) = Some (EndTransaction t (Some e') res') /\
    Forall (fun ev => is_create ev = false /\ is_update ev = false /\
                      is_emit ev = false) (trace (create w rq).1).
Proof.
  intros w rq.
  assert (Hkind : match trace (create w rq).1 !! 2 with
                  | Some (CheckLinks _ (Returns (Rejected _))) => True
                  | _ => False
                  end) by (vm_compute; exact I).
  destruct (create w rq) as [c r] eqn:Hrun. simpl in *.
  destruct (trace c !! 2) as [ev|] eqn:H2; [|contradiction].
  destruct ev as [| | |x [[u|e]|e]| | | | |]; try contradiction.
  assert (Hin : CheckLinks x (Returns (Rejected e)) ∈ trace c)
    by (by eapply list_elem_of_lookup_2).
  destruct (rejected_link_check_fails_the_batch w rq c r x e Hrun Hin)
    as (e' & t & res' & Hr & Hlast & Hall & _).
  exists x, e, e', t, res'.
  split; [exact Hin|]. split; [exact Hr|]. split; [exact Hlast | exact Hall].
Defined.

(** X13 on a schema with a record type named [valueOf], and transforms
    for [toString], which is no record type: the constructor accepts the
    entry of [toString], adds the entry of [person] and none for
    [valueOf]. *)
Lemma constructor_completes_transforms_witness :
  demo_constructor (Index.Types odd_types) (Some odd_options)
  = Ok odd_instance /\
  Index.connectionStatus odd_instance = 0 /\
  (forall type,
     type ∈ (Index.transforms odd_instance).*1 ->
     Index.has_key (Index.recordTypes odd_instance) type = true) /\
  Index.get (Index.transforms odd_instance) "toString"
  = Some (Index.TransformArray None) /\
  Index.get (Index.transforms odd_instance) "person"
  = Some (Index.TransformArray None) /\
  Index.get (Index.transforms odd_instance) "valueOf" = None.
Proof.
  assert (Hc : demo_constructor (Index.Types odd_types) (Some odd_options)
               = Ok odd_instance) by reflexivity.
  split; [exact Hc|].
  destruct (constructor_completes_transforms tt (fun _ => None)
              (fun _ _ _ => Ok tt) [("create", "create")] (fun _ => None)
              _ _ _ Hc)
    as (_ & Hst & Hkeys & _ & _ & Hkept & Hnew & _).
  split; [exact Hst|]. split; [exact Hkeys|].
  split; [exact (Hkept "toString" _ eq_refl)|].
  split; [exact (Hnew "person" eq_refl) | exact (Hnew "valueOf" eq_refl)].
Defined.

(** X14 on that instance, with a backend that accepts everything. *)
Lemma known_type_reaches_its_records_witness :
  let w := Index.world_of demo_instance quiet_world in
  let rq := demo_request [P1] in
  demo_constructor (Index.Types demo_types) (Some demo_options)
  = Ok demo_instance /\
  type rq ∈ (Index.recordTypes demo_instance).*1 /\
  exists t x,
    BeginTransaction (Fulfilled t) ∈ trace (create w rq).1 /\
    head (stripped w rq) = Some x /\
    ((exists after ans,
        trace (create w rq).1 !! 1 = Some (Transform x after ans)) \/
     (exists after ans,
        trace (create w rq).1 !! 1 = Some (Enforce (type rq) x after ans))).
Proof.
  intros w rq.
  assert (Hc : demo_constructor (Index.Types demo_types) (Some demo_options)
               = Ok demo_instance) by reflexivity.
  assert (Hty : type rq ∈ (Index.recordTypes demo_instance).*1).
  { apply elem_of_cons. left. reflexivity. }
  split; [exact Hc|]. split; [exact Hty|].
  assert (Hkind : match trace (create w rq).1 !! 0 with
                  | Some (BeginTransaction (Fulfilled _)) => True
                  | _ => False
                  end) by (vm_compute; exact I).
  destruct (create w rq) as [c r] eqn:Hrun. cbn [fst snd] in *.
  destruct (trace c !! 0) as [ev|] eqn:H0; [|contradiction].
  destruct ev as [[t|e]| | | | | | | |]; try contradiction.
  assert (Hin : BeginTransaction (Fulfilled t) ∈ trace c)
    by (by eapply list_elem_of_lookup_2).
  destruct (known_type_reaches_its_records tt (fun _ => None)
              (fun _ _ _ => Ok tt) [("create", "create")] (fun _ => None)
              _ _ _ quiet_world rq c r t Hc Hty Hrun Hin)
    as (_ & x & Hx & Hsecond).
  exists t, x. split; [exact Hin|]. split; [exact Hx | exact Hsecond].
Defined.

(** X16 on an instance that is asked to disconnect while a request
    comes in, and whose adapter then fails to disconnect. *)
Lemma failed_disconnect_fails_waiting_requests_witness :
  Index.in_flight (Index.run types_fine Index.fresh disconnecting) !! 0
  = Some (Index.AdapterDisconnect, 1) /\
  (Index.EvFailure, Index.RejectFailed 2)
  ∈ Index.listeners (Index.run types_fine Index.fresh disconnecting) /\
  Index.promises (Index.run types_fine Index.fresh disconnecting) !! 2
  = Some None /\
  Index.status
    (Index.answer 0 (Some (Error "busy"))
       (Index.run types_fine Index.fresh disconnecting)) = 2 /\
  Index.promises
    (Index.answer 0 (Some (Error "busy"))
       (Index.run types_fine Index.fresh disconnecting)) !! 2
  = Some (Some (Index.Failure (Error "Connection failed."))) /\
  Index.dispatched
    (Index.answer 0 (Some (Error "busy"))
       (Index.run types_fine Index.fresh disconnecting))
  = Index.dispatched (Index.run types_fine Index.fresh disconnecting).
Proof.
  assert (H1 : Index.in_flight
                 (Index.run types_fine Index.fresh disconnecting) !! 0
               = Some (Index.AdapterDisconnect, 1))
    by (vm_compute; reflexivity).
  assert (H2 : (Index.EvFailure, Index.RejectFailed 2)
               ∈ Index.listeners
                   (Index.run types_fine Index.fresh disconnecting)).
  { assert (Hl : Index.listeners
                   (Index.run types_fine Index.fresh disconnecting)
                 = [(Index.EvFailure, Index.RejectFailed 2);
                    (Index.EvConnect, Index.ResolveDispatch 2 "find")])
      by (vm_compute; reflexivity).
    rewrite Hl. apply elem_of_cons. left. reflexivity. }
  assert (H3 : Index.promises
                 (Index.run types_fine Index.fresh disconnecting) !! 2
               = Some None) by (vm_compute; reflexivity).
  split; [exact H1|]. split; [exact H2|]. split; [exact H3|].
  exact (failed_disconnect_fails_waiting_requests types_fine disconnecting
           0 1 2 (Error "busy") H1 H2 H3).
Defined.

(** X17 on an instance whose first connection has failed, with a request
    waiting, and that connects again. *)
Lemma settled_request_is_dispatched_on_connect_witness :
  Index.in_flight reconnecting !! 0 = Some (Index.AdapterConnect, 2) /\
  (Index.EvConnect, Index.ResolveDispatch 1 "find")
  ∈ Index.listeners reconnecting /\
  Index.promises reconnecting !! 1
  = Some (Some (Index.Failure (Error "Connection failed."))) /\
  Index.status (Index.answer 0 None reconnecting) = 2 /\
  Index.promises (Index.answer 0 None reconnecting) !! 1
  = Some (Some (Index.Failure (Error "Connection failed."))) /\
  exists before after,
    Index.dispatched (Index.answer 0 None reconnecting)
    = Index.dispatched reconnecting ++ before ++ (1, "find") :: after.
Proof.
  assert (H1 : Index.in_flight reconnecting !! 0
               = Some (Index.AdapterConnect, 2)) by (vm_compute; reflexivity).
  assert (H2 : (Index.EvConnect, Index.ResolveDispatch 1 "find")
               ∈ Index.listeners reconnecting).
  { assert (Hl : Index.listeners reconnecting
                 = [(Index.EvConnect, Index.ResolveDispatch 1 "find")])
      by (vm_compute; reflexivity).
    rewrite Hl. apply elem_of_cons. left. reflexivity. }
  assert (H3 : Index.promises reconnecting !! 1
               = Some (Some (Index.Failure (Error "Connection failed."))))
    by (vm_compute; reflexivity).
  split; [exact H1|]. split; [exact H2|]. split; [exact H3|].
  exact (settled_request_is_dispatched_on_connect reconnecting 0 2 1 "find"
           (Index.Failure (Error "Connection failed.")) H1 H2 H3).
Defined.

(** X18 on a new instance. *)
Lemma request_connects_first_witness :
  Index.status (Index.run types_fine (@Index.fresh string) []) = 0 /\
  types_fine (Index.notes (Index.run types_fine (@Index.fresh string) []))
  = None /\
  Index.in_flight
    (Index.request types_fine "find"
       (Index.run types_fine Index.fresh [])).1
  = [(Index.AdapterConnect,
      length (Index.promises (Index.run types_fine (@Index.fresh string) [])))].
Proof.
  assert (H1 : Index.status (Index.run types_fine (@Index.fresh string) []) = 0)
    by reflexivity.
  assert (H2 : types_fine
                 (Index.notes (Index.run types_fine (@Index.fresh string) []))
               = None) by reflexivity.
  split; [exact H1|]. split; [exact H2|].
  exact (proj1 (request_connects_first types_fine [] "find" H1 H2)).
Defined.

(** X19 on a new instance whose record types [ensureTypes] refuses. *)
Lemma ensureTypes_failure_blocks_the_instance_witness :
  Index.status (Index.run types_broken (@Index.fresh string) []) = 0 /\
  types_broken
    (Index.notes (Index.run types_broken (@Index.fresh string) []))
  = Some (Error "bad link") /\
  Index.promises
    (Index.connect types_broken
       (Index.run types_broken (@Index.fresh string) [])).1
    !! (Index.connect types_broken
          (Index.run types_broken (@Index.fresh string) [])).2
  = Some (Some (Index.Failure (Error "bad link"))).
Proof.
  assert (H1 : Index.status (Index.run types_broken (@Index.fresh string) [])
               = 0) by reflexivity.
  assert (H2 : types_broken
                 (Index.notes (Index.run types_broken (@Index.fresh string) []))
               = Some (Error "bad link")) by reflexivity.
  split; [exact H1|]. split; [exact H2|].
  exact (proj1 (ensureTypes_failure_blocks_the_instance types_broken []
                  (Error "bad link") H1 H2)).
Defined.
